(** * Planar face discovery: a shallow embedding and its verified properties

    The development follows the TypeScript sources:
    - [geometry.ts]   : winding order, segment intersection, point in polygon,
                        polygon area;
    - [planar-face-tree.ts] : input validation, graph construction,
                        depth-first search, filament pruning, closed walks,
                        wedge detachment and cycle extraction;
    - [area-tree.ts]  : flattening of the cycle forest and the nesting tree.

    JavaScript [number]s are modelled by an interface [Num] with two
    instances: IEEE-754 binary64 (the semantics the program runs with) and
    exact rationals (the idealisation in which the algebraic laws of the
    geometry kernel hold).  Vertex names are array indices and are modelled
    by [Z].  Vertex records live in an arena (the [vertexStore]); a reference
    to a record is its index in the arena. *)

From Stdlib Require Import ZArith List Bool Lia Arith PeanoNat.
From Stdlib Require Import QArith Qfield Lqa Qabs.
From Stdlib Require Import Permutation Sorted.
From Stdlib Require Import SpecFloat.
From Stdlib Require String Ascii DecimalString DecimalZ.
Import ListNotations.

Set Implicit Arguments.
Set Warnings "-register-all".

(* ================================================================== *)
(** * JavaScript numbers *)
(* ================================================================== *)

(** The operations of [number] that the program uses.  [n_ltb], [n_leb] and
    [n_eqb] are [<], [<=] and [===]; [>] and [>=] are the same tests with the
    operands exchanged.  [n_truthy] is the coercion to boolean used by [||];
    [n_str_eqb a b] tells whether the template literals [`${a}`] and [`${b}`]
    are the same string. *)
Class Num : Type := {
  num : Type;
  n_of_Z : Z -> num;
  n_add : num -> num -> num;
  n_sub : num -> num -> num;
  n_mul : num -> num -> num;
  n_div : num -> num -> num;
  n_ltb : num -> num -> bool;
  n_leb : num -> num -> bool;
  n_eqb : num -> num -> bool;
  n_max : num -> num -> num;
  n_min : num -> num -> num;
  n_truthy : num -> bool;
  n_str_eqb : num -> num -> bool
}.

Declare Scope num_scope.
Delimit Scope num_scope with num.
Notation "a + b" := (n_add a b) : num_scope.
Notation "a - b" := (n_sub a b) : num_scope.
Notation "a * b" := (n_mul a b) : num_scope.
Notation "a / b" := (n_div a b) : num_scope.
Notation "a <? b" := (n_ltb a b) : num_scope.
Notation "a <=? b" := (n_leb a b) : num_scope.
Notation "a >? b" := (n_ltb b a) : num_scope.
Notation "a >=? b" := (n_leb b a) : num_scope.
Notation "a === b" := (n_eqb a b) (at level 70, no associativity) : num_scope.

(** ** IEEE-754 binary64 *)

Module F64.

Definition prec : Z := 53.
Definition emax : Z := 1024.

Definition of_Z (z : Z) : spec_float := binary_normalize prec emax z 0 false.

(** [Math.max]: NaN if an operand is NaN, [+0] is larger than [-0]. *)
Definition max (a b : spec_float) : spec_float :=
  match a, b with
  | S754_nan, _ | _, S754_nan => S754_nan
  | S754_zero sa, S754_zero sb => S754_zero (andb sa sb)
  | _, _ => if SFltb a b then b else a
  end.

(** [Math.min]: NaN if an operand is NaN, [-0] is smaller than [+0]. *)
Definition min (a b : spec_float) : spec_float :=
  match a, b with
  | S754_nan, _ | _, S754_nan => S754_nan
  | S754_zero sa, S754_zero sb => S754_zero (orb sa sb)
  | _, _ => if SFltb b a then b else a
  end.

(** A number is falsy when it is [0], [-0] or [NaN]. *)
Definition truthy (a : spec_float) : bool :=
  match a with
  | S754_zero _ | S754_nan => false
  | _ => true
  end.

(** [Number::toString] maps both zeros to ["0"], NaN to ["NaN"] and every
    other double to a string that determines it. *)
Definition str_eqb (a b : spec_float) : bool :=
  match a, b with
  | S754_zero _, S754_zero _ => true
  | S754_nan, S754_nan => true
  | S754_infinity sa, S754_infinity sb => Bool.eqb sa sb
  | S754_finite sa ma ea, S754_finite sb mb eb =>
      Bool.eqb sa sb && Pos.eqb ma mb && Z.eqb ea eb
  | _, _ => false
  end.

(** Equality up to the sign of zero. *)
Definition feq (a b : spec_float) : Prop :=
  match a, b with
  | S754_zero _, S754_zero _ => True
  | _, _ => a = b
  end.

#[export] Instance double : Num := {|
  num := spec_float;
  n_of_Z := of_Z;
  n_add := SFadd prec emax;
  n_sub := SFsub prec emax;
  n_mul := SFmul prec emax;
  n_div := SFdiv prec emax;
  n_ltb := SFltb;
  n_leb := SFleb;
  n_eqb := SFeqb;
  n_max := max;
  n_min := min;
  n_truthy := truthy;
  n_str_eqb := str_eqb
|}.

End F64.

(** ** Exact rational arithmetic *)

Module Exact.

Definition ltb (a b : Q) : bool := negb (Qle_bool b a).

#[export] Instance rational : Num := {|
  num := Q;
  n_of_Z := inject_Z;
  n_add := Qplus;
  n_sub := Qminus;
  n_mul := Qmult;
  n_div := Qdiv;
  n_ltb := ltb;
  n_leb := Qle_bool;
  n_eqb := Qeq_bool;
  n_max := fun a b => if ltb a b then b else a;
  n_min := fun a b => if ltb b a then b else a;
  n_truthy := fun a => negb (Qeq_bool a 0);
  n_str_eqb := Qeq_bool
|}.

End Exact.

(* ================================================================== *)
(** * Outcomes of a call *)
(* ================================================================== *)

(** A call returns a value, throws (a [TypeError] on [null]/[undefined], or
    the [Error] raised by [getAreaTree]), or is still running when the step
    budget of the model is used up. *)
Inductive outcome (A : Type) : Type :=
| Returned (a : A)
| Threw
| OutOfFuel.
Arguments Returned {A} a.
Arguments Threw {A}.
Arguments OutOfFuel {A}.

Definition obind {A B} (c : outcome A) (k : A -> outcome B) : outcome B :=
  match c with
  | Returned a => k a
  | Threw => Threw
  | OutOfFuel => OutOfFuel
  end.

(** An array element read: [undefined] when the index is out of range; the
    program then throws as soon as it touches the element. *)
Definition defined {A} (o : option A) : outcome A :=
  match o with
  | Some a => Returned a
  | None => Threw
  end.

(* ================================================================== *)
(** * geometry.ts *)
(* ================================================================== *)

Section Geometry.

Context {N : Num}.
Local Open Scope num_scope.

Definition Position : Type := (num * num)%type.
Definition InputNodes : Type := list Position.
Definition Segment : Type := (Position * Position)%type.

Inductive WindingOrder : Type := CW | CCW | COLINEAR.

Definition WindingOrder_eqb (a b : WindingOrder) : bool :=
  match a, b with
  | CW, CW | CCW, CCW | COLINEAR, COLINEAR => true
  | _, _ => false
  end.

(** [arr[ix + 1] ? arr[ix + 1] : arr[0]], read while visiting [arr[ix] = pt]. *)
Definition successor (arr : list Position) (ix : nat) (pt : Position) : Position :=
  match nth_error arr (S ix) with
  | Some q => q
  | None => hd pt arr
  end.

(** [Array.prototype.reduce] with the index passed to the callback. *)
Fixpoint reduce_ix {A B : Type} (f : B -> A -> nat -> B) (l : list A) (ix : nat)
         (acc : B) : B :=
  match l with
  | [] => acc
  | x :: l' => reduce_ix f l' (S ix) (f acc x ix)
  end.

Definition getPointPath (nodes : InputNodes) (edges : list Z)
  : list (option Position) :=
  let pts := firstn (length edges - 1) edges in
  map (fun p => if (p <? 0)%Z then None else nth_error nodes (Z.to_nat p)) pts.

Definition getLinePath (points : list Position) : list Segment :=
  reduce_ix (fun acc pt ix => acc ++ [(pt, successor points ix pt)]) points 0%nat [].

Definition winding_sum (points : list Position) : num :=
  reduce_ix (fun acc '(x1, y1) ix =>
               let '(x2, y2) := successor points ix (x1, y1) in
               acc + (x2 - x1) * (y2 + y1))
            points 0%nat (n_of_Z 0).

Definition determineWindingOrder (points : list Position) : WindingOrder :=
  let res := winding_sum points in
  if res === n_of_Z 0 then COLINEAR
  else if res >? n_of_Z 0 then CW else CCW.

Definition getMaxX (pos : list Position) : num :=
  fold_left (fun max p => if fst p >? max then fst p else max) pos (n_of_Z (-1)).

Definition onSegment (p q r : Position) : bool :=
  (fst q <=? n_max (fst p) (fst r)) &&
  (fst q >=? n_min (fst p) (fst r)) &&
  (snd q <=? n_max (snd p) (snd r)) &&
  (snd q >=? n_min (snd p) (snd r)).

Definition pointLiesOnPolygonBoundary (point : Position) (polygon : list Segment)
  : bool :=
  existsb (fun '(from, to) =>
             WindingOrder_eqb (determineWindingOrder [from; to; point]) COLINEAR
             && onSegment from point to)
          polygon.

Definition allPointsLieOnBoundary (a : list Position) (b : list Segment) : bool :=
  forallb (fun aPt => pointLiesOnPolygonBoundary aPt b) a.

Definition intersect (p1 q1 p2 q2 : Position) : bool :=
  let o1 := determineWindingOrder [p1; q1; p2] in
  let o2 := determineWindingOrder [p1; q1; q2] in
  let o3 := determineWindingOrder [p2; q2; p1] in
  let o4 := determineWindingOrder [p2; q2; q1] in
  if negb (WindingOrder_eqb o1 o2) && negb (WindingOrder_eqb o3 o4) then true
  else if WindingOrder_eqb o1 COLINEAR && onSegment p1 p2 q1 then true
  else if WindingOrder_eqb o2 COLINEAR && onSegment p1 q2 q1 then true
  else if WindingOrder_eqb o3 COLINEAR && onSegment p2 p1 q2 then true
  else if WindingOrder_eqb o4 COLINEAR && onSegment p2 q1 q2 then true
  else false.

(** The [do ... while (i != 0)] loop of [isInside]: [rest] holds
    [polygon[i..]], and [next = (i + 1) % polygon.length]. *)
Fixpoint isInside_loop (polygon : list Position) (p extreme : Position)
         (rest : list Position) (i count : nat) : bool :=
  match rest with
  | [] => Nat.eqb (count mod 2) 1
  | pi :: rest' =>
      let next := ((i + 1) mod (length polygon))%nat in
      let pn := nth next polygon pi in
      if intersect pi pn p extreme then
        if WindingOrder_eqb (determineWindingOrder [pi; p; pn]) COLINEAR
        then onSegment pi p pn
        else isInside_loop polygon p extreme rest' (S i) (S count)
      else isInside_loop polygon p extreme rest' (S i) count
  end.

(** With an empty polygon the first iteration reads [polygon[0]], which is
    [undefined], and [intersect] throws on it. *)
Definition isInside (nodes : InputNodes) (p : Position) (polygon : list Position)
  : outcome bool :=
  let extreme := (getMaxX polygon + n_of_Z 10, snd p) in
  match polygon with
  | [] => Threw
  | _ => Returned (isInside_loop polygon p extreme polygon 0 0)
  end.

Definition areaUnderLineSegment (seg : Segment) : num :=
  let '((x1, y1), (x2, y2)) := seg in
  let averageHeight := (y1 + y2) / n_of_Z 2 in
  let width := x2 - x1 in
  averageHeight * width.

Definition irregularPolygonArea (lineSegments : list Segment) (windingOrder : WindingOrder)
  : num :=
  match windingOrder with
  | COLINEAR => n_of_Z 0
  | CW => fold_left (fun acc seg => acc + areaUnderLineSegment seg) lineSegments (n_of_Z 0)
  | CCW => fold_left (fun acc seg => acc - areaUnderLineSegment seg) lineSegments (n_of_Z 0)
  end.

(** Every element of an array that is destructured must be defined. *)
Fixpoint all_defined {A} (l : list (option A)) : outcome (list A) :=
  match l with
  | [] => Returned []
  | None :: _ => Threw
  | Some a :: l' => obind (all_defined l') (fun r => Returned (a :: r))
  end.

Record InputPolygon : Type := { edges : list Z }.

(** [determineWindingOrder] destructures every point of the path, so the
    call throws when some index of the polygon is not an index of [nodes]. *)
Definition getPolygonArea (nodes : InputNodes) (polygon : InputPolygon) : outcome num :=
  obind (all_defined (getPointPath nodes (edges polygon))) (fun pointPath =>
  let windingOrder := determineWindingOrder pointPath in
  let linePath := getLinePath pointPath in
  let a := irregularPolygonArea linePath windingOrder in
  Returned (if n_truthy a then a else n_of_Z 0)).

End Geometry.

(* ================================================================== *)
(** * planar-face-tree.ts: input validation *)
(* ================================================================== *)

Inductive DiscoveryErrorCode : Type :=
| INVALID_COORDINATE_SYSTEM
| EDGE_ENDPOINT_OUT_OF_BOUNDS
| VERTICES_HAVE_SAME_POSITION
| DUPLICATE_EDGE_FOUND
| GRAPH_EMPTY.

Definition InputEdge : Type := (Z * Z)%type.
Definition InputEdges : Type := list InputEdge.

(** ** Keys of edges: the template literal [`${edge[0]}->${edge[1]}`] *)

Module Key.
Import String Ascii.
Local Open Scope string_scope.

(** A name is an integer array index; its string is its decimal numeral. *)
Definition of_name (z : Z) : string :=
  DecimalString.NilEmpty.string_of_int (Z.to_int z).

Definition of_edge (e : InputEdge) : string :=
  of_name (fst e) ++ "->" ++ of_name (snd e).

(** [Set<string>]: [has] and [add] (insertion order, no repetition). *)
Definition has (keys : list string) (k : string) : bool :=
  existsb (String.eqb k) keys.

Definition add (keys : list string) (k : string) : list string :=
  if has keys k then keys else keys ++ [k].

(** No character of the string is [c]. *)
Fixpoint free_of (c : ascii) (s : string) : Prop :=
  match s with
  | EmptyString => True
  | String a s' => a <> c /\ free_of c s'
  end.

End Key.

Section Validation.

Context {N : Num}.
Local Open Scope num_scope.

(** The keys of positions, [`${position[0]}->${position[1]}`], are compared
    through [n_str_eqb]: two keys are the same string exactly when both
    coordinates print alike.  The set of position keys is represented by
    the positions whose keys were added. *)
Definition position_key_eqb (p q : Position) : bool :=
  n_str_eqb (fst p) (fst q) && n_str_eqb (snd p) (snd q).

Definition posKeys_has (posKeys : list Position) (position : Position) : bool :=
  existsb (position_key_eqb position) posKeys.

(** The loop over [positions], from index [j] on. *)
Fixpoint validate_positions (positions : list Position) (posKeys : list Position)
  : option DiscoveryErrorCode :=
  match positions with
  | [] => None
  | position :: rest =>
      if posKeys_has posKeys position then Some VERTICES_HAVE_SAME_POSITION
      else
        let posKeys := posKeys ++ [position] in
        if (fst position <? n_of_Z 0) || (snd position <? n_of_Z 0)
        then Some INVALID_COORDINATE_SYSTEM
        else validate_positions rest posKeys
  end.

(** The loop over [edges], from index [i] on. *)
Fixpoint validate_edges (maxNodeValue : Z) (edges : InputEdges)
         (edgeKeys : list String.string) : option DiscoveryErrorCode :=
  match edges with
  | [] => None
  | edge :: rest =>
      let key := Key.of_edge edge in
      if Key.has edgeKeys key then Some DUPLICATE_EDGE_FOUND
      else
        let edgeKeys := Key.add edgeKeys key in
        if (fst edge <? 0)%Z || (fst edge >? maxNodeValue)%Z ||
           (snd edge <? 0)%Z || (snd edge >? maxNodeValue)%Z
        then Some EDGE_ENDPOINT_OUT_OF_BOUNDS
        else validate_edges maxNodeValue rest edgeKeys
  end.

(** [validateInputs] returns the reason of the [DiscoveryError], or [None]
    for [null]. *)
Definition validateInputs (positions : InputNodes) (edges : InputEdges)
  : option DiscoveryErrorCode :=
  if (length positions =? 0)%nat || (length edges =? 0)%nat then Some GRAPH_EMPTY
  else
    match validate_positions positions [] with
    | Some e => Some e
    | None => validate_edges (Z.of_nat (length positions) - 1) edges []
    end.

End Validation.

(* ================================================================== *)
(** * planar-face-tree.ts: the graph model *)
(* ================================================================== *)

(** [CycleTree]: a cycle of names and the trees nested in it. *)
Inductive CycleTree : Type :=
| Build_CycleTree (cycle : list Z) (children : list CycleTree).

Definition cycle (t : CycleTree) : list Z :=
  match t with Build_CycleTree c _ => c end.
Definition children (t : CycleTree) : list CycleTree :=
  match t with Build_CycleTree _ ch => ch end.

Definition CycleTreeForest : Type := list CycleTree.

Definition isEmpty (t : CycleTree) : bool :=
  (length (cycle t) =? 0)%nat && (length (children t) =? 0)%nat.

(** The unwrap rule used at the end of [extractBasis] and in the short-walk
    branch of [extractCycleFromClosedWalk]. *)
Definition unwrap (tree : CycleTree) : CycleTree :=
  if (length (cycle tree) =? 0)%nat && (length (children tree) =? 1)%nat then
    match last (map Some (children tree)) None with
    | Some child => Build_CycleTree (cycle child) (children child)
    | None => tree
    end
  else tree.

Inductive DiscoveryOutput : Type :=
| RESULT (forest : CycleTreeForest)
| ERROR (reason : DiscoveryErrorCode).

(** [Set<T>] over references or indices: insertion order, no repetition. *)
Module NatSet.
Definition has (l : list nat) (x : nat) : bool := existsb (Nat.eqb x) l.
Definition add (l : list nat) (x : nat) : list nat := if has l x then l else l ++ [x].
Definition delete (l : list nat) (x : nat) : list nat :=
  filter (fun y => negb (Nat.eqb x y)) l.
End NatSet.

Section Engine.

Context {N : Num}.
Local Open Scope num_scope.

(** A [Vertex] record.  [adjacent] holds references to records, that is
    indices of the arena; [visited] is 0, 1 or 2. *)
Record Vertex : Type := {
  name : Z;
  position : Position;
  adjacent : list nat;
  visited : nat
}.

(** The arena of all records ever created by a [PlanarFaceTree] instance:
    its [vertexStore].  Every [new Vertex] is pushed to it. *)
Definition VertexStore : Type := list Vertex.

Definition no_vertex : Vertex :=
  {| name := 0; position := (n_of_Z 0, n_of_Z 0); adjacent := []; visited := 0 |}.

Definition deref (s : VertexStore) (v : nat) : Vertex := nth v s no_vertex.

Fixpoint update (s : VertexStore) (v : nat) (f : Vertex -> Vertex) : VertexStore :=
  match s, v with
  | [], _ => []
  | x :: s', O => f x :: s'
  | x :: s', S v' => x :: update s' v' f
  end.

Definition with_adjacent (l : list nat) (x : Vertex) : Vertex :=
  {| name := name x; position := position x; adjacent := l; visited := visited x |}.

Definition with_visited (b : nat) (x : Vertex) : Vertex :=
  {| name := name x; position := position x; adjacent := adjacent x; visited := b |}.

Definition adj (s : VertexStore) (v : nat) : list nat := adjacent (deref s v).

(** [a.adjacent.delete(b)] and [a.adjacent.add(b)]. *)
Definition adjacent_delete (a b : nat) (s : VertexStore) : VertexStore :=
  update s a (fun x => with_adjacent (NatSet.delete (adjacent x) b) x).

Definition adjacent_add (a b : nat) (s : VertexStore) : VertexStore :=
  update s a (fun x => with_adjacent (NatSet.add (adjacent x) b) x).

Definition set_visited (v : nat) (b : nat) (s : VertexStore) : VertexStore :=
  update s v (with_visited b).

(** ** Computations over the arena *)

Definition M (A : Type) : Type := VertexStore -> outcome (A * VertexStore).

Definition ret {A} (a : A) : M A := fun s => Returned (a, s).
Definition throw {A} : M A := fun _ => Threw.
Definition out_of_fuel {A} : M A := fun _ => OutOfFuel.
Definition mbind {A B} (c : M A) (k : A -> M B) : M B :=
  fun s => match c s with
           | Returned (a, s') => k a s'
           | Threw => Threw
           | OutOfFuel => OutOfFuel
           end.
Definition get : M VertexStore := fun s => Returned (s, s).
Definition modify (f : VertexStore -> VertexStore) : M unit :=
  fun s => Returned (tt, f s).
Definition lift {A} (o : outcome A) : M A :=
  fun s => match o with
           | Returned a => Returned (a, s)
           | Threw => Threw
           | OutOfFuel => OutOfFuel
           end.

Notation "x <- c1 ;; c2" := (mbind c1 (fun x => c2))
  (at level 61, c1 at next level, right associativity).
Notation "' pat <- c1 ;; c2" := (mbind c1 (fun x => match x with pat => c2 end))
  (at level 61, pat pattern, c1 at next level, right associativity).
Notation "c1 ;; c2" := (mbind c1 (fun _ => c2))
  (at level 61, right associativity).

(** [forEach] with an effectful body. *)
Fixpoint forEach {A} (l : list A) (body : A -> M unit) : M unit :=
  match l with
  | [] => ret tt
  | x :: l' => body x ;; forEach l' body
  end.

(** [new Vertex(name, position)] followed by [vertexStore.push]. *)
Definition new_vertex (nm : Z) (pos : Position) : M nat :=
  fun s => Returned (length s,
                     s ++ [{| name := nm; position := pos; adjacent := []; visited := 0 |}]).

(** ** depthFirstSearch *)

(** The stack is kept with its top first.  The inner [for] loop finds the
    first adjacent record that is unvisited; the vertex is finished when
    there is none. *)
Fixpoint depthFirstSearch_loop (fuel : nat) (vStack : list nat) (component : list nat)
  : M (list nat) :=
  match fuel with
  | O => out_of_fuel
  | S fuel' =>
      match vStack with
      | [] => ret component
      | vertex :: below =>
          modify (set_visited vertex 1) ;;
          s <- get ;;
          match find (fun a => (visited (deref s a) =? 0)%nat) (adj s vertex) with
          | Some adjacent => depthFirstSearch_loop fuel' (adjacent :: vStack) component
          | None =>
              modify (set_visited vertex 2) ;;
              depthFirstSearch_loop fuel' below (component ++ [vertex])
          end
      end
  end.

Definition depthFirstSearch (fuel : nat) (vInitial : nat) (component : list nat)
  : M (list nat) :=
  depthFirstSearch_loop fuel [vInitial] component.

(** ** getClockwiseMost and getCounterClockwiseMost *)

Definition Dir : Type := (num * num)%type.

Definition incoming (s : VertexStore) (vPrev : option nat) (vCurr : nat) : Dir :=
  match vPrev with
  | Some p =>
      (fst (position (deref s vCurr)) - fst (position (deref s p)),
       snd (position (deref s vCurr)) - snd (position (deref s p)))
  | None => (n_of_Z 0, n_of_Z (-1))
  end.

Definition is_ref (o : option nat) (v : nat) : bool :=
  match o with
  | Some p => Nat.eqb v p
  | None => false
  end.

Definition WalkerState : Type := (option nat * Dir * bool)%type.

Definition getClockwiseMost_step (s : VertexStore) (vPrev : option nat) (vCurr : nat)
           (dCurr : Dir) (st : WalkerState) (vAdj : nat) : WalkerState :=
  let '(vNext, dNext, vCurrConvex) := st in
  if is_ref vPrev vAdj then st
  else
    let dAdj : Dir :=
      (fst (position (deref s vAdj)) - fst (position (deref s vCurr)),
       snd (position (deref s vAdj)) - snd (position (deref s vCurr))) in
    match vNext with
    | None =>
        (Some vAdj, dAdj, fst dAdj * snd dCurr <=? snd dAdj * fst dCurr)
    | Some _ =>
        if vCurrConvex then
          if (fst dCurr * snd dAdj <? snd dCurr * fst dAdj) ||
             (fst dNext * snd dAdj <? snd dNext * fst dAdj)
          then (Some vAdj, dAdj, fst dAdj * snd dCurr <=? snd dAdj * fst dCurr)
          else st
        else
          if (fst dCurr * snd dAdj <? snd dCurr * fst dAdj) &&
             (fst dNext * snd dAdj <? snd dNext * fst dAdj)
          then (Some vAdj, dAdj, fst dAdj * snd dCurr <? snd dAdj * fst dCurr)
          else st
    end.

(** The result is [null] ([None]) when no adjacent record other than
    [vPrev] exists. *)
Definition getClockwiseMost (s : VertexStore) (vPrev : option nat) (vCurr : nat)
  : option nat :=
  let dCurr := incoming s vPrev vCurr in
  fst (fst (fold_left (getClockwiseMost_step s vPrev vCurr dCurr) (adj s vCurr)
                      (None, (n_of_Z 0, n_of_Z 0), false))).

Definition getCounterClockwiseMost_step (s : VertexStore) (vPrev : option nat)
           (vCurr : nat) (dCurr : Dir) (st : WalkerState) (vAdj : nat) : WalkerState :=
  let '(vNext, dNext, vCurrConvex) := st in
  if is_ref vPrev vAdj then st
  else
    let dAdj : Dir :=
      (fst (position (deref s vAdj)) - fst (position (deref s vCurr)),
       snd (position (deref s vAdj)) - snd (position (deref s vCurr))) in
    match vNext with
    | None =>
        (Some vAdj, dAdj, fst dAdj * snd dCurr <=? snd dAdj * fst dCurr)
    | Some _ =>
        if vCurrConvex then
          if (fst dCurr * snd dAdj >? snd dCurr * fst dAdj) &&
             (fst dNext * snd dAdj >? snd dNext * fst dAdj)
          then (Some vAdj, dAdj, fst dAdj * snd dCurr <=? snd dAdj * fst dCurr)
          else st
        else
          if (fst dCurr * snd dAdj >? snd dCurr * fst dAdj) ||
             (fst dNext * snd dAdj >? snd dNext * fst dAdj)
          then (Some vAdj, dAdj, fst dAdj * snd dCurr <=? snd dAdj * fst dCurr)
          else st
    end.

Definition getCounterClockwiseMost (s : VertexStore) (vPrev : option nat) (vCurr : nat)
  : option nat :=
  let dCurr := incoming s vPrev vCurr in
  fst (fst (fold_left (getCounterClockwiseMost_step s vPrev vCurr dCurr) (adj s vCurr)
                      (None, (n_of_Z 0, n_of_Z 0), false))).

(** ** extractCycle *)

(** Both directions of the edge between [a] and [b] are deleted. *)
Definition unlink (a b : nat) : M unit :=
  modify (adjacent_delete a b) ;; modify (adjacent_delete b a).

(** [while (v1 !== vBranch && v1.adjacent.size === 1)]: returns the final
    [v1]. *)
Fixpoint extractCycle_forward (fuel : nat) (vBranch : option nat) (v1 : nat) : M nat :=
  match fuel with
  | O => out_of_fuel
  | S fuel' =>
      s <- get ;;
      if negb (is_ref vBranch v1) && (length (adj s v1) =? 1)%nat then
        match adj s v1 with
        | a :: _ => unlink v1 a ;; extractCycle_forward fuel' vBranch a
        | [] => throw
        end
      else ret v1
  end.

(** [while (v0 !== vBranch && v0.adjacent.size === 1)]. *)
Fixpoint extractCycle_backward (fuel : nat) (vBranch : nat) (v0 : nat) : M unit :=
  match fuel with
  | O => out_of_fuel
  | S fuel' =>
      s <- get ;;
      if negb (Nat.eqb v0 vBranch) && (length (adj s v0) =? 1)%nat then
        match adj s v0 with
        | v1 :: _ => unlink v0 v1 ;; extractCycle_backward fuel' vBranch v1
        | [] => throw
        end
      else ret tt
  end.

Definition extractCycle (fuel : nat) (closedWalk : list nat) : M (list Z) :=
  s <- get ;;
  let cycle := map (fun v => name (deref s v)) closedWalk in
  v0 <- lift (defined (nth_error closedWalk 0)) ;;
  v1 <- lift (defined (nth_error closedWalk 1)) ;;
  let vBranch := if (2 <? length (adj s v0))%nat then Some v0 else None in
  unlink v0 v1 ;;
  v1 <- extractCycle_forward fuel vBranch v1 ;;
  (if negb (Nat.eqb v1 v0) then extractCycle_backward fuel v1 v0 else ret tt) ;;
  ret cycle.

(** ** removeFilaments *)

(** [while (vertex.adjacent.size === 1)]: walk along the filament. *)
Fixpoint removeFilaments_walk (fuel : nat) (vertex : nat) : M unit :=
  match fuel with
  | O => out_of_fuel
  | S fuel' =>
      s <- get ;;
      if (length (adj s vertex) =? 1)%nat then
        match adj s vertex with
        | adjacent :: _ =>
            modify (adjacent_delete adjacent vertex) ;;
            modify (adjacent_delete vertex adjacent) ;;
            removeFilaments_walk fuel' adjacent
        | [] => throw
        end
      else ret tt
  end.

(** The vertices of a list that still have an adjacent record. *)
Definition remaining (s : VertexStore) (component : list nat) : list nat :=
  filter (fun v => (0 <? length (adj s v))%nat) component.

Definition removeFilaments (fuel : nat) (component : list nat) : M (list nat) :=
  s <- get ;;
  let endpoints := filter (fun v => (length (adj s v) =? 1)%nat) component in
  if (0 <? length endpoints)%nat then
    forEach endpoints (fun v =>
      s <- get ;;
      if (length (adj s v) =? 1)%nat then removeFilaments_walk fuel v else ret tt) ;;
    s <- get ;;
    ret (remaining s component)
  else ret component.

(** ** extractCycleFromClosedWalk: simplification of the walk *)

(** [Map<Vertex, number>], used through [get], [set] and [delete] only. *)
Definition Duplicates : Type := nat -> option nat.
Definition dup_empty : Duplicates := fun _ => None.
Definition dup_set (d : Duplicates) (v i : nat) : Duplicates :=
  fun x => if Nat.eqb x v then Some i else d x.
Definition dup_delete (d : Duplicates) (v : nat) : Duplicates :=
  fun x => if Nat.eqb x v then None else d x.

(** [duplicates.get(v) || null]: an index 0 would be taken for [null]. *)
Definition dup_get_or_null (d : Duplicates) (v : nat) : option nat :=
  match d v with
  | Some (S i) => Some (S i)
  | _ => None
  end.

(** [closedWalk.value.splice(start, deleteCount)]. *)
Definition splice {A} (l : list A) (start deleteCount : nat) : list A :=
  firstn start l ++ skipn (start + deleteCount) l.

(** [for (let j = iMin + 1; j < iMax; ++j)]: forget the records and the
    detachments strictly between the two occurrences. *)
Fixpoint forget_between (closedWalk : list nat) (j count : nat)
         (duplicates : Duplicates) (detachments : list nat)
  : Duplicates * list nat :=
  match count with
  | O => (duplicates, detachments)
  | S count' =>
      let duplicates :=
        match nth_error closedWalk j with
        | Some vertex => dup_delete duplicates vertex
        | None => duplicates
        end in
      forget_between closedWalk (S j) count' duplicates (NatSet.delete detachments j)
  end.

(** The [for (let i = 1; i < numClosedWalk - 1; ++i)] loop. *)
Fixpoint simplify_loop (fuel : nat) (closedWalk : list nat) (duplicates : Duplicates)
         (detachments : list nat) (i : nat) : outcome (list nat * list nat) :=
  match fuel with
  | O => OutOfFuel
  | S fuel' =>
      if (i <? length closedWalk - 1)%nat then
        obind (defined (nth_error closedWalk i)) (fun vertex =>
        match dup_get_or_null duplicates vertex with
        | None =>
            simplify_loop fuel' closedWalk (dup_set duplicates vertex i) detachments (S i)
        | Some iMin =>
            let iMax := i in
            let detachments := NatSet.add detachments iMin in
            let '(duplicates, detachments) :=
              forget_between closedWalk (iMin + 1) (iMax - (iMin + 1))
                             duplicates detachments in
            let startDeletionAt := (iMin + 1)%nat in
            let endDeletionAt := (iMax + 1)%nat in
            let deleteCount := (endDeletionAt - startDeletionAt)%nat in
            let closedWalk := splice closedWalk startDeletionAt deleteCount in
            simplify_loop fuel' closedWalk duplicates detachments (S iMin)
        end)
      else Returned (closedWalk, detachments)
  end.

(** ** extractBasis, extractCycleFromComponent, extractCycleFromClosedWalk *)

Section Recursion.

(** The recursive call of [extractBasis] on a detached component. *)
Variable extractBasis_rec : list nat -> M CycleTree.
Variable fuel : nat.

Definition in_wedge (s : VertexStore) (original minVertex maxVertex : nat)
           (dMin dMax : Dir) (isConvex : bool) (vertex : nat) : bool :=
  if Z.eqb (name (deref s vertex)) (name (deref s minVertex)) ||
     Z.eqb (name (deref s vertex)) (name (deref s maxVertex))
  then false
  else
    let dVer : Dir :=
      (fst (position (deref s vertex)) - fst (position (deref s original)),
       snd (position (deref s vertex)) - snd (position (deref s original))) in
    if isConvex then
      (fst dVer * snd dMin >? snd dVer * fst dMin) &&
      (fst dVer * snd dMax <? snd dVer * fst dMax)
    else
      (fst dVer * snd dMin >? snd dVer * fst dMin) ||
      (fst dVer * snd dMax <? snd dVer * fst dMax).

(** Move the edge between [original] and [vertex] to [clone]. *)
Definition reattach (original clone vertex : nat) : M unit :=
  modify (adjacent_delete original vertex) ;;
  modify (adjacent_delete vertex original) ;;
  modify (adjacent_add clone vertex) ;;
  modify (adjacent_add vertex clone).

(** The body of [detachments.forEach]: returns the children to push. *)
Definition detach (closedWalk : list nat) (i : nat) : M (list CycleTree) :=
  let numClosedWalk := length closedWalk in
  original <- lift (defined (nth_error closedWalk i)) ;;
  maxVertex <- lift (defined (nth_error closedWalk (i + 1))) ;;
  minVertex <- lift (defined (if (0 <? i)%nat then nth_error closedWalk (i - 1)
                              else nth_error closedWalk (numClosedWalk - 2))) ;;
  s <- get ;;
  let dMin : Dir :=
    (fst (position (deref s minVertex)) - fst (position (deref s original)),
     snd (position (deref s minVertex)) - snd (position (deref s original))) in
  let dMax : Dir :=
    (fst (position (deref s maxVertex)) - fst (position (deref s original)),
     snd (position (deref s maxVertex)) - snd (position (deref s original))) in
  let isConvex := fst dMax * snd dMin >=? snd dMax * fst dMin in
  let inWedge :=
    filter (in_wedge s original minVertex maxVertex dMin dMax isConvex)
           (adj s original) in
  if (0 <? length inWedge)%nat then
    clone <- new_vertex (name (deref s original)) (position (deref s original)) ;;
    forEach inWedge (reattach original clone) ;;
    component <- depthFirstSearch fuel clone [] ;;
    child <- extractBasis_rec component ;;
    ret [child]
  else ret [].

Fixpoint detach_all (closedWalk : list nat) (detachments : list nat)
         (children : list CycleTree) : M (list CycleTree) :=
  match detachments with
  | [] => ret children
  | i :: rest =>
      pushed <- detach closedWalk i ;;
      detach_all closedWalk rest (children ++ pushed)
  end.

Definition extractCycleFromClosedWalk (closedWalk : list nat) : M CycleTree :=
  '(closedWalk, detachments) <-
     lift (simplify_loop fuel closedWalk dup_empty [] 1) ;;
  let numClosedWalk := length closedWalk in
  if (3 <? numClosedWalk)%nat then
    let detachments := NatSet.add detachments 0 in
    children <- detach_all closedWalk detachments [] ;;
    cycle <- extractCycle fuel closedWalk ;;
    ret (Build_CycleTree cycle children)
  else
    original <- lift (defined (nth_error closedWalk 0)) ;;
    adjacent <- lift (defined (nth_error closedWalk 1)) ;;
    s <- get ;;
    clone <- new_vertex (name (deref s original)) (position (deref s original)) ;;
    reattach original clone adjacent ;;
    component <- depthFirstSearch fuel clone [] ;;
    child <- extractBasis_rec component ;;
    ret (unwrap (Build_CycleTree [] [child])).

(** The leftmost vertex of the component, the lowest one among these. *)
Definition leftmost (s : VertexStore) (component : list nat) (first : nat) : nat :=
  fold_left (fun minVertex vertex =>
               let minVertex :=
                 if fst (position (deref s vertex)) === fst (position (deref s minVertex))
                 then
                   if snd (position (deref s vertex)) <? snd (position (deref s minVertex))
                   then vertex else minVertex
                 else minVertex in
               if fst (position (deref s vertex)) <? fst (position (deref s minVertex))
               then vertex else minVertex)
            component first.

(** [while (vAdj !== vStart)].  When [vAdj] is [null] it is pushed and
    [getCounterClockwiseMost(vCurr, null)] reads [null.position]. *)
Fixpoint closedWalk_loop (n : nat) (vStart : nat) (closedWalk : list nat)
         (vCurr : nat) (vAdj : option nat) : M (list nat) :=
  match n with
  | O => out_of_fuel
  | S n' =>
      match vAdj with
      | None => throw
      | Some a =>
          if Nat.eqb a vStart then ret closedWalk
          else
            s <- get ;;
            let vNext := getCounterClockwiseMost s (Some vCurr) a in
            closedWalk_loop n' vStart (closedWalk ++ [a]) a vNext
      end
  end.

(** Returns the tree and the new value of [component.value]. *)
Definition extractCycleFromComponent (component : list nat)
  : M (CycleTree * list nat) :=
  match component with
  | [] => throw
  | first :: _ =>
      s <- get ;;
      let minVertex := leftmost s component first in
      let vStart := minVertex in
      let vAdj := getClockwiseMost s None vStart in
      closedWalk <- closedWalk_loop fuel vStart [vStart] vStart vAdj ;;
      let closedWalk := closedWalk ++ [vStart] in
      tree <- extractCycleFromClosedWalk closedWalk ;;
      s <- get ;;
      ret (tree, remaining s component)
  end.

(** [while (component.value.length > 0)]. *)
Fixpoint extractBasis_loop (n : nat) (component : list nat)
         (children : list CycleTree) : M (list CycleTree) :=
  match n with
  | O => out_of_fuel
  | S n' =>
      if (0 <? length component)%nat then
        component <- removeFilaments fuel component ;;
        if (0 <? length component)%nat then
          '(tree, component) <- extractCycleFromComponent component ;;
          extractBasis_loop n' component (children ++ [tree])
        else extractBasis_loop n' component children
      else ret children
  end.

End Recursion.

Fixpoint extractBasis (fuel : nat) (component : list nat) : M CycleTree :=
  match fuel with
  | O => out_of_fuel
  | S fuel' =>
      children <- extractBasis_loop (extractBasis fuel') fuel' fuel' component [] ;;
      ret (unwrap (Build_CycleTree [] children))
  end.

(** ** discover *)

(** The names of the [unique] map, in insertion order. *)
Fixpoint unique_names (edges : InputEdges) (seen : list Z) : list Z :=
  match edges with
  | [] => seen
  | edge :: rest =>
      let seen := if existsb (Z.eqb (fst edge)) seen then seen else seen ++ [fst edge] in
      let seen := if existsb (Z.eqb (snd edge)) seen then seen else seen ++ [snd edge] in
      unique_names rest seen
  end.

(** [unique.get(name)]: the record created for [name], which is the one
    pushed at offset [base] plus the rank of the name. *)
Fixpoint unique_get (names : list Z) (base : nat) (nm : Z) : option nat :=
  match names with
  | [] => None
  | n :: rest => if Z.eqb n nm then Some base else unique_get rest (S base) nm
  end.

Definition positions_at (positions : InputNodes) (nm : Z) : Position :=
  nth (Z.to_nat nm) positions (n_of_Z 0, n_of_Z 0).

Definition add_edge (names : list Z) (base : nat) (edge : InputEdge) : M unit :=
  match unique_get names base (fst edge), unique_get names base (snd edge) with
  | Some iter0, Some iter1 =>
      modify (adjacent_add iter0 iter1) ;; modify (adjacent_add iter1 iter0)
  | _, _ => ret tt
  end.

(** [this.vertexStore.forEach((vInitial) => ...)] building [components]. *)
Fixpoint find_components (fuel : nat) (vertices : list nat)
         (components : list (list nat)) : M (list (list nat)) :=
  match vertices with
  | [] => ret components
  | vInitial :: rest =>
      s <- get ;;
      if (visited (deref s vInitial) =? 0)%nat then
        component <- depthFirstSearch fuel vInitial [] ;;
        find_components fuel rest (components ++ [component])
      else find_components fuel rest components
  end.

Fixpoint extract_all (fuel : nat) (components : list (list nat))
         (forest : CycleTreeForest) : M CycleTreeForest :=
  match components with
  | [] => ret forest
  | component :: rest =>
      tree <- extractBasis fuel component ;;
      extract_all fuel rest (forest ++ [tree])
  end.

Definition discover (fuel : nat) (positions : InputNodes) (edges : InputEdges)
  : M DiscoveryOutput :=
  match validateInputs positions edges with
  | Some reason => ret (ERROR reason)
  | None =>
      s0 <- get ;;
      let names := unique_names edges [] in
      let base := length s0 in
      forEach names (fun nm => new_vertex nm (positions_at positions nm) ;; ret tt) ;;
      forEach edges (add_edge names base) ;;
      s <- get ;;
      components <- find_components fuel (seq 0 (length s)) [] ;;
      s <- get ;;
      forEach (seq 0 (length s)) (fun v => modify (set_visited v 0)) ;;
      forest <- extract_all fuel components [] ;;
      ret (RESULT (filter (fun t => negb (isEmpty t)) forest))
  end.

End Engine.


(* ================================================================== *)
(** * area-tree.ts *)
(* ================================================================== *)

Section AreaTree.

Context {N : Num}.
Local Open Scope num_scope.

(** [AreaTree = AreaTreeChild | AreaTreeRoot].  The [area] of a child is the
    pair [total], [withoutChildren]. *)
Inductive AreaTree : Type :=
| AreaTreeRoot (children : list AreaTree)
| AreaTreeChild (polygonIndex : nat) (total withoutChildren : num)
                (children : list AreaTree) (polygon : list Z).

Inductive AreaTreeType : Type := CHILD | ROOT.

Definition type (t : AreaTree) : AreaTreeType :=
  match t with
  | AreaTreeRoot _ => ROOT
  | AreaTreeChild _ _ _ _ _ => CHILD
  end.

Definition area_children (t : AreaTree) : list AreaTree :=
  match t with
  | AreaTreeRoot ch => ch
  | AreaTreeChild _ _ _ ch _ => ch
  end.

Record Polygon : Type := {
  id : nat;
  p_visited : bool;
  area : num;
  p_edges : list Z
}.

Definition mark_visited (p : Polygon) : Polygon :=
  {| id := id p; p_visited := true; area := area p; p_edges := p_edges p |}.

Fixpoint mark_visited_at (polygons : list Polygon) (i : nat) : list Polygon :=
  match polygons, i with
  | [], _ => []
  | p :: rest, O => mark_visited p :: rest
  | p :: rest, S i' => p :: mark_visited_at rest i'
  end.

(** [isChildArea].  Every polygon of the list went through [getPolygonArea]
    before, so the points of both paths are defined; the first point of the
    candidate is read from its path. *)
Definition isChildArea (childPolygon : Polygon) (parentIndex : nat)
           (polygons : list Polygon) (nodes : InputNodes) : outcome bool :=
  obind (defined (nth_error polygons parentIndex)) (fun parentPolygon =>
  obind (all_defined (getPointPath nodes (p_edges parentPolygon))) (fun parentPointPath =>
  obind (all_defined (getPointPath nodes (p_edges childPolygon)))
        (fun currentPolygonPointPath =>
  obind (defined (nth_error currentPolygonPointPath 0)) (fun pointOnCurrentPolygon =>
  obind (isInside nodes pointOnCurrentPolygon parentPointPath) (fun currentInsideParent =>
  let currentLiesCompletelyOnBoundaryOfParent :=
    allPointsLieOnBoundary currentPolygonPointPath (getLinePath parentPointPath) in
  Returned (currentInsideParent && negb currentLiesCompletelyOnBoundaryOfParent)))))).

(** [parent.children.push(newTree)] together with the decrement of
    [parent.area.withoutChildren] when the parent is a child node. *)
Definition adopt (parent newTree : AreaTree) (childArea : num) : AreaTree :=
  match parent with
  | AreaTreeRoot ch => AreaTreeRoot (ch ++ [newTree])
  | AreaTreeChild ix total without ch poly =>
      AreaTreeChild ix total (without - childArea) (ch ++ [newTree]) poly
  end.

(** [traverseAreas]: [todo] is [polygons.length - i], the number of indices
    the [for] loop still has to visit.  The object [newTree] is pushed to
    [parent.children] and then completed in place by the recursive call; the
    model pushes the completed node. *)
Fixpoint traverseAreas (todo : nat) (nodes : InputNodes) (polygons : list Polygon)
         (parent : AreaTree) : outcome (AreaTree * list Polygon) :=
  match todo with
  | O => Returned (parent, polygons)
  | S todo' =>
      let i := (length polygons - todo)%nat in
      match nth_error polygons i with
      | None => Returned (parent, polygons)
      | Some p =>
          if p_visited p then traverseAreas todo' nodes polygons parent
          else
            obind (match parent with
                   | AreaTreeRoot _ => Returned true
                   | AreaTreeChild polygonIndex _ _ _ _ =>
                       isChildArea p polygonIndex polygons nodes
                   end) (fun accepted =>
            if (accepted : bool) then
              let newTree := AreaTreeChild i (area p) (area p) [] (p_edges p) in
              let polygons := mark_visited_at polygons i in
              obind (match nth_error polygons (i + 1) with
                     | Some _ => traverseAreas todo' nodes polygons newTree
                     | None => Returned (newTree, polygons)
                     end) (fun '(newTree, polygons) =>
              traverseAreas todo' nodes polygons (adopt parent newTree (area p)))
            else traverseAreas todo' nodes polygons parent)
      end
  end.

(** [Array.prototype.sort] is stable; with the comparator
    [(a, b) => b.area - a.area] an element moves behind another one only when
    the comparator is positive. *)
Fixpoint sort_insert (a : Polygon) (sorted : list Polygon) : list Polygon :=
  match sorted with
  | [] => [a]
  | b :: rest =>
      if area b - area a >? n_of_Z 0 then b :: sort_insert a rest
      else a :: b :: rest
  end.

Definition sort_by_area (l : list Polygon) : list Polygon :=
  fold_right sort_insert [] l.

(** The [map] of [buildNestingTree], from index [ix] on. *)
Fixpoint inputPolygons (nodes : InputNodes) (polygons : list InputPolygon) (ix : nat)
  : outcome (list Polygon) :=
  match polygons with
  | [] => Returned []
  | p :: rest =>
      obind (getPolygonArea nodes p) (fun a =>
      obind (inputPolygons nodes rest (S ix)) (fun r =>
      Returned ({| id := ix; p_visited := false; area := a; p_edges := edges p |} :: r)))
  end.

Definition buildNestingTree (nodes : InputNodes) (polygons : list InputPolygon)
  : outcome AreaTree :=
  obind (inputPolygons nodes polygons 0) (fun mapped =>
  let sorted := sort_by_area mapped in
  obind (traverseAreas (length sorted) nodes sorted (AreaTreeRoot []))
        (fun '(tree, _) => Returned tree)).

(** All cycles of a tree in pre-order. *)
Fixpoint tree_cycles (t : CycleTree) : list (list Z) :=
  match t with
  | Build_CycleTree c ch => c :: flat_map tree_cycles ch
  end.

Definition forest_cycles (forest : CycleTreeForest) : list (list Z) :=
  flat_map tree_cycles forest.

Definition getCyclesFromCycleForest (forest : CycleTreeForest) : list (list Z) :=
  filter (fun arr => negb (length arr =? 0)%nat) (forest_cycles forest).

(** [getAreaTree] runs [discover] on a fresh [PlanarFaceTree] and throws when
    it reports an error. *)
Definition getAreaTree (fuel : nat) (nodes : InputNodes) (edges : InputEdges)
  : outcome AreaTree :=
  match discover fuel nodes edges [] with
  | Returned (ERROR _, _) => Threw
  | Returned (RESULT forest, _) =>
      buildNestingTree nodes
        (map (fun f => {| edges := f |}) (getCyclesFromCycleForest forest))
  | Threw => Threw
  | OutOfFuel => OutOfFuel
  end.

End AreaTree.

(* ================================================================== *)
(** * Notions used to state the properties *)
(* ================================================================== *)

Section ValidationSpec.

Context {N : Num}.
Local Open Scope num_scope.

(** ** The error conditions of the validator *)

Definition graph_empty (positions : InputNodes) (edges : InputEdges) : bool :=
  (length positions =? 0)%nat || (length edges =? 0)%nat.

Definition negative_coordinate (p : Position) : bool :=
  (fst p <? n_of_Z 0) || (snd p <? n_of_Z 0).

Definition endpoint_out_of_bounds (maxNodeValue : Z) (e : InputEdge) : bool :=
  (fst e <? 0)%Z || (fst e >? maxNodeValue)%Z ||
  (snd e <? 0)%Z || (snd e >? maxNodeValue)%Z.

Definition edge_eqb (e f : InputEdge) : bool :=
  Z.eqb (fst e) (fst f) && Z.eqb (snd e) (snd f).

(** Some element of the list is equal, for [eqb], to an earlier one. *)
Fixpoint has_repeat {A} (eqb : A -> A -> bool) (l : list A) : bool :=
  match l with
  | [] => false
  | x :: rest => existsb (fun y => eqb y x) rest || has_repeat eqb rest
  end.

Definition same_position_present (positions : InputNodes) : bool :=
  has_repeat position_key_eqb positions.

Definition invalid_coordinate_present (positions : InputNodes) : bool :=
  existsb negative_coordinate positions.

Definition out_of_bounds_present (positions : InputNodes) (edges : InputEdges) : bool :=
  existsb (endpoint_out_of_bounds (Z.of_nat (length positions) - 1)) edges.

Definition duplicate_edge_present (edges : InputEdges) : bool :=
  has_repeat edge_eqb edges.

(** The error code that the precedence
    GRAPH_EMPTY > VERTICES_HAVE_SAME_POSITION > INVALID_COORDINATE_SYSTEM >
    EDGE_ENDPOINT_OUT_OF_BOUNDS > DUPLICATE_EDGE_FOUND
    selects among the conditions that hold. *)
Definition by_precedence (positions : InputNodes) (edges : InputEdges)
  : option DiscoveryErrorCode :=
  if graph_empty positions edges then Some GRAPH_EMPTY
  else if same_position_present positions then Some VERTICES_HAVE_SAME_POSITION
  else if invalid_coordinate_present positions then Some INVALID_COORDINATE_SYSTEM
  else if out_of_bounds_present positions edges then Some EDGE_ENDPOINT_OUT_OF_BOUNDS
  else if duplicate_edge_present edges then Some DUPLICATE_EDGE_FOUND
  else None.

(** ** The scan order *)

(** The element at index [j] is equal, for [eqb], to one at a smaller index. *)
Definition repeats {A} (eqb : A -> A -> bool) (l : list A) (j : nat) : Prop :=
  exists i x y, (i < j)%nat /\ nth_error l i = Some x /\ nth_error l j = Some y /\
                eqb y x = true.

(** The check of position [j] fails with code [c]. *)
Definition position_fault (positions : InputNodes) (j : nat) (c : DiscoveryErrorCode)
  : Prop :=
  (repeats position_key_eqb positions j /\ c = VERTICES_HAVE_SAME_POSITION) \/
  (~ repeats position_key_eqb positions j /\
   (exists p, nth_error positions j = Some p /\ negative_coordinate p = true) /\
   c = INVALID_COORDINATE_SYSTEM).

(** The check of edge [j] fails with code [c]. *)
Definition edge_fault (positions : InputNodes) (edges : InputEdges) (j : nat)
           (c : DiscoveryErrorCode) : Prop :=
  (repeats edge_eqb edges j /\ c = DUPLICATE_EDGE_FOUND) \/
  (~ repeats edge_eqb edges j /\
   (exists e, nth_error edges j = Some e /\
              endpoint_out_of_bounds (Z.of_nat (length positions) - 1) e = true) /\
   c = EDGE_ENDPOINT_OUT_OF_BOUNDS).

(** [j] is the first index at which a check fails, and it fails with [c]. *)
Definition first_fault (fault : nat -> DiscoveryErrorCode -> Prop) (j : nat)
           (c : DiscoveryErrorCode) : Prop :=
  fault j c /\ forall i c', (i < j)%nat -> ~ fault i c'.

Definition no_fault (fault : nat -> DiscoveryErrorCode -> Prop) : Prop :=
  forall j c, ~ fault j c.

(** The outcome of the first failing check along the scan order: emptiness,
    then the positions in index order, then the edges in index order. *)
Definition first_failure (positions : InputNodes) (edges : InputEdges)
           (r : option DiscoveryErrorCode) : Prop :=
  if graph_empty positions edges then r = Some GRAPH_EMPTY
  else
    (exists j c, first_fault (position_fault positions) j c /\ r = Some c) \/
    (no_fault (position_fault positions) /\
     exists j c, first_fault (edge_fault positions edges) j c /\ r = Some c) \/
    (no_fault (position_fault positions) /\
     no_fault (edge_fault positions edges) /\ r = None).

(** The checks of one element against the elements scanned before it. *)
Definition position_check (earlier : list Position) (p : Position)
  : option DiscoveryErrorCode :=
  if existsb (position_key_eqb p) earlier then Some VERTICES_HAVE_SAME_POSITION
  else if negative_coordinate p then Some INVALID_COORDINATE_SYSTEM
  else None.

Definition edge_check (maxNodeValue : Z) (earlier : list InputEdge) (e : InputEdge)
  : option DiscoveryErrorCode :=
  if existsb (edge_eqb e) earlier then Some DUPLICATE_EDGE_FOUND
  else if endpoint_out_of_bounds maxNodeValue e then Some EDGE_ENDPOINT_OUT_OF_BOUNDS
  else None.

Fixpoint scan {A} (check : list A -> A -> option DiscoveryErrorCode)
         (earlier : list A) (l : list A) : option DiscoveryErrorCode :=
  match l with
  | [] => None
  | x :: rest =>
      match check earlier x with
      | Some c => Some c
      | None => scan check (earlier ++ [x]) rest
      end
  end.

End ValidationSpec.

Section GeometrySpec.

Context {N : Num}.
Local Open Scope num_scope.

(** The contribution of a directed segment to the winding sum. *)
Definition winding_term (seg : Segment) : num :=
  let '((x1, y1), (x2, y2)) := seg in (x2 - x1) * (y2 + y1).

(** The pairs of consecutive points of a path. *)
Definition path_edges (l : list Position) : list Segment := combine l (tl l).

(** The directed edges of the closed polygon through the points. *)
Definition cyclic_edges (l : list Position) : list Segment :=
  combine l (tl l ++ firstn 1 l).

(** The points lie on one line: the winding order of every three of them
    is [COLINEAR]. *)
Definition colinear (l : list Position) : Prop :=
  forall p q r, In p l -> In q l -> In r l ->
                determineWindingOrder [p; q; r] = COLINEAR.

(** Reversing the list exchanges [CW] and [CCW] and keeps [COLINEAR]. *)
Definition self_dual_at (l : list Position) : Prop :=
  (determineWindingOrder (rev l) = CW <-> determineWindingOrder l = CCW) /\
  (determineWindingOrder (rev l) = CCW <-> determineWindingOrder l = CW) /\
  (determineWindingOrder (rev l) = COLINEAR <-> determineWindingOrder l = COLINEAR).

End GeometrySpec.

(** Sums of rationals. *)
Definition Qsum (l : list Q) : Q := fold_right Qplus 0%Q l.

Section AreaTreeSpec.

Context {N : Num}.
Local Open Scope num_scope.

Definition total_of (t : AreaTree) : num :=
  match t with
  | AreaTreeRoot _ => n_of_Z 0
  | AreaTreeChild _ total _ _ _ => total
  end.

(** [P] holds of the node and of every node below it. *)
Fixpoint all_nodes (P : AreaTree -> Prop) (t : AreaTree) : Prop :=
  P t /\
  (fix all_in (l : list AreaTree) : Prop :=
     match l with
     | [] => True
     | c :: rest => all_nodes P c /\ all_in rest
     end) (area_children t).

(** The sum of the totals of the direct children, accumulated from 0 in
    child order. *)
Definition children_total (ch : list AreaTree) : num :=
  fold_left (fun acc c => acc + total_of c) ch (n_of_Z 0).

(** [withoutChildren] is [total] minus the sum of the children's totals. *)
Definition subtracts_sum (t : AreaTree) : Prop :=
  match t with
  | AreaTreeRoot _ => True
  | AreaTreeChild _ total withoutChildren ch _ =>
      withoutChildren = total - children_total ch
  end.

(** [withoutChildren] is [total] with the total of each direct child
    subtracted in turn, in child order. *)
Definition subtracts_each (t : AreaTree) : Prop :=
  match t with
  | AreaTreeRoot _ => True
  | AreaTreeChild _ total withoutChildren ch _ =>
      withoutChildren = fold_left (fun acc c => acc - total_of c) ch total
  end.

(** The points of the polygon are all defined, and there is one at least. *)
Definition drawable (nodes : InputNodes) (c : list Z) : Prop :=
  exists path, all_defined (getPointPath nodes c) = Returned path /\ path <> [].

(** The polygon index of a child node is an index of the polygon list. *)
Definition parent_in_range (parent : AreaTree) (n : nat) : Prop :=
  match parent with
  | AreaTreeRoot _ => True
  | AreaTreeChild ix _ _ _ _ => (ix < n)%nat
  end.

(** A name is an index of the node list. *)
Definition node_index (nodes : InputNodes) (nm : Z) : Prop :=
  (0 <= nm < Z.of_nat (length nodes))%Z.

End AreaTreeSpec.

(** In exact arithmetic: [withoutChildren] equals [total] minus the sum of
    the children's totals. *)
Definition subtracts_sum_exact (t : @AreaTree Exact.rational) : Prop :=
  match t with
  | AreaTreeRoot _ => True
  | AreaTreeChild _ total withoutChildren ch _ =>
      (withoutChildren == total - Qsum (map total_of ch))%Q
  end.

Section EngineSpec.

Context {N : Num}.

(** ** Invariants of the arena *)

(** Every reference held in an adjacency set points into the arena. *)
Definition well_formed (s : VertexStore) : Prop :=
  forall i j, In j (adj s i) -> (j < length s)%nat.

(** Adjacency is symmetric. *)
Definition symmetric (s : VertexStore) : Prop :=
  forall i j, In j (adj s i) -> In i (adj s j).

(** Every record carries a name for which [Q] holds. *)
Definition names_satisfy (Q : Z -> Prop) (s : VertexStore) : Prop :=
  forall i, (i < length s)%nat -> Q (name (deref s i)).

(** [s'] is a later state of the arena [s]: records are only added, and the
    name and the position of a record never change. *)
Definition later (s s' : VertexStore) : Prop :=
  (length s <= length s')%nat /\
  forall i, (i < length s)%nat ->
            name (deref s' i) = name (deref s i) /\
            position (deref s' i) = position (deref s i).

(** A record of [s] without adjacent records has none in [s'] either. *)
Definition stays_isolated (s s' : VertexStore) : Prop :=
  forall i, (i < length s)%nat -> adj s i = [] -> adj s' i = [].

(** Only the [visited] marks differ. *)
Definition same_graph (s s' : VertexStore) : Prop :=
  length s' = length s /\
  forall i, adj s' i = adj s i /\
            name (deref s' i) = name (deref s i) /\
            position (deref s' i) = position (deref s i).

(** Adjacency sets only lose elements; nothing else changes but marks. *)
Definition pruned (s s' : VertexStore) : Prop :=
  length s' = length s /\
  forall i, incl (adj s' i) (adj s i) /\
            name (deref s' i) = name (deref s i) /\
            position (deref s' i) = position (deref s i).

(** The state [s'] is [s] with some edges deleted in both directions. *)
Definition unlinked (s s' : VertexStore) : Prop :=
  pruned s s' /\ (symmetric s -> symmetric s').

(** ** Cycles *)

(** The name sequence is closed: its first and its last name agree. *)
Definition closed_cycle (c : list Z) : Prop :=
  match c with
  | [] => True
  | first :: _ => last c first = first
  end.

(** No name is repeated, the closing duplicate apart. *)
Definition simple_cycle (c : list Z) : Prop := NoDup (removelast c).

(** The cycle is the name sequence of a closed walk over records of the
    arena that visits no record twice, the closing duplicate apart. *)
Definition walk_cycle (s : VertexStore) (c : list Z) : Prop :=
  exists w : list nat,
    c = map (fun v => name (deref s v)) w /\
    (3 < length w)%nat /\
    (forall v, In v w -> (v < length s)%nat) /\
    (exists first, hd_error w = Some first /\ last w first = first) /\
    NoDup (removelast w).

Definition nonempty_cycles (t : CycleTree) : list (list Z) :=
  filter (fun c => negb (length c =? 0)%nat) (tree_cycles t).

(** ** Cycles of the graph *)

(** Every record of the list is followed by one of its adjacent records. *)
Fixpoint path_in (s : VertexStore) (w : list nat) : Prop :=
  match w with
  | a :: (b :: _) as rest => In b (adj s a) /\ path_in s rest
  | _ => True
  end.

(** [w] is a cycle of the graph inside the component: three records at
    least, none repeated, each adjacent to the next and the last one to the
    first. *)
Definition graph_cycle (s : VertexStore) (component w : list nat) : Prop :=
  (3 <= length w)%nat /\ NoDup w /\ incl w component /\ path_in s w /\
  exists a, hd_error w = Some a /\ In a (adj s (last w a)).

(** The adjacency sets describe a simple undirected graph: they are
    symmetric, hold no record twice, and no record is adjacent to itself. *)
Definition simple_graph (s : VertexStore) : Prop :=
  symmetric s /\ (forall x, NoDup (adj s x)) /\ (forall x, ~ In x (adj s x)).

(** The records adjacent to a record of the component are in it. *)
Definition closed_under_adj (s : VertexStore) (component : list nat) : Prop :=
  forall x y, In x component -> In y (adj s x) -> In y component.

End EngineSpec.

Section EngineInvariants.

Context {N : Num}.

(** The invariant of the arena: references are valid, adjacency is
    symmetric, and every name satisfies [Q]. *)
Definition arena_ok (Q : Z -> Prop) (s : VertexStore) : Prop :=
  well_formed s /\ symmetric s /\ names_satisfy Q s.

(** What a phase of the extraction does to the arena: records are only
    added, isolated records stay isolated, and the records it adds are
    isolated when it ends. *)
Definition step_ok (s s' : VertexStore) : Prop :=
  later s s' /\ stays_isolated s s' /\
  forall i, (length s <= i < length s')%nat -> adj s' i = [].

(** Every non-empty cycle of the tree comes from a closed walk without a
    repeated record. *)
Definition cycles_ok (s : VertexStore) (t : CycleTree) : Prop :=
  forall c, In c (tree_cycles t) -> c <> [] -> walk_cycle s c.

(** The post-condition of [extractBasis]. *)
Definition basis_post (Q : Z -> Prop) (component : list nat) (s : VertexStore)
           (t : CycleTree) (s' : VertexStore) : Prop :=
  arena_ok Q s' /\ step_ok s s' /\
  (forall i, In i component -> adj s' i = []) /\
  cycles_ok s' t.

(** The contract of the recursive call. *)
Definition basis_contract (Q : Z -> Prop) (rec : list nat -> M CycleTree) : Prop :=
  forall component s t s',
    arena_ok Q s ->
    (forall i, In i component -> (i < length s)%nat) ->
    rec component s = Returned (t, s') ->
    basis_post Q component s t s'.

(** The effect of moving the edges between [original] and the records of
    [moved] to [clone]. *)
Definition reattached (clone : nat) (moved : list nat) (s s' : VertexStore) : Prop :=
  length s' = length s /\
  (forall i, name (deref s' i) = name (deref s i) /\
             position (deref s' i) = position (deref s i)) /\
  (forall i, ~ In i moved -> i <> clone -> incl (adj s' i) (adj s i)) /\
  ((clone < length s)%nat -> (forall x, In x moved -> (x < length s)%nat) ->
   well_formed s -> well_formed s') /\
  ((clone < length s)%nat -> (forall x, In x moved -> (x < length s)%nat) ->
   symmetric s -> symmetric s').

(** Only adjacency sets differ: the marks are those of [s]. *)
Definition same_marks (s s' : VertexStore) : Prop :=
  length s' = length s /\
  forall i, visited (deref s' i) = visited (deref s i).

(** Either the marks are those of [s], or a record has been added. *)
Definition quiet (s s' : VertexStore) : Prop :=
  same_marks s s' \/ (length s < length s')%nat.

Definition quiet_contract (rec : list nat -> M CycleTree) : Prop :=
  forall component s t s', rec component s = Returned (t, s') -> quiet s s'.

End EngineInvariants.

Section NameSpec.

Context {N : Num}.

(** A record that shares its name with a record created after it, that is
    a record of which a clone exists, is unvisited. *)
Definition clones_apart (s : VertexStore) : Prop :=
  forall i j, (i < j < length s)%nat ->
              name (deref s i) = name (deref s j) -> visited (deref s i) = 0%nat.

(** The same, as a test on the arena. *)
Fixpoint clones_apartb (s : VertexStore) : bool :=
  match s with
  | [] => true
  | v :: rest =>
      (negb (existsb (fun w => Z.eqb (name w) (name v)) rest) ||
       (visited v =? 0)%nat) && clones_apartb rest
  end.

(** A mark that is set stays set. *)
Definition marks_grow (s s' : VertexStore) : Prop :=
  forall i, visited (deref s i) <> 0%nat -> visited (deref s' i) <> 0%nat.

Definition grow_contract (rec : list nat -> M CycleTree) : Prop :=
  forall component s t s', rec component s = Returned (t, s') -> marks_grow s s'.

(** No two records of the component carry the same name. *)
Definition names_apart (s : VertexStore) (component : list nat) : Prop :=
  forall x y, In x component -> In y component ->
              name (deref s x) = name (deref s y) -> x = y.

(** The records of the component that are visited have no adjacent record:
    the state of a component of the graph between two extractions. *)
Definition visited_isolated (s : VertexStore) (component : list nat) : Prop :=
  forall i, In i component -> visited (deref s i) <> 0%nat -> adj s i = [].

(** All records of the component are visited: the state of a component
    that a search from a clone has just collected. *)
Definition all_visited (s : VertexStore) (component : list nat) : Prop :=
  forall i, In i component -> visited (deref s i) <> 0%nat.

(** The invariant of the extraction of a component, as far as names are
    concerned. *)
Definition name_inv (s : VertexStore) (component : list nat) : Prop :=
  arena_ok (fun _ => True) s /\
  (forall i, In i component -> (i < length s)%nat) /\
  closed_under_adj s component /\
  names_apart s component /\
  (visited_isolated s component \/ all_visited s component).

(** The records outside the component keep their marks and gain no
    adjacent record. *)
Definition outside_kept (component : list nat) (s s' : VertexStore) : Prop :=
  forall x, (x < length s)%nat -> ~ In x component ->
            incl (adj s' x) (adj s x) /\ visited (deref s' x) = visited (deref s x).

Definition name_step (component : list nat) (s s' : VertexStore) : Prop :=
  outside_kept component s s' /\ (all_visited s component -> same_marks s s').

Definition simple_cycles (t : CycleTree) : Prop :=
  forall c, In c (tree_cycles t) -> simple_cycle c.

(** The contract of the recursive call: when no record of which a clone
    exists is visited in the end, the cycles are simple. *)
Definition name_contract (rec : list nat -> M CycleTree) : Prop :=
  forall component s t s',
    rec component s = Returned (t, s') ->
    name_inv s component -> clones_apart s' ->
    simple_cycles t /\ name_step component s s'.

(** Where the adjacent records of [s'] come from when edges have been moved
    to [clone]. *)
Definition moved_to (clone : nat) (moved : list nat) (s s' : VertexStore) : Prop :=
  forall i x, In x (adj s' i) ->
              In x (adj s i) \/ (i = clone /\ In x moved) \/ (In i moved /\ x = clone).

End NameSpec.

(* ================================================================== *)
(** * Concrete inputs *)
(* ================================================================== *)

(** A point with integer coordinates. *)
Definition pt {N : Num} (p : Z * Z) : Position := (n_of_Z (fst p), n_of_Z (snd p)).

(** The parts of an outcome, with a default where there is none. *)
Definition returned_or {A} (d : A) (o : outcome A) : A :=
  match o with
  | Returned a => a
  | _ => d
  end.

Definition final_store {N : Num} {A} (o : outcome (A * VertexStore)) : VertexStore :=
  match o with
  | Returned (_, s) => s
  | _ => []
  end.

Definition result_forest {N : Num} (o : outcome (DiscoveryOutput * VertexStore))
  : CycleTreeForest :=
  match o with
  | Returned (RESULT forest, _) => forest
  | _ => []
  end.

Definition result_value {N : Num} {A} (d : A) (o : outcome (A * VertexStore)) : A :=
  match o with
  | Returned (a, _) => a
  | _ => d
  end.

Definition has_returned {A} (o : outcome A) : bool :=
  match o with
  | Returned _ => true
  | _ => false
  end.

Definition is_result {N : Num} (o : outcome (DiscoveryOutput * VertexStore)) : bool :=
  match o with
  | Returned (RESULT _, _) => true
  | _ => false
  end.

Module Inputs.

(** A triangle. *)
Definition triangle_nodes : @InputNodes F64.double := map pt [(0, 0); (4, 0); (0, 4)]%Z.
Definition triangle_edges : InputEdges := [(0, 1); (1, 2); (2, 0)]%Z.

(** The triangle of the test-suite, every edge given in both directions. *)
Definition two_way_nodes : @InputNodes F64.double :=
  map pt [(10, 30); (100, 100); (50, 50)]%Z.
Definition two_way_edges : InputEdges :=
  [(0, 1); (1, 0); (1, 2); (2, 1); (2, 0); (0, 2)]%Z.

(** Six points whose edges cross: the segments 2-4 and 3-5 do, among
    others. *)
Definition crossing_nodes : @InputNodes F64.double :=
  map pt [(2, 3); (0, 4); (3, 2); (4, 0); (0, 1); (1, 3)]%Z.
Definition crossing_edges : InputEdges :=
  [(1, 4); (0, 4); (0, 1); (2, 4); (2, 3); (4, 5); (3, 4); (3, 5)]%Z.

(** Four points; the segments 1-3 and 0-2 cross. *)
Definition kite_nodes : @InputNodes F64.double :=
  map pt [(4, 4); (4, 5); (0, 4); (3, 2)]%Z.
Definition kite_edges : InputEdges := [(1, 2); (0, 1); (0, 3); (1, 3); (0, 2)]%Z.

(** A negative coordinate at index 0, the same position at indices 1 and 2. *)
Definition mixed_nodes : @InputNodes F64.double := map pt [(-1, 0); (5, 5); (5, 5)]%Z.
Definition mixed_edges : InputEdges := [(0, 1)]%Z.

(** A repeated edge at index 1, an endpoint out of bounds at index 2. *)
Definition segment_nodes : @InputNodes F64.double := map pt [(0, 0); (1, 1)]%Z.
Definition repeated_edges : InputEdges := [(0, 1); (0, 1); (0, 99)]%Z.

(** An arena that holds one record without adjacent records. *)
Definition lonely_store : @VertexStore F64.double :=
  [{| name := 0; position := pt (0, 0)%Z; adjacent := []; visited := 0 |}].

(** A triangle 0, 1, 2 with the filament 2 - 3. *)
Definition kettle_store : @VertexStore F64.double :=
  [{| name := 0; position := pt (0, 0)%Z; adjacent := [1; 2]%nat; visited := 0 |};
   {| name := 1; position := pt (4, 0)%Z; adjacent := [0; 2]%nat; visited := 0 |};
   {| name := 2; position := pt (0, 4)%Z; adjacent := [1; 0; 3]%nat; visited := 0 |};
   {| name := 3; position := pt (0, 8)%Z; adjacent := [2]%nat; visited := 0 |}].

(** A self-intersecting quadrilateral. *)
Definition bowtie_nodes : @InputNodes F64.double :=
  map pt [(0, 0); (2, 2); (2, 0); (0, 2)]%Z.
Definition quadrilateral : InputPolygon := {| edges := [0; 1; 2; 3; 0]%Z |}.

(** Four points whose abscissas are multiples of the least positive
    double, 2^-1074. *)
Definition least (m : positive) : @num F64.double := S754_finite false m (-1074).
Definition tiny_nodes : @InputNodes F64.double :=
  [(least 9, n_of_Z 0); (least 4, n_of_Z 1); (least 9, n_of_Z 1);
   (least 3, n_div (n_of_Z 5) (n_of_Z 2))].

(** The unit square, in exact arithmetic. *)
Definition square_nodes : @InputNodes Exact.rational :=
  map pt [(0, 0); (0, 1); (1, 1); (1, 0)]%Z.

(** Four points with coordinates near 2^26 and 2^27. *)
Definition wide_points : list (@Position F64.double) :=
  map pt [(67108864, 134217728); (134217728, 1); (67108865, 134217728);
          (67108864, 0)]%Z.

Definition three_points : list (@Position F64.double) :=
  map pt [(0, 0); (4, 0); (0, 4)]%Z.

(** A square of side 2^27 around two unit squares. *)
Definition nested_nodes : @InputNodes F64.double :=
  map pt [(0, 0); (134217728, 0); (134217728, 134217728); (0, 134217728);
          (10, 10); (11, 10); (11, 11); (10, 11);
          (20, 20); (21, 20); (21, 21); (20, 21)]%Z.
Definition nested_edges : InputEdges :=
  [(0, 1); (1, 2); (2, 3); (3, 0); (4, 5); (5, 6); (6, 7); (7, 4);
   (8, 9); (9, 10); (10, 11); (11, 8)]%Z.

End Inputs.

(* ================================================================== *)
(** * Further vocabulary *)
(* ================================================================== *)

Section GeometryMoves.

Context {N : Num}.
Local Open Scope num_scope.

(** The point [p] moved by the vector [d]. *)
Definition translate (d p : Position) : Position :=
  (fst p + fst d, snd p + snd d).

End GeometryMoves.

Section SearchSpec.

Context {N : Num}.

(** [x] is reached from [v] along adjacent records that are all unvisited
    in [s], the record [v] itself apart. *)
Inductive white_path (s : VertexStore) (v : nat) : nat -> Prop :=
| white_here : white_path s v v
| white_step : forall y x,
    white_path s v y -> In x (adj s y) -> visited (deref s x) = 0%nat ->
    white_path s v x.

(** The number of unvisited records of the arena. *)
Definition unvisited (s : VertexStore) : nat :=
  length (filter (fun x => (visited x =? 0)%nat) s).

(** A bound on the iterations the loop of [depthFirstSearch] still runs:
    every iteration but the last lowers it by one. *)
Definition search_budget (s : VertexStore) (vStack : list nat) : nat :=
  match vStack with
  | [] => 0
  | vertex :: _ => 2 * unvisited (set_visited vertex 1 s) + length vStack
  end.

(** The invariant of the loop of [depthFirstSearch], started from [v] in the
    arena [s0]: only marks change, and only those of the records on the
    stack or in the component; the stack holds records found along
    unvisited records, all discovered but possibly its top; the component
    holds finished records, whose adjacent records are all discovered. *)
Definition search_inv (s0 : VertexStore) (v : nat) (vStack component : list nat)
           (s : VertexStore) : Prop :=
  same_graph s0 s /\
  (forall i, ~ In i vStack -> ~ In i component ->
             visited (deref s i) = visited (deref s0 i)) /\
  NoDup vStack /\ NoDup component /\
  (forall x, In x vStack ->
             (x < length s0)%nat /\ white_path s0 v x /\ (visited (deref s x) <= 1)%nat) /\
  (forall x, In x (tl vStack) -> visited (deref s x) = 1%nat) /\
  (forall x, In x component ->
             white_path s0 v x /\ visited (deref s x) = 2%nat /\
             forall y, In y (adj s0 x) -> visited (deref s y) <> 0%nat).

(** [x] is reached from [v] along adjacent records. *)
Inductive connected (s : VertexStore) (v : nat) : nat -> Prop :=
| connected_here : connected s v v
| connected_step : forall y x,
    connected s v y -> In x (adj s y) -> connected s v x.

(** The invariant of the component loop of [discover]: the components found
    so far are disjoint lists of records, they hold exactly the records that
    are marked, each of them is closed under adjacency, and all records of a
    component are reached from one record. *)
Definition components_ok (s : VertexStore) (components : list (list nat)) : Prop :=
  NoDup (concat components) /\
  (forall x, In x (concat components) -> (x < length s)%nat) /\
  (forall x, (x < length s)%nat ->
             (visited (deref s x) <> 0%nat <-> In x (concat components))) /\
  (forall c x y, In c components -> In x c -> In y (adj s x) -> In y c) /\
  (forall c, In c components -> exists v, forall x, In x c -> connected s v x).

End SearchSpec.

Section AreaTreeShape.

Context {N : Num}.

(** The polygon indices of the [CHILD] nodes of a tree, in pre-order. *)
Fixpoint tree_indices (t : AreaTree) : list nat :=
  match t with
  | AreaTreeRoot ch => flat_map tree_indices ch
  | AreaTreeChild ix _ _ ch _ => ix :: flat_map tree_indices ch
  end.

(** The polygons of the [CHILD] nodes of a tree, in pre-order. *)
Fixpoint tree_polygons (t : AreaTree) : list (list Z) :=
  match t with
  | AreaTreeRoot ch => flat_map tree_polygons ch
  | AreaTreeChild _ _ _ ch poly => poly :: flat_map tree_polygons ch
  end.

(** [polygons[i].visited], [false] when there is no such polygon. *)
Definition visited_at (polygons : list Polygon) (i : nat) : bool :=
  match nth_error polygons i with
  | Some p => p_visited p
  | None => false
  end.

(** The index of every direct child is above [ix]. *)
Definition indices_above (ix : nat) (ch : list AreaTree) : Prop :=
  forall c, In c ch ->
            match c with
            | AreaTreeRoot _ => False
            | AreaTreeChild ix' _ _ _ _ => (ix < ix')%nat
            end.

(** A [CHILD] node carries the area and the cycle of the polygon at its
    index, and its direct children have larger indices; the direct children
    of the [ROOT] are [CHILD] nodes. *)
Definition node_of (areas : list num) (shapes : list (list Z)) (t : AreaTree) : Prop :=
  match t with
  | AreaTreeRoot ch => forall c, In c ch -> type c = CHILD
  | AreaTreeChild ix total _ ch poly =>
      nth_error areas ix = Some total /\ nth_error shapes ix = Some poly /\
      indices_above ix ch
  end.

End AreaTreeShape.

(** In exact arithmetic: no direct child has a larger total area than its
    parent. *)
Definition children_smaller_exact (t : @AreaTree Exact.rational) : Prop :=
  match t with
  | AreaTreeRoot _ => True
  | AreaTreeChild _ total _ ch _ => forall c, In c ch -> (total_of c <= total)%Q
  end.

Section PruningSpec.

Context {N : Num}.

(** The number of entries of all adjacency sets. *)
Definition total_degree (s : VertexStore) : nat :=
  list_sum (map (fun x => length (adjacent x)) s).

End PruningSpec.

Section ForestShape.

(** No node of the tree has an empty cycle and exactly one child. *)
Inductive shaped : CycleTree -> Prop :=
| shaped_node : forall c ch,
    (c = [] -> length ch <> 1%nat) -> Forall shaped ch ->
    shaped (Build_CycleTree c ch).

Context {N : Num}.

(** The contract of the recursive call of [extractBasis], for the shape of
    the tree. *)
Definition shape_contract (rec : list nat -> M CycleTree) : Prop :=
  forall component s t s', rec component s = Returned (t, s') -> shaped t.

End ForestShape.

(** The point [p] is left of [q], or at the same abscissa and not above it. *)
Definition lex_le (p q : @Position Exact.rational) : Prop :=
  (fst p < fst q)%Q \/ ((fst p == fst q)%Q /\ (snd p <= snd q)%Q).

(** ** Further concrete inputs *)

Module Samples.

(** A square of side 10 around a square of side 2, in exact arithmetic. *)
Definition boxed_nodes : @InputNodes Exact.rational :=
  map pt [(0, 0); (10, 0); (10, 10); (0, 10); (2, 2); (4, 2); (4, 4); (2, 4)]%Z.
Definition boxed_edges : InputEdges :=
  [(0, 1); (1, 2); (2, 3); (3, 0); (4, 5); (5, 6); (6, 7); (7, 4)]%Z.

(** The polygon record of the unit square of [Inputs.square_nodes]. *)
Definition unit_polygon : @Polygon Exact.rational :=
  {| id := 0; p_visited := false; area := n_of_Z 1; p_edges := [0; 1; 2; 3; 0]%Z |}.

(** The corners of the unit square, and a point above it. *)
Definition unit_path : list (@Position Exact.rational) :=
  map pt [(0, 0); (0, 1); (1, 1); (1, 0)]%Z.
Definition above_point : @Position Exact.rational := pt (0, 5)%Z.

(** A square and, inside it, a triangle that shares the corner 0 with it. *)
Definition corner_nodes : @InputNodes F64.double :=
  map pt [(0, 0); (4, 0); (4, 4); (0, 4); (2, 1); (1, 2)]%Z.
Definition corner_edges : InputEdges :=
  [(0, 1); (1, 2); (2, 3); (3, 0); (0, 4); (4, 5); (5, 0)]%Z.

End Samples.

(* ================================================================== *)
(** * Proofs *)
(* ================================================================== *)

Unset Implicit Arguments.

(* ================================================================== *)
(** * Keys of edges determine the ordered pair *)
(* ================================================================== *)

Module KeyFacts.
Import String Ascii.
Local Open Scope string_scope.

Lemma uint_free_of_gt (d : Decimal.uint) :
  Key.free_of ">"%char (DecimalString.NilEmpty.string_of_uint d).
Proof.
  induction d; simpl; auto; split; auto; discriminate.
Qed.

Lemma of_name_free_of_gt (z : Z) : Key.free_of ">"%char (Key.of_name z).
Proof.
  unfold Key.of_name.
  destruct (Z.to_int z) as [d | d]; simpl.
  - apply uint_free_of_gt.
  - split; [discriminate | apply uint_free_of_gt].
Qed.

Lemma free_of_app c s t : Key.free_of c s -> Key.free_of c t -> Key.free_of c (s ++ t).
Proof.
  induction s as [| a s IH]; simpl; auto.
  intros [Ha Hs] Ht. split; auto.
Qed.

(** A string is cut in a unique way at its first occurrence of [c]. *)
Lemma cut_at_first c s s' t t' :
  Key.free_of c s -> Key.free_of c s' ->
  s ++ String c t = s' ++ String c t' -> s = s' /\ t = t'.
Proof.
  revert s'. induction s as [| a s IH]; intros [| a' s']; simpl.
  - intros _ _ H. inversion H. auto.
  - intros _ [Ha' _] H. inversion H. congruence.
  - intros [Ha _] _ H. inversion H. congruence.
  - intros [_ Hs] [_ Hs'] H. inversion H. subst.
    destruct (IH s' Hs Hs' H2) as [-> ->]. auto.
Qed.

Lemma length_append_string (s t : string) :
  String.length (s ++ t) = (String.length s + String.length t)%nat.
Proof. induction s; simpl; auto. Qed.

Lemma app_inv_tail_string (s s' t : string) : s ++ t = s' ++ t -> s = s'.
Proof.
  intro H.
  assert (L : String.length s = String.length s').
  { apply (f_equal String.length) in H. rewrite !length_append_string in H. lia. }
  revert s' H L. induction s as [| a s IH]; intros [| a' s']; simpl; intros H L;
    try discriminate; auto.
  inversion H. subst. f_equal. apply IH; auto.
Qed.

Lemma of_name_inj a b : Key.of_name a = Key.of_name b -> a = b.
Proof.
  unfold Key.of_name. intro H.
  assert (E : Some (Z.to_int a) = Some (Z.to_int b)).
  { rewrite <- !DecimalString.NilEmpty.isi. now rewrite H. }
  inversion E as [E']. now apply DecimalZ.to_int_inj in E'.
Qed.

Lemma app_assoc_string (a b c : string) : (a ++ b) ++ c = a ++ (b ++ c).
Proof. induction a; simpl; congruence. Qed.

(** The key of an edge determines its ordered pair of endpoints. *)
Lemma of_edge_inj e f : Key.of_edge e = Key.of_edge f -> e = f.
Proof.
  unfold Key.of_edge. destruct e as [a b], f as [a' b']. simpl.
  intro H.
  change (Key.of_name a ++ String "-" (String ">" (Key.of_name b)) =
          Key.of_name a' ++ String "-" (String ">" (Key.of_name b'))) in H.
  assert (H' : (Key.of_name a ++ "-") ++ String ">" (Key.of_name b) =
               (Key.of_name a' ++ "-") ++ String ">" (Key.of_name b')).
  { rewrite !app_assoc_string. exact H. }
  apply cut_at_first in H'.
  - destruct H' as [Ha Hb].
    apply app_inv_tail_string in Ha.
    apply of_name_inj in Ha. apply of_name_inj in Hb. congruence.
  - apply free_of_app; [apply of_name_free_of_gt | simpl; split; [discriminate | exact I]].
  - apply free_of_app; [apply of_name_free_of_gt | simpl; split; [discriminate | exact I]].
Qed.

Lemma of_edge_eqb e f : String.eqb (Key.of_edge e) (Key.of_edge f) = edge_eqb e f.
Proof.
  unfold edge_eqb.
  destruct (String.eqb_spec (Key.of_edge e) (Key.of_edge f)) as [H | H].
  - apply of_edge_inj in H. subst. now rewrite !Z.eqb_refl.
  - destruct (Z.eqb_spec (fst e) (fst f)), (Z.eqb_spec (snd e) (snd f)); simpl; auto.
    exfalso. apply H. destruct e, f; simpl in *; congruence.
Qed.

End KeyFacts.

(* ================================================================== *)
(** * The validator follows the scan order *)
(* ================================================================== *)

Section ValidationFacts.

Context {N : Num}.

Lemma validate_positions_scan (positions earlier : list Position) :
  validate_positions positions earlier = scan position_check earlier positions.
Proof.
  revert earlier. induction positions as [| p rest IH]; intro earlier; simpl; auto.
  unfold position_check, posKeys_has, negative_coordinate.
  destruct (existsb (position_key_eqb p) earlier); auto.
  destruct (_ || _); auto.
Qed.

Lemma key_has_map (earlier : list InputEdge) (e : InputEdge) :
  Key.has (map Key.of_edge earlier) (Key.of_edge e) = existsb (edge_eqb e) earlier.
Proof.
  unfold Key.has. induction earlier as [| f rest IH]; simpl; auto.
  now rewrite KeyFacts.of_edge_eqb, IH.
Qed.

Lemma validate_edges_scan (maxNodeValue : Z) (edges earlier : InputEdges) :
  validate_edges maxNodeValue edges (map Key.of_edge earlier) =
  scan (edge_check maxNodeValue) earlier edges.
Proof.
  revert earlier. induction edges as [| e rest IH]; intro earlier; simpl; auto.
  unfold edge_check, endpoint_out_of_bounds, Key.add.
  rewrite key_has_map.
  destruct (existsb (edge_eqb e) earlier); auto.
  destruct (_ || _); auto.
  specialize (IH (earlier ++ [e])). rewrite map_app in IH. exact IH.
Qed.

(** What [scan] returns: the failure of the first element whose check fails
    against the elements before it. *)
Lemma scan_spec {A} (check : list A -> A -> option DiscoveryErrorCode) (l earlier : list A) :
  match scan check earlier l with
  | Some c =>
      exists j x, nth_error l j = Some x /\
                  check (earlier ++ firstn j l) x = Some c /\
                  forall i y, (i < j)%nat -> nth_error l i = Some y ->
                              check (earlier ++ firstn i l) y = None
  | None =>
      forall j x, nth_error l j = Some x -> check (earlier ++ firstn j l) x = None
  end.
Proof.
  revert earlier. induction l as [| a l IH]; intro earlier; simpl.
  - intros [| j] x H; discriminate.
  - destruct (check earlier a) as [c |] eqn:Ha.
    + exists 0%nat, a. simpl. rewrite app_nil_r. repeat split; auto. intros; lia.
    + specialize (IH (earlier ++ [a])).
      destruct (scan check (earlier ++ [a]) l) as [c |].
      * destruct IH as (j & x & Hx & Hc & Hlt).
        exists (S j), x. simpl. rewrite <- app_assoc in Hc. simpl in Hc.
        repeat split; auto.
        intros [| i] y Hi Hy; simpl in *.
        -- inversion Hy; subst. now rewrite app_nil_r.
        -- specialize (Hlt i y ltac:(lia) Hy). now rewrite <- app_assoc in Hlt.
      * intros [| j] x Hx; simpl in *.
        -- inversion Hx; subst. now rewrite app_nil_r.
        -- specialize (IH j x Hx). now rewrite <- app_assoc in IH.
Qed.

Lemma existsb_firstn_repeats {A} (eqb : A -> A -> bool) (l : list A) (j : nat) (x : A) :
  nth_error l j = Some x ->
  (existsb (eqb x) (firstn j l) = true <-> repeats eqb l j).
Proof.
  intro Hx. split.
  - intro H. apply existsb_exists in H. destruct H as (y & Hy & He).
    apply In_nth_error in Hy. destruct Hy as (i & Hi).
    assert (Hlt : (i < j)%nat).
    { assert (i < length (firstn j l))%nat by (apply nth_error_Some; congruence).
      rewrite length_firstn in H. lia. }
    exists i, y, x. repeat split; auto.
    rewrite nth_error_firstn in Hi.
    destruct (Nat.ltb_spec i j); [auto | lia].
  - intros (i & y & x' & Hlt & Hi & Hj & He).
    rewrite Hx in Hj. inversion Hj; subst x'.
    apply existsb_exists. exists y. split; auto.
    apply nth_error_In with (n := i).
    rewrite nth_error_firstn.
    destruct (Nat.ltb_spec i j); [auto | lia].
Qed.

Lemma position_check_fault (positions : InputNodes) (j : nat) (p : Position) :
  nth_error positions j = Some p ->
  forall c, position_check (firstn j positions) p = Some c <-> position_fault positions j c.
Proof.
  intros Hp c. unfold position_check, position_fault.
  pose proof (existsb_firstn_repeats position_key_eqb positions j p Hp) as R.
  destruct (existsb (position_key_eqb p) (firstn j positions)) eqn:E.
  - split.
    + intros [= <-]. left. split; auto. now apply R.
    + intros [[_ ->] | [H _]]; auto. exfalso. apply H. now apply R.
  - assert (NR : ~ repeats position_key_eqb positions j).
    { intro H. apply R in H. discriminate. }
    destruct (negative_coordinate p) eqn:Hn.
    + split.
      * intros [= <-]. right. repeat split; auto. eauto.
      * intros [[H _] | [_ [_ ->]]]; auto. contradiction.
    + split; [discriminate |].
      intros [[H _] | [_ [(q & Hq & Hneg) _]]]; [contradiction |].
      rewrite Hp in Hq. inversion Hq; subst. congruence.
Qed.

Lemma edge_check_fault (positions : InputNodes) (edges : InputEdges) (j : nat)
      (e : InputEdge) :
  nth_error edges j = Some e ->
  forall c, edge_check (Z.of_nat (length positions) - 1) (firstn j edges) e = Some c <->
            edge_fault positions edges j c.
Proof.
  intros He c. unfold edge_check, edge_fault.
  pose proof (existsb_firstn_repeats edge_eqb edges j e He) as R.
  destruct (existsb (edge_eqb e) (firstn j edges)) eqn:E.
  - split.
    + intros [= <-]. left. split; auto. now apply R.
    + intros [[_ ->] | [H _]]; auto. exfalso. apply H. now apply R.
  - assert (NR : ~ repeats edge_eqb edges j).
    { intro H. apply R in H. discriminate. }
    destruct (endpoint_out_of_bounds _ e) eqn:Hn.
    + split.
      * intros [= <-]. right. repeat split; auto. eauto.
      * intros [[H _] | [_ [_ ->]]]; auto. contradiction.
    + split; [discriminate |].
      intros [[H _] | [_ [(q & Hq & Hneg) _]]]; [contradiction |].
      rewrite He in Hq. inversion Hq; subst. congruence.
Qed.

Lemma fault_in_range_position (positions : InputNodes) (j : nat) (c : DiscoveryErrorCode) :
  position_fault positions j c -> exists p, nth_error positions j = Some p.
Proof.
  intros [[(i & x & y & _ & _ & Hy & _) _] | [_ [(p & Hp & _) _]]]; eauto.
Qed.

Lemma fault_in_range_edge (positions : InputNodes) (edges : InputEdges) (j : nat)
      (c : DiscoveryErrorCode) :
  edge_fault positions edges j c -> exists e, nth_error edges j = Some e.
Proof.
  intros [[(i & x & y & _ & _ & Hy & _) _] | [_ [(p & Hp & _) _]]]; eauto.
Qed.

(** The result of a scan, in terms of faults. *)
Lemma scan_first_fault {A} (check : list A -> A -> option DiscoveryErrorCode)
      (fault : nat -> DiscoveryErrorCode -> Prop) (l : list A) :
  (forall j x, nth_error l j = Some x ->
               forall c, check (firstn j l) x = Some c <-> fault j c) ->
  (forall j c, fault j c -> exists x, nth_error l j = Some x) ->
  match scan check [] l with
  | Some c => exists j, first_fault fault j c
  | None => no_fault fault
  end.
Proof.
  intros Hcheck Hrange.
  pose proof (scan_spec check l []) as S. simpl in S.
  destruct (scan check [] l) as [c |].
  - destruct S as (j & x & Hx & Hc & Hlt). exists j. split.
    + now apply (Hcheck j x Hx).
    + intros i c' Hi Hf.
      destruct (Hrange i c' Hf) as (y & Hy).
      apply (Hcheck i y Hy) in Hf. rewrite (Hlt i y Hi Hy) in Hf. discriminate.
  - intros j c Hf.
    destruct (Hrange j c Hf) as (x & Hx).
    apply (Hcheck j x Hx) in Hf. rewrite (S j x Hx) in Hf. discriminate.
Qed.

Lemma validateInputs_first_failure (positions : InputNodes) (edges : InputEdges) :
  first_failure positions edges (validateInputs positions edges).
Proof.
  unfold first_failure, validateInputs, graph_empty.
  destruct (_ || _); auto.
  rewrite validate_positions_scan.
  pose proof (scan_first_fault position_check (position_fault positions) positions
                (position_check_fault positions)
                (fault_in_range_position positions)) as SP.
  destruct (scan position_check [] positions) as [c |].
  - left. destruct SP as (j & Hj). eauto.
  - right.
    change (@nil String.string) with (map Key.of_edge []).
    rewrite validate_edges_scan.
    pose proof (scan_first_fault (edge_check (Z.of_nat (length positions) - 1))
                  (edge_fault positions edges) edges
                  (edge_check_fault positions edges)
                  (fault_in_range_edge positions edges)) as SE.
    destruct (scan _ [] edges) as [c |].
    + left. split; auto. destruct SE as (j & Hj). eauto.
    + right. auto.
Qed.

(** An edge list without a repeated ordered pair is never rejected as
    containing a duplicate. *)
Lemma NoDup_not_duplicate (positions : InputNodes) (edges : InputEdges) :
  NoDup edges -> validateInputs positions edges <> Some DUPLICATE_EDGE_FOUND.
Proof.
  intros ND H.
  pose proof (validateInputs_first_failure positions edges) as F.
  rewrite H in F. unfold first_failure in F.
  destruct (graph_empty positions edges); [discriminate |].
  destruct F as [(j & c & [Hf _] & Hc) | [(_ & j & c & [Hf _] & Hc) | (_ & _ & Hc)]];
    try discriminate.
  - inversion Hc; subst c.
    destruct Hf as [[_ Hc'] | [_ [_ Hc']]]; discriminate.
  - inversion Hc; subst c.
    destruct Hf as [[(i & x & y & Hlt & Hi & Hj & He) _] | [_ [_ Hc']]]; [| discriminate].
    unfold edge_eqb in He. apply andb_true_iff in He. destruct He as [E1 E2].
    apply Z.eqb_eq in E1, E2.
    assert (x = y) by (destruct x, y; simpl in *; congruence). subst y.
    rewrite NoDup_nth_error in ND.
    assert (i = j).
    { apply ND; [apply nth_error_Some; congruence | congruence]. }
    lia.
Qed.

End ValidationFacts.

(* ================================================================== *)
(** * Sign symmetry of binary floating-point arithmetic *)
(* ================================================================== *)

Module FloatFacts.

Import F64.

Section Sym.

Variables prec emax : Z.

Lemma feq_refl a : feq a a.
Proof. destruct a; simpl; auto. Qed.

Lemma feq_sym a b : feq a b -> feq b a.
Proof. destruct a, b; simpl; auto; discriminate. Qed.

Lemma feq_trans a b c : feq a b -> feq b c -> feq a c.
Proof. destruct a, b, c; simpl; auto; try discriminate; congruence. Qed.

Lemma feq_opp a b : feq a b -> feq (SFopp a) (SFopp b).
Proof. destruct a, b; simpl; auto; try discriminate; congruence. Qed.

Lemma binary_round_aux_opp s m e l :
  binary_round_aux prec emax (negb s) m e l = SFopp (binary_round_aux prec emax s m e l).
Proof.
  unfold binary_round_aux.
  destruct (shr_fexp prec emax m e l) as [mrs e'].
  destruct (shr_fexp prec emax _ e' loc_Exact) as [mrs' e''].
  destruct (shr_m mrs'); auto.
  destruct (e'' <=? emax - prec)%Z; auto.
Qed.

Lemma binary_round_opp s m e :
  binary_round prec emax (negb s) m e = SFopp (binary_round prec emax s m e).
Proof.
  unfold binary_round.
  destruct (shl_align m e _) as [mz ez].
  apply binary_round_aux_opp.
Qed.

Lemma binary_normalize_opp m e :
  feq (binary_normalize prec emax (- m) e false)
      (SFopp (binary_normalize prec emax m e false)).
Proof.
  destruct m; simpl; auto.
  - rewrite <- (binary_round_opp false). apply feq_refl.
  - rewrite <- (binary_round_opp true). apply feq_refl.
Qed.

Lemma SFadd_comm a b : SFadd prec emax a b = SFadd prec emax b a.
Proof.
  destruct a as [sa | sa | | sa ma ea], b as [sb | sb | | sb mb eb]; simpl; auto;
    try (destruct sa, sb; reflexivity).
  rewrite Z.min_comm. f_equal. apply Z.add_comm.
Qed.


Lemma SFsub_antisym a b :
  feq (SFsub prec emax b a) (SFopp (SFsub prec emax a b)).
Proof.
  destruct a as [sa | sa | | sa ma ea], b as [sb | sb | | sb mb eb]; simpl; auto;
    try (destruct sa, sb; simpl; auto; fail).
  replace (IntDef.Z.min eb ea) with (IntDef.Z.min ea eb) by (apply Z.min_comm).
  eapply feq_trans; [| apply binary_normalize_opp].
  match goal with |- feq (binary_normalize _ _ ?x _ _) (binary_normalize _ _ ?y _ _) =>
    replace x with y by lia end.
  apply feq_refl.
Qed.

Lemma SFadd_opp a b :
  feq (SFadd prec emax (SFopp a) (SFopp b)) (SFopp (SFadd prec emax a b)).
Proof.
  destruct a as [sa | sa | | sa ma ea], b as [sb | sb | | sb mb eb]; simpl; auto;
    try (destruct sa, sb; simpl; auto; fail).
  eapply feq_trans; [| apply binary_normalize_opp].
  match goal with |- feq (binary_normalize _ _ ?x _ _) (binary_normalize _ _ ?y _ _) =>
    replace x with y by (destruct sa, sb; cbn [negb cond_Zopp]; lia) end.
  apply feq_refl.
Qed.

Lemma SFmul_opp_l a b :
  SFmul prec emax (SFopp a) b = SFopp (SFmul prec emax a b).
Proof.
  destruct a as [sa | sa | | sa ma ea], b as [sb | sb | | sb mb eb]; simpl; auto;
    try (destruct sa, sb; reflexivity).
  rewrite <- binary_round_aux_opp. f_equal. destruct sa, sb; reflexivity.
Qed.

Lemma SFmul_feq_l a a' b : feq a a' -> feq (SFmul prec emax a b) (SFmul prec emax a' b).
Proof.
  destruct a, a'; simpl; intro H; try discriminate; try (inversion H; subst; apply feq_refl);
    destruct b; simpl; auto.
Qed.

Lemma SFadd_feq_l a a' b : feq a a' -> feq (SFadd prec emax a b) (SFadd prec emax a' b).
Proof.
  destruct a as [s | | |], a' as [s' | | |]; simpl; intro H; try discriminate;
    try (inversion H; subst; apply feq_refl); try reflexivity.
  destruct b as [sb | sb | | sb mb eb]; simpl; auto; destruct s, s', sb; simpl; auto.
Qed.

Lemma SFadd_feq_r a b b' : feq b b' -> feq (SFadd prec emax a b) (SFadd prec emax a b').
Proof.
  intro H. rewrite (SFadd_comm a b), (SFadd_comm a b'). now apply SFadd_feq_l.
Qed.

Lemma SFadd_zero_l a : feq (SFadd prec emax (S754_zero false) a) a.
Proof. destruct a as [s | | |]; simpl; auto. destruct s; simpl; auto. Qed.

(** Comparisons do not see the sign of zero. *)
Lemma SFcompare_feq_l a a' b : feq a a' -> SFcompare a b = SFcompare a' b.
Proof.
  destruct a, a'; simpl; intro H; try discriminate; try (inversion H; subst; auto).
  all: try (destruct b; auto).
Qed.

Lemma SFcompare_feq_r a b b' : feq b b' -> SFcompare a b = SFcompare a b'.
Proof.
  destruct b, b'; simpl; intro H; try discriminate; try (inversion H; subst; auto).
  all: try (destruct a; auto).
Qed.

Lemma SFeqb_opp_zero a s : SFeqb (SFopp a) (S754_zero s) = SFeqb a (S754_zero s).
Proof. destruct a as [sa | sa | | sa m e]; simpl; auto; destruct sa; auto. Qed.

Lemma SFltb_opp_zero a s : SFltb (S754_zero s) (SFopp a) = SFltb a (S754_zero s).
Proof. destruct a as [sa | sa | | sa m e]; simpl; auto; destruct sa; auto. Qed.

(** A number that is not NaN is zero, positive or negative. *)
Lemma sign_cases a s :
  a <> S754_nan ->
  (SFeqb a (S754_zero s) = true /\ SFltb (S754_zero s) a = false /\
   SFltb a (S754_zero s) = false) \/
  (SFeqb a (S754_zero s) = false /\ SFltb (S754_zero s) a = true /\
   SFltb a (S754_zero s) = false) \/
  (SFeqb a (S754_zero s) = false /\ SFltb (S754_zero s) a = false /\
   SFltb a (S754_zero s) = true).
Proof.
  destruct a as [sa | sa | | sa m e]; intro H; try congruence;
    unfold SFeqb, SFltb; simpl; destruct sa; auto.
Qed.

End Sym.

End FloatFacts.

(* ================================================================== *)
(** * The geometry kernel: structure of the sums *)
(* ================================================================== *)

Section GeometryFacts.

Context {N : Num}.
Local Open Scope num_scope.

Lemma fold_left_ext {A B} (f g : B -> A -> B) (l : list A) (acc : B) :
  (forall b a, f b a = g b a) -> fold_left f l acc = fold_left g l acc.
Proof.
  intro H. revert acc. induction l as [| x l IH]; intro acc; simpl; auto.
  now rewrite H, IH.
Qed.

(** A [reduce] that reads the successor of each point visits the cyclic
    edges of the list in order. *)
Lemma reduce_ix_successor {B} (g : B -> Position -> Position -> B) (l : list Position) :
  forall suf pre acc, l = pre ++ suf ->
    reduce_ix (fun acc pt ix => g acc pt (successor l ix pt)) suf (length pre) acc =
    fold_left (fun acc seg => g acc (fst seg) (snd seg))
              (combine suf (tl suf ++ firstn 1 l)) acc.
Proof.
  induction suf as [| pt suf IH]; intros pre acc Hl; simpl; auto.
  assert (Hs : successor l (length pre) pt = hd (hd pt l) suf).
  { unfold successor. subst l.
    rewrite nth_error_app2 by lia.
    replace (S (length pre) - length pre)%nat with 1%nat by lia.
    simpl. destruct suf; simpl; auto. }
  specialize (IH (pre ++ [pt]) (g acc pt (successor l (length pre) pt))).
  rewrite length_app in IH. simpl in IH. rewrite Nat.add_1_r in IH.
  rewrite IH by (rewrite <- app_assoc; exact Hl).
  rewrite Hs.
  destruct suf as [| q suf']; simpl.
  - subst l. destruct pre; simpl; auto.
  - reflexivity.
Qed.

Lemma fold_left_snoc {A} (l acc : list A) :
  fold_left (fun acc x => acc ++ [x]) l acc = acc ++ l.
Proof.
  revert acc. induction l as [| x l IH]; intro acc; simpl.
  - now rewrite app_nil_r.
  - rewrite IH, <- app_assoc. reflexivity.
Qed.

Lemma getLinePath_cyclic (l : list Position) : getLinePath l = cyclic_edges l.
Proof.
  unfold getLinePath, cyclic_edges.
  pose proof (reduce_ix_successor (fun acc pt q => acc ++ [(pt, q)]) l l [] [] eq_refl) as H.
  cbn [length app] in H. rewrite H. clear H.
  etransitivity; [| exact (fold_left_snoc (combine l (tl l ++ firstn 1 l)) [])].
  apply fold_left_ext. intros b [p q]. reflexivity.
Qed.

Lemma reduce_ix_winding (l suf : list Position) (k : nat) (acc : num) :
  reduce_ix (fun acc '(x1, y1) ix =>
               let '(x2, y2) := successor l ix (x1, y1) in
               acc + (x2 - x1) * (y2 + y1)) suf k acc =
  reduce_ix (fun acc pt ix => acc + winding_term (pt, successor l ix pt)) suf k acc.
Proof.
  revert k acc. induction suf as [| [x1 y1] suf IH]; intros k acc; simpl; auto.
  rewrite <- IH. f_equal.
  destruct (successor l k (x1, y1)). reflexivity.
Qed.

Lemma winding_sum_cyclic (l : list Position) :
  winding_sum l =
  fold_left (fun acc seg => acc + winding_term seg) (cyclic_edges l) (n_of_Z 0).
Proof.
  unfold winding_sum, cyclic_edges.
  pose proof (reduce_ix_successor (fun acc pt q => acc + winding_term (pt, q))
                l l [] (n_of_Z 0) eq_refl) as H.
  cbn [length app] in H.
  rewrite reduce_ix_winding.
  etransitivity; [exact H |].
  apply fold_left_ext. intros b [[x1 y1] [x2 y2]]. reflexivity.
Qed.

Lemma winding_sum_1 p :
  winding_sum [p] = n_of_Z 0 + winding_term (p, p).
Proof. destruct p. reflexivity. Qed.

Lemma winding_sum_2 p q :
  winding_sum [p; q] = (n_of_Z 0 + winding_term (p, q)) + winding_term (q, p).
Proof. destruct p, q. reflexivity. Qed.

Lemma winding_sum_3 p q r :
  winding_sum [p; q; r] =
  ((n_of_Z 0 + winding_term (p, q)) + winding_term (q, r)) + winding_term (r, p).
Proof. destruct p, q, r. reflexivity. Qed.

(** The area of a path whose winding order is [COLINEAR] is the literal 0. *)
Lemma colinear_area_zero (nodes : InputNodes) (polygon : InputPolygon)
      (path : list Position) :
  all_defined (getPointPath nodes (edges polygon)) = Returned path ->
  determineWindingOrder path = COLINEAR ->
  getPolygonArea nodes polygon = Returned (n_of_Z 0).
Proof.
  intros Hp Hw. unfold getPolygonArea. rewrite Hp. simpl. rewrite Hw. simpl.
  destruct (n_truthy (n_of_Z 0)); reflexivity.
Qed.

End GeometryFacts.

(* ================================================================== *)
(** * The geometry kernel in exact arithmetic *)
(* ================================================================== *)

Module ExactFacts.

Local Open Scope Q_scope.

Local Notation "'QPosition'" := (@Position Exact.rational).
Local Notation "'wsum'" := (@winding_sum Exact.rational).
Local Notation "'wterm'" := (@winding_term Exact.rational).
Local Notation "'worder'" := (@determineWindingOrder Exact.rational).

Ltac q_ops :=
  cbn [n_add n_sub n_mul n_div n_of_Z n_eqb n_ltb n_leb n_truthy num
       Exact.rational] in *.

Lemma Qsum_app (l l' : list Q) : Qsum (l ++ l') == Qsum l + Qsum l'.
Proof.
  induction l as [| x l IH]; simpl.
  - ring.
  - rewrite IH. ring.
Qed.

Lemma fold_left_Qsum {A} (g : A -> Q) (l : list A) (a : Q) :
  fold_left (fun acc x => acc + g x) l a == a + Qsum (map g l).
Proof.
  revert a. induction l as [| x l IH]; intro a; simpl.
  - ring.
  - rewrite IH. ring.
Qed.

Lemma fold_left_Qsum_minus {A} (g : A -> Q) (l : list A) (a : Q) :
  fold_left (fun acc x => acc - g x) l a == a - Qsum (map g l).
Proof.
  revert a. induction l as [| x l IH]; intro a; simpl.
  - ring.
  - rewrite IH. ring.
Qed.

Lemma wterm_swap (p q : QPosition) : wterm (q, p) == - wterm (p, q).
Proof. destruct p, q. unfold winding_term. q_ops. ring. Qed.

Lemma wterm_self (p : QPosition) : wterm (p, p) == 0.
Proof. destruct p. unfold winding_term. q_ops. ring. Qed.

(** The sum of the terms along an open path. *)
Local Notation "'psum' l" := (Qsum (map wterm (path_edges l))) (at level 10, l at level 9).

Lemma wsum_Qsum (l : list QPosition) : wsum l == Qsum (map wterm (cyclic_edges l)).
Proof.
  rewrite winding_sum_cyclic. q_ops.
  rewrite (fold_left_Qsum wterm). ring.
Qed.

Lemma cyclic_is_path (a c : QPosition) (r : list QPosition) :
  combine (a :: r) (r ++ [c]) = path_edges (a :: r ++ [c]).
Proof.
  unfold path_edges. revert a. induction r as [| b r IH]; intro a; simpl; auto.
  f_equal. apply IH.
Qed.

Lemma cyclic_edges_cons (a : QPosition) (r : list QPosition) :
  cyclic_edges (a :: r) = path_edges (a :: r ++ [a]).
Proof. unfold cyclic_edges. simpl tl. simpl firstn. apply cyclic_is_path. Qed.

Lemma last_cons_default {A} (a d d' : A) (r : list A) :
  last (a :: r) d = last (a :: r) d'.
Proof.
  revert a. induction r as [| b r IH]; intro a; auto.
  change (last (b :: r) d = last (b :: r) d'). apply IH.
Qed.

Lemma psum_snoc (a x : QPosition) (r : list QPosition) :
  psum ((a :: r) ++ [x]) == psum (a :: r) + wterm (last (a :: r) a, x).
Proof.
  revert a. induction r as [| b r IH]; intro a.
  - simpl. ring.
  - change (psum ((a :: b :: r) ++ [x])) with (wterm (a, b) + psum ((b :: r) ++ [x])).
    change (psum (a :: b :: r)) with (wterm (a, b) + psum (b :: r)).
    rewrite IH.
    change (last (a :: b :: r) a) with (last (b :: r) a).
    rewrite (last_cons_default b a b).
    ring.
Qed.

Lemma psum_rev (l : list QPosition) : psum (rev l) == - psum l.
Proof.
  induction l as [| a r IH].
  - simpl. ring.
  - destruct r as [| b r].
    + simpl. ring.
    + change (rev (a :: b :: r)) with (rev (b :: r) ++ [a]).
      destruct (rev (b :: r)) as [| z t] eqn:E.
      { apply (f_equal (@length _)) in E. rewrite length_rev in E. discriminate. }
      rewrite psum_snoc.
      change (psum (a :: b :: r)) with (wterm (a, b) + psum (b :: r)).
      rewrite IH.
      assert (L : last (z :: t) z = b).
      { rewrite <- E. simpl. rewrite last_last. reflexivity. }
      rewrite L, wterm_swap. ring.
Qed.

(** Reversing the points negates the winding sum. *)
Lemma wsum_rev (l : list QPosition) : wsum (rev l) == - wsum l.
Proof.
  rewrite !wsum_Qsum.
  destruct l as [| a r].
  - simpl. ring.
  - rewrite cyclic_edges_cons.
    destruct (rev (a :: r)) as [| z t] eqn:E.
    { apply (f_equal (@length _)) in E. rewrite length_rev in E. discriminate. }
    rewrite cyclic_edges_cons.
    change (z :: t ++ [z]) with ((z :: t) ++ [z]).
    rewrite psum_snoc.
    assert (L : last (z :: t) z = a).
    { rewrite <- E. simpl. rewrite last_last. reflexivity. }
    rewrite L.
    assert (R : rev (a :: r ++ [a]) = a :: z :: t).
    { change (a :: r ++ [a]) with ((a :: r) ++ [a]). rewrite rev_app_distr, E. reflexivity. }
    pose proof (psum_rev (a :: r ++ [a])) as P. rewrite R in P.
    change (psum (a :: z :: t)) with (wterm (a, z) + psum (z :: t)) in P.
    rewrite <- P. ring.
Qed.

(** The three outcomes of [determineWindingOrder] are the three signs of the
    winding sum. *)
Lemma worder_COLINEAR (l : list QPosition) : worder l = COLINEAR <-> wsum l == 0.
Proof.
  unfold determineWindingOrder. q_ops. unfold Exact.ltb.
  destruct (Qeq_bool (wsum l) (inject_Z 0)) eqn:E.
  - apply Qeq_bool_iff in E. split; auto.
  - apply Qeq_bool_neq in E. destruct (Qle_bool (wsum l) (inject_Z 0)); simpl;
      split; intro H; try discriminate; contradiction.
Qed.

Lemma worder_CW (l : list QPosition) : worder l = CW <-> 0 < wsum l.
Proof.
  unfold determineWindingOrder. q_ops. unfold Exact.ltb.
  destruct (Qeq_bool (wsum l) (inject_Z 0)) eqn:E.
  - apply Qeq_bool_iff in E. split; [discriminate |].
    intro H. rewrite E in H. unfold inject_Z in H. exfalso. revert H. apply Qlt_irrefl.
  - destruct (Qle_bool (wsum l) (inject_Z 0)) eqn:L; simpl.
    + apply Qle_bool_iff in L. split; [discriminate |].
      intro H. exfalso. apply (Qlt_irrefl 0). eapply Qlt_le_trans; eauto.
    + split; auto. intros _. apply Qnot_le_lt. intro H.
      apply Qle_bool_iff in H. unfold inject_Z in L. congruence.
Qed.

Lemma worder_CCW (l : list QPosition) : worder l = CCW <-> wsum l < 0.
Proof.
  pose proof (worder_COLINEAR l) as C. pose proof (worder_CW l) as W.
  destruct (worder l).
  - split; [discriminate |]. intro H. assert (0 < wsum l) by (now apply W).
    exfalso. apply (Qlt_irrefl 0). eapply Qlt_trans; eauto.
  - split; auto. intros _.
    destruct (Q_dec (wsum l) 0) as [[H | H] | H]; auto.
    + apply W in H. discriminate.
    + apply C in H. discriminate.
  - split; [discriminate |]. intro H. assert (E : wsum l == 0) by (now apply C).
    rewrite E in H. exfalso. revert H. apply Qlt_irrefl.
Qed.

Lemma exact_self_dual (l : list QPosition) : self_dual_at l.
Proof.
  unfold self_dual_at.
  rewrite !worder_CW, !worder_CCW, !worder_COLINEAR, !wsum_rev.
  repeat split; intro H; lra.
Qed.


(** ** Polygon area *)

Local Notation "'area_under'" := (@areaUnderLineSegment Exact.rational).

Lemma area_under_half (seg : @Segment Exact.rational) :
  area_under seg == wterm seg / 2.
Proof.
  destruct seg as [[x1 y1] [x2 y2]]. unfold areaUnderLineSegment, winding_term.
  q_ops. unfold inject_Z. field.
Qed.

Lemma Qsum_area_under (l : list (@Segment Exact.rational)) :
  Qsum (map area_under l) == Qsum (map wterm l) / 2.
Proof.
  induction l as [| seg l IH].
  - unfold Qsum. cbn [map fold_right]. field.
  - change (area_under seg + Qsum (map area_under l) ==
            (wterm seg + Qsum (map wterm l)) / 2).
    rewrite IH, area_under_half. field.
Qed.

(** The value computed by [irregularPolygonArea] on the line path of the
    points is half the absolute value of their winding sum. *)
Lemma irregular_area (l : list QPosition) :
  @irregularPolygonArea Exact.rational (getLinePath l) (worder l) ==
  Qabs (wsum l) / 2.
Proof.
  rewrite getLinePath_cyclic.
  pose proof (worder_CW l) as HW. pose proof (worder_CCW l) as HC.
  pose proof (worder_COLINEAR l) as HL.
  pose proof (wsum_Qsum l) as S.
  destruct (worder l); unfold irregularPolygonArea; q_ops.
  - rewrite (fold_left_Qsum area_under), Qsum_area_under, <- S.
    assert (0 < wsum l) by (now apply HW).
    rewrite Qabs_pos by lra. unfold inject_Z. field.
  - rewrite (fold_left_Qsum_minus area_under), Qsum_area_under, <- S.
    assert (wsum l < 0) by (now apply HC).
    rewrite Qabs_neg by lra. unfold inject_Z. field.
  - assert (E : wsum l == 0) by (now apply HL).
    rewrite E. unfold inject_Z. reflexivity.
Qed.

Lemma exact_truthy_or_zero (a : Q) :
  (if @n_truthy Exact.rational a then a else @n_of_Z Exact.rational 0) == a.
Proof.
  q_ops. destruct (Qeq_bool a 0) eqn:E; simpl.
  - apply Qeq_bool_iff in E. rewrite E. reflexivity.
  - reflexivity.
Qed.

Lemma exact_area (nodes : @InputNodes Exact.rational) (polygon : InputPolygon) (a : Q) :
  getPolygonArea nodes polygon = Returned a ->
  exists path, all_defined (getPointPath nodes (edges polygon)) = Returned path /\
               a == Qabs (wsum path) / 2.
Proof.
  unfold getPolygonArea.
  destruct (all_defined (getPointPath nodes (edges polygon))) as [path | |];
    cbn [obind]; try discriminate.
  intros [= <-]. exists path. split; auto.
  etransitivity; [apply exact_truthy_or_zero | apply irregular_area].
Qed.

(** ** Colinear points *)

Lemma wsum_3 (p q r : QPosition) :
  wsum [p; q; r] == wterm (p, q) + wterm (q, r) + wterm (r, p).
Proof. rewrite winding_sum_3. q_ops. unfold inject_Z. lra. Qed.

(** Along a path whose points are colinear with [p0], the terms telescope. *)
Lemma psum_fan (p0 a : QPosition) (r : list QPosition) :
  (forall x y, In x (a :: r) -> In y (a :: r) -> wsum [p0; x; y] == 0) ->
  psum (a :: r) == - wterm (p0, a) - wterm (last (a :: r) a, p0).
Proof.
  revert a. induction r as [| b r IH]; intros a H.
  - unfold Qsum. cbn [path_edges tl combine map fold_right last].
    pose proof (wterm_swap p0 a). lra.
  - change (psum (a :: b :: r)) with (wterm (a, b) + psum (b :: r)).
    rewrite IH by (intros x y Hx Hy; apply H; right; assumption).
    change (last (a :: b :: r) a) with (last (b :: r) a).
    rewrite (last_cons_default b a b).
    assert (T : wsum [p0; a; b] == 0) by (apply H; simpl; auto).
    rewrite wsum_3 in T. pose proof (wterm_swap p0 b). lra.
Qed.

Lemma colinear_wsum (l : list QPosition) : colinear l -> wsum l == 0.
Proof.
  intro C. rewrite wsum_Qsum.
  destruct l as [| a r].
  - reflexivity.
  - rewrite cyclic_edges_cons.
    change (a :: r ++ [a]) with (a :: (r ++ [a])).
    rewrite (psum_fan a).
    + change (last (a :: r ++ [a]) a) with (last ((a :: r) ++ [a]) a).
      rewrite last_last. pose proof (wterm_self a). lra.
    + intros x y Hx Hy. apply worder_COLINEAR. apply C.
      * simpl; auto.
      * change (In x ((a :: r) ++ [a])) in Hx. apply in_app_or in Hx.
        destruct Hx as [Hx | [Hx | []]]; [exact Hx | subst; simpl; auto].
      * change (In y ((a :: r) ++ [a])) in Hy. apply in_app_or in Hy.
        destruct Hy as [Hy | [Hy | []]]; [exact Hy | subst; simpl; auto].
Qed.

End ExactFacts.

(* ================================================================== *)
(** * The winding order of at most three points in double arithmetic *)
(* ================================================================== *)

Module DoubleFacts.

Import F64 FloatFacts.

Local Notation "'DPosition'" := (@Position F64.double).
Local Notation "'dsum'" := (@winding_sum F64.double).
Local Notation "'dterm'" := (@winding_term F64.double).
Local Notation "'dorder'" := (@determineWindingOrder F64.double).
Local Notation "a '~~' b" := (feq a b) (at level 70).
Local Notation "a '+!' b" := (SFadd prec emax a b) (at level 50, left associativity).

Lemma dterm_swap (p q : DPosition) : dterm (q, p) ~~ SFopp (dterm (p, q)).
Proof.
  destruct p as [x1 y1], q as [x2 y2]. unfold winding_term.
  cbn [n_sub n_add n_mul double].
  rewrite (SFadd_comm prec emax y1 y2), <- SFmul_opp_l.
  apply SFmul_feq_l. apply SFsub_antisym.
Qed.

Lemma zero_is_zero : @n_of_Z F64.double 0 = S754_zero false.
Proof. reflexivity. Qed.

Lemma dsum_rev_short (l : list DPosition) :
  (length l <= 3)%nat -> dsum (rev l) ~~ SFopp (dsum l).
Proof.
  destruct l as [| p [| q [| r [| s l]]]]; simpl length; intro L; try lia.
  - simpl. exact I.
  - simpl rev. rewrite winding_sum_1, zero_is_zero. cbn [n_add double].
    pose proof (dterm_swap p p) as T.
    eapply feq_trans; [apply SFadd_zero_l |].
    eapply feq_trans; [exact T |].
    apply feq_opp, feq_sym, SFadd_zero_l.
  - simpl rev. rewrite !winding_sum_2, zero_is_zero. cbn [n_add double].
    set (A := dterm (p, q)). set (B := dterm (q, p)).
    assert (HB : B ~~ SFopp A) by apply dterm_swap.
    assert (HA : A ~~ SFopp B) by apply dterm_swap.
    eapply feq_trans; [apply SFadd_feq_l, SFadd_zero_l |].
    eapply feq_trans; [apply SFadd_feq_l, HB |].
    eapply feq_trans; [apply SFadd_feq_r, HA |].
    eapply feq_trans; [apply SFadd_opp |].
    apply feq_opp, SFadd_feq_l, feq_sym, SFadd_zero_l.
  - simpl rev. rewrite !winding_sum_3, zero_is_zero. cbn [n_add double].
    set (A := dterm (p, q)). set (B := dterm (q, r)). set (C := dterm (r, p)).
    assert (HB : dterm (r, q) ~~ SFopp B) by apply dterm_swap.
    assert (HA : dterm (q, p) ~~ SFopp A) by apply dterm_swap.
    assert (HC : dterm (p, r) ~~ SFopp C) by apply dterm_swap.
    eapply feq_trans; [apply SFadd_feq_l, SFadd_feq_l, SFadd_zero_l |].
    eapply feq_trans; [apply SFadd_feq_l, SFadd_feq_l, HB |].
    eapply feq_trans; [apply SFadd_feq_l, SFadd_feq_r, HA |].
    eapply feq_trans; [apply SFadd_feq_r, HC |].
    eapply feq_trans; [apply SFadd_feq_l, SFadd_opp |].
    eapply feq_trans; [apply SFadd_opp |].
    apply feq_opp, SFadd_feq_l.
    rewrite (SFadd_comm prec emax B A).
    apply SFadd_feq_l, feq_sym, SFadd_zero_l.
Qed.

Lemma double_self_dual (l : list DPosition) :
  (length l <= 3)%nat -> dsum l <> S754_nan -> self_dual_at l.
Proof.
  intros L NN. pose proof (dsum_rev_short l L) as R.
  unfold self_dual_at, determineWindingOrder.
  rewrite zero_is_zero. cbn [n_eqb n_ltb double].
  assert (E : SFeqb (dsum (rev l)) (S754_zero false) = SFeqb (dsum l) (S754_zero false)).
  { unfold SFeqb. rewrite (SFcompare_feq_l _ _ (S754_zero false) R).
    apply (SFeqb_opp_zero (dsum l) false). }
  assert (G : SFltb (S754_zero false) (dsum (rev l)) = SFltb (dsum l) (S754_zero false)).
  { unfold SFltb. rewrite (SFcompare_feq_r (S754_zero false) _ _ R).
    apply (SFltb_opp_zero (dsum l) false). }
  rewrite E, G.
  destruct (sign_cases (dsum l) false NN) as [(H1 & H2 & H3) | [(H1 & H2 & H3) | (H1 & H2 & H3)]];
    rewrite ?H1, ?H2, ?H3; repeat split; intro H; congruence.
Qed.

End DoubleFacts.

(* ================================================================== *)
(** * The nesting tree *)
(* ================================================================== *)

Section AreaTreeFacts.

Context {N : Num}.
Local Open Scope num_scope.

Lemma obind_returned {A B} (c : outcome A) (k : A -> outcome B) (b : B) :
  obind c k = Returned b -> exists a, c = Returned a /\ k a = Returned b.
Proof. destruct c; simpl; intro H; try discriminate. eauto. Qed.

Lemma all_in_Forall (P : AreaTree -> Prop) (l : list AreaTree) :
  (fix all_in (l : list AreaTree) : Prop :=
     match l with
     | [] => True
     | c :: rest => all_nodes P c /\ all_in rest
     end) l <-> Forall (all_nodes P) l.
Proof.
  induction l as [| c l IH].
  - split; auto.
  - split.
    + intros [H1 H2]. constructor; auto. now apply IH.
    + intro H. inversion H; subst. split; auto. now apply IH.
Qed.

Lemma all_nodes_unfold (P : AreaTree -> Prop) (t : AreaTree) :
  all_nodes P t <-> P t /\ Forall (all_nodes P) (area_children t).
Proof.
  destruct t as [ch | ix total wc ch poly]; simpl; rewrite all_in_Forall; tauto.
Qed.

(** Induction on a tree with the hypothesis for all children. *)
Lemma AreaTree_children_ind (P : AreaTree -> Prop) :
  (forall t, Forall P (area_children t) -> P t) -> forall t, P t.
Proof.
  intro H. fix IH 1. intro t. apply H.
  destruct t as [ch | ix total wc ch poly]; simpl.
  - induction ch as [| c ch IHc]; constructor; [apply IH | exact IHc].
  - induction ch as [| c ch IHc]; constructor; [apply IH | exact IHc].
Qed.

Lemma all_nodes_impl (P Q : AreaTree -> Prop) :
  (forall x, P x -> Q x) -> forall t, all_nodes P t -> all_nodes Q t.
Proof.
  intro H. induction t as [t IH] using AreaTree_children_ind. intro Ht.
  apply all_nodes_unfold in Ht. destruct Ht as [H1 H2].
  apply all_nodes_unfold. split; auto.
  rewrite Forall_forall in *. auto.
Qed.

(** Adopting a completed node keeps the running subtraction up to date. *)
Lemma adopt_subtracts_each (parent newTree : AreaTree) (a : num) :
  total_of newTree = a ->
  all_nodes subtracts_each parent -> all_nodes subtracts_each newTree ->
  all_nodes subtracts_each (adopt parent newTree a).
Proof.
  intros Ha HP HN.
  apply all_nodes_unfold in HP. destruct HP as [HP HC].
  apply all_nodes_unfold.
  destruct parent as [ch | ix total wc ch poly]; simpl in *; split; auto.
  - apply Forall_app. split; auto.
  - rewrite fold_left_app. simpl. now rewrite <- HP, Ha.
  - apply Forall_app. split; auto.
Qed.

Lemma adopt_type (parent newTree : AreaTree) (a : num) :
  type (adopt parent newTree a) = type parent.
Proof. destruct parent; reflexivity. Qed.

Lemma adopt_total (parent newTree : AreaTree) (a : num) :
  total_of (adopt parent newTree a) = total_of parent.
Proof. destruct parent; reflexivity. Qed.

(** [traverseAreas] returns the node it was given, completed: same type,
    same total, and the subtraction law holds below it. *)
Lemma traverseAreas_spec (todo : nat) (nodes : InputNodes) :
  forall polygons parent parent' polygons',
    traverseAreas todo nodes polygons parent = Returned (parent', polygons') ->
    type parent' = type parent /\
    total_of parent' = total_of parent /\
    (all_nodes subtracts_each parent -> all_nodes subtracts_each parent').
Proof.
  induction todo as [| todo IH]; intros polygons parent parent' polygons' H; simpl in H.
  - inversion H; subst. auto.
  - destruct (nth_error polygons (length polygons - S todo)) as [p |] eqn:Hp.
    2:{ inversion H; subst. auto. }
    destruct (p_visited p).
    { eapply IH; eauto. }
    apply obind_returned in H. destruct H as (accepted & _ & H).
    destruct accepted.
    2:{ eapply IH; eauto. }
    apply obind_returned in H. destruct H as ([newTree polygons1] & Hnew & H).
    set (fresh := AreaTreeChild (length polygons - S todo) (area p) (area p) []
                                (p_edges p)) in *.
    assert (Hfresh : total_of newTree = area p /\ all_nodes subtracts_each newTree).
    { destruct (nth_error (mark_visited_at polygons (length polygons - S todo))
                          (length polygons - S todo + 1)).
      - apply IH in Hnew. destruct Hnew as (_ & Ht & Hs). split; auto.
        apply Hs. simpl. auto.
      - inversion Hnew; subst. simpl. auto. }
    destruct Hfresh as [Ht Hs].
    apply IH in H. destruct H as (Hty & Hto & Hsub).
    rewrite adopt_type in Hty. rewrite adopt_total in Hto.
    repeat split; auto.
    intro HP. apply Hsub. apply adopt_subtracts_each; auto.
Qed.

(** The node returned by [buildNestingTree] is the root it starts from. *)
Lemma buildNestingTree_spec (nodes : InputNodes) (polygons : list InputPolygon)
      (t : AreaTree) :
  buildNestingTree nodes polygons = Returned t ->
  type t = ROOT /\ all_nodes subtracts_each t.
Proof.
  unfold buildNestingTree. intro H.
  apply obind_returned in H. destruct H as (mapped & _ & H).
  apply obind_returned in H. destruct H as ([tree ps] & Ht & H).
  inversion H; subst.
  apply traverseAreas_spec in Ht. destruct Ht as (Hty & _ & Hs).
  split; auto. apply Hs. simpl. auto.
Qed.

Lemma getAreaTree_spec (fuel : nat) (nodes : InputNodes) (edges : InputEdges)
      (t : AreaTree) :
  getAreaTree fuel nodes edges = Returned t ->
  type t = ROOT /\ all_nodes subtracts_each t.
Proof.
  unfold getAreaTree.
  destruct (discover fuel nodes edges []) as [[[forest | reason] s] | |];
    try discriminate.
  apply buildNestingTree_spec.
Qed.

End AreaTreeFacts.

(** In exact arithmetic the running subtraction is the subtraction of the
    sum. *)
Lemma subtracts_each_exact (t : @AreaTree Exact.rational) :
  subtracts_each t -> subtracts_sum_exact t.
Proof.
  destruct t as [ch | ix total wc ch poly]; simpl; auto.
  intros ->. generalize total. clear.
  induction ch as [| c ch IH]; intro total.
  - unfold Qsum. cbn [map fold_right fold_left]. lra.
  - cbn [fold_left map]. rewrite IH. cbn [n_sub Exact.rational].
    change (Qsum (total_of c :: map total_of ch)) with
      (total_of c + Qsum (map total_of ch))%Q.
    change (@num Exact.rational) with Q in *. lra.
Qed.

(* ================================================================== *)
(** * The arena: elementary facts *)
(* ================================================================== *)

Module NatSetFacts.

Lemma In_delete (l : list nat) (b x : nat) :
  In x (NatSet.delete l b) <-> In x l /\ x <> b.
Proof.
  unfold NatSet.delete. rewrite filter_In.
  destruct (Nat.eqb_spec b x); simpl; intuition congruence.
Qed.

Lemma has_In (l : list nat) (x : nat) : NatSet.has l x = true <-> In x l.
Proof.
  unfold NatSet.has. rewrite existsb_exists. split.
  - intros (y & Hy & E). apply Nat.eqb_eq in E. congruence.
  - intro H. exists x. split; auto. apply Nat.eqb_refl.
Qed.

Lemma In_add (l : list nat) (b x : nat) :
  In x (NatSet.add l b) <-> In x l \/ x = b.
Proof.
  unfold NatSet.add. destruct (NatSet.has l b) eqn:E.
  - apply has_In in E. intuition congruence.
  - rewrite in_app_iff. simpl. intuition congruence.
Qed.

Lemma delete_incl (l : list nat) (b : nat) : incl (NatSet.delete l b) l.
Proof. intros x H. now apply In_delete in H. Qed.

Lemma add_not_nil (l : list nat) (b : nat) : NatSet.add l b <> [].
Proof.
  intro H. assert (In b (NatSet.add l b)) by (apply In_add; auto).
  rewrite H in H0. contradiction.
Qed.

Lemma NoDup_delete (l : list nat) (b : nat) : NoDup l -> NoDup (NatSet.delete l b).
Proof. apply NoDup_filter. Qed.

Lemma NoDup_add (l : list nat) (b : nat) : NoDup l -> NoDup (NatSet.add l b).
Proof.
  intro H. unfold NatSet.add. destruct (NatSet.has l b) eqn:E; auto.
  apply NoDup_app; auto.
  - constructor; auto. constructor.
  - intros x Hx [Hb | []]. subst. apply has_In in Hx. congruence.
Qed.

End NatSetFacts.

Section ArenaFacts.

Context {N : Num}.

Lemma length_update (s : VertexStore) (v : nat) (f : Vertex -> Vertex) :
  length (update s v f) = length s.
Proof.
  revert v. induction s as [| x s IH]; intros [| v]; simpl; auto.
Qed.

Lemma deref_update_same (s : VertexStore) (v : nat) (f : Vertex -> Vertex) :
  (v < length s)%nat -> deref (update s v f) v = f (deref s v).
Proof.
  unfold deref. revert v. induction s as [| x s IH]; intros [| v] H; simpl in *;
    try lia; auto. apply IH. lia.
Qed.

Lemma deref_update_other (s : VertexStore) (v i : nat) (f : Vertex -> Vertex) :
  i <> v -> deref (update s v f) i = deref s i.
Proof.
  unfold deref. revert v i. induction s as [| x s IH]; intros [| v] [| i] H; simpl;
    auto; try congruence.
Qed.

Lemma update_out_of_range (s : VertexStore) (v : nat) (f : Vertex -> Vertex) :
  (length s <= v)%nat -> update s v f = s.
Proof.
  revert v. induction s as [| x s IH]; intros [| v] H; simpl in *; auto; try lia.
  f_equal. apply IH. lia.
Qed.

Lemma deref_out_of_range (s : VertexStore) (v : nat) :
  (length s <= v)%nat -> deref s v = no_vertex.
Proof. intro H. unfold deref. now apply nth_overflow. Qed.

Lemma adj_out_of_range (s : VertexStore) (v : nat) :
  (length s <= v)%nat -> adj s v = [].
Proof. intro H. unfold adj. now rewrite deref_out_of_range. Qed.

Lemma adj_in_range (s : VertexStore) (v x : nat) : In x (adj s v) -> (v < length s)%nat.
Proof.
  intro H. destruct (Nat.lt_ge_cases v (length s)); auto.
  rewrite adj_out_of_range in H by auto. contradiction.
Qed.

(** The effect of an update that keeps name and position. *)
Lemma deref_update_fields (s : VertexStore) (v i : nat) (f : Vertex -> Vertex) :
  (forall x, name (f x) = name x) -> (forall x, position (f x) = position x) ->
  name (deref (update s v f) i) = name (deref s i) /\
  position (deref (update s v f) i) = position (deref s i).
Proof.
  intros Hn Hp. destruct (Nat.eq_dec i v) as [-> | Hne].
  - destruct (Nat.lt_ge_cases v (length s)).
    + rewrite deref_update_same by auto. auto.
    + rewrite update_out_of_range by auto. auto.
  - rewrite deref_update_other by auto. auto.
Qed.

Lemma adj_adjacent_delete (s : VertexStore) (a b i : nat) :
  adj (adjacent_delete a b s) i =
  if Nat.eqb i a then NatSet.delete (adj s i) b else adj s i.
Proof.
  unfold adj, adjacent_delete. destruct (Nat.eqb_spec i a) as [-> | Hne].
  - destruct (Nat.lt_ge_cases a (length s)).
    + rewrite deref_update_same by auto. reflexivity.
    + rewrite update_out_of_range by auto. rewrite deref_out_of_range by auto.
      reflexivity.
  - now rewrite deref_update_other.
Qed.

Lemma adj_adjacent_add (s : VertexStore) (a b i : nat) :
  (a < length s)%nat ->
  adj (adjacent_add a b s) i =
  if Nat.eqb i a then NatSet.add (adj s i) b else adj s i.
Proof.
  intro H. unfold adj, adjacent_add. destruct (Nat.eqb_spec i a) as [-> | Hne].
  - rewrite deref_update_same by auto. reflexivity.
  - now rewrite deref_update_other.
Qed.

Lemma adj_set_visited (s : VertexStore) (v b i : nat) :
  adj (set_visited v b s) i = adj s i.
Proof.
  unfold adj, set_visited. destruct (Nat.eq_dec i v) as [-> | Hne].
  - destruct (Nat.lt_ge_cases v (length s)).
    + rewrite deref_update_same by auto. reflexivity.
    + now rewrite update_out_of_range.
  - now rewrite deref_update_other.
Qed.

Lemma fields_adjacent_delete (s : VertexStore) (a b i : nat) :
  name (deref (adjacent_delete a b s) i) = name (deref s i) /\
  position (deref (adjacent_delete a b s) i) = position (deref s i).
Proof. apply deref_update_fields; reflexivity. Qed.

Lemma fields_adjacent_add (s : VertexStore) (a b i : nat) :
  name (deref (adjacent_add a b s) i) = name (deref s i) /\
  position (deref (adjacent_add a b s) i) = position (deref s i).
Proof. apply deref_update_fields; reflexivity. Qed.

Lemma fields_set_visited (s : VertexStore) (v b i : nat) :
  name (deref (set_visited v b s) i) = name (deref s i) /\
  position (deref (set_visited v b s) i) = position (deref s i).
Proof. apply deref_update_fields; reflexivity. Qed.

Lemma visited_set_visited (s : VertexStore) (v b i : nat) :
  visited (deref (set_visited v b s) i) =
  if Nat.eqb i v && (v <? length s)%nat then b else visited (deref s i).
Proof.
  unfold set_visited. destruct (Nat.eqb_spec i v) as [-> | Hne]; simpl.
  - destruct (Nat.ltb_spec v (length s)).
    + rewrite deref_update_same by auto. reflexivity.
    + now rewrite update_out_of_range.
  - now rewrite deref_update_other.
Qed.

Lemma length_adjacent_delete (s : VertexStore) (a b : nat) :
  length (adjacent_delete a b s) = length s.
Proof. apply length_update. Qed.

Lemma length_adjacent_add (s : VertexStore) (a b : nat) :
  length (adjacent_add a b s) = length s.
Proof. apply length_update. Qed.

Lemma length_set_visited (s : VertexStore) (v b : nat) :
  length (set_visited v b s) = length s.
Proof. apply length_update. Qed.

(** ** Relations between states *)

Lemma later_refl (s : VertexStore) : later s s.
Proof. split; auto. Qed.

Lemma later_trans (s1 s2 s3 : VertexStore) : later s1 s2 -> later s2 s3 -> later s1 s3.
Proof.
  intros [L1 H1] [L2 H2]. split; [lia |].
  intros i Hi. destruct (H1 i Hi) as [A B]. destruct (H2 i ltac:(lia)) as [C D].
  split; congruence.
Qed.

Lemma pruned_refl (s : VertexStore) : pruned s s.
Proof. split; auto. intro i. repeat split; auto. apply incl_refl. Qed.

Lemma pruned_trans (s1 s2 s3 : VertexStore) : pruned s1 s2 -> pruned s2 s3 -> pruned s1 s3.
Proof.
  intros [L1 H1] [L2 H2]. split; [congruence |].
  intro i. destruct (H1 i) as (A & B & C). destruct (H2 i) as (D & E & F).
  repeat split; try congruence. eapply incl_tran; eauto.
Qed.

Lemma pruned_later (s s' : VertexStore) : pruned s s' -> later s s'.
Proof.
  intros [L H]. split; [lia |]. intros i _. destruct (H i) as (_ & A & B). auto.
Qed.

Lemma pruned_stays_isolated (s s' : VertexStore) : pruned s s' -> stays_isolated s s'.
Proof.
  intros [L H] i _ E. destruct (H i) as (I & _). rewrite E in I.
  destruct (adj s' i) as [| x l]; auto. exfalso. apply (I x). simpl; auto.
Qed.

Lemma pruned_well_formed (s s' : VertexStore) :
  pruned s s' -> well_formed s -> well_formed s'.
Proof.
  intros [L H] W i j Hj. rewrite L. destruct (H i) as (I & _). eapply W. apply I. eauto.
Qed.

Lemma pruned_names (Q : Z -> Prop) (s s' : VertexStore) :
  pruned s s' -> names_satisfy Q s -> names_satisfy Q s'.
Proof.
  intros [L H] Hn i Hi. destruct (H i) as (_ & E & _). rewrite E. apply Hn. lia.
Qed.

Lemma same_graph_pruned (s s' : VertexStore) : same_graph s s' -> pruned s s'.
Proof.
  intros [L H]. split; auto. intro i. destruct (H i) as (A & B & C).
  repeat split; auto. rewrite A. apply incl_refl.
Qed.

Lemma same_graph_refl (s : VertexStore) : same_graph s s.
Proof. split; auto. Qed.

Lemma same_graph_trans (s1 s2 s3 : VertexStore) :
  same_graph s1 s2 -> same_graph s2 s3 -> same_graph s1 s3.
Proof.
  intros [L1 H1] [L2 H2]. split; [congruence |].
  intro i. destruct (H1 i) as (A & B & C). destruct (H2 i) as (D & E & F).
  repeat split; congruence.
Qed.

Lemma same_graph_symmetric (s s' : VertexStore) :
  same_graph s s' -> symmetric s -> symmetric s'.
Proof.
  intros [L H] S i j Hj. destruct (H i) as (A & _). destruct (H j) as (B & _).
  rewrite B. apply S. now rewrite <- A.
Qed.

Lemma same_graph_set_visited (s : VertexStore) (v b : nat) :
  same_graph s (set_visited v b s).
Proof.
  split; [apply length_set_visited |].
  intro i. split; [apply adj_set_visited | apply fields_set_visited].
Qed.

Lemma stays_isolated_refl (s : VertexStore) : stays_isolated s s.
Proof. intros i _ E. exact E. Qed.

Lemma stays_isolated_trans (s1 s2 s3 : VertexStore) :
  (length s1 <= length s2)%nat ->
  stays_isolated s1 s2 -> stays_isolated s2 s3 -> stays_isolated s1 s3.
Proof. intros L H1 H2 i Hi E. apply H2; [lia |]. now apply H1. Qed.

(** ** Deleting and adding an edge in both directions *)

Lemma pruned_adjacent_delete (s : VertexStore) (a b : nat) :
  pruned s (adjacent_delete a b s).
Proof.
  split; [apply length_adjacent_delete |].
  intro i. split; [| apply fields_adjacent_delete].
  rewrite adj_adjacent_delete. destruct (Nat.eqb i a).
  - apply NatSetFacts.delete_incl.
  - apply incl_refl.
Qed.

Lemma symmetric_unlink (s : VertexStore) (a b : nat) :
  symmetric s -> symmetric (adjacent_delete b a (adjacent_delete a b s)).
Proof.
  intros S i j. rewrite !adj_adjacent_delete.
  repeat match goal with
         | |- context [Nat.eqb ?x ?y] => destruct (Nat.eqb_spec x y)
         end;
    rewrite ?NatSetFacts.In_delete; intros H; subst; intuition auto; try congruence.
Qed.

Lemma symmetric_link (s : VertexStore) (a b : nat) :
  (a < length s)%nat -> (b < length s)%nat ->
  symmetric s -> symmetric (adjacent_add b a (adjacent_add a b s)).
Proof.
  intros Ha Hb S i j.
  rewrite !(adj_adjacent_add (adjacent_add a b s))
    by (rewrite length_adjacent_add; auto).
  rewrite !(adj_adjacent_add s) by auto.
  repeat match goal with
         | |- context [Nat.eqb ?x ?y] => destruct (Nat.eqb_spec x y)
         end;
    rewrite ?NatSetFacts.In_add; intros H; subst; intuition auto; try congruence.
Qed.

Lemma well_formed_adjacent_add (s : VertexStore) (a b : nat) :
  (b < length s)%nat -> well_formed s -> well_formed (adjacent_add a b s).
Proof.
  intros Hb W i j Hj. rewrite length_adjacent_add.
  destruct (Nat.lt_ge_cases a (length s)) as [Ha | Ha].
  - rewrite adj_adjacent_add in Hj by auto.
    destruct (Nat.eqb i a).
    + apply NatSetFacts.In_add in Hj. destruct Hj as [Hj | ->]; eauto.
    + eauto.
  - unfold adjacent_add in Hj. rewrite update_out_of_range in Hj by auto. eauto.
Qed.

End ArenaFacts.

(* ================================================================== *)
(** * Computations over the arena: inversion *)
(* ================================================================== *)

Section MonadFacts.

Context {N : Num}.

Lemma mbind_returned {A B} (c : M A) (k : A -> M B) (s : VertexStore) (b : B)
      (s' : VertexStore) :
  mbind c k s = Returned (b, s') ->
  exists a s1, c s = Returned (a, s1) /\ k a s1 = Returned (b, s').
Proof.
  unfold mbind. destruct (c s) as [[a s1] | |]; intro H; try discriminate. eauto.
Qed.

Lemma ret_returned {A} (a b : A) (s s' : VertexStore) :
  ret a s = Returned (b, s') -> b = a /\ s' = s.
Proof. unfold ret. intros [= <- <-]. auto. Qed.

Lemma get_returned (s x s' : VertexStore) :
  get s = Returned (x, s') -> x = s /\ s' = s.
Proof. unfold get. intros [= <- <-]. auto. Qed.

Lemma modify_returned (f : VertexStore -> VertexStore) (s : VertexStore) (u : unit)
      (s' : VertexStore) :
  modify f s = Returned (u, s') -> s' = f s.
Proof. unfold modify. intros [= <-]. auto. Qed.

Lemma lift_returned {A} (o : outcome A) (s : VertexStore) (a : A) (s' : VertexStore) :
  lift o s = Returned (a, s') -> o = Returned a /\ s' = s.
Proof. unfold lift. destruct o; intros [= <- <-]. auto. Qed.

Lemma defined_returned {A} (o : option A) (a : A) :
  defined o = Returned a -> o = Some a.
Proof. destruct o; simpl; intros [= <-]. auto. Qed.

Lemma new_vertex_returned (nm : Z) (pos : Position) (s : VertexStore) (v : nat)
      (s' : VertexStore) :
  new_vertex nm pos s = Returned (v, s') ->
  v = length s /\
  s' = s ++ [{| name := nm; position := pos; adjacent := []; visited := 0 |}].
Proof. unfold new_vertex. intros [= <- <-]. auto. Qed.

End MonadFacts.

(** Inversion of a computation that returned. *)
Ltac minv :=
  repeat match goal with
         | H : mbind _ _ _ = Returned _ |- _ =>
             let a := fresh "a" in
             let s := fresh "s" in
             let Ha := fresh "Hc" in
             apply mbind_returned in H; destruct H as (a & s & Ha & H)
         | H : ret _ _ = Returned _ |- _ =>
             apply ret_returned in H; destruct H; subst
         | H : get _ = Returned _ |- _ =>
             apply get_returned in H; destruct H; subst
         | H : modify _ _ = Returned _ |- _ =>
             apply modify_returned in H; subst
         | H : lift _ _ = Returned _ |- _ =>
             apply lift_returned in H; destruct H; subst
         | H : defined _ = Returned _ |- _ =>
             apply defined_returned in H
         | H : new_vertex _ _ _ = Returned _ |- _ =>
             apply new_vertex_returned in H; destruct H; subst
         | H : throw _ = Returned _ |- _ => discriminate H
         | H : out_of_fuel _ = Returned _ |- _ => discriminate H
         | H : Threw = Returned _ |- _ => discriminate H
         | H : OutOfFuel = Returned _ |- _ => discriminate H
         end.

(* ================================================================== *)
(** * depthFirstSearch *)
(* ================================================================== *)

Section SearchFacts.

Context {N : Num}.

Lemma same_graph_well_formed (s s' : VertexStore) :
  same_graph s s' -> well_formed s -> well_formed s'.
Proof. intro H. apply pruned_well_formed. now apply same_graph_pruned. Qed.

(** The search only changes marks; every vertex that was on the stack ends
    in the component; a vertex is marked only if it ends in the component. *)
Lemma depthFirstSearch_loop_spec (fuel : nat) :
  forall vStack component s component' s',
    depthFirstSearch_loop fuel vStack component s = Returned (component', s') ->
    same_graph s s' /\
    incl component component' /\
    incl vStack component' /\
    (forall i, visited (deref s' i) <> 0%nat ->
               visited (deref s i) <> 0%nat \/ In i component') /\
    (well_formed s ->
     (forall x, In x vStack -> (x < length s)%nat) ->
     (forall x, In x component -> (x < length s)%nat) ->
     forall x, In x component' -> (x < length s)%nat).
Proof.
  induction fuel as [| fuel IH]; intros vStack component s component' s' H;
    cbn [depthFirstSearch_loop] in H; [discriminate |].
  destruct vStack as [| vertex below].
  - minv. refine (conj _ (conj _ (conj _ (conj _ _)))); auto using same_graph_refl, incl_refl.
    intros x [].
  - minv.
    pose proof (same_graph_set_visited s vertex 1) as G1.
    destruct (find _ (adj (set_visited vertex 1 s) vertex)) as [adjacent |] eqn:F.
    + apply find_some in F. destruct F as [Fin _].
      rewrite adj_set_visited in Fin.
      apply IH in H. destruct H as (G & I1 & I2 & V & W).
      refine (conj _ (conj _ (conj _ (conj _ _)))).
      * eapply same_graph_trans; eauto.
      * auto.
      * intros x Hx. apply I2. right. exact Hx.
      * intros i Hi. destruct (V i Hi) as [Hv | Hc]; auto.
        rewrite visited_set_visited in Hv.
        destruct (Nat.eqb_spec i vertex) as [-> | Hne]; simpl in Hv; auto.
        destruct (vertex <? length s)%nat; auto.
        right. apply I2. simpl; auto.
      * intros WF Hs Hc x Hx.
        rewrite <- (length_set_visited s vertex 1).
        apply W; auto.
        -- eapply same_graph_well_formed; eauto.
        -- rewrite length_set_visited. intros y [<- | Hy]; [| auto].
           eapply WF; eauto.
        -- rewrite length_set_visited. auto.
    + minv.
      pose proof (same_graph_set_visited (set_visited vertex 1 s) vertex 2) as G2.
      apply IH in H. destruct H as (G & I1 & I2 & V & W).
      refine (conj _ (conj _ (conj _ (conj _ _)))).
      * eapply same_graph_trans; [| eauto]. eapply same_graph_trans; eauto.
      * intros x Hx. apply I1. apply in_or_app. auto.
      * intros x [<- | Hx]; [| auto]. apply I1. apply in_or_app. simpl; auto.
      * intros i Hi. destruct (V i Hi) as [Hv | Hc]; auto.
        rewrite !visited_set_visited in Hv.
        destruct (Nat.eqb_spec i vertex) as [-> | Hne]; simpl in Hv; auto.
        right. apply I1. apply in_or_app. simpl; auto.
      * intros WF Hs Hc x Hx.
        rewrite <- (length_set_visited s vertex 1).
        rewrite <- (length_set_visited (set_visited vertex 1 s) vertex 2).
        apply W; auto.
        -- eapply same_graph_well_formed; [| exact WF].
           eapply same_graph_trans; eauto.
        -- rewrite !length_set_visited. intros y Hy. apply Hs. right. exact Hy.
        -- rewrite !length_set_visited. intros y Hy. apply in_app_or in Hy.
           destruct Hy as [Hy | [<- | []]]; auto. apply Hs. simpl; auto.
Qed.

Lemma depthFirstSearch_spec (fuel : nat) (vInitial : nat) (s : VertexStore)
      (component' : list nat) (s' : VertexStore) :
  depthFirstSearch fuel vInitial [] s = Returned (component', s') ->
  same_graph s s' /\
  In vInitial component' /\
  (forall i, visited (deref s' i) <> 0%nat ->
             visited (deref s i) <> 0%nat \/ In i component') /\
  (well_formed s -> (vInitial < length s)%nat ->
   forall x, In x component' -> (x < length s)%nat).
Proof.
  intro H. apply depthFirstSearch_loop_spec in H.
  destruct H as (G & _ & I & V & W). refine (conj _ (conj _ (conj _ _))); auto.
  - apply I. simpl; auto.
  - intros WF Hv. apply W; auto.
    + intros x [<- | []]. auto.
    + intros x [].
Qed.

End SearchFacts.

(* ================================================================== *)
(** * The planar walker and the closed walk *)
(* ================================================================== *)

Section WalkFacts.

Context {N : Num}.

(** A step of either walker keeps the current choice or takes the adjacent
    record it looks at. *)
Lemma getClockwiseMost_step_choice (s : VertexStore) (vPrev : option nat) (vCurr : nat)
      (dCurr : Dir) (st : WalkerState) (vAdj : nat) :
  fst (fst (getClockwiseMost_step s vPrev vCurr dCurr st vAdj)) = fst (fst st) \/
  fst (fst (getClockwiseMost_step s vPrev vCurr dCurr st vAdj)) = Some vAdj.
Proof.
  unfold getClockwiseMost_step. destruct st as [[vNext dNext] convex].
  destruct (is_ref vPrev vAdj); auto.
  destruct vNext; simpl; auto.
  destruct convex; match goal with |- context [if ?c then _ else _] => destruct c end;
    simpl; auto.
Qed.

Lemma getCounterClockwiseMost_step_choice (s : VertexStore) (vPrev : option nat)
      (vCurr : nat) (dCurr : Dir) (st : WalkerState) (vAdj : nat) :
  fst (fst (getCounterClockwiseMost_step s vPrev vCurr dCurr st vAdj)) = fst (fst st) \/
  fst (fst (getCounterClockwiseMost_step s vPrev vCurr dCurr st vAdj)) = Some vAdj.
Proof.
  unfold getCounterClockwiseMost_step. destruct st as [[vNext dNext] convex].
  destruct (is_ref vPrev vAdj); auto.
  destruct vNext; simpl; auto.
  destruct convex; match goal with |- context [if ?c then _ else _] => destruct c end;
    simpl; auto.
Qed.

Lemma fold_choice (step : WalkerState -> nat -> WalkerState) (l : list nat) :
  (forall st a, fst (fst (step st a)) = fst (fst st) \/ fst (fst (step st a)) = Some a) ->
  forall st, fst (fst (fold_left step l st)) = fst (fst st) \/
             exists a, In a l /\ fst (fst (fold_left step l st)) = Some a.
Proof.
  intro H. induction l as [| x l IH]; intro st; simpl; auto.
  destruct (IH (step st x)) as [E | (a & Ha & E)].
  - rewrite E. destruct (H st x) as [E' | E']; auto.
    right. exists x. auto.
  - right. exists a. auto.
Qed.

(** Both walkers return [null] or a record adjacent to [vCurr]. *)
Lemma getClockwiseMost_adjacent (s : VertexStore) (vPrev : option nat) (vCurr a : nat) :
  getClockwiseMost s vPrev vCurr = Some a -> In a (adj s vCurr).
Proof.
  unfold getClockwiseMost. intro H.
  destruct (fold_choice (getClockwiseMost_step s vPrev vCurr (incoming s vPrev vCurr))
              (adj s vCurr) (getClockwiseMost_step_choice s vPrev vCurr _)
              (None, (n_of_Z 0, n_of_Z 0), false)) as [E | (x & Hx & E)].
  - rewrite E in H. discriminate.
  - rewrite E in H. congruence.
Qed.

Lemma getCounterClockwiseMost_adjacent (s : VertexStore) (vPrev : option nat)
      (vCurr a : nat) :
  getCounterClockwiseMost s vPrev vCurr = Some a -> In a (adj s vCurr).
Proof.
  unfold getCounterClockwiseMost. intro H.
  destruct (fold_choice (getCounterClockwiseMost_step s vPrev vCurr (incoming s vPrev vCurr))
              (adj s vCurr) (getCounterClockwiseMost_step_choice s vPrev vCurr _)
              (None, (n_of_Z 0, n_of_Z 0), false)) as [E | (x & Hx & E)].
  - rewrite E in H. discriminate.
  - rewrite E in H. congruence.
Qed.

(** A record without adjacent records has no clockwise-most neighbour. *)
Lemma getClockwiseMost_isolated (s : VertexStore) (vPrev : option nat) (vCurr : nat) :
  adj s vCurr = [] -> getClockwiseMost s vPrev vCurr = None.
Proof. unfold getClockwiseMost. intros ->. reflexivity. Qed.

(** The walk loop leaves the arena alone and appends records that are
    adjacent to their predecessor, none of them being the start. *)
Lemma closedWalk_loop_spec (n : nat) (vStart : nat) :
  forall closedWalk vCurr vAdj s walk' s',
    closedWalk_loop n vStart closedWalk vCurr vAdj s = Returned (walk', s') ->
    s' = s /\
    exists rest, walk' = closedWalk ++ rest /\
                 ~ In vStart rest /\
                 (well_formed s ->
                  (forall a, vAdj = Some a -> (a < length s)%nat) ->
                  forall x, In x rest -> (x < length s)%nat) /\
                 (exists a, vAdj = Some a /\ hd vStart rest = a).
Proof.
  induction n as [| n IH]; intros closedWalk vCurr vAdj s walk' s' H;
    cbn [closedWalk_loop] in H; [discriminate |].
  destruct vAdj as [a |]; [| discriminate].
  destruct (Nat.eqb_spec a vStart) as [-> | Hne].
  - minv. split; auto. exists []. rewrite app_nil_r.
    refine (conj _ (conj _ (conj _ _))); auto.
    + intros W Ha x [].
    + exists vStart. auto.
  - minv.
    pose proof (getCounterClockwiseMost_adjacent s (Some vCurr) a) as G.
    apply IH in H. destruct H as (-> & rest & -> & Hn & Hv & _).
    split; auto. exists (a :: rest). rewrite <- app_assoc.
    refine (conj _ (conj _ (conj _ _))); auto.
    + intros [E | E]; [congruence | contradiction].
    + intros W Ha x [<- | Hx]; auto.
      apply Hv; auto. intros b Hb. eapply W. apply G. exact Hb.
    + exists a. auto.
Qed.


(** ** Loops that delete edges *)


Lemma unlinked_refl (s : VertexStore) : unlinked s s.
Proof. split; auto using pruned_refl. Qed.

Lemma unlinked_trans (s1 s2 s3 : VertexStore) :
  unlinked s1 s2 -> unlinked s2 s3 -> unlinked s1 s3.
Proof. intros [P1 S1] [P2 S2]. split; eauto using pruned_trans. Qed.

Lemma unlink_spec (a b : nat) (s : VertexStore) (u : unit) (s' : VertexStore) :
  unlink a b s = Returned (u, s') ->
  s' = adjacent_delete b a (adjacent_delete a b s) /\ unlinked s s'.
Proof.
  unfold unlink. intro H. minv. split; auto. split.
  - eapply pruned_trans; apply pruned_adjacent_delete.
  - apply symmetric_unlink.
Qed.

Lemma forEach_spec {A} (R : VertexStore -> VertexStore -> Prop) (body : A -> M unit) :
  (forall s, R s s) -> (forall s1 s2 s3, R s1 s2 -> R s2 s3 -> R s1 s3) ->
  forall l,
    (forall x s u s', In x l -> body x s = Returned (u, s') -> R s s') ->
    forall s u s', forEach l body s = Returned (u, s') -> R s s'.
Proof.
  intros Hr Ht. induction l as [| x l IH]; intros Hb s u s' H; cbn [forEach] in H.
  - minv. auto.
  - minv. eapply Ht.
    + eapply Hb; [left; reflexivity | eauto].
    + eapply IH; eauto. intros y s1 u1 s2 Hy. apply Hb. right. exact Hy.
Qed.

Lemma extractCycle_forward_spec (fuel : nat) (vBranch : option nat) :
  forall v1 s r s',
    extractCycle_forward fuel vBranch v1 s = Returned (r, s') -> unlinked s s'.
Proof.
  induction fuel as [| fuel IH]; intros v1 s r s' H;
    cbn [extractCycle_forward] in H; [discriminate |].
  minv. destruct (_ && _).
  - destruct (adj s v1) as [| a l]; [discriminate |].
    minv. apply unlink_spec in Hc. destruct Hc as [_ U].
    eapply unlinked_trans; eauto.
  - minv. apply unlinked_refl.
Qed.

Lemma extractCycle_backward_spec (fuel : nat) (vBranch : nat) :
  forall v0 s r s',
    extractCycle_backward fuel vBranch v0 s = Returned (r, s') -> unlinked s s'.
Proof.
  induction fuel as [| fuel IH]; intros v0 s r s' H;
    cbn [extractCycle_backward] in H; [discriminate |].
  minv. destruct (_ && _).
  - destruct (adj s v0) as [| a l]; [discriminate |].
    minv. apply unlink_spec in Hc. destruct Hc as [_ U].
    eapply unlinked_trans; eauto.
  - minv. apply unlinked_refl.
Qed.

(** [extractCycle] returns the names along the walk and deletes edges. *)
Lemma extractCycle_spec (fuel : nat) (closedWalk : list nat) (s : VertexStore)
      (c : list Z) (s' : VertexStore) :
  extractCycle fuel closedWalk s = Returned (c, s') ->
  c = map (fun v => name (deref s v)) closedWalk /\ unlinked s s'.
Proof.
  unfold extractCycle. intro H. minv. split; auto.
  apply unlink_spec in Hc2. destruct Hc2 as [_ U1].
  apply extractCycle_forward_spec in Hc3.
  eapply unlinked_trans; [exact U1 |].
  eapply unlinked_trans; [exact Hc3 |].
  destruct (negb _).
  - eapply extractCycle_backward_spec; eauto.
  - minv. apply unlinked_refl.
Qed.

(** ** removeFilaments *)

(** Walking along a filament deletes edges, creates no record with exactly
    one adjacent record, and does not leave its start with exactly one. *)
Lemma removeFilaments_walk_spec (fuel : nat) :
  forall vertex s u s',
    removeFilaments_walk fuel vertex s = Returned (u, s') ->
    unlinked s s' /\
    forall x, length (adj s' x) = 1%nat -> length (adj s x) = 1%nat /\ x <> vertex.
Proof.
  induction fuel as [| fuel IH]; intros vertex s u s' H;
    cbn [removeFilaments_walk] in H; [discriminate |].
  minv. destruct (Nat.eqb_spec (length (adj s vertex)) 1) as [E | E].
  - destruct (adj s vertex) as [| adjacent l] eqn:A; [discriminate |].
    destruct l; [| discriminate]. minv.
    apply IH in H. destruct H as [U D].
    set (s1 := adjacent_delete vertex adjacent (adjacent_delete adjacent vertex s)) in *.
    assert (U1 : unlinked s s1).
    { split.
      - eapply pruned_trans; apply pruned_adjacent_delete.
      - apply symmetric_unlink. }
    split; [eapply unlinked_trans; eauto |].
    intros x Hx. destruct (D x Hx) as [D1 Dne].
    assert (Av : adj s1 vertex = []).
    { unfold s1. rewrite !adj_adjacent_delete, Nat.eqb_refl.
      destruct (Nat.eqb_spec vertex adjacent) as [-> | Hne].
      - rewrite A. unfold NatSet.delete. simpl. rewrite Nat.eqb_refl. reflexivity.
      - rewrite A. unfold NatSet.delete. simpl. rewrite Nat.eqb_refl. reflexivity. }
    assert (Hxv : x <> vertex).
    { intros ->. rewrite Av in D1. discriminate. }
    split; auto.
    unfold s1 in D1. rewrite !adj_adjacent_delete in D1.
    destruct (Nat.eqb_spec x vertex); [congruence |].
    destruct (Nat.eqb_spec x adjacent); [congruence |]. exact D1.
  - minv. split; [apply unlinked_refl |].
    intros x Hx. split; auto. intros ->. congruence.
Qed.

Lemma removeFilaments_endpoints_spec (fuel : nat) (endpoints : list nat) :
  forall s u s',
    forEach endpoints
            (fun v => mbind get (fun s0 =>
               if (length (adj s0 v) =? 1)%nat then removeFilaments_walk fuel v
               else ret tt)) s = Returned (u, s') ->
    unlinked s s' /\
    forall x, length (adj s' x) = 1%nat ->
              length (adj s x) = 1%nat /\ ~ In x endpoints.
Proof.
  induction endpoints as [| v rest IH]; intros s u s' H; cbn [forEach] in H.
  - minv. split; [apply unlinked_refl | auto].
  - minv.
    assert (S1 : unlinked s s0 /\
                 forall x, length (adj s0 x) = 1%nat ->
                           length (adj s x) = 1%nat /\ x <> v).
    { destruct (Nat.eqb_spec (length (adj s v)) 1) as [E | E].
      - eapply removeFilaments_walk_spec; eauto.
      - minv. split; [apply unlinked_refl |].
        intros x Hx. split; auto. intros ->. congruence. }
    destruct S1 as [U1 D1]. apply IH in H. destruct H as [U2 D2].
    split; [eapply unlinked_trans; eauto |].
    intros x Hx. destruct (D2 x Hx) as [Hx1 Hn]. destruct (D1 x Hx1) as [Hx0 Hne].
    split; auto. intros [E | E]; [congruence | contradiction].
Qed.

(** The post-condition of [removeFilaments]. *)
Lemma removeFilaments_spec (fuel : nat) (component : list nat) (s : VertexStore)
      (component' : list nat) (s' : VertexStore) :
  removeFilaments fuel component s = Returned (component', s') ->
  unlinked s s' /\
  incl component' component /\
  (forall x, In x component -> ~ In x component' -> adj s' x = []) /\
  (forall x, In x component' -> length (adj s' x) <> 1%nat) /\
  ((exists x, In x component /\ length (adj s x) = 1%nat) ->
   forall x, In x component' -> (2 <= length (adj s' x))%nat) /\
  ((forall x, In x component -> length (adj s x) <> 1%nat) ->
   component' = component /\ s' = s).
Proof.
  unfold removeFilaments. intro H. minv.
  set (endpoints := filter (fun v => (length (adj s v) =? 1)%nat) component) in *.
  assert (Hend : forall x, In x endpoints <-> In x component /\ length (adj s x) = 1%nat).
  { intro x. unfold endpoints. rewrite filter_In, Nat.eqb_eq. tauto. }
  destruct (Nat.ltb_spec 0 (length endpoints)) as [L | L].
  - minv. apply removeFilaments_endpoints_spec in Hc. destruct Hc as [U D].
    unfold remaining.
    assert (Hrem : forall x, In x (filter (fun v => (0 <? length (adj s0 v))%nat) component)
                             <-> In x component /\ (0 < length (adj s0 x))%nat).
    { intro x. rewrite filter_In, Nat.ltb_lt. tauto. }
    assert (Hne1 : forall x, In x component -> length (adj s0 x) <> 1%nat).
    { intros x Hx E. destruct (D x E) as [E0 Hn]. apply Hn. apply Hend. auto. }
    refine (conj U (conj _ (conj _ (conj _ (conj _ _))))).
    + intros x Hx. apply Hrem in Hx. tauto.
    + intros x Hx Hn. destruct (adj s0 x) as [| y l] eqn:A; auto.
      exfalso. apply Hn. apply Hrem. rewrite A. simpl. split; auto. lia.
    + intros x Hx. apply Hrem in Hx. destruct Hx. auto.
    + intros _ x Hx. apply Hrem in Hx. destruct Hx as [Hx Hp].
      specialize (Hne1 x Hx). lia.
    + intro Hnone. exfalso.
      destruct endpoints as [| e l] eqn:E; [simpl in L; lia |].
      assert (In e (e :: l)) by (simpl; auto).
      apply Hend in H. destruct H as [He1 He2]. apply (Hnone e He1 He2).
  - minv. refine (conj (unlinked_refl _) (conj (incl_refl _) (conj _ (conj _ (conj _ _))))).
    + intros x Hx Hn. contradiction.
    + intros x Hx E. assert (In x endpoints) by (apply Hend; auto).
      destruct endpoints; [contradiction | simpl in L; lia].
    + intros (x & Hx & E). assert (In x endpoints) by (apply Hend; auto).
      destruct endpoints; [contradiction | simpl in L; lia].
    + auto.
Qed.

End WalkFacts.

(* ================================================================== *)
(** * Simplification of a closed walk *)
(* ================================================================== *)

Section SimplifyFacts.

Context {N : Num}.

(** Reading a closed walk [vStart :: mid ++ [vStart]] inside [mid]. *)
Lemma nth_error_closed_walk (vStart : nat) (mid : list nat) (k : nat) :
  (1 <= k <= length mid)%nat ->
  nth_error (vStart :: mid ++ [vStart]) k = nth_error mid (k - 1).
Proof.
  intro H. destruct k as [| k]; [lia |]. simpl.
  rewrite nth_error_app1 by lia. f_equal. lia.
Qed.

Lemma forget_between_dups (closedWalk : list nat) :
  forall count j duplicates detachments v k,
    fst (forget_between closedWalk j count duplicates detachments) v = Some k <->
    duplicates v = Some k /\
    forall m, (j <= m < j + count)%nat -> nth_error closedWalk m <> Some v.
Proof.
  induction count as [| count IH]; intros j duplicates detachments v k;
    cbn [forget_between].
  - simpl. split; [intro H; split; auto; intros; lia | tauto].
  - rewrite IH. split.
    + intros [H1 H2].
      destruct (nth_error closedWalk j) as [vertex |] eqn:E.
      * unfold dup_delete in H1. destruct (Nat.eqb_spec v vertex); [discriminate |].
        split; auto. intros m Hm. destruct (Nat.eq_dec m j) as [-> | Hne].
        -- rewrite E. congruence.
        -- apply H2. lia.
      * split; auto. intros m Hm. destruct (Nat.eq_dec m j) as [-> | Hne].
        -- rewrite E. discriminate.
        -- apply H2. lia.
    + intros [H1 H2]. split.
      * destruct (nth_error closedWalk j) as [vertex |] eqn:E; auto.
        unfold dup_delete. destruct (Nat.eqb_spec v vertex) as [-> | Hne]; auto.
        exfalso. apply (H2 j); [lia | auto].
      * intros m Hm. apply H2. lia.
Qed.

Lemma firstn_snoc_nth {A} (l : list A) (i : nat) (x : A) :
  nth_error l i = Some x -> firstn (S i) l = firstn i l ++ [x].
Proof.
  revert i. induction l as [| a l IH]; intros [| i] H; simpl in *; try discriminate.
  - inversion H. reflexivity.
  - f_equal. auto.
Qed.

Lemma NoDup_firstn {A} (l : list A) (n : nat) : NoDup l -> NoDup (firstn n l).
Proof.
  intro H. rewrite <- (firstn_skipn n l) in H. eapply NoDup_app_remove_r; eauto.
Qed.

Lemma incl_firstn_self {A} (l : list A) (n : nat) : incl (firstn n l) l.
Proof.
  revert n. induction l as [| a l IH]; intros [| n]; simpl; intros x Hx;
    try contradiction.
  destruct Hx as [-> | Hx]; [left; auto | right; eapply IH; eauto].
Qed.

Lemma incl_skipn_self {A} (l : list A) (n : nat) : incl (skipn n l) l.
Proof.
  revert n. induction l as [| a l IH]; intros [| n]; simpl; intros x Hx; auto.
  right. eapply IH; eauto.
Qed.

(** The splice performed when a record is met again. *)
Lemma splice_closed_walk (vStart : nat) (mid : list nat) (iMin i : nat) :
  (iMin < i)%nat -> (i <= length mid)%nat ->
  splice (vStart :: mid ++ [vStart]) (iMin + 1) (i + 1 - (iMin + 1)) =
  vStart :: (firstn iMin mid ++ skipn i mid) ++ [vStart].
Proof.
  intros H1 H2. unfold splice.
  replace (iMin + 1 + (i + 1 - (iMin + 1)))%nat with (S i) by lia.
  replace (iMin + 1)%nat with (S iMin) by lia.
  cbn [firstn skipn].
  rewrite firstn_app, skipn_app.
  replace (iMin - length mid)%nat with 0%nat by lia.
  replace (i - length mid)%nat with 0%nat by lia.
  simpl. rewrite app_nil_r, <- app_assoc. reflexivity.
Qed.

(** The loop of [extractCycleFromClosedWalk] that removes the parts of the
    walk between two occurrences of a record: the walk keeps its first, its
    second and its last element, and what remains in between has no
    repetition. *)
Lemma simplify_loop_spec (fuel : nat) :
  forall closedWalk duplicates detachments i walk' detachments',
    simplify_loop fuel closedWalk duplicates detachments i =
      Returned (walk', detachments') ->
    forall vStart mid,
      closedWalk = vStart :: mid ++ [vStart] ->
      (1 <= i <= length mid + 1)%nat ->
      NoDup (firstn (i - 1) mid) ->
      (forall v k, duplicates v = Some k <->
                   (1 <= k < i)%nat /\ nth_error closedWalk k = Some v) ->
      exists mid', walk' = vStart :: mid' ++ [vStart] /\
                   incl mid' mid /\ NoDup mid' /\
                   hd_error mid' = hd_error mid.
Proof.
  induction fuel as [| fuel IH];
    intros closedWalk duplicates detachments i walk' detachments' H vStart mid
           Hw Hi Hnd Hd;
    cbn [simplify_loop] in H; [discriminate |].
  assert (Hlen : length closedWalk = (length mid + 2)%nat).
  { subst closedWalk. simpl. rewrite length_app. simpl. lia. }
  destruct (Nat.ltb_spec i (length closedWalk - 1)) as [Hlt | Hge].
  - (* the loop body *)
    apply obind_returned in H. destruct H as (vertex & Hv & H).
    apply defined_returned in Hv.
    assert (Hvm : nth_error mid (i - 1) = Some vertex).
    { rewrite <- Hv. subst closedWalk. symmetry. apply nth_error_closed_walk. lia. }
    destruct (dup_get_or_null duplicates vertex) as [iMin |] eqn:G.
    + (* the record was met before, at [iMin] *)
      assert (Gd : duplicates vertex = Some iMin /\ (1 <= iMin)%nat).
      { unfold dup_get_or_null in G. destruct (duplicates vertex) as [[| k] |];
          inversion G; subst; split; auto; lia. }
      destruct Gd as [Gd G1].
      pose proof (proj1 (Hd vertex iMin) Gd) as [Hk Hkv].
      destruct (forget_between closedWalk (iMin + 1) (i - (iMin + 1)) duplicates
                               (NatSet.add detachments iMin))
        as [duplicates2 detachments2] eqn:F.
      rewrite Hw in H at 1. rewrite splice_closed_walk in H by lia.
      eapply IH with (vStart := vStart) (mid := firstn iMin mid ++ skipn i mid) in H.
      * destruct H as (mid' & -> & Hin & Hnd' & Hhd).
        exists mid'. repeat split; auto.
        -- intros x Hx. apply Hin in Hx. apply in_app_or in Hx.
           destruct Hx as [Hx | Hx];
             [eapply incl_firstn_self | eapply incl_skipn_self]; eauto.
        -- rewrite Hhd. destruct mid as [| m0 mid0]; [simpl in *; lia |].
           destruct iMin; [lia |]. reflexivity.
      * reflexivity.
      * rewrite length_app, length_firstn. lia.
      * replace (S iMin - 1)%nat with iMin by lia.
        rewrite firstn_app, length_firstn.
        replace (iMin - Nat.min iMin (length mid))%nat with 0%nat by lia.
        simpl. rewrite app_nil_r, firstn_firstn.
        replace (Nat.min iMin iMin) with iMin by lia.
        replace (firstn iMin mid) with (firstn iMin (firstn (i - 1) mid)).
        -- apply NoDup_firstn. exact Hnd.
        -- rewrite firstn_firstn. f_equal. lia.
      * intros v k.
        assert (Hwalk2 : forall k', (1 <= k' <= iMin)%nat ->
                  nth_error (vStart :: (firstn iMin mid ++ skipn i mid) ++ [vStart]) k' =
                  nth_error closedWalk k').
        { intros k' Hk'. rewrite nth_error_closed_walk
            by (rewrite length_app, length_firstn; lia).
          subst closedWalk. rewrite nth_error_closed_walk by lia.
          rewrite nth_error_app1 by (rewrite length_firstn; lia).
          rewrite nth_error_firstn.
          destruct (Nat.ltb_spec (k' - 1) iMin); [reflexivity | lia]. }
        assert (F' : duplicates2 =
                     fst (forget_between closedWalk (iMin + 1) (i - (iMin + 1)) duplicates
                                         (NatSet.add detachments iMin)))
          by (rewrite F; reflexivity).
        rewrite F', forget_between_dups. split.
        -- intros [H1 H2]. apply Hd in H1. destruct H1 as [Hk1 Hkv1].
           assert (k <= iMin)%nat.
           { destruct (Nat.le_gt_cases k iMin); auto.
             exfalso. apply (H2 k); [lia | exact Hkv1]. }
           split; [lia |]. rewrite Hwalk2 by lia. exact Hkv1.
        -- intros [Hk1 Hkv1]. rewrite Hwalk2 in Hkv1 by lia. split.
           ++ apply Hd. split; [lia | exact Hkv1].
           ++ intros m Hm Hmv.
              (* two positions of the repetition-free prefix hold [v] *)
              assert (E1 : nth_error (firstn (i - 1) mid) (k - 1) = Some v).
              { rewrite nth_error_firstn.
                destruct (Nat.ltb_spec (k - 1) (i - 1)); [| lia].
                rewrite <- Hkv1. subst closedWalk. symmetry.
                apply nth_error_closed_walk. lia. }
              assert (E2 : nth_error (firstn (i - 1) mid) (m - 1) = Some v).
              { rewrite nth_error_firstn.
                destruct (Nat.ltb_spec (m - 1) (i - 1)); [| lia].
                rewrite <- Hmv. subst closedWalk. symmetry.
                apply nth_error_closed_walk. lia. }
              rewrite NoDup_nth_error in Hnd.
              assert (k - 1 = m - 1)%nat.
              { apply Hnd; [| congruence].
                apply nth_error_Some. congruence. }
              lia.
    + (* a record met for the first time *)
      assert (Gd : duplicates vertex = None).
      { unfold dup_get_or_null in G. destruct (duplicates vertex) as [[| k] |] eqn:E;
          try discriminate; auto.
        apply Hd in E. lia. }
      eapply IH with (vStart := vStart) (mid := mid) in H; auto.
      * lia.
      * replace (S i - 1)%nat with (S (i - 1)) by lia.
        rewrite (firstn_snoc_nth mid (i - 1) vertex Hvm).
        apply NoDup_app; auto.
        -- constructor; auto. constructor.
        -- intros x Hx [E | []]. subst x.
           apply In_nth_error in Hx. destruct Hx as (k' & Hk').
           assert (k' < i - 1)%nat.
           { assert (k' < length (firstn (i - 1) mid))%nat
               by (apply nth_error_Some; congruence).
             rewrite length_firstn in H0. lia. }
           rewrite nth_error_firstn in Hk'.
           destruct (Nat.ltb_spec k' (i - 1)); [| lia].
           assert (duplicates vertex = Some (S k')).
           { apply Hd. split; [lia |]. subst closedWalk.
             rewrite nth_error_closed_walk by lia.
             replace (S k' - 1)%nat with k' by lia. exact Hk'. }
           congruence.
      * intros v k. unfold dup_set.
        destruct (Nat.eqb_spec v vertex) as [-> | Hne].
        -- split.
           ++ intros [= <-]. split; [lia | exact Hv].
           ++ intros [Hk Hkv]. destruct (Nat.eq_dec k i) as [-> | Hki]; auto.
              assert (duplicates vertex = Some k) by (apply Hd; split; [lia | auto]).
              congruence.
        -- rewrite Hd. split.
           ++ intros [Hk Hkv]. split; [lia | auto].
           ++ intros [Hk Hkv]. split; auto.
              destruct (Nat.eq_dec k i) as [-> | Hki]; [congruence | lia].
  - (* the loop is over *)
    inversion H; subst walk' detachments'. exists mid.
    repeat split; auto using incl_refl.
    replace (i - 1)%nat with (length mid) in Hnd by lia.
    now rewrite firstn_all in Hnd.
Qed.

End SimplifyFacts.

(* ================================================================== *)
(** * Phases of the extraction *)
(* ================================================================== *)

Section PhaseFacts.

Context {N : Num}.
Variable Q : Z -> Prop.

Lemma step_ok_refl (s : VertexStore) : step_ok s s.
Proof.
  refine (conj (later_refl s) (conj (stays_isolated_refl s) _)). intros i Hi. lia.
Qed.

Lemma step_ok_trans (s1 s2 s3 : VertexStore) :
  step_ok s1 s2 -> step_ok s2 s3 -> step_ok s1 s3.
Proof.
  intros (L1 & I1 & E1) (L2 & I2 & E2).
  refine (conj (later_trans _ _ _ L1 L2) (conj _ _)).
  - apply (stays_isolated_trans s1 s2 s3); [apply L1 | exact I1 | exact I2].
  - intros i Hi. destruct (Nat.lt_ge_cases i (length s2)).
    + apply I2; auto. apply E1. lia.
    + apply E2. lia.
Qed.

Lemma unlinked_step_ok (s s' : VertexStore) : unlinked s s' -> step_ok s s'.
Proof.
  intros [P _]. refine (conj (pruned_later _ _ P) (conj (pruned_stays_isolated _ _ P) _)).
  intros i Hi. destruct P as [L _]. lia.
Qed.

Lemma unlinked_arena_ok (s s' : VertexStore) :
  unlinked s s' -> arena_ok Q s -> arena_ok Q s'.
Proof.
  intros [P S] (W & Y & Nm).
  refine (conj (pruned_well_formed _ _ P W) (conj (S Y) (pruned_names _ _ _ P Nm))).
Qed.

Lemma same_graph_unlinked (s s' : VertexStore) : same_graph s s' -> unlinked s s'.
Proof.
  intro G. split; [now apply same_graph_pruned | now apply same_graph_symmetric].
Qed.

(** A cycle that comes from a walk still does in every later state. *)
Lemma walk_cycle_later (s s' : VertexStore) (c : list Z) :
  later s s' -> walk_cycle s c -> walk_cycle s' c.
Proof.
  intros [L F] (w & Hc & Hl & Hv & Hh & Hn).
  exists w. refine (conj _ (conj Hl (conj _ (conj Hh Hn)))).
  - rewrite Hc. apply map_ext_in. intros v Hin. symmetry. apply F. auto.
  - intros v Hin. specialize (Hv v Hin). lia.
Qed.

Lemma cycles_ok_later (s s' : VertexStore) (t : CycleTree) :
  later s s' -> cycles_ok s t -> cycles_ok s' t.
Proof. intros L H c Hc Hne. eapply walk_cycle_later; eauto. Qed.

Lemma tree_cycles_unfold (t : CycleTree) :
  tree_cycles t = cycle t :: flat_map tree_cycles (children t).
Proof. destruct t. reflexivity. Qed.

Lemma unwrap_cycles (t : CycleTree) : incl (tree_cycles (unwrap t)) (tree_cycles t).
Proof.
  unfold unwrap. destruct (_ && _) eqn:E; [| apply incl_refl].
  destruct t as [c ch]. simpl in *.
  apply andb_true_iff in E. destruct E as [_ E]. apply Nat.eqb_eq in E.
  destruct ch as [| child [| x l]]; try discriminate. simpl.
  destruct child as [cc cch]. simpl. rewrite app_nil_r.
  intros x Hx. right. exact Hx.
Qed.

Lemma cycles_ok_node (s : VertexStore) (c : list Z) (ch : list CycleTree) :
  (c <> [] -> walk_cycle s c) -> Forall (cycles_ok s) ch ->
  cycles_ok s (Build_CycleTree c ch).
Proof.
  intros Hc Hch x Hx Hne. simpl in Hx. destruct Hx as [<- | Hx]; auto.
  apply in_flat_map in Hx. destruct Hx as (child & Hin & Hx).
  rewrite Forall_forall in Hch. eapply Hch; eauto.
Qed.

Lemma cycles_ok_unwrap (s : VertexStore) (t : CycleTree) :
  cycles_ok s t -> cycles_ok s (unwrap t).
Proof. intros H c Hc. apply H. now apply unwrap_cycles. Qed.

Lemma Forall_cycles_ok_later (s s' : VertexStore) (l : list CycleTree) :
  later s s' -> Forall (cycles_ok s) l -> Forall (cycles_ok s') l.
Proof.
  intros L H. rewrite Forall_forall in *. intros t Ht.
  eapply cycles_ok_later; eauto.
Qed.

(** ** A new record *)

Lemma deref_push_old (s : VertexStore) (x : Vertex) (i : nat) :
  (i < length s)%nat -> deref (s ++ [x]) i = deref s i.
Proof. intro H. unfold deref. now rewrite app_nth1. Qed.

Lemma deref_push_new (s : VertexStore) (x : Vertex) :
  deref (s ++ [x]) (length s) = x.
Proof. unfold deref. rewrite app_nth2 by lia. now rewrite Nat.sub_diag. Qed.

Lemma adj_push (s : VertexStore) (nm : Z) (pos : Position) (i : nat) :
  adj (s ++ [{| name := nm; position := pos; adjacent := []; visited := 0 |}]) i =
  adj s i.
Proof.
  unfold adj. destruct (Nat.lt_ge_cases i (length s)) as [H | H].
  - now rewrite deref_push_old.
  - rewrite (deref_out_of_range s) by auto.
    destruct (Nat.eq_dec i (length s)) as [-> | Hne].
    + now rewrite deref_push_new.
    + rewrite deref_out_of_range; [reflexivity |].
      rewrite length_app. simpl. lia.
Qed.

Lemma push_arena_ok (s : VertexStore) (nm : Z) (pos : Position) :
  Q nm -> arena_ok Q s ->
  arena_ok Q (s ++ [{| name := nm; position := pos; adjacent := []; visited := 0 |}]).
Proof.
  intros Hq (W & Y & Nm). refine (conj _ (conj _ _)).
  - intros i j Hj. rewrite adj_push in Hj. rewrite length_app. simpl.
    specialize (W i j Hj). lia.
  - intros i j Hj. rewrite adj_push in *. auto.
  - intros i Hi. rewrite length_app in Hi. simpl in Hi.
    destruct (Nat.eq_dec i (length s)) as [-> | Hne].
    + rewrite deref_push_new. exact Hq.
    + rewrite deref_push_old by lia. apply Nm. lia.
Qed.

Lemma push_later (s : VertexStore) (x : Vertex) : later s (s ++ [x]).
Proof.
  split.
  - rewrite length_app. lia.
  - intros i Hi. rewrite deref_push_old by auto. auto.
Qed.

(** ** Moving edges to a clone *)

Lemma reattached_refl (clone : nat) (moved : list nat) (s : VertexStore) :
  reattached clone moved s s.
Proof.
  refine (conj eq_refl (conj _ (conj _ (conj _ _)))); auto.
  intros i _ _. apply incl_refl.
Qed.

Lemma reattached_trans (clone : nat) (moved : list nat) (s1 s2 s3 : VertexStore) :
  reattached clone moved s1 s2 -> reattached clone moved s2 s3 ->
  reattached clone moved s1 s3.
Proof.
  intros (L1 & F1 & I1 & W1 & Y1) (L2 & F2 & I2 & W2 & Y2).
  refine (conj _ (conj _ (conj _ (conj _ _)))).
  - congruence.
  - intro i. destruct (F1 i), (F2 i). split; congruence.
  - intros i Hi Hc. eapply incl_tran; [apply I2 | apply I1]; auto.
  - intros Hc Hm W. apply W2; try rewrite L1; auto.
  - intros Hc Hm Y. apply Y2; try rewrite L1; auto.
Qed.

Lemma reattach_spec (original clone vertex : nat) (moved : list nat)
      (s : VertexStore) (u : unit) (s' : VertexStore) :
  In vertex moved ->
  reattach original clone vertex s = Returned (u, s') ->
  reattached clone moved s s'.
Proof.
  intros Hin H. unfold reattach in H. minv.
  set (s1 := adjacent_delete vertex original (adjacent_delete original vertex s)).
  assert (U : unlinked s s1).
  { split.
    - eapply pruned_trans; apply pruned_adjacent_delete.
    - apply symmetric_unlink. }
  assert (L1 : length s1 = length s) by (destruct U as [[L _] _]; exact L).
  refine (conj _ (conj _ (conj _ (conj _ _)))).
  - rewrite !length_adjacent_add. exact L1.
  - intro i.
    destruct (fields_adjacent_add (adjacent_add clone vertex s1) vertex clone i) as [A1 A2].
    destruct (fields_adjacent_add s1 clone vertex i) as [B1 B2].
    destruct U as [[_ F] _]. destruct (F i) as (_ & C1 & C2).
    fold s1 in A1, A2. split; congruence.
  - intros i Hi Hc.
    assert (Hv : i <> vertex) by (intros ->; contradiction).
    unfold adjacent_add at 1. unfold adj at 1. rewrite deref_update_other by auto.
    unfold adjacent_add. fold (adj (update s1 clone
      (fun x => with_adjacent (NatSet.add (adjacent x) vertex) x)) i).
    unfold adj. rewrite deref_update_other by auto.
    destruct U as [[_ F] _]. destruct (F i) as (I & _). exact I.
  - intros Hc Hm W.
    apply well_formed_adjacent_add; [rewrite length_adjacent_add, L1; exact Hc |].
    apply well_formed_adjacent_add; [rewrite L1; auto |].
    destruct U as [P _]. eapply pruned_well_formed; eauto.
  - intros Hc Hm Y.
    apply symmetric_link; try (rewrite L1; auto).
    destruct U as [_ S]. auto.
Qed.

Lemma reattach_all_spec (original clone : nat) (moved : list nat) :
  forall s u s',
    forEach moved (reattach original clone) s = Returned (u, s') ->
    reattached clone moved s s'.
Proof.
  apply (forEach_spec (reattached clone moved)).
  - apply reattached_refl.
  - apply reattached_trans.
  - intros x s u s' Hx. now apply reattach_spec.
Qed.

End PhaseFacts.

(* ================================================================== *)
(** * extractBasis and its mutually recursive companions *)
(* ================================================================== *)

Section BasisFacts.

Context {N : Num}.
Variable Q : Z -> Prop.

Lemma reattached_later (clone : nat) (moved : list nat) (s s' : VertexStore) :
  reattached clone moved s s' -> later s s'.
Proof. intros (L & F & _). split; [lia | intros i _; apply F]. Qed.

(** A detached sub-problem: clone [original], move the edges to the records
    of [moved] to the clone, collect the component of the clone and extract
    its basis. *)
Lemma detached_subproblem (rec : list nat -> M CycleTree) (fuel : nat)
      (original : nat) (moved : list nat) (s s2 s3 s4 : VertexStore)
      (component : list nat) (child : CycleTree) :
  basis_contract Q rec ->
  arena_ok Q s ->
  (original < length s)%nat ->
  (forall x, In x moved -> In x (adj s original)) ->
  reattached (length s) moved
             (s ++ [{| name := name (deref s original);
                       position := position (deref s original);
                       adjacent := []; visited := 0 |}]) s2 ->
  depthFirstSearch fuel (length s) [] s2 = Returned (component, s3) ->
  rec component s3 = Returned (child, s4) ->
  arena_ok Q s4 /\ step_ok s s4 /\ cycles_ok s4 child.
Proof.
  intros Hrec Hok Ho Hm R D C.
  set (s1 := s ++ [{| name := name (deref s original);
                      position := position (deref s original);
                      adjacent := []; visited := 0 |}]) in *.
  assert (L1 : length s1 = S (length s)).
  { unfold s1. rewrite length_app. simpl. lia. }
  assert (Hok1 : arena_ok Q s1).
  { apply push_arena_ok; auto. destruct Hok as (_ & _ & Nm). apply Nm. exact Ho. }
  assert (Hmv : forall x, In x moved -> (x < length s)%nat).
  { intros x Hx. destruct Hok as (W & _). eapply W. apply Hm. exact Hx. }
  pose proof R as (L2 & F2 & I2 & W2 & Y2).
  assert (Hok2 : arena_ok Q s2).
  { destruct Hok1 as (W1 & Y1 & Nm1). refine (conj _ (conj _ _)).
    - apply W2; auto; [lia |]. intros x Hx. specialize (Hmv x Hx). lia.
    - apply Y2; auto; [lia |]. intros x Hx. specialize (Hmv x Hx). lia.
    - intros i Hi. destruct (F2 i) as [E _]. rewrite E. apply Nm1. lia. }
  apply depthFirstSearch_spec in D. destruct D as (G & Hin & _ & Hval).
  assert (Hok3 : arena_ok Q s3).
  { eapply unlinked_arena_ok; [apply same_graph_unlinked; eauto | exact Hok2]. }
  assert (L3 : length s3 = length s2) by (destruct G as [L _]; exact L).
  assert (Hcomp : forall i, In i component -> (i < length s3)%nat).
  { intros i Hi. rewrite L3. apply Hval; auto.
    - destruct Hok2 as (W & _). exact W.
    - lia. }
  destruct (Hrec component s3 child s4 Hok3 Hcomp C) as (Hok4 & St & Hempty & Hcyc).
  refine (conj Hok4 (conj _ Hcyc)).
  destruct St as (La & Is & Em).
  refine (conj _ (conj _ _)).
  - eapply later_trans; [apply push_later |].
    eapply later_trans; [eapply reattached_later; eauto |].
    eapply later_trans; [apply pruned_later, same_graph_pruned; eauto | exact La].
  - intros i Hi E. apply Is; [lia |].
    destruct G as [_ G]. destruct (G i) as (A & _). rewrite A.
    assert (Hnm : ~ In i moved).
    { intro Hx. apply Hm in Hx. destruct Hok as (_ & Y & _). apply Y in Hx.
      rewrite E in Hx. contradiction. }
    assert (Hnc : i <> length s) by lia.
    specialize (I2 i Hnm Hnc). unfold s1 in I2. rewrite adj_push, E in I2.
    destruct (adj s2 i) as [| x l]; auto. exfalso. apply (I2 x). simpl; auto.
  - intros i Hi. destruct (Nat.eq_dec i (length s)) as [-> | Hne].
    + apply Hempty. exact Hin.
    + apply Em. lia.
Qed.

Section WithRecursion.

Variable rec : list nat -> M CycleTree.
Variable fuel : nat.
Hypothesis Hrec : basis_contract Q rec.

Lemma detach_spec (closedWalk : list nat) (i : nat) (s : VertexStore)
      (pushed : list CycleTree) (s' : VertexStore) :
  detach rec fuel closedWalk i s = Returned (pushed, s') ->
  arena_ok Q s ->
  (forall v, In v closedWalk -> (v < length s)%nat) ->
  arena_ok Q s' /\ step_ok s s' /\ Forall (cycles_ok s') pushed.
Proof.
  unfold detach. intros H Hok Hval. minv.
  rename a into original. rename a0 into maxVertex. rename a1 into minVertex.
  match type of H with
  | (if (0 <? length ?w)%nat then _ else _) _ = _ => set (inWedge := w) in *
  end.
  destruct (0 <? length inWedge)%nat.
  - minv.
    match goal with
    | Hf : forEach _ _ _ = Returned (_, ?sa),
      Hd : depthFirstSearch _ _ _ ?sa = Returned (?comp, ?sb),
      Hr : rec ?comp ?sb = Returned (?child, ?sc) |- _ =>
        apply reattach_all_spec in Hf;
        destruct (detached_subproblem rec fuel original inWedge s sa sb sc comp child)
          as (A & B & C); auto
    end.
    + apply Hval. eapply nth_error_In; eauto.
    + intros x Hx. unfold inWedge in Hx. apply filter_In in Hx. tauto.
  - minv. refine (conj Hok (conj (step_ok_refl _) _)). constructor.
Qed.

Lemma detach_all_spec (closedWalk : list nat) :
  forall detachments children s children' s',
    detach_all rec fuel closedWalk detachments children s = Returned (children', s') ->
    arena_ok Q s ->
    (forall v, In v closedWalk -> (v < length s)%nat) ->
    Forall (cycles_ok s) children ->
    arena_ok Q s' /\ step_ok s s' /\ Forall (cycles_ok s') children'.
Proof.
  induction detachments as [| i rest IH]; intros children s children' s' H Hok Hval Hch;
    cbn [detach_all] in H.
  - minv. refine (conj Hok (conj (step_ok_refl _) Hch)).
  - minv. apply detach_spec in Hc; auto. destruct Hc as (Hok1 & St1 & Hp).
    apply IH in H; auto.
    + destruct H as (Hok2 & St2 & Hch2).
      refine (conj Hok2 (conj (step_ok_trans _ _ _ St1 St2) Hch2)).
    + intros v Hv. specialize (Hval v Hv). destruct St1 as ((L & _) & _). lia.
    + apply Forall_app. split; auto.
      eapply Forall_cycles_ok_later; eauto. apply St1.
Qed.


Lemma closed_walk_second (vStart : nat) (mid : list nat) :
  nth_error (vStart :: mid ++ [vStart]) 1 = Some (hd vStart mid).
Proof. destruct mid; reflexivity. Qed.

Lemma hd_of_hd_error (d : nat) (l l' : list nat) :
  hd_error l = hd_error l' -> hd d l = hd d l'.
Proof. destruct l, l'; simpl; congruence. Qed.

Lemma closed_walk_cycle (s : VertexStore) (vStart : nat) (mid : list nat) :
  (3 < length (vStart :: mid ++ [vStart]))%nat ->
  (forall v, In v (vStart :: mid ++ [vStart]) -> (v < length s)%nat) ->
  ~ In vStart mid -> NoDup mid ->
  walk_cycle s (map (fun v => name (deref s v)) (vStart :: mid ++ [vStart])).
Proof.
  intros Hl Hv Hn Hd. exists (vStart :: mid ++ [vStart]).
  refine (conj eq_refl (conj Hl (conj Hv (conj _ _)))).
  - exists vStart. split; auto.
    change (vStart :: mid ++ [vStart]) with ((vStart :: mid) ++ [vStart]).
    apply last_last.
  - change (vStart :: mid ++ [vStart]) with ((vStart :: mid) ++ [vStart]).
    rewrite removelast_last. constructor; auto.
Qed.

Lemma extractCycleFromClosedWalk_spec (closedWalk : list nat) (s : VertexStore)
      (t : CycleTree) (s' : VertexStore) :
  extractCycleFromClosedWalk rec fuel closedWalk s = Returned (t, s') ->
  arena_ok Q s ->
  forall vStart mid,
    closedWalk = vStart :: mid ++ [vStart] ->
    ~ In vStart mid ->
    (forall v, In v closedWalk -> (v < length s)%nat) ->
    In (hd vStart mid) (adj s vStart) ->
    arena_ok Q s' /\ step_ok s s' /\ cycles_ok s' t.
Proof.
  unfold extractCycleFromClosedWalk. intros H Hok vStart mid Hw Hn Hval Hadj.
  subst closedWalk.
  apply mbind_returned in H. destruct H as ([walk' detachments] & s0 & Hs & H).
  apply lift_returned in Hs. destruct Hs as [Hs ->].
  eapply simplify_loop_spec with (vStart := vStart) (mid := mid) in Hs; auto.
  2:{ simpl. lia. }
  2:{ simpl. constructor. }
  2:{ intros v k. unfold dup_empty. split; [discriminate | intros [? _]; lia]. }
  destruct Hs as (mid' & -> & Hin & Hnd & Hhd).
  assert (Hval' : forall v, In v (vStart :: mid' ++ [vStart]) -> (v < length s)%nat).
  { intros v Hv. apply Hval. destruct Hv as [<- | Hv]; [left; auto |].
    right. apply in_app_or in Hv. apply in_or_app. destruct Hv; auto. }
  assert (Hn' : ~ In vStart mid') by (intro Hx; apply Hn; auto).
  destruct (3 <? length (vStart :: mid' ++ [vStart]))%nat eqn:Hlong.
  - (* a proper cycle *)
    apply Nat.ltb_lt in Hlong. minv.
    match goal with
    | Hd : detach_all _ _ _ _ _ _ = Returned (?ch, ?sa),
      He : extractCycle _ _ ?sa = Returned (?c, ?sb) |- _ =>
        apply detach_all_spec in Hd; auto;
        destruct Hd as (Hok1 & St1 & Hch);
        apply extractCycle_spec in He; destruct He as [-> U]
    end.
    refine (conj (unlinked_arena_ok Q _ _ U Hok1)
                 (conj (step_ok_trans _ _ _ St1 (unlinked_step_ok _ _ U)) _)).
    apply cycles_ok_node.
    + intros _.
      eapply walk_cycle_later; [apply pruned_later; apply U |].
      apply closed_walk_cycle; auto.
      intros v Hv. specialize (Hval' v Hv). destruct St1 as ((L & _) & _). lia.
    + eapply Forall_cycles_ok_later; [apply pruned_later; apply U | exact Hch].
  - (* a walk that goes to a record and back *)
    minv.
    match goal with
    | H0 : nth_error _ 0 = Some ?o, H1 : nth_error _ 1 = Some ?a |- _ =>
        simpl in H0; inversion H0; subst o;
        rewrite closed_walk_second in H1; inversion H1; subst a
    end.
    match goal with
    | Hf : reattach _ _ ?x _ = Returned (_, ?sa),
      Hd : depthFirstSearch _ _ _ ?sa = Returned (?comp, ?sb),
      Hr : rec ?comp ?sb = Returned (?child, ?sc) |- _ =>
        apply (reattach_spec vStart (length s) x [x]) in Hf; [| left; reflexivity];
        destruct (detached_subproblem rec fuel vStart [x] s sa sb sc comp child)
          as (A & B & C); auto
    end.
    + apply Hval. left. reflexivity.
    + intros x [<- | []]. rewrite (hd_of_hd_error vStart mid' mid Hhd). exact Hadj.
    + refine (conj A (conj B _)).
      apply cycles_ok_unwrap. apply cycles_ok_node; [congruence |].
      constructor; auto.
Qed.

Lemma leftmost_in (s : VertexStore) (component : list nat) (first : nat) :
  In (leftmost s component first) (first :: component).
Proof.
  unfold leftmost.
  assert (G : forall l m, In m (first :: component) -> incl l component ->
              In (fold_left
                    (fun minVertex vertex =>
                       let minVertex :=
                         if n_eqb (fst (position (deref s vertex)))
                                  (fst (position (deref s minVertex)))
                         then
                           if n_ltb (snd (position (deref s vertex)))
                                    (snd (position (deref s minVertex)))
                           then vertex else minVertex
                         else minVertex in
                       if n_ltb (fst (position (deref s vertex)))
                                (fst (position (deref s minVertex)))
                       then vertex else minVertex) l m) (first :: component)).
  { induction l as [| x l IH]; intros m Hm Hl; simpl; auto.
    apply IH.
    - assert (Hx : In x (first :: component)) by (right; apply Hl; left; auto).
      repeat match goal with |- context [if ?c then _ else _] => destruct c end; auto.
    - intros y Hy. apply Hl. right. exact Hy. }
  apply G; [left; auto | apply incl_refl].
Qed.

Lemma extractCycleFromComponent_spec (component : list nat) (s : VertexStore)
      (t : CycleTree) (component' : list nat) (s' : VertexStore) :
  extractCycleFromComponent rec fuel component s = Returned ((t, component'), s') ->
  arena_ok Q s ->
  (forall v, In v component -> (v < length s)%nat) ->
  arena_ok Q s' /\ step_ok s s' /\ cycles_ok s' t /\
  component' = remaining s' component.
Proof.
  unfold extractCycleFromComponent. intros H Hok Hval.
  destruct component as [| first others]; [discriminate |].
  minv.
  set (vStart := leftmost s (first :: others) first) in *.
  assert (Hvs : (vStart < length s)%nat).
  { apply Hval. pose proof (leftmost_in s (first :: others) first) as L. fold vStart in L.
    destruct L as [<- | L]; auto. left. reflexivity. }
  match goal with
  | Hl : closedWalk_loop _ _ _ _ _ _ = Returned (?w, ?sa) |- _ =>
      apply closedWalk_loop_spec in Hl;
      destruct Hl as (-> & rest & -> & Hn & Hv & (a & Ha & Hhd))
  end.
  pose proof (getClockwiseMost_adjacent s None vStart a Ha) as Hadj.
  match goal with
  | Hw : extractCycleFromClosedWalk _ _ _ _ = Returned _ |- _ =>
      eapply extractCycleFromClosedWalk_spec with (vStart := vStart) (mid := rest) in Hw;
        auto; [destruct Hw as (A & B & C) | |]
  end.
  - inversion H; subst. auto.
  - intros v Hv'. simpl in Hv'. destruct Hv' as [<- | Hv']; auto.
    apply in_app_or in Hv'. destruct Hv' as [Hv' | [<- | []]]; auto.
    destruct Hok as (W & _). apply Hv; auto.
    intros b Hb. eapply W. eapply getClockwiseMost_adjacent. exact Hb.
  - rewrite Hhd. exact Hadj.
Qed.

Lemma remaining_spec (s : VertexStore) (component : list nat) (x : nat) :
  In x component -> ~ In x (remaining s component) -> adj s x = [].
Proof.
  intros Hx Hn. destruct (adj s x) as [| y l] eqn:A; auto.
  exfalso. apply Hn. unfold remaining. apply filter_In. split; auto.
  rewrite A. reflexivity.
Qed.

Lemma remaining_incl (s : VertexStore) (component : list nat) :
  incl (remaining s component) component.
Proof. intros x Hx. unfold remaining in Hx. apply filter_In in Hx. tauto. Qed.

Lemma extractBasis_loop_spec (n : nat) :
  forall component children s children' s',
    extractBasis_loop rec fuel n component children s = Returned (children', s') ->
    arena_ok Q s ->
    (forall v, In v component -> (v < length s)%nat) ->
    Forall (cycles_ok s) children ->
    arena_ok Q s' /\ step_ok s s' /\
    (forall i, In i component -> adj s' i = []) /\
    Forall (cycles_ok s') children'.
Proof.
  induction n as [| n IH]; intros component children s children' s' H Hok Hval Hch;
    cbn [extractBasis_loop] in H; [discriminate |].
  destruct (Nat.ltb_spec 0 (length component)) as [Hne | He].
  2:{ minv. refine (conj Hok (conj (step_ok_refl _) (conj _ Hch))).
      intros i Hi. destruct component; [contradiction | simpl in He; lia]. }
  apply mbind_returned in H. destruct H as (component1 & s1 & Hf & H).
  apply removeFilaments_spec in Hf.
  destruct Hf as (U & Hincl & Hdrop & _).
  pose proof (unlinked_arena_ok Q _ _ U Hok) as Hok1.
  pose proof (unlinked_step_ok _ _ U) as St1.
  assert (L1 : length s1 = length s) by (destruct U as [[L _] _]; exact L).
  assert (Hval1 : forall v, In v component1 -> (v < length s1)%nat).
  { intros v Hv. rewrite L1. auto. }
  assert (Hch1 : Forall (cycles_ok s1) children).
  { eapply Forall_cycles_ok_later; [apply St1 | exact Hch]. }
  destruct (0 <? length component1)%nat.
  - apply mbind_returned in H. destruct H as ([tree component2] & s2 & Hx & H).
    apply extractCycleFromComponent_spec in Hx; auto.
    destruct Hx as (Hok2 & St2 & Hcyc & ->).
    assert (L2 : (length s1 <= length s2)%nat) by (destruct St2 as ((L & _) & _); exact L).
    apply IH in H; auto.
    + destruct H as (Hok3 & St3 & Hempty & Hch3).
      refine (conj Hok3 (conj (step_ok_trans _ _ _ St1 (step_ok_trans _ _ _ St2 St3))
                              (conj _ Hch3))).
      intros i Hi.
      destruct (in_dec Nat.eq_dec i component1) as [H1 | H1].
      * destruct (in_dec Nat.eq_dec i (remaining s2 component1)) as [H2 | H2]; auto.
        destruct St3 as (_ & Is & _). apply Is; [specialize (Hval1 i H1); lia |].
        now apply remaining_spec with (component := component1).
      * destruct St3 as (_ & Is3 & _). destruct St2 as (_ & Is2 & _).
        apply Is3; [specialize (Hval i Hi); lia |].
        apply Is2; [specialize (Hval i Hi); lia |]. auto.
    + intros v Hv. apply remaining_incl in Hv. specialize (Hval1 v Hv). lia.
    + apply Forall_app. split.
      * eapply Forall_cycles_ok_later; [apply St2 | exact Hch1].
      * constructor; auto.
  - apply IH in H; auto.
    destruct H as (Hok3 & St3 & Hempty & Hch3).
    refine (conj Hok3 (conj (step_ok_trans _ _ _ St1 St3) (conj _ Hch3))).
    intros i Hi.
    destruct (in_dec Nat.eq_dec i component1) as [H1 | H1]; auto.
    destruct St3 as (_ & Is3 & _).
    apply Is3; [specialize (Hval i Hi); lia |]. auto.
Qed.

End WithRecursion.

(** [extractBasis] honours its contract, whatever the step budget. *)
Lemma extractBasis_contract (fuel : nat) : basis_contract Q (extractBasis fuel).
Proof.
  induction fuel as [| fuel IH]; intros component s t s' Hok Hval H;
    cbn [extractBasis] in H; [discriminate |].
  minv.
  match goal with
  | Hl : extractBasis_loop _ _ _ _ _ _ = Returned _ |- _ =>
      apply (extractBasis_loop_spec (extractBasis fuel) fuel IH) in Hl; auto;
        destruct Hl as (A & B & C & D)
  end.
  refine (conj A (conj B (conj C _))).
  apply cycles_ok_unwrap. apply cycles_ok_node; [congruence | exact D].
Qed.

End BasisFacts.

(* ================================================================== *)
(** * discover: building the graph, the components, the forest *)
(* ================================================================== *)

Section DiscoverFacts.

Context {N : Num}.
Variable Q : Z -> Prop.

(** ** Building the records *)

Lemma build_vertices_spec (positions : InputNodes) :
  forall names s u s',
    forEach names (fun nm => mbind (new_vertex nm (positions_at positions nm))
                                   (fun _ => ret tt)) s = Returned (u, s') ->
    length s' = (length s + length names)%nat /\
    later s s' /\
    (forall i, adj s' i = adj s i) /\
    (forall i, (i < length s)%nat -> visited (deref s' i) = visited (deref s i)) /\
    (forall i, (length s <= i)%nat -> visited (deref s' i) = 0%nat) /\
    (names_satisfy Q s -> (forall nm, In nm names -> Q nm) -> names_satisfy Q s').
Proof.
  induction names as [| nm names IH]; intros s u s' H; cbn [forEach] in H.
  - minv. simpl. refine (conj _ (conj (later_refl _) (conj _ (conj _ (conj _ _))))); auto.
    intros i Hi. now rewrite deref_out_of_range.
  - minv. apply IH in H. clear IH.
    destruct H as (L & La & A & Vo & Vn & Nm).
    rewrite length_app in *. simpl in *.
    refine (conj _ (conj _ (conj _ (conj _ (conj _ _))))).
    + lia.
    + eapply later_trans; [apply push_later | exact La].
    + intro i. rewrite A. apply adj_push.
    + intros i Hi. rewrite Vo by lia. now rewrite deref_push_old.
    + intros i Hi. destruct (Nat.eq_dec i (length s)) as [-> | Hne].
      * rewrite Vo by lia. now rewrite deref_push_new.
      * apply Vn. lia.
    + intros Hs Hq. apply Nm; [| auto].
      intros i Hi. rewrite length_app in Hi. simpl in Hi.
      destruct (Nat.eq_dec i (length s)) as [-> | Hne].
      * rewrite deref_push_new. simpl. auto.
      * rewrite deref_push_old by lia. apply Hs. lia.
Qed.

Lemma unique_names_spec (edges : InputEdges) :
  forall seen nm,
    In nm (unique_names edges seen) ->
    In nm seen \/ exists e, In e edges /\ (nm = fst e \/ nm = snd e).
Proof.
  induction edges as [| e edges IH]; intros seen nm H; cbn [unique_names] in H; auto.
  apply IH in H. destruct H as [H | (e' & He & Hn)].
  - destruct (existsb (Z.eqb (fst e)) seen);
      destruct (existsb (Z.eqb (snd e)) _);
      repeat (apply in_app_or in H; destruct H as [H | H]); auto;
      destruct H as [<- | []]; right; exists e; simpl; auto.
  - right. exists e'. simpl. auto.
Qed.

Lemma unique_get_range (names : list Z) :
  forall base nm i,
    unique_get names base nm = Some i -> (base <= i < base + length names)%nat.
Proof.
  induction names as [| n names IH]; intros base nm i H; cbn [unique_get] in H;
    [discriminate |].
  destruct (Z.eqb n nm).
  - inversion H; subst. simpl. lia.
  - apply IH in H. simpl. lia.
Qed.

(** ** Adding the edges *)

Lemma visited_adjacent_add (s : VertexStore) (a b i : nat) :
  visited (deref (adjacent_add a b s) i) = visited (deref s i).
Proof.
  unfold adjacent_add. destruct (Nat.eq_dec i a) as [-> | Hne].
  - destruct (Nat.lt_ge_cases a (length s)).
    + rewrite deref_update_same by auto. reflexivity.
    + now rewrite update_out_of_range.
  - now rewrite deref_update_other.
Qed.

Lemma add_edge_spec (names : list Z) (base : nat) (edge : InputEdge)
      (s : VertexStore) (u : unit) (s' : VertexStore) :
  add_edge names base edge s = Returned (u, s') ->
  (base + length names <= length s)%nat ->
  length s' = length s /\
  (forall i, name (deref s' i) = name (deref s i) /\
             position (deref s' i) = position (deref s i) /\
             visited (deref s' i) = visited (deref s i)) /\
  (forall i, (i < base)%nat -> adj s' i = adj s i) /\
  (well_formed s -> well_formed s') /\
  (symmetric s -> symmetric s').
Proof.
  unfold add_edge. intros H Hb.
  destruct (unique_get names base (fst edge)) as [a |] eqn:Ea;
    [destruct (unique_get names base (snd edge)) as [b |] eqn:Eb |].
  2,3: minv; refine (conj eq_refl (conj _ (conj _ (conj _ _)))); auto.
  apply unique_get_range in Ea, Eb. minv.
  refine (conj _ (conj _ (conj _ (conj _ _)))).
  - now rewrite !length_adjacent_add.
  - intro i.
    destruct (fields_adjacent_add (adjacent_add a b s) b a i) as [E1 E2].
    destruct (fields_adjacent_add s a b i) as [E3 E4].
    rewrite E1, E2, E3, E4, !visited_adjacent_add. auto.
  - intros i Hi.
    rewrite adj_adjacent_add by (rewrite length_adjacent_add; lia).
    rewrite adj_adjacent_add by lia.
    destruct (Nat.eqb_spec i b); [lia |]. destruct (Nat.eqb_spec i a); [lia |].
    reflexivity.
  - intro W. apply well_formed_adjacent_add; [rewrite length_adjacent_add; lia |].
    apply well_formed_adjacent_add; [lia | exact W].
  - intro S. apply symmetric_link; [lia | lia | exact S].
Qed.

Lemma link_edges_spec (names : list Z) (base : nat) :
  forall edges s u s',
    forEach edges (add_edge names base) s = Returned (u, s') ->
    (base + length names <= length s)%nat ->
    length s' = length s /\
    (forall i, name (deref s' i) = name (deref s i) /\
               position (deref s' i) = position (deref s i) /\
               visited (deref s' i) = visited (deref s i)) /\
    (forall i, (i < base)%nat -> adj s' i = adj s i) /\
    (well_formed s -> well_formed s') /\
    (symmetric s -> symmetric s').
Proof.
  intro edges. induction edges as [| e edges IH]; intros s u s' H Hb; cbn [forEach] in H.
  - minv. refine (conj eq_refl (conj _ (conj _ (conj _ _)))); auto.
  - apply mbind_returned in H. destruct H as (u1 & s1 & H1 & H).
    apply add_edge_spec in H1; [| exact Hb].
    destruct H1 as (L1 & F1 & A1 & W1 & S1).
    apply IH in H; [| lia].
    destruct H as (L2 & F2 & A2 & W2 & S2).
    refine (conj _ (conj _ (conj _ (conj _ _)))); auto.
    + lia.
    + intro i. destruct (F1 i) as (? & ? & ?), (F2 i) as (? & ? & ?).
      repeat split; congruence.
    + intros i Hi. rewrite A2, A1; auto.
Qed.


(** ** The components *)

(** A record of a component was given, was on the stack, or is adjacent to
    some record. *)
Lemma depthFirstSearch_loop_reach (fuel : nat) :
  forall vStack component s component' s',
    depthFirstSearch_loop fuel vStack component s = Returned (component', s') ->
    forall x, In x component' ->
              In x component \/ In x vStack \/ exists y, In x (adj s y).
Proof.
  induction fuel as [| fuel IH]; intros vStack component s component' s' H;
    cbn [depthFirstSearch_loop] in H; [discriminate |].
  destruct vStack as [| vertex below].
  - minv. auto.
  - minv.
    destruct (find _ (adj (set_visited vertex 1 s) vertex)) as [adjacent |] eqn:F.
    + apply find_some in F. destruct F as [Fin _].
      rewrite adj_set_visited in Fin.
      intros x Hx. destruct (IH _ _ _ _ _ H x Hx) as [Hc | [[<- | Hs] | (y & Hy)]]; auto.
      * right. right. exists vertex. exact Fin.
      * right. right. exists y. now rewrite adj_set_visited in Hy.
    + minv.
      intros x Hx. destruct (IH _ _ _ _ _ H x Hx) as [Hc | [Hs | (y & Hy)]].
      * apply in_app_or in Hc. destruct Hc as [Hc | [<- | []]]; simpl; auto.
      * simpl; auto.
      * right. right. exists y. now rewrite !adj_set_visited in Hy.
Qed.

(** The component of a record without adjacent records is the record. *)
Lemma depthFirstSearch_isolated (fuel : nat) (i : nat) (s : VertexStore)
      (component : list nat) (s' : VertexStore) :
  adj s i = [] ->
  depthFirstSearch fuel i [] s = Returned (component, s') -> component = [i].
Proof.
  unfold depthFirstSearch. intros Hi H.
  destruct fuel as [| fuel]; cbn [depthFirstSearch_loop] in H; [discriminate |].
  minv. rewrite adj_set_visited, Hi in H. cbn [find] in H. minv.
  destruct fuel as [| fuel]; cbn [depthFirstSearch_loop] in H; [discriminate |].
  minv. reflexivity.
Qed.

Lemma find_components_prefix (fuel : nat) :
  forall vertices components s components' s',
    find_components fuel vertices components s = Returned (components', s') ->
    exists found, components' = components ++ found.
Proof.
  induction vertices as [| v rest IH]; intros components s components' s' H;
    cbn [find_components] in H.
  - minv. exists []. now rewrite app_nil_r.
  - minv. destruct (visited (deref s v) =? 0)%nat.
    + minv. apply IH in H. destruct H as (found & ->).
      rewrite <- app_assoc. eauto.
    + eauto.
Qed.

Lemma find_components_spec (fuel : nat) :
  forall vertices components s components' s',
    find_components fuel vertices components s = Returned (components', s') ->
    well_formed s ->
    (forall v, In v vertices -> (v < length s)%nat) ->
    same_graph s s' /\
    exists found,
      components' = components ++ found /\
      (forall c x, In c found -> In x c -> (x < length s)%nat) /\
      (forall v, In v vertices ->
                 visited (deref s v) <> 0%nat \/ exists c, In c found /\ In v c).
Proof.
  induction vertices as [| v rest IH]; intros components s components' s' H W Hv;
    cbn [find_components] in H.
  - minv. split; [apply same_graph_refl |]. exists []. rewrite app_nil_r.
    refine (conj eq_refl (conj _ _)); intros; contradiction.
  - minv. destruct (Nat.eqb_spec (visited (deref s v)) 0) as [E | E].
    + apply mbind_returned in H. destruct H as (c & s1 & Hd & H).
      apply depthFirstSearch_spec in Hd. destruct Hd as (G & Iv & V & R).
      assert (L : length s1 = length s) by apply G.
      apply IH in H.
      * destruct H as (G' & found & -> & Hr & Hc).
        split; [eapply same_graph_trans; eauto |].
        exists (c :: found). rewrite <- app_assoc.
        refine (conj eq_refl (conj _ _)).
        -- intros c' x [<- | Hc'] Hx.
           ++ apply R; auto. apply Hv. left. reflexivity.
           ++ rewrite <- L. eauto.
        -- intros w [<- | Hw].
           ++ right. exists c. simpl. auto.
           ++ destruct (Hc w Hw) as [Hn | (c' & Hc' & Hx)].
              ** destruct (V w Hn) as [Hn' | Hin]; auto.
                 right. exists c. simpl. auto.
              ** right. exists c'. simpl. auto.
      * eapply same_graph_well_formed; eauto.
      * intros w Hw. rewrite L. apply Hv. right. exact Hw.
    + apply IH in H; auto.
      * destruct H as (G' & found & -> & Hr & Hc). split; auto.
        exists found. refine (conj eq_refl (conj Hr _)).
        intros w [<- | Hw]; auto.
      * intros w Hw. apply Hv. right. exact Hw.
Qed.

(** A record without adjacent records that is still unvisited becomes a
    component of its own. *)
Lemma find_components_isolated (fuel : nat) (i : nat) :
  forall vertices components s components' s',
    find_components fuel vertices components s = Returned (components', s') ->
    symmetric s ->
    In i vertices -> adj s i = [] -> visited (deref s i) = 0%nat ->
    In [i] components'.
Proof.
  induction vertices as [| v rest IH]; intros components s components' s' H Y Hi Ha Hz;
    cbn [find_components] in H; [contradiction |].
  minv. destruct (Nat.eqb_spec (visited (deref s v)) 0) as [E | E].
  - apply mbind_returned in H. destruct H as (c & s1 & Hd & H).
    destruct (Nat.eq_dec v i) as [-> | Hne].
    + apply depthFirstSearch_isolated in Hd; [| exact Ha]. subst c.
      apply find_components_prefix in H. destruct H as (found & ->).
      apply in_or_app. left. apply in_or_app. right. left. reflexivity.
    + pose proof (depthFirstSearch_loop_reach _ _ _ _ _ _ Hd) as Hreach.
      apply depthFirstSearch_spec in Hd. destruct Hd as (G & Iv & V & R).
      destruct Hi as [Hi | Hi]; [congruence |].
      apply IH in H; auto.
      * eapply same_graph_symmetric; eauto.
      * destruct G as (_ & G). destruct (G i) as (-> & _). exact Ha.
      * destruct (Nat.eq_dec (visited (deref s1 i)) 0) as [Z0 | Z0]; auto.
        exfalso. destruct (V i Z0) as [Hn | Hin]; [congruence |].
        destruct (Hreach i Hin) as [[] | [[Hx | []] | (y & Hy)]]; [congruence |].
        apply Y in Hy. rewrite Ha in Hy. contradiction.
  - destruct Hi as [Hi | Hi]; [congruence |]. eapply IH; eauto.
Qed.

(** Resetting the marks. *)
Lemma reset_visited_spec (vertices : list nat) (s : VertexStore) (u : unit)
      (s' : VertexStore) :
  forEach vertices (fun v => modify (set_visited v 0)) s = Returned (u, s') ->
  same_graph s s'.
Proof.
  apply (forEach_spec same_graph).
  - apply same_graph_refl.
  - apply same_graph_trans.
  - intros x s1 u1 s2 _ H. minv. apply same_graph_set_visited.
Qed.


(** ** The forest *)

Lemma extract_all_spec (fuel : nat) :
  forall components forest s forest' s',
    extract_all fuel components forest s = Returned (forest', s') ->
    arena_ok Q s ->
    (forall c x, In c components -> In x c -> (x < length s)%nat) ->
    Forall (cycles_ok s) forest ->
    arena_ok Q s' /\ step_ok s s' /\
    (forall c i, In c components -> In i c -> adj s' i = []) /\
    Forall (cycles_ok s') forest'.
Proof.
  induction components as [| c rest IH]; intros forest s forest' s' H Hok Hval Hf;
    cbn [extract_all] in H.
  - minv. refine (conj Hok (conj (step_ok_refl _) (conj _ Hf))).
    intros c i [].
  - apply mbind_returned in H. destruct H as (t & s1 & Hb & H).
    apply (extractBasis_contract Q fuel) in Hb; auto.
    2:{ intros i Hi. apply (Hval c); simpl; auto. }
    destruct Hb as (Hok1 & St1 & He1 & Hc1).
    assert (L : (length s <= length s1)%nat) by (destruct St1 as ((L & _) & _); exact L).
    apply IH in H; auto.
    + destruct H as (Hok2 & St2 & He2 & Hf2).
      refine (conj Hok2 (conj (step_ok_trans _ _ _ St1 St2) (conj _ Hf2))).
      intros c' i [E | Hc'] Hi.
      * subst c'. destruct St2 as (_ & Is & _). apply Is; auto.
        specialize (Hval c i (or_introl eq_refl) Hi). lia.
      * eauto.
    + intros c' x Hc' Hx. specialize (Hval c' x (or_intror Hc') Hx). lia.
    + apply Forall_app. split.
      * eapply Forall_cycles_ok_later; [apply St1 | exact Hf].
      * constructor; auto.
Qed.

Lemma leftmost_single (s : VertexStore) (i : nat) : leftmost s [i] i = i.
Proof.
  destruct (leftmost_in s [i] i) as [E | [E | []]]; auto.
Qed.

(** The extraction does not return on a component that is one record
    without adjacent records. *)
Lemma extractBasis_isolated (fuel : nat) (i : nat) (s : VertexStore)
      (r : CycleTree * VertexStore) :
  adj s i = [] -> extractBasis fuel [i] s <> Returned r.
Proof.
  intros Ha H. destruct r as [t s'].
  destruct fuel as [| fuel]; cbn [extractBasis] in H; [discriminate |].
  apply mbind_returned in H. destruct H as (children & s1 & Hl & _).
  destruct fuel as [| fuel]; cbn [extractBasis_loop] in Hl; [discriminate |].
  change (0 <? length [i])%nat with true in Hl. cbv iota in Hl.
  apply mbind_returned in Hl. destruct Hl as (c1 & s2 & Hf & Hl).
  apply removeFilaments_spec in Hf.
  destruct Hf as (_ & _ & _ & _ & _ & Hnone).
  destruct Hnone as [-> ->].
  { intros x [<- | []]. rewrite Ha. simpl. lia. }
  change (0 <? length [i])%nat with true in Hl. cbv iota in Hl.
  apply mbind_returned in Hl. destruct Hl as ([tree c2] & s3 & Hx & _).
  unfold extractCycleFromComponent in Hx. minv.
  rewrite leftmost_single, (getClockwiseMost_isolated s None i Ha) in *.
  match goal with
  | Hw : closedWalk_loop _ _ _ _ None _ = Returned _ |- _ =>
      apply closedWalk_loop_spec in Hw;
      destruct Hw as (_ & rest & _ & _ & _ & (a & Hsome & _)); discriminate
  end.
Qed.

Lemma extract_all_isolated (fuel : nat) (i : nat) :
  forall components forest s r,
    arena_ok Q s ->
    (forall c x, In c components -> In x c -> (x < length s)%nat) ->
    In [i] components -> adj s i = [] ->
    extract_all fuel components forest s <> Returned r.
Proof.
  induction components as [| c rest IH]; intros forest s r Hok Hval Hin Ha H;
    cbn [extract_all] in H; [contradiction |].
  destruct r as [forest' s'].
  apply mbind_returned in H. destruct H as (t & s1 & Hb & H).
  destruct Hin as [-> | Hin].
  - revert Hb. now apply extractBasis_isolated.
  - assert (Hi : (i < length s)%nat).
    { apply (Hval [i] i); simpl; auto. }
    apply (extractBasis_contract Q fuel) in Hb; auto.
    2:{ intros x Hx. apply (Hval c); simpl; auto. }
    destruct Hb as (Hok1 & St1 & _ & _).
    revert H. apply IH; auto.
    + intros c' x Hc' Hx. specialize (Hval c' x (or_intror Hc') Hx).
      destruct St1 as ((L & _) & _). lia.
    + destruct St1 as (_ & Is & _). apply Is; auto.
Qed.


(** ** discover *)

Lemma isolated_arena_ok (s : VertexStore) :
  (forall i, adj s i = []) -> names_satisfy Q s -> arena_ok Q s.
Proof.
  intros Hi Hn. refine (conj _ (conj _ Hn)); intros i j Hj; rewrite Hi in Hj;
    contradiction.
Qed.

(** The phases of a call that passed validation. *)
Lemma discover_phases (fuel : nat) (positions : InputNodes) (edges : InputEdges)
      (s0 : VertexStore) (r : DiscoveryOutput) (s' : VertexStore) :
  validateInputs positions edges = None ->
  discover fuel positions edges s0 = Returned (r, s') ->
  exists u1 s1 u2 s2 components s3 u4 s4 forest,
    forEach (unique_names edges [])
            (fun nm => mbind (new_vertex nm (positions_at positions nm))
                             (fun _ => ret tt)) s0 = Returned (u1, s1) /\
    forEach edges (add_edge (unique_names edges []) (length s0)) s1 = Returned (u2, s2) /\
    find_components fuel (seq 0 (length s2)) [] s2 = Returned (components, s3) /\
    forEach (seq 0 (length s3)) (fun v => modify (set_visited v 0)) s3 =
      Returned (u4, s4) /\
    extract_all fuel components [] s4 = Returned (forest, s') /\
    r = RESULT (filter (fun t => negb (isEmpty t)) forest).
Proof.
  intros V H. unfold discover in H. rewrite V in H. minv.
  repeat eexists; eauto.
Qed.

(** The arena when the graph has been built. *)
Lemma graph_built (positions : InputNodes) (edges : InputEdges)
      (s0 : VertexStore) (u1 : unit) (s1 : VertexStore) (u2 : unit) (s2 : VertexStore) :
  names_satisfy Q s0 ->
  (forall i, adj s0 i = []) ->
  (forall e, In e edges -> Q (fst e) /\ Q (snd e)) ->
  forEach (unique_names edges [])
          (fun nm => mbind (new_vertex nm (positions_at positions nm))
                           (fun _ => ret tt)) s0 = Returned (u1, s1) ->
  forEach edges (add_edge (unique_names edges []) (length s0)) s1 = Returned (u2, s2) ->
  arena_ok Q s2 /\ later s0 s2 /\
  (forall i, (i < length s0)%nat ->
             adj s2 i = [] /\ visited (deref s2 i) = visited (deref s0 i)) /\
  (forall i, (length s0 <= i)%nat -> visited (deref s2 i) = 0%nat).
Proof.
  intros Hn Hi Hq H1 H2.
  apply build_vertices_spec in H1. destruct H1 as (L1 & La1 & A1 & Vo1 & Vn1 & Nm1).
  apply link_edges_spec in H2; [| lia]. destruct H2 as (L2 & F2 & A2 & W2 & S2).
  assert (Hi1 : forall i, adj s1 i = []) by (intro i; rewrite A1; apply Hi).
  assert (Hn1 : names_satisfy Q s1).
  { apply Nm1; auto. intros nm Hnm. apply unique_names_spec in Hnm.
    destruct Hnm as [[] | (e & He & [-> | ->])]; apply Hq; auto. }
  destruct (isolated_arena_ok s1 Hi1 Hn1) as (W1 & Y1 & _).
  refine (conj (conj (W2 W1) (conj (S2 Y1) _)) (conj _ (conj _ _))).
  - intros i Hl. destruct (F2 i) as (-> & _). apply Hn1. lia.
  - split; [lia |]. intros i Hl. destruct (F2 i) as (-> & -> & _).
    apply La1. exact Hl.
  - intros i Hl. rewrite A2 by exact Hl. destruct (F2 i) as (_ & _ & ->).
    rewrite Vo1 by exact Hl. auto.
  - intros i Hl. destruct (F2 i) as (_ & _ & ->). apply Vn1. exact Hl.
Qed.

Lemma discover_spec (fuel : nat) (positions : InputNodes) (edges : InputEdges)
      (s0 : VertexStore) (forest : CycleTreeForest) (s' : VertexStore) :
  names_satisfy Q s0 ->
  (forall i, adj s0 i = []) ->
  (forall e, In e edges -> Q (fst e) /\ Q (snd e)) ->
  discover fuel positions edges s0 = Returned (RESULT forest, s') ->
  later s0 s' /\ (forall i, adj s' i = []) /\ names_satisfy Q s' /\
  Forall (cycles_ok s') forest.
Proof.
  intros Hn Hi Hq H.
  destruct (validateInputs positions edges) as [reason |] eqn:V.
  { unfold discover in H. rewrite V in H. minv. discriminate. }
  apply discover_phases in H; [| exact V].
  destruct H as (u1 & s1 & u2 & s2 & components & s3 & u4 & s4 & forest' &
                 H1 & H2 & H3 & H4 & H5 & Hr).
  inversion Hr; subst forest; clear Hr.
  destruct (graph_built positions edges s0 u1 s1 u2 s2 Hn Hi Hq H1 H2)
    as (Hok2 & La2 & Hold & Hnew).
  apply find_components_spec in H3; [| apply Hok2 |].
  2:{ intros v Hv. apply in_seq in Hv. lia. }
  destruct H3 as (G3 & found & E & Hval & Hcov). simpl in E. subst components.
  apply reset_visited_spec in H4.
  pose proof (same_graph_trans _ _ _ G3 H4) as G4.
  pose proof (same_graph_unlinked _ _ G4) as U4.
  pose proof (unlinked_arena_ok Q _ _ U4 Hok2) as Hok4.
  assert (L4 : length s4 = length s2) by apply G4.
  apply extract_all_spec in H5; auto.
  2:{ intros c x Hc Hx. rewrite L4. eauto. }
  destruct H5 as (Hok5 & St5 & He5 & Hf5).
  refine (conj _ (conj _ (conj _ _))).
  - eapply later_trans; [exact La2 |].
    eapply later_trans; [apply pruned_later; apply U4 | apply St5].
  - intro i.
    destruct (Nat.lt_ge_cases i (length s')) as [Lt | Ge];
      [| now apply adj_out_of_range].
    destruct (Nat.lt_ge_cases i (length s4)) as [Lt4 | Ge4].
    + assert (Hcase : adj s4 i = [] \/ exists c, In c found /\ In i c).
      { destruct (Hcov i) as [Hv | Hc]; auto.
        - apply in_seq. lia.
        - left. destruct G4 as (_ & G4). destruct (G4 i) as (-> & _).
          destruct (Nat.lt_ge_cases i (length s0)) as [Lo | Hi0].
          + apply Hold. exact Lo.
          + exfalso. apply Hv. apply Hnew. exact Hi0. }
      destruct Hcase as [Hiso | (c & Hc & Hic)]; [| eauto].
      destruct St5 as (_ & Is & _). apply Is; auto.
    + destruct St5 as (_ & _ & Fresh). apply Fresh. lia.
  - apply Hok5.
  - apply Forall_forall. intros t Ht. apply filter_In in Ht.
    rewrite Forall_forall in Hf5. apply Hf5. tauto.
Qed.

(** A call on an arena that still holds an unvisited record of an
    earlier call does not return. *)
Lemma discover_stale (fuel : nat) (positions : InputNodes) (edges : InputEdges)
      (s0 : VertexStore) (i : nat) (r : DiscoveryOutput * VertexStore) :
  (forall e, In e edges -> Q (fst e) /\ Q (snd e)) ->
  names_satisfy Q s0 ->
  (forall j, adj s0 j = []) ->
  (i < length s0)%nat -> visited (deref s0 i) = 0%nat ->
  validateInputs positions edges = None ->
  discover fuel positions edges s0 <> Returned r.
Proof.
  intros Hq Hn Hi Hlt Hz V H. destruct r as [r s'].
  apply discover_phases in H; [| exact V].
  destruct H as (u1 & s1 & u2 & s2 & components & s3 & u4 & s4 & forest' &
                 H1 & H2 & H3 & H4 & H5 & Hr).
  destruct (graph_built positions edges s0 u1 s1 u2 s2 Hn Hi Hq H1 H2)
    as (Hok2 & La2 & Hold & Hnew).
  destruct (Hold i Hlt) as (Ha2 & Hv2).
  assert (Hl2 : (i < length s2)%nat) by (destruct La2 as (L & _); lia).
  pose proof (find_components_isolated fuel i _ _ _ _ _ H3) as Hmine.
  apply find_components_spec in H3; [| apply Hok2 |].
  2:{ intros v Hv. apply in_seq in Hv. lia. }
  destruct H3 as (G3 & found & E & Hval & Hcov). simpl in E. subst components.
  apply reset_visited_spec in H4.
  pose proof (same_graph_trans _ _ _ G3 H4) as G4.
  pose proof (same_graph_unlinked _ _ G4) as U4.
  pose proof (unlinked_arena_ok Q _ _ U4 Hok2) as Hok4.
  assert (L4 : length s4 = length s2) by apply G4.
  revert H5. apply extract_all_isolated with (i := i); auto.
  - intros c x Hc Hx. rewrite L4. eauto.
  - apply Hmine; [apply Hok2 | apply in_seq; lia | exact Ha2 | congruence].
  - destruct G4 as (_ & G4). destruct (G4 i) as (-> & _). exact Ha2.
Qed.

End DiscoverFacts.

(* ================================================================== *)
(** * The area layer returns on the cycles of discover *)
(* ================================================================== *)

Section AreaTotal.

Context {N : Num}.
Variable nodes : InputNodes.

Lemma all_defined_total {A} (l : list (option A)) :
  (forall o, In o l -> o <> None) ->
  exists r, all_defined l = Returned r /\ length r = length l.
Proof.
  induction l as [| [a |] l IH]; intro H; simpl.
  - exists []. auto.
  - destruct IH as (r & -> & L); [intros o Ho; apply H; right; exact Ho |].
    exists (a :: r). simpl. auto.
  - exfalso. apply (H None); simpl; auto.
Qed.

Lemma drawable_cycle (c : list Z) :
  (forall nm, In nm c -> node_index nodes nm) -> (2 <= length c)%nat ->
  drawable nodes c.
Proof.
  intros Hn Hl. unfold drawable, getPointPath.
  destruct (all_defined_total
              (map (fun p => if (p <? 0)%Z then None else nth_error nodes (Z.to_nat p))
                   (firstn (length c - 1) c))) as (r & Hr & L).
  - intros o Ho. apply in_map_iff in Ho. destruct Ho as (p & <- & Hp).
    assert (Hc : In p c).
    { rewrite <- (firstn_skipn (length c - 1) c). apply in_or_app. auto. }
    destruct (Hn p Hc) as [H0 H1].
    destruct (Z.ltb_spec p 0); [lia |].
    apply nth_error_Some. lia.
  - exists r. split; auto.
    rewrite length_map, length_firstn in L.
    destruct r; [simpl in L; lia | discriminate].
Qed.

Lemma getPolygonArea_total (p : InputPolygon) :
  drawable nodes (edges p) -> exists a, getPolygonArea nodes p = Returned a.
Proof.
  intros (path & Hp & _). unfold getPolygonArea. rewrite Hp. simpl. eauto.
Qed.

Lemma inputPolygons_total (polygons : list InputPolygon) :
  Forall (fun p => drawable nodes (edges p)) polygons ->
  forall ix, exists r,
      inputPolygons nodes polygons ix = Returned r /\
      Forall (fun p => drawable nodes (p_edges p)) r.
Proof.
  induction 1 as [| p rest Hp _ IH]; intro ix; simpl.
  - exists []. auto.
  - destruct (getPolygonArea_total p Hp) as (a & ->).
    destruct (IH (S ix)) as (r & -> & Hr). simpl.
    eexists. split; [reflexivity |]. constructor; auto.
Qed.

Lemma sort_insert_Forall (P : Polygon -> Prop) (a : Polygon) (sorted : list Polygon) :
  P a -> Forall P sorted -> Forall P (sort_insert a sorted).
Proof.
  intros Ha. induction 1 as [| b rest Hb Hrest IH]; simpl.
  - auto.
  - destruct (n_ltb _ _); constructor; auto.
Qed.

Lemma sort_by_area_Forall (P : Polygon -> Prop) (l : list Polygon) :
  Forall P l -> Forall P (sort_by_area l).
Proof.
  unfold sort_by_area. induction 1; simpl; auto using sort_insert_Forall.
Qed.

Lemma mark_visited_at_length (polygons : list Polygon) (i : nat) :
  length (mark_visited_at polygons i) = length polygons.
Proof.
  revert i. induction polygons as [| p rest IH]; intros [| i]; simpl; auto.
Qed.

Lemma mark_visited_at_Forall (polygons : list Polygon) (i : nat) :
  Forall (fun p => drawable nodes (p_edges p)) polygons ->
  Forall (fun p => drawable nodes (p_edges p)) (mark_visited_at polygons i).
Proof.
  intro H. revert i. induction H as [| p rest Hp Hrest IH]; intros [| i]; simpl;
    constructor; auto.
Qed.

Lemma isChildArea_total (childPolygon : Polygon) (parentIndex : nat)
      (polygons : list Polygon) :
  Forall (fun p => drawable nodes (p_edges p)) polygons ->
  drawable nodes (p_edges childPolygon) ->
  (parentIndex < length polygons)%nat ->
  exists b, isChildArea childPolygon parentIndex polygons nodes = Returned b.
Proof.
  intros Hall (cpath & Hc & Hne) Hlt. unfold isChildArea.
  destruct (nth_error polygons parentIndex) as [parent |] eqn:Hp.
  2:{ apply nth_error_None in Hp. lia. }
  simpl.
  rewrite Forall_forall in Hall.
  destruct (Hall parent (nth_error_In _ _ Hp)) as (ppath & Hpp & Hpne).
  rewrite Hpp. simpl. rewrite Hc. simpl.
  destruct cpath as [| pt cpath]; [congruence |]. simpl.
  unfold isInside. destruct ppath as [| q ppath]; [congruence |]. simpl. eauto.
Qed.


Lemma adopt_in_range (parent newTree : AreaTree) (a : num) (n : nat) :
  parent_in_range parent n -> parent_in_range (adopt parent newTree a) n.
Proof. destruct parent; simpl; auto. Qed.

Lemma traverseAreas_total (todo : nat) :
  forall polygons parent,
    Forall (fun p => drawable nodes (p_edges p)) polygons ->
    parent_in_range parent (length polygons) ->
    exists tree polygons',
      traverseAreas todo nodes polygons parent = Returned (tree, polygons') /\
      Forall (fun p => drawable nodes (p_edges p)) polygons' /\
      length polygons' = length polygons /\
      parent_in_range tree (length polygons).
Proof.
  induction todo as [| todo IH]; intros polygons parent Hall Hpar;
    cbn [traverseAreas].
  - exists parent, polygons. auto.
  - cbv zeta.
    destruct (nth_error polygons (length polygons - S todo)) as [p |] eqn:Hp;
      [| exists parent, polygons; auto].
    destruct (p_visited p); [apply IH; auto |].
    assert (Hgood : drawable nodes (p_edges p)).
    { rewrite Forall_forall in Hall. apply Hall. eapply nth_error_In; eauto. }
    assert (Hacc : exists accepted,
               match parent with
               | AreaTreeRoot _ => Returned true
               | AreaTreeChild polygonIndex _ _ _ _ =>
                   isChildArea p polygonIndex polygons nodes
               end = Returned accepted).
    { destruct parent; [eauto | apply isChildArea_total; auto]. }
    destruct Hacc as (accepted & ->). cbn [obind].
    destruct accepted; [| apply IH; auto].
    set (i := (length polygons - S todo)%nat) in *.
    set (fresh := AreaTreeChild i (area p) (area p) [] (p_edges p)).
    assert (Hi : (i < length polygons)%nat).
    { apply nth_error_Some. congruence. }
    assert (Hinner : exists newTree polygons1,
               match nth_error (mark_visited_at polygons i) (i + 1) with
               | Some _ => traverseAreas todo nodes (mark_visited_at polygons i) fresh
               | None => Returned (fresh, mark_visited_at polygons i)
               end = Returned (newTree, polygons1) /\
               Forall (fun p => drawable nodes (p_edges p)) polygons1 /\
               length polygons1 = length polygons).
    { destruct (nth_error (mark_visited_at polygons i) (i + 1)).
      - destruct (IH (mark_visited_at polygons i) fresh) as (t & ps & E & F & L & _).
        + now apply mark_visited_at_Forall.
        + simpl. now rewrite mark_visited_at_length.
        + rewrite mark_visited_at_length in L. eauto.
      - eexists _, _. split; [reflexivity |].
        split; [now apply mark_visited_at_Forall | apply mark_visited_at_length]. }
    destruct Hinner as (newTree & polygons1 & -> & F1 & L1). cbn [obind].
    destruct (IH polygons1 (adopt parent newTree (area p))) as (t & ps & E & F & L & R);
      auto.
    + apply adopt_in_range. now rewrite L1.
    + rewrite L1 in *. eauto 6.
Qed.

Lemma buildNestingTree_total (polygons : list InputPolygon) :
  Forall (fun p => drawable nodes (edges p)) polygons ->
  exists t, buildNestingTree nodes polygons = Returned t.
Proof.
  intro H. unfold buildNestingTree.
  destruct (inputPolygons_total polygons H 0) as (mapped & -> & Hm). cbn [obind].
  destruct (traverseAreas_total (length (sort_by_area mapped)) (sort_by_area mapped)
                                (AreaTreeRoot [])) as (t & ps & -> & _).
  - now apply sort_by_area_Forall.
  - exact I.
  - simpl. eauto.
Qed.

End AreaTotal.

Section Pipeline.

Context {N : Num}.

(** An input that passed validation has its edge endpoints among the
    indices of the nodes. *)
Lemma validated_edges_in_range (positions : InputNodes) (edges : InputEdges) :
  validateInputs positions edges = None ->
  forall e, In e edges -> node_index positions (fst e) /\ node_index positions (snd e).
Proof.
  unfold validateInputs. intros H e He.
  destruct (_ || _); [discriminate |].
  destruct (validate_positions positions []); [discriminate |].
  pose proof (validate_edges_scan (Z.of_nat (length positions) - 1) edges []) as S.
  simpl in S. rewrite S in H.
  pose proof (scan_spec (edge_check (Z.of_nat (length positions) - 1)) edges []) as Sp.
  rewrite H in Sp.
  apply In_nth_error in He. destruct He as (j & Hj).
  specialize (Sp j e Hj). unfold edge_check in Sp.
  destruct (existsb _ _); [discriminate |].
  destruct (endpoint_out_of_bounds _ e) eqn:B; [discriminate |].
  unfold endpoint_out_of_bounds in B.
  apply orb_false_elim in B. destruct B as [B B4].
  apply orb_false_elim in B. destruct B as [B B3].
  apply orb_false_elim in B. destruct B as [B1 B2].
  unfold node_index.
  apply Z.ltb_ge in B1, B3.
  rewrite Z.gtb_ltb in B2, B4. apply Z.ltb_ge in B2, B4. lia.
Qed.

Lemma discover_result_validated (fuel : nat) (positions : InputNodes)
      (edges : InputEdges) (s0 : VertexStore) (forest : CycleTreeForest)
      (s' : VertexStore) :
  discover fuel positions edges s0 = Returned (RESULT forest, s') ->
  validateInputs positions edges = None.
Proof.
  unfold discover. destruct (validateInputs positions edges); auto.
  intro H. minv. discriminate.
Qed.

(** The cycles of a forest are those of its trees. *)
Lemma forest_cycle_of_tree (forest : CycleTreeForest) (c : list Z) :
  In c (getCyclesFromCycleForest forest) ->
  c <> [] /\ exists t, In t forest /\ In c (tree_cycles t).
Proof.
  unfold getCyclesFromCycleForest, forest_cycles. intro H.
  apply filter_In in H. destruct H as [H Hl].
  apply in_flat_map in H. split; [| exact H].
  intros ->. discriminate.
Qed.

(** What [discover] on a fresh instance returns. *)
Lemma discover_fresh (fuel : nat) (positions : InputNodes) (edges : InputEdges)
      (forest : CycleTreeForest) (s' : VertexStore) :
  discover fuel positions edges [] = Returned (RESULT forest, s') ->
  (forall i, adj s' i = []) /\ names_satisfy (node_index positions) s' /\
  Forall (cycles_ok s') forest.
Proof.
  intro H. pose proof (discover_result_validated _ _ _ _ _ _ H) as V.
  apply (discover_spec (node_index positions)) in H.
  - tauto.
  - intros i Hi. simpl in Hi. lia.
  - intro i. unfold adj. now rewrite deref_out_of_range by (simpl; lia).
  - now apply validated_edges_in_range.
Qed.

(** ** The names of the records *)

Lemma unique_names_NoDup (edges : InputEdges) :
  forall seen, NoDup seen -> NoDup (unique_names edges seen).
Proof.
  assert (Hadd : forall (seen : list Z) (x : Z),
             NoDup seen ->
             NoDup (if existsb (Z.eqb x) seen then seen else seen ++ [x])).
  { intros seen x Hn. destruct (existsb (Z.eqb x) seen) eqn:E; auto.
    apply NoDup_app; auto.
    - constructor; [intros [] | constructor].
    - intros y Hy [E' | []]. subst y.
      assert (Ht : existsb (Z.eqb x) seen = true).
      { apply existsb_exists. exists x. split; auto. apply Z.eqb_refl. }
      congruence. }
  induction edges as [| e edges IH]; intros seen Hn; cbn [unique_names]; auto.
Qed.

Lemma build_vertices_names (positions : InputNodes) :
  forall names s u s',
    forEach names (fun nm => mbind (new_vertex nm (positions_at positions nm))
                                   (fun _ => ret tt)) s = Returned (u, s') ->
    forall k, (k < length names)%nat ->
              name (deref s' (length s + k)) = nth k names 0%Z.
Proof.
  induction names as [| nm names IH]; intros s u s' H k Hk; [simpl in Hk; lia |].
  cbn [forEach] in H. minv.
  pose proof (build_vertices_spec (fun _ => True) positions _ _ _ _ H)
    as (_ & La & _).
  destruct k as [| k].
  - rewrite Nat.add_0_r. destruct La as [_ La].
    destruct (La (length s)) as [-> _].
    + rewrite length_app. simpl. lia.
    + now rewrite deref_push_new.
  - specialize (IH _ _ _ H k). rewrite length_app in IH. simpl in IH.
    replace (length s + S k)%nat with (length s + 1 + k)%nat by lia.
    apply IH. simpl in Hk. lia.
Qed.

(** The records that [discover] creates on a fresh instance for the names
    of the edges keep their names to the end. *)
Lemma discover_fresh_names (fuel : nat) (positions : InputNodes) (edges : InputEdges)
      (forest : CycleTreeForest) (s' : VertexStore) :
  discover fuel positions edges [] = Returned (RESULT forest, s') ->
  (length (unique_names edges []) <= length s')%nat /\
  forall k, (k < length (unique_names edges []))%nat ->
            name (deref s' k) = nth k (unique_names edges []) 0%Z.
Proof.
  intro H. pose proof (discover_result_validated _ _ _ _ _ _ H) as V.
  apply discover_phases in H; [| exact V].
  destruct H as (u1 & s1 & u2 & s2 & components & s3 & u4 & s4 & forest' &
                 H1 & H2 & H3 & H4 & H5 & Hr).
  assert (Hi0 : forall i, adj (@nil Vertex) i = []).
  { intro i. unfold adj. now rewrite deref_out_of_range by (simpl; lia). }
  assert (Hn0 : names_satisfy (fun _ => True) (@nil Vertex)) by (intros i _; exact I).
  destruct (graph_built (fun _ => True) positions edges [] u1 s1 u2 s2 Hn0 Hi0)
    as (Hok2 & _); auto.
  pose proof (build_vertices_names positions _ _ _ _ H1) as Nm1.
  pose proof (build_vertices_spec (fun _ => True) positions _ _ _ _ H1) as (L1 & _).
  apply link_edges_spec in H2; [| simpl in *; lia].
  destruct H2 as (L2 & F2 & _).
  apply find_components_spec in H3; [| apply Hok2 |].
  2:{ intros v Hv. apply in_seq in Hv. lia. }
  destruct H3 as (G3 & found & E & Hval & _). simpl in E. subst components.
  apply reset_visited_spec in H4.
  pose proof (same_graph_trans _ _ _ G3 H4) as G4.
  pose proof (unlinked_arena_ok (fun _ => True) _ _ (same_graph_unlinked _ _ G4) Hok2)
    as Hok4.
  assert (L4 : length s4 = length s2) by apply G4.
  apply (extract_all_spec (fun _ => True)) in H5; auto.
  2:{ intros c x Hc Hx. rewrite L4. eauto. }
  destruct H5 as (_ & ((L5 & La5) & _) & _).
  simpl in L1. split; [lia |].
  intros k Hk.
  destruct (La5 k) as [-> _]; [lia |].
  destruct G4 as (_ & G4). destruct (G4 k) as (_ & -> & _).
  destruct (F2 k) as (-> & _).
  exact (Nm1 k Hk).
Qed.

Lemma walk_cycle_names (Q : Z -> Prop) (s : VertexStore) (c : list Z) :
  names_satisfy Q s -> walk_cycle s c ->
  (forall nm, In nm c -> Q nm) /\ (3 < length c)%nat.
Proof.
  intros Hn (w & -> & Hl & Hv & _). split.
  - intros nm Hnm. apply in_map_iff in Hnm. destruct Hnm as (v & <- & Hw).
    apply Hn. auto.
  - now rewrite length_map.
Qed.

Lemma getAreaTree_total (fuel : nat) (nodes : InputNodes) (edges : InputEdges)
      (forest : CycleTreeForest) (s' : VertexStore) :
  discover fuel nodes edges [] = Returned (RESULT forest, s') ->
  exists t, getAreaTree fuel nodes edges = Returned t /\
            type t = ROOT /\ all_nodes subtracts_each t.
Proof.
  intro H. pose proof (discover_fresh _ _ _ _ _ H) as (_ & Hn & Hc).
  assert (Hex : exists t, getAreaTree fuel nodes edges = Returned t).
  { unfold getAreaTree. rewrite H. apply buildNestingTree_total.
    apply Forall_forall. intros p Hp. apply in_map_iff in Hp.
    destruct Hp as (c & <- & Hin). simpl.
    apply forest_cycle_of_tree in Hin. destruct Hin as (Hne & t & Ht & Hct).
    rewrite Forall_forall in Hc.
    destruct (walk_cycle_names _ _ _ Hn (Hc t Ht c Hct Hne)) as [Hq Hl].
    apply drawable_cycle; [exact Hq | lia]. }
  destruct Hex as (t & Ht). exists t. split; auto.
  now apply getAreaTree_spec in Ht.
Qed.

End Pipeline.

(* ================================================================== *)
(** * What is left of a component after the filaments are removed *)
(* ================================================================== *)

Section PrunedComponent.

Context {N : Num}.

(** ** Adjacency sets stay duplicate free *)

Lemma NoDup_adjacent_delete (s : VertexStore) (a b : nat) :
  (forall x, NoDup (adj s x)) -> forall x, NoDup (adj (adjacent_delete a b s) x).
Proof.
  intros H x. rewrite adj_adjacent_delete.
  destruct (Nat.eqb x a); auto using NatSetFacts.NoDup_delete.
Qed.

Lemma removeFilaments_walk_sets (fuel : nat) :
  forall vertex s u s',
    removeFilaments_walk fuel vertex s = Returned (u, s') ->
    (forall x, NoDup (adj s x)) -> forall x, NoDup (adj s' x).
Proof.
  induction fuel as [| fuel IH]; intros vertex s u s' H Hs;
    cbn [removeFilaments_walk] in H; [discriminate |].
  minv. destruct (length (adj s vertex) =? 1)%nat.
  - destruct (adj s vertex) as [| adjacent l]; [discriminate |]. minv.
    eapply IH; eauto. auto using NoDup_adjacent_delete.
  - minv. exact Hs.
Qed.

Lemma removeFilaments_sets (fuel : nat) (component : list nat) (s : VertexStore)
      (component' : list nat) (s' : VertexStore) :
  removeFilaments fuel component s = Returned (component', s') ->
  (forall x, NoDup (adj s x)) -> forall x, NoDup (adj s' x).
Proof.
  unfold removeFilaments. intro H. minv.
  destruct (0 <? length _)%nat.
  - minv.
    match goal with
    | Hf : forEach _ _ _ = Returned _ |- _ =>
        revert Hf;
        apply (forEach_spec
                 (fun a b => (forall x, NoDup (adj a x)) -> forall x, NoDup (adj b x)));
        auto
    end.
    intros v s1 u1 s2 _ Hb. minv.
    destruct (length (adj s1 v) =? 1)%nat.
    + eapply removeFilaments_walk_sets; eauto.
    + minv. auto.
  - minv. auto.
Qed.

(** ** A graph whose records all have two adjacent records has a cycle *)

Lemma path_in_app_l (s : VertexStore) (w1 w2 : list nat) :
  path_in s (w1 ++ w2) -> path_in s w1.
Proof.
  induction w1 as [| a w1 IH]; [simpl; auto |].
  destruct w1 as [| b w1]; [simpl; auto |].
  intros [H1 H2]. split; [exact H1 | apply IH; exact H2].
Qed.

Lemma other_adjacent (l : list nat) (prev : nat) :
  NoDup l -> (2 <= length l)%nat -> exists y, In y l /\ y <> prev.
Proof.
  intros Hn Hl. destruct l as [| a [| b l]]; simpl in Hl; try lia.
  destruct (Nat.eq_dec a prev) as [-> | Ha].
  - exists b. split; [simpl; auto |].
    intros ->. inversion Hn; subst. apply H1. simpl; auto.
  - exists a. simpl; auto.
Qed.

Lemma cycle_from_path (s : VertexStore) (component : list nat) :
  simple_graph s -> closed_under_adj s component ->
  (forall x, In x component -> (2 <= length (adj s x))%nat) ->
  forall n cur rest,
    (length component - length (cur :: rest) < n)%nat ->
    NoDup (cur :: rest) -> incl (cur :: rest) component -> path_in s (cur :: rest) ->
    exists w, graph_cycle s component w.
Proof.
  intros (Y & Nd & Irr) K D.
  induction n as [| n IH]; intros cur rest Hm Hn Hi Hp; [lia |].
  assert (Hc : In cur component) by (apply Hi; left; reflexivity).
  destruct (other_adjacent (adj s cur) (hd cur rest) (Nd cur) (D cur Hc))
    as (y & Hy & Hne).
  assert (Hyc : y <> cur) by (intros ->; exact (Irr cur Hy)).
  destruct (in_dec Nat.eq_dec y (cur :: rest)) as [Hin | Hout].
  - (* the walk closes *)
    destruct Hin as [Hin | Hin]; [congruence |].
    destruct rest as [| prev rest']; [contradiction |]. simpl in Hne.
    destruct Hin as [Hin | Hin]; [congruence |].
    apply in_split in Hin. destruct Hin as (l1 & l2 & ->).
    exists (cur :: prev :: l1 ++ [y]).
    assert (E : cur :: prev :: l1 ++ y :: l2 = (cur :: prev :: l1 ++ [y]) ++ l2).
    { simpl. rewrite <- app_assoc. reflexivity. }
    rewrite E in Hn, Hi, Hp.
    refine (conj _ (conj _ (conj _ (conj _ _)))).
    + simpl. rewrite length_app. simpl. lia.
    + eapply NoDup_app_remove_r. exact Hn.
    + intros x Hx. apply Hi. apply in_or_app. auto.
    + eapply path_in_app_l. exact Hp.
    + exists cur. split; [reflexivity |].
      change (cur :: prev :: l1 ++ [y]) with ((cur :: prev :: l1) ++ [y]).
      rewrite last_last. apply Y. exact Hy.
  - (* the walk goes on *)
    apply (IH y (cur :: rest)).
    + assert (length (y :: cur :: rest) <= length component)%nat.
      { apply NoDup_incl_length.
        - constructor; auto.
        - intros x [<- | Hx]; [eapply K; eauto | auto]. }
      simpl in *. lia.
    + constructor; auto.
    + intros x [<- | Hx]; [eapply K; eauto | auto].
    + split; [apply Y; exact Hy | exact Hp].
Qed.

Lemma cycle_exists (s : VertexStore) (component : list nat) :
  simple_graph s -> closed_under_adj s component ->
  (forall x, In x component -> (2 <= length (adj s x))%nat) ->
  component <> [] ->
  exists w, graph_cycle s component w.
Proof.
  intros G K D Hne. destruct component as [| v component]; [congruence |].
  apply (cycle_from_path s (v :: component) G K D (S (length (v :: component))) v []).
  - simpl. lia.
  - constructor; [intros [] | constructor].
  - intros x [<- | []]. left. reflexivity.
  - exact I.
Qed.

(** ** The post-condition of removeFilaments *)

Lemma removeFilaments_degree (fuel : nat) (component : list nat) (s : VertexStore)
      (component' : list nat) (s' : VertexStore) :
  removeFilaments fuel component s = Returned (component', s') ->
  (forall x, In x component -> adj s x <> []) ->
  forall x, In x component' -> (2 <= length (adj s' x))%nat.
Proof.
  intros H Hne. apply removeFilaments_spec in H.
  destruct H as (_ & Hincl & _ & Hn1 & Hsome & Hnone).
  destruct (existsb (fun x => (length (adj s x) =? 1)%nat) component) eqn:E.
  - apply existsb_exists in E. destruct E as (x & Hx & Hl).
    apply Nat.eqb_eq in Hl. apply Hsome. eauto.
  - destruct Hnone as [-> ->].
    + intros x Hx Hl.
      assert (Ht : existsb (fun x => (length (adj s x) =? 1)%nat) component = true).
      { apply existsb_exists. exists x. split; auto. now apply Nat.eqb_eq. }
      congruence.
    + intros x Hx. specialize (Hn1 x Hx). specialize (Hne x Hx).
      destruct (adj s x) as [| a [| b l]]; simpl in *; try congruence; lia.
Qed.

Lemma removeFilaments_graph (fuel : nat) (component : list nat) (s : VertexStore)
      (component' : list nat) (s' : VertexStore) :
  removeFilaments fuel component s = Returned (component', s') ->
  simple_graph s -> closed_under_adj s component ->
  simple_graph s' /\ closed_under_adj s' component'.
Proof.
  intros H (Y & Nd & Irr) K.
  pose proof (removeFilaments_sets _ _ _ _ _ H Nd) as Nd'.
  apply removeFilaments_spec in H.
  destruct H as (((L & P) & Y') & Hincl & Hdrop & _).
  specialize (Y' Y). split.
  - refine (conj Y' (conj Nd' _)).
    intros x Hx. destruct (P x) as (I & _). apply (Irr x). apply I. exact Hx.
  - intros x y Hx Hy.
    assert (Hyc : In y component).
    { apply (K x); [apply Hincl; exact Hx |]. destruct (P x) as (I & _). apply I. exact Hy. }
    destruct (in_dec Nat.eq_dec y component') as [Hin | Hout]; auto.
    exfalso. apply Y' in Hy. rewrite (Hdrop y Hyc Hout) in Hy. contradiction.
Qed.

End PrunedComponent.

(* ================================================================== *)
(** * The marks: who is visited after the extraction *)
(* ================================================================== *)

Section MarkFacts.

Context {N : Num}.

Lemma visited_adjacent_delete (s : VertexStore) (a b i : nat) :
  visited (deref (adjacent_delete a b s) i) = visited (deref s i).
Proof.
  unfold adjacent_delete. destruct (Nat.eq_dec i a) as [-> | Hne].
  - destruct (Nat.lt_ge_cases a (length s)).
    + rewrite deref_update_same by auto. reflexivity.
    + now rewrite update_out_of_range.
  - now rewrite deref_update_other.
Qed.

Lemma same_marks_refl (s : VertexStore) : same_marks s s.
Proof. split; auto. Qed.

Lemma same_marks_trans (s1 s2 s3 : VertexStore) :
  same_marks s1 s2 -> same_marks s2 s3 -> same_marks s1 s3.
Proof.
  intros [L1 V1] [L2 V2]. split; [congruence |].
  intro i. rewrite V2. apply V1.
Qed.

Lemma same_marks_adjacent_delete (s : VertexStore) (a b : nat) :
  same_marks s (adjacent_delete a b s).
Proof. split; [apply length_adjacent_delete | intro i; apply visited_adjacent_delete]. Qed.

Lemma same_marks_adjacent_add (s : VertexStore) (a b : nat) :
  same_marks s (adjacent_add a b s).
Proof. split; [apply length_adjacent_add | intro i; apply visited_adjacent_add]. Qed.

Lemma unlink_marks (a b : nat) (s : VertexStore) (u : unit) (s' : VertexStore) :
  unlink a b s = Returned (u, s') -> same_marks s s'.
Proof.
  intro H. apply unlink_spec in H. destruct H as [-> _].
  eapply same_marks_trans; apply same_marks_adjacent_delete.
Qed.

Lemma removeFilaments_walk_marks (fuel : nat) :
  forall vertex s u s',
    removeFilaments_walk fuel vertex s = Returned (u, s') -> same_marks s s'.
Proof.
  induction fuel as [| fuel IH]; intros vertex s u s' H;
    cbn [removeFilaments_walk] in H; [discriminate |].
  minv. destruct (length (adj s vertex) =? 1)%nat.
  - destruct (adj s vertex) as [| adjacent l]; [discriminate |]. minv.
    apply IH in H.
    eapply same_marks_trans; [| exact H].
    eapply same_marks_trans; apply same_marks_adjacent_delete.
  - minv. apply same_marks_refl.
Qed.

Lemma removeFilaments_marks (fuel : nat) (component : list nat) (s : VertexStore)
      (component' : list nat) (s' : VertexStore) :
  removeFilaments fuel component s = Returned (component', s') -> same_marks s s'.
Proof.
  unfold removeFilaments. intro H. minv.
  destruct (0 <? length _)%nat.
  - minv.
    match goal with
    | Hf : forEach _ _ _ = Returned _ |- _ =>
        revert Hf; apply (forEach_spec same_marks);
        [apply same_marks_refl | apply same_marks_trans |]
    end.
    intros v s1 u1 s2 _ Hb. minv.
    destruct (length (adj s1 v) =? 1)%nat.
    + eapply removeFilaments_walk_marks; eauto.
    + minv. apply same_marks_refl.
  - minv. apply same_marks_refl.
Qed.

Lemma extractCycle_forward_marks (fuel : nat) (vBranch : option nat) :
  forall v1 s r s',
    extractCycle_forward fuel vBranch v1 s = Returned (r, s') -> same_marks s s'.
Proof.
  induction fuel as [| fuel IH]; intros v1 s r s' H;
    cbn [extractCycle_forward] in H; [discriminate |].
  minv. destruct (_ && _).
  - destruct (adj s v1) as [| a l]; [discriminate |].
    minv.
    match goal with
    | Hu : unlink _ _ _ = Returned _ |- _ => apply unlink_marks in Hu
    end.
    eapply same_marks_trans; eauto.
  - minv. apply same_marks_refl.
Qed.

Lemma extractCycle_backward_marks (fuel : nat) (vBranch : nat) :
  forall v0 s r s',
    extractCycle_backward fuel vBranch v0 s = Returned (r, s') -> same_marks s s'.
Proof.
  induction fuel as [| fuel IH]; intros v0 s r s' H;
    cbn [extractCycle_backward] in H; [discriminate |].
  minv. destruct (_ && _).
  - destruct (adj s v0) as [| a l]; [discriminate |].
    minv.
    match goal with
    | Hu : unlink _ _ _ = Returned _ |- _ => apply unlink_marks in Hu
    end.
    eapply same_marks_trans; eauto.
  - minv. apply same_marks_refl.
Qed.

Lemma extractCycle_marks (fuel : nat) (closedWalk : list nat) (s : VertexStore)
      (c : list Z) (s' : VertexStore) :
  extractCycle fuel closedWalk s = Returned (c, s') -> same_marks s s'.
Proof.
  unfold extractCycle. intro H. minv.
  repeat match goal with
         | Hu : unlink _ _ _ = Returned _ |- _ => apply unlink_marks in Hu
         | Hf : extractCycle_forward _ _ _ _ = Returned _ |- _ =>
             apply extractCycle_forward_marks in Hf
         end.
  match goal with
  | Hb : (if ?c then _ else _) ?sa = Returned (_, ?sb) |- _ =>
      assert (Mb : same_marks sa sb)
        by (destruct c;
            [eapply extractCycle_backward_marks; eauto | minv; apply same_marks_refl])
  end.
  eauto using same_marks_trans.
Qed.

Lemma reattach_marks (original clone vertex : nat) (s : VertexStore) (u : unit)
      (s' : VertexStore) :
  reattach original clone vertex s = Returned (u, s') -> same_marks s s'.
Proof.
  unfold reattach. intro H. minv.
  eapply same_marks_trans; [| apply same_marks_adjacent_add].
  eapply same_marks_trans; [| apply same_marks_adjacent_add].
  eapply same_marks_trans; apply same_marks_adjacent_delete.
Qed.

Lemma reattach_all_marks (original clone : nat) (moved : list nat) :
  forall s u s',
    forEach moved (reattach original clone) s = Returned (u, s') -> same_marks s s'.
Proof.
  apply (forEach_spec same_marks).
  - apply same_marks_refl.
  - apply same_marks_trans.
  - intros x s u s' _. apply reattach_marks.
Qed.

(** ** Phases that may add records *)

Lemma quiet_refl (s : VertexStore) : quiet s s.
Proof. left. apply same_marks_refl. Qed.

Lemma quiet_length (s s' : VertexStore) : quiet s s' -> (length s <= length s')%nat.
Proof. intros [[L _] | L]; lia. Qed.

Lemma quiet_trans (s1 s2 s3 : VertexStore) : quiet s1 s2 -> quiet s2 s3 -> quiet s1 s3.
Proof.
  intros [M1 | G1] Q2.
  - destruct Q2 as [M2 | G2].
    + left. eapply same_marks_trans; eauto.
    + right. destruct M1 as [L _]. lia.
  - right. apply quiet_length in Q2. lia.
Qed.

Lemma same_marks_quiet (s s' : VertexStore) : same_marks s s' -> quiet s s'.
Proof. intro H. left. exact H. Qed.


Section WithQuietRecursion.

Variable rec : list nat -> M CycleTree.
Variable fuel : nat.
Hypothesis Hq : quiet_contract rec.

(** A detached sub-problem adds a record. *)
Lemma clone_grows (nm : Z) (pos : Position) (s s2 s3 s4 : VertexStore)
      (component : list nat) (child : CycleTree) :
  same_marks (s ++ [{| name := nm; position := pos; adjacent := []; visited := 0 |}]) s2 ->
  depthFirstSearch fuel (length s) [] s2 = Returned (component, s3) ->
  rec component s3 = Returned (child, s4) ->
  quiet s s4.
Proof.
  intros [L2 _] D R. right.
  apply depthFirstSearch_spec in D. destruct D as ((L3 & _) & _).
  apply Hq in R. apply quiet_length in R.
  rewrite length_app in L2. simpl in L2. lia.
Qed.

Lemma detach_quiet (closedWalk : list nat) (i : nat) (s : VertexStore)
      (pushed : list CycleTree) (s' : VertexStore) :
  detach rec fuel closedWalk i s = Returned (pushed, s') -> quiet s s'.
Proof.
  unfold detach. intro H. minv.
  match type of H with
  | (if (0 <? length ?w)%nat then _ else _) _ = _ => set (inWedge := w) in *
  end.
  destruct (0 <? length inWedge)%nat.
  - minv.
    match goal with
    | Hf : forEach _ _ _ = Returned (_, ?sa),
      Hd : depthFirstSearch _ _ _ ?sa = Returned (?comp, ?sb),
      Hr : rec ?comp ?sb = Returned (?child, ?sc) |- _ =>
        apply reattach_all_marks in Hf;
        exact (clone_grows _ _ _ _ _ _ _ _ Hf Hd Hr)
    end.
  - minv. apply quiet_refl.
Qed.

Lemma detach_all_quiet (closedWalk : list nat) :
  forall detachments children s children' s',
    detach_all rec fuel closedWalk detachments children s = Returned (children', s') ->
    quiet s s'.
Proof.
  induction detachments as [| i rest IH]; intros children s children' s' H;
    cbn [detach_all] in H.
  - minv. apply quiet_refl.
  - apply mbind_returned in H. destruct H as (pushed & s1 & Hd & H).
    apply detach_quiet in Hd. apply IH in H. eapply quiet_trans; eauto.
Qed.

Lemma extractCycleFromClosedWalk_quiet (closedWalk : list nat) (s : VertexStore)
      (t : CycleTree) (s' : VertexStore) :
  extractCycleFromClosedWalk rec fuel closedWalk s = Returned (t, s') -> quiet s s'.
Proof.
  unfold extractCycleFromClosedWalk. intro H.
  apply mbind_returned in H. destruct H as ([walk' detachments] & s0 & Hs & H).
  apply lift_returned in Hs. destruct Hs as [_ ->].
  destruct (3 <? length walk')%nat.
  - minv.
    match goal with
    | Hd : detach_all _ _ _ _ _ _ = Returned (_, ?sa),
      He : extractCycle _ _ ?sa = Returned _ |- _ =>
        apply detach_all_quiet in Hd; apply extractCycle_marks in He;
        eapply quiet_trans; [exact Hd | apply same_marks_quiet; exact He]
    end.
  - minv.
    match goal with
    | Hf : reattach _ _ _ _ = Returned (_, ?sa),
      Hd : depthFirstSearch _ _ _ ?sa = Returned (?comp, ?sb),
      Hr : rec ?comp ?sb = Returned (?child, ?sc) |- _ =>
        apply reattach_marks in Hf;
        exact (clone_grows _ _ _ _ _ _ _ _ Hf Hd Hr)
    end.
Qed.

Lemma extractCycleFromComponent_quiet (component : list nat) (s : VertexStore)
      (r : CycleTree * list nat) (s' : VertexStore) :
  extractCycleFromComponent rec fuel component s = Returned (r, s') -> quiet s s'.
Proof.
  unfold extractCycleFromComponent. intro H.
  destruct component as [| first others]; [discriminate |].
  minv.
  match goal with
  | Hl : closedWalk_loop _ _ _ _ _ _ = Returned (_, ?sa),
    Hw : extractCycleFromClosedWalk _ _ _ ?sa = Returned _ |- _ =>
      apply closedWalk_loop_spec in Hl; destruct Hl as (-> & _);
      apply extractCycleFromClosedWalk_quiet in Hw; exact Hw
  end.
Qed.

Lemma extractBasis_loop_quiet (n : nat) :
  forall component children s children' s',
    extractBasis_loop rec fuel n component children s = Returned (children', s') ->
    quiet s s'.
Proof.
  induction n as [| n IH]; intros component children s children' s' H;
    cbn [extractBasis_loop] in H; [discriminate |].
  destruct (0 <? length component)%nat; [| minv; apply quiet_refl].
  apply mbind_returned in H. destruct H as (component1 & s1 & Hf & H).
  apply removeFilaments_marks in Hf. apply same_marks_quiet in Hf.
  destruct (0 <? length component1)%nat.
  - apply mbind_returned in H. destruct H as ([tree component2] & s2 & Hx & H).
    apply extractCycleFromComponent_quiet in Hx. apply IH in H.
    eauto using quiet_trans.
  - apply IH in H. eauto using quiet_trans.
Qed.

End WithQuietRecursion.

Lemma extractBasis_quiet (fuel : nat) : quiet_contract (extractBasis fuel).
Proof.
  induction fuel as [| fuel IH]; intros component s t s' H;
    cbn [extractBasis] in H; [discriminate |].
  minv.
  match goal with
  | Hl : extractBasis_loop _ _ _ _ _ _ = Returned _ |- _ =>
      exact (extractBasis_loop_quiet _ _ IH _ _ _ _ _ _ Hl)
  end.
Qed.

Lemma extract_all_quiet (fuel : nat) :
  forall components forest s forest' s',
    extract_all fuel components forest s = Returned (forest', s') -> quiet s s'.
Proof.
  induction components as [| c rest IH]; intros forest s forest' s' H;
    cbn [extract_all] in H.
  - minv. apply quiet_refl.
  - apply mbind_returned in H. destruct H as (t & s1 & Hb & H).
    apply extractBasis_quiet in Hb. apply IH in H. eauto using quiet_trans.
Qed.

(** ** The marks when [discover] has returned *)

Lemma reset_marks (l : list nat) :
  forall s u s',
    forEach l (fun v => modify (set_visited v 0)) s = Returned (u, s') ->
    forall i, (In i l \/ visited (deref s i) = 0%nat) -> visited (deref s' i) = 0%nat.
Proof.
  induction l as [| v l IH]; intros s u s' H i Hi; cbn [forEach] in H.
  - minv. destruct Hi as [[] | Hi]; exact Hi.
  - minv. apply (IH _ _ _ H).
    rewrite visited_set_visited.
    destruct (Nat.eqb_spec i v) as [-> | Hne]; simpl.
    + destruct (Nat.ltb_spec v (length s)) as [Hl | Hl]; [right; reflexivity |].
      right. now rewrite deref_out_of_range.
    + destruct Hi as [[Hi | Hi] | Hi]; [congruence | left; exact Hi | right; exact Hi].
Qed.

Lemma unique_names_length (edges : InputEdges) :
  forall seen, (length seen <= length (unique_names edges seen))%nat.
Proof.
  induction edges as [| e edges IH]; intro seen; cbn [unique_names]; [lia |].
  etransitivity; [| apply IH].
  destruct (existsb (Z.eqb (fst e)) seen);
    destruct (existsb (Z.eqb (snd e)) _); rewrite ?length_app; simpl; lia.
Qed.

Lemma unique_names_nonempty (edges : InputEdges) :
  edges <> [] -> (0 < length (unique_names edges []))%nat.
Proof.
  destruct edges as [| e edges]; [congruence |]. intros _.
  cbn [unique_names]. eapply Nat.lt_le_trans; [| apply unique_names_length].
  simpl. destruct (Z.eqb (snd e) (fst e) || false); simpl; lia.
Qed.

(** When the call created no clone, every record is unvisited at the end,
    and there is a record. *)
Lemma discover_marks (fuel : nat) (positions : InputNodes) (edges : InputEdges)
      (forest : CycleTreeForest) (s' : VertexStore) :
  discover fuel positions edges [] = Returned (RESULT forest, s') ->
  length s' = length (unique_names edges []) ->
  (0 < length s')%nat /\ forall i, visited (deref s' i) = 0%nat.
Proof.
  intros H Hl. pose proof (discover_result_validated _ _ _ _ _ _ H) as V.
  assert (Hne : edges <> []).
  { intros ->. unfold validateInputs in V. rewrite orb_true_r in V. discriminate. }
  split; [rewrite Hl; now apply unique_names_nonempty |].
  apply discover_phases in H; [| exact V].
  destruct H as (u1 & s1 & u2 & s2 & components & s3 & u4 & s4 & forest' &
                 H1 & H2 & H3 & H4 & H5 & Hr).
  pose proof (build_vertices_spec (fun _ => True) positions _ _ _ _ H1) as (L1 & _).
  apply link_edges_spec in H2; [| simpl in *; lia].
  destruct H2 as (L2 & _).
  apply find_components_prefix in H3 as Hp.
  assert (L3 : length s3 = length s2).
  { clear - H3. revert H3. generalize (@nil (list nat)). generalize (seq 0 (length s2)).
    intros l. revert s2. induction l as [| v l IH]; intros s2 comps H;
      cbn [find_components] in H.
    - minv. reflexivity.
    - minv. destruct (visited (deref s2 v) =? 0)%nat.
      + minv.
        match goal with
        | Hd : depthFirstSearch _ _ _ _ = Returned _ |- _ =>
            apply depthFirstSearch_spec in Hd; destruct Hd as ((L & _) & _)
        end.
        apply IH in H. lia.
      + eapply IH; eauto. }
  pose proof (reset_visited_spec _ _ _ _ H4) as (L4 & _).
  pose proof (reset_marks _ _ _ _ H4) as Hz.
  apply extract_all_quiet in H5.
  simpl in L1.
  destruct H5 as [[_ M] | G]; [| lia].
  intro i. rewrite M.
  destruct (Nat.lt_ge_cases i (length s3)) as [Lt | Ge].
  - apply Hz. left. apply in_seq. lia.
  - rewrite deref_out_of_range by lia. reflexivity.
Qed.

End MarkFacts.

(* ================================================================== *)
(** * The properties of the specification *)
(* ================================================================== *)

(** ** Reading an outcome *)

Lemma result_returned {N : Num} (o : outcome (DiscoveryOutput * VertexStore)) :
  is_result o = true -> o = Returned (RESULT (result_forest o), final_store o).
Proof. destruct o as [[[forest | reason] s] | |]; simpl; congruence. Qed.

Lemma value_returned {N : Num} {A} (d : A) (o : outcome (A * VertexStore)) :
  has_returned o = true -> o = Returned (result_value d o, final_store o).
Proof. destruct o as [[a s] | |]; simpl; congruence. Qed.

Lemma returned_or_returned {A} (d : A) (o : outcome A) :
  has_returned o = true -> o = Returned (returned_or d o).
Proof. destruct o; simpl; congruence. Qed.

(** ** The cycles of the forest *)

Lemma last_map {A B} (f : A -> B) (l : list A) (d : A) :
  last (map f l) (f d) = f (last l d).
Proof.
  induction l as [| a [| b l] IH]; simpl in *; auto.
Qed.

Lemma walk_cycle_closed {N : Num} (s : VertexStore) (c : list Z) :
  walk_cycle s c -> closed_cycle c.
Proof.
  intros (w & -> & _ & _ & (first & Hh & Hl) & _).
  destruct w as [| a w]; simpl in Hh; [discriminate |].
  inversion Hh; subst a.
  pose proof (last_map (fun v => name (deref s v)) (first :: w) first) as E.
  rewrite Hl in E. unfold closed_cycle. cbn [map] in *. exact E.
Qed.

Lemma forest_cycles_ok {N : Num} (fuel : nat) (positions : InputNodes)
      (edges : InputEdges) (forest : CycleTreeForest) (s' : VertexStore) :
  discover fuel positions edges [] = Returned (RESULT forest, s') ->
  forall c, In c (forest_cycles forest) -> c <> [] -> walk_cycle s' c.
Proof.
  intros H c Hc Hne. apply discover_fresh in H. destruct H as (_ & _ & Hf).
  unfold forest_cycles in Hc. apply in_flat_map in Hc. destruct Hc as (t & Ht & Hct).
  rewrite Forall_forall in Hf. exact (Hf t Ht c Hct Hne).
Qed.

Lemma removelast_map {A B} (f : A -> B) (l : list A) :
  removelast (map f l) = map f (removelast l).
Proof.
  induction l as [| a l IH]; [reflexivity |].
  destruct l as [| b l]; [reflexivity |].
  change (removelast (map f (a :: b :: l))) with (f a :: removelast (map f (b :: l))).
  rewrite IH. reflexivity.
Qed.

Lemma In_removelast {A} (l : list A) (x : A) : In x (removelast l) -> In x l.
Proof.
  induction l as [| a l IH]; [auto |].
  destruct l as [| b l]; [intros [] |].
  intros [<- | H]; [left; reflexivity | right; apply IH; exact H].
Qed.

Lemma NoDup_map_on {A B} (f : A -> B) (l : list A) :
  NoDup l -> (forall x y, In x l -> In y l -> f x = f y -> x = y) ->
  NoDup (map f l).
Proof.
  induction 1 as [| a l Ha Hl IH]; intro Hinj; simpl; constructor.
  - intro Hin. apply in_map_iff in Hin. destruct Hin as (y & Hy & Hyl).
    apply Ha. rewrite (Hinj a y); simpl; auto.
  - apply IH. intros x y Hx Hy. apply Hinj; simpl; auto.
Qed.


(** C2.  Every cycle of every tree of the forest that [discover] returns is
    closed: when it is not empty, its first name is its last name. *)
Theorem cycles_are_closed {N : Num} (fuel : nat) (positions : InputNodes)
        (edges : InputEdges) (forest : CycleTreeForest) (s' : VertexStore) :
  discover fuel positions edges [] = Returned (RESULT forest, s') ->
  forall c, In c (forest_cycles forest) -> closed_cycle c.
Proof.
  intros H c Hc. destruct c as [| first c]; [exact I |].
  apply (walk_cycle_closed s'). eapply forest_cycles_ok; eauto. discriminate.
Qed.

Lemma cycles_are_closed_witness : closed_cycle [0; 1; 2; 0]%Z.
Proof.
  apply (cycles_are_closed 20 Inputs.triangle_nodes Inputs.triangle_edges
           (result_forest (discover 20 Inputs.triangle_nodes Inputs.triangle_edges []))
           (final_store (discover 20 Inputs.triangle_nodes Inputs.triangle_edges []))).
  - apply result_returned. vm_compute. reflexivity.
  - vm_compute. left. reflexivity.
Defined.

(** ** One instance, two calls *)

(** C10, as amended.  When a call of [discover] on a fresh instance has
    returned a forest, every record of the arena has an empty adjacency set;
    and when one of these records still carries the mark 0 (unvisited), no
    later call on the instance with an input that passes validation
    returns.  There is such a record when the call has created no clone,
    that is when the arena holds one record for each name of the edges. *)
Theorem instance_single_use {N : Num} (fuel : nat) (positions : InputNodes)
        (edges : InputEdges) (forest : CycleTreeForest) (s' : VertexStore) :
  discover fuel positions edges [] = Returned (RESULT forest, s') ->
  (forall i, adj s' i = []) /\
  (length s' = length (unique_names edges []) ->
   exists i, (i < length s')%nat /\ visited (deref s' i) = 0%nat) /\
  forall i, (i < length s')%nat -> visited (deref s' i) = 0%nat ->
            forall fuel2 positions2 edges2 r,
              validateInputs positions2 edges2 = None ->
              discover fuel2 positions2 edges2 s' <> Returned r.
Proof.
  intro H. pose proof (discover_marks _ _ _ _ _ H) as Hm.
  apply discover_fresh in H. destruct H as (He & _ & _).
  refine (conj He (conj _ _)).
  - intro Hl. destruct (Hm Hl) as [Hpos Hz]. exists 0%nat. auto.
  - intros i Hi Hz fuel2 positions2 edges2 r V.
    apply (discover_stale (fun _ => True) fuel2 positions2 edges2 s' i r); auto.
    intros j _. exact I.
Qed.

Lemma instance_single_use_witness :
  (forall i,
      adj (final_store (discover 20 Inputs.triangle_nodes Inputs.triangle_edges [])) i
      = []) /\
  forall r,
    discover 20 Inputs.triangle_nodes Inputs.triangle_edges
             (final_store (discover 20 Inputs.triangle_nodes Inputs.triangle_edges []))
    <> Returned r.
Proof.
  destruct (instance_single_use 20 Inputs.triangle_nodes Inputs.triangle_edges
              (result_forest (discover 20 Inputs.triangle_nodes Inputs.triangle_edges []))
              (final_store (discover 20 Inputs.triangle_nodes Inputs.triangle_edges [])))
    as (A & C & B).
  - apply result_returned. vm_compute. reflexivity.
  - split; [exact A |]. intro r.
    destruct C as (i & Hi & Hz); [vm_compute; reflexivity |].
    apply (B i Hi Hz). vm_compute. reflexivity.
Defined.

(** C10, as stated, fails: after a call on four points with two crossing
    edges every record carries the mark 2, and a second call on the same
    instance, with a triangle, returns a forest. *)
Lemma second_call_returns :
  exists forest s' forest2 s2,
    discover 200 Inputs.kite_nodes Inputs.kite_edges [] = Returned (RESULT forest, s') /\
    validateInputs Inputs.triangle_nodes Inputs.triangle_edges = None /\
    discover 200 Inputs.triangle_nodes Inputs.triangle_edges s' =
      Returned (RESULT forest2, s2) /\
    forest_cycles forest2 = [[0; 1; 2; 0]%Z].
Proof.
  exists (result_forest (discover 200 Inputs.kite_nodes Inputs.kite_edges [])),
         (final_store (discover 200 Inputs.kite_nodes Inputs.kite_edges [])),
         (result_forest
            (discover 200 Inputs.triangle_nodes Inputs.triangle_edges
               (final_store (discover 200 Inputs.kite_nodes Inputs.kite_edges [])))),
         (final_store
            (discover 200 Inputs.triangle_nodes Inputs.triangle_edges
               (final_store (discover 200 Inputs.kite_nodes Inputs.kite_edges [])))).
  refine (conj _ (conj _ (conj _ _))).
  - apply result_returned. vm_compute. reflexivity.
  - vm_compute. reflexivity.
  - apply result_returned. vm_compute. reflexivity.
  - vm_compute. reflexivity.
Qed.

(** ** The validator *)

(** C3, as amended.  The validator returns the outcome of the first check
    that fails along the scan order: the emptiness check, then the
    positions in index order, for each one the comparison with the earlier
    positions before the sign of its coordinates, then the edges in index
    order, for each one the comparison with the earlier edges before the
    bounds of its endpoints.  [discover] returns that code as its error. *)
Theorem validator_first_failure {N : Num} (positions : InputNodes) (edges : InputEdges) :
  first_failure positions edges (validateInputs positions edges) /\
  forall fuel s,
    match validateInputs positions edges with
    | Some c => discover fuel positions edges s = Returned (ERROR c, s)
    | None => True
    end.
Proof.
  split; [apply validateInputs_first_failure |].
  intros fuel s. unfold discover.
  destruct (validateInputs positions edges); [reflexivity | exact I].
Qed.

(** C3, as stated, fails.  With a negative coordinate at index 0 and two
    equal positions at indices 1 and 2 the code is
    INVALID_COORDINATE_SYSTEM, not VERTICES_HAVE_SAME_POSITION; with a
    repeated edge at index 1 and an endpoint out of bounds at index 2 it is
    DUPLICATE_EDGE_FOUND, not EDGE_ENDPOINT_OUT_OF_BOUNDS. *)
Lemma validator_not_by_precedence :
  (discover 10 Inputs.mixed_nodes Inputs.mixed_edges [] =
     Returned (ERROR INVALID_COORDINATE_SYSTEM, []) /\
   by_precedence Inputs.mixed_nodes Inputs.mixed_edges =
     Some VERTICES_HAVE_SAME_POSITION) /\
  (discover 10 Inputs.segment_nodes Inputs.repeated_edges [] =
     Returned (ERROR DUPLICATE_EDGE_FOUND, []) /\
   by_precedence Inputs.segment_nodes Inputs.repeated_edges =
     Some EDGE_ENDPOINT_OUT_OF_BOUNDS).
Proof.
  assert (V1 : validateInputs Inputs.mixed_nodes Inputs.mixed_edges =
               Some INVALID_COORDINATE_SYSTEM) by (vm_compute; reflexivity).
  assert (V2 : validateInputs Inputs.segment_nodes Inputs.repeated_edges =
               Some DUPLICATE_EDGE_FOUND) by (vm_compute; reflexivity).
  unfold discover. rewrite V1, V2.
  repeat split; try reflexivity; vm_compute; reflexivity.
Qed.

(** C7.  When both orientations of an edge are in the edge list and no
    ordered pair is there twice, the validator does not answer
    DUPLICATE_EDGE_FOUND; the keys of the two orientations differ. *)
Theorem both_orientations_accepted {N : Num} (positions : InputNodes)
        (edges : InputEdges) (a b : Z) :
  In (a, b) edges -> In (b, a) edges -> NoDup edges ->
  validateInputs positions edges <> Some DUPLICATE_EDGE_FOUND /\
  (a <> b -> Key.of_edge (a, b) <> Key.of_edge (b, a)).
Proof.
  intros _ _ Hn. split; [now apply NoDup_not_duplicate |].
  intros Hab E. apply KeyFacts.of_edge_inj in E. congruence.
Qed.

Lemma both_orientations_accepted_witness :
  validateInputs Inputs.two_way_nodes Inputs.two_way_edges <> Some DUPLICATE_EDGE_FOUND /\
  (0%Z <> 1%Z -> Key.of_edge (0, 1)%Z <> Key.of_edge (1, 0)%Z).
Proof.
  apply (both_orientations_accepted Inputs.two_way_nodes Inputs.two_way_edges 0 1).
  - simpl. auto.
  - simpl. auto.
  - unfold Inputs.two_way_edges.
    repeat (constructor; [simpl; intuition congruence |]). constructor.
Defined.

(** ** The filament pruner *)

(** C4, as amended.  When every record of the component has an adjacent
    record at the call, every record that is left in the component when
    [removeFilaments] has returned has two adjacent records at least; and
    when the adjacency sets describe a simple graph and the component is
    closed under adjacency, a component that is not empty then holds a
    cycle. *)
Theorem removeFilaments_postcondition {N : Num} (fuel : nat) (component : list nat)
        (s : VertexStore) (component' : list nat) (s' : VertexStore) :
  removeFilaments fuel component s = Returned (component', s') ->
  (forall x, In x component -> adj s x <> []) ->
  (forall x, In x component' -> (2 <= length (adj s' x))%nat) /\
  (simple_graph s -> closed_under_adj s component -> component' <> [] ->
   exists w, graph_cycle s' component' w).
Proof.
  intros H Hne.
  pose proof (removeFilaments_degree _ _ _ _ _ H Hne) as D.
  split; [exact D |].
  intros G K Hc. destruct (removeFilaments_graph _ _ _ _ _ H G K) as [G' K'].
  now apply cycle_exists.
Qed.

Lemma removeFilaments_postcondition_witness :
  (forall x,
      In x (result_value [] (removeFilaments 10 [0; 1; 2; 3]%nat Inputs.kettle_store)) ->
      (2 <= length (adj (final_store
                           (removeFilaments 10 [0; 1; 2; 3]%nat Inputs.kettle_store)) x))%nat) /\
  exists w,
    graph_cycle (final_store (removeFilaments 10 [0; 1; 2; 3]%nat Inputs.kettle_store))
                (result_value [] (removeFilaments 10 [0; 1; 2; 3]%nat Inputs.kettle_store))
                w.
Proof.
  destruct (removeFilaments_postcondition 10 [0; 1; 2; 3]%nat Inputs.kettle_store
              (result_value [] (removeFilaments 10 [0; 1; 2; 3]%nat Inputs.kettle_store))
              (final_store (removeFilaments 10 [0; 1; 2; 3]%nat Inputs.kettle_store)))
    as [D C].
  - apply value_returned. vm_compute. reflexivity.
  - intros x [<- | [<- | [<- | [<- | []]]]]; vm_compute; discriminate.
  - split; [exact D |]. apply C.
    + refine (conj _ (conj _ _)).
      * intros [| [| [| [| [| i]]]]] j; simpl;
          intuition (subst; simpl; auto).
      * intros [| [| [| [| [| i]]]]]; simpl;
          repeat (constructor; [simpl; intuition lia |]); constructor.
      * intros [| [| [| [| [| i]]]]]; simpl; intuition lia.
    + intros x y [<- | [<- | [<- | [<- | []]]]]; simpl; intuition (subst; simpl; auto).
    + vm_compute. discriminate.
Defined.

(** C4, as stated, fails: a component of one record without adjacent
    records comes back as it is, so a record with no adjacent record is
    left in a component that is not empty. *)
Lemma removeFilaments_keeps_isolated :
  removeFilaments 10 [0%nat] Inputs.lonely_store =
    Returned ([0%nat], Inputs.lonely_store) /\
  In 0%nat [0%nat] /\ length (adj Inputs.lonely_store 0) = 0%nat.
Proof. repeat split; simpl; auto. Qed.

(** ** The geometry kernel *)

Lemma Qhalf_zero (y : Q) : (y / 2 == 0 <-> y == 0)%Q.
Proof.
  split; intro H.
  - assert (E : (y == (y / 2) * 2)%Q) by field.
    rewrite E, H. reflexivity.
  - rewrite H. reflexivity.
Qed.

Lemma Qabs_half_zero (x : Q) : (Qabs x / 2 == 0 <-> x == 0)%Q.
Proof.
  rewrite Qhalf_zero. split; intro H.
  - revert H. apply Qabs_case; intros; lra.
  - rewrite H. reflexivity.
Qed.

Lemma Qhalf_nonneg (y : Q) : (0 <= y -> 0 <= y / 2)%Q.
Proof. intro H. apply Qle_shift_div_l; [reflexivity | lra]. Qed.

(** C5, as amended.  In exact arithmetic the area that [getPolygonArea]
    returns is not negative; it is 0 exactly when the winding order of the
    points is COLINEAR, that is when the signed sum over the edges is 0; and
    it is 0 when the points are colinear. *)
Theorem polygon_area_exact (nodes : @InputNodes Exact.rational) (polygon : InputPolygon)
        (a : Q) (path : list (@Position Exact.rational)) :
  getPolygonArea nodes polygon = Returned a ->
  all_defined (getPointPath nodes (edges polygon)) = Returned path ->
  (0 <= a)%Q /\
  ((a == 0)%Q <-> determineWindingOrder path = COLINEAR) /\
  (colinear path -> (a == 0)%Q).
Proof.
  intros Ha Hp. apply ExactFacts.exact_area in Ha.
  destruct Ha as (path' & Hp' & Ea). rewrite Hp in Hp'. inversion Hp'; subst path'.
  pose proof (Qabs_nonneg (@winding_sum Exact.rational path)) as Hn.
  pose proof (Qabs_half_zero (@winding_sum Exact.rational path)) as Hz.
  pose proof (ExactFacts.worder_COLINEAR path) as Hc.
  refine (conj _ (conj _ _)).
  - rewrite Ea. now apply Qhalf_nonneg.
  - rewrite Ea, Hz. symmetry. exact Hc.
  - intro C. rewrite Ea. apply Hz. now apply ExactFacts.colinear_wsum.
Qed.

Lemma polygon_area_exact_witness :
  (0 <= returned_or 0%Q (getPolygonArea Inputs.square_nodes Inputs.quadrilateral))%Q.
Proof.
  apply (polygon_area_exact Inputs.square_nodes Inputs.quadrilateral
           (returned_or 0%Q (getPolygonArea Inputs.square_nodes Inputs.quadrilateral))
           (returned_or []
              (all_defined (getPointPath Inputs.square_nodes
                                         (edges Inputs.quadrilateral))))).
  - apply returned_or_returned. vm_compute. reflexivity.
  - apply returned_or_returned. vm_compute. reflexivity.
Defined.

(** C5, as stated, fails.  The area of a self-intersecting quadrilateral is
    0 although three of its points are not on a line; and in double
    arithmetic the area of four points whose abscissas are multiples of
    2^-1074 is negative. *)
Lemma polygon_area_counterexample :
  (getPolygonArea Inputs.bowtie_nodes Inputs.quadrilateral = Returned (n_of_Z 0) /\
   exists path,
     all_defined (getPointPath Inputs.bowtie_nodes (edges Inputs.quadrilateral)) =
       Returned path /\
     ~ colinear path) /\
  (exists a, getPolygonArea Inputs.tiny_nodes Inputs.quadrilateral = Returned a /\
             n_ltb a (n_of_Z 0) = true).
Proof.
  split; [split |].
  - vm_compute. reflexivity.
  - exists (map pt [(0, 0); (2, 2); (2, 0); (0, 2)]%Z). split.
    + vm_compute. reflexivity.
    + intro C.
      specialize (C (pt (0, 0)%Z) (pt (2, 2)%Z) (pt (2, 0)%Z)).
      assert (H : @determineWindingOrder F64.double
                    [pt (0, 0)%Z; pt (2, 2)%Z; pt (2, 0)%Z] = COLINEAR).
      { apply C; simpl; auto. }
      vm_compute in H. discriminate H.
  - exists (S754_finite true 1 (-1074)). split; vm_compute; reflexivity.
Qed.

(** C8, as amended.  In exact arithmetic [determineWindingOrder] is
    self-dual for every list of points; in double arithmetic it is for the
    lists of three points at most whose signed sum is a number. *)
Theorem winding_order_self_dual :
  (forall l : list (@Position Exact.rational), self_dual_at l) /\
  (forall l : list (@Position F64.double),
      (length l <= 3)%nat -> winding_sum l <> S754_nan -> self_dual_at l).
Proof.
  split; [apply ExactFacts.exact_self_dual | apply DoubleFacts.double_self_dual].
Qed.

Lemma winding_order_self_dual_witness : self_dual_at Inputs.three_points.
Proof.
  apply (proj2 winding_order_self_dual Inputs.three_points).
  - simpl. lia.
  - vm_compute. discriminate.
Defined.

(** C8, as stated, fails in double arithmetic: four points with
    coordinates near 2^26 and 2^27 are clockwise, and the reversed list is
    COLINEAR, not counter-clockwise. *)
Lemma winding_order_not_self_dual :
  determineWindingOrder Inputs.wide_points = CW /\
  determineWindingOrder (rev Inputs.wide_points) = COLINEAR /\
  ~ self_dual_at Inputs.wide_points.
Proof.
  assert (H1 : determineWindingOrder Inputs.wide_points = CW)
    by (vm_compute; reflexivity).
  assert (H2 : determineWindingOrder (rev Inputs.wide_points) = COLINEAR)
    by (vm_compute; reflexivity).
  refine (conj H1 (conj H2 _)).
  intros (_ & [_ H] & _). specialize (H H1). congruence.
Qed.

(** ** The area tree *)

(** C6, as amended.  In every tree that [getAreaTree] returns, the
    [withoutChildren] of every CHILD node is its [total] from which the
    totals of its direct children have been subtracted one after the
    other, in child order, each subtraction in the arithmetic of the
    numbers. *)
Theorem area_tree_subtracts_each {N : Num} (fuel : nat) (nodes : InputNodes)
        (edges : InputEdges) (t : AreaTree) :
  getAreaTree fuel nodes edges = Returned t -> all_nodes subtracts_each t.
Proof. intro H. now apply getAreaTree_spec in H. Qed.

Lemma area_tree_subtracts_each_witness :
  all_nodes subtracts_each
            (returned_or (AreaTreeRoot [])
                         (getAreaTree 100 Inputs.nested_nodes Inputs.nested_edges)).
Proof.
  apply (area_tree_subtracts_each 100 Inputs.nested_nodes Inputs.nested_edges).
  apply returned_or_returned. vm_compute. reflexivity.
Defined.

(** In exact arithmetic that is the total minus the sum of the totals of
    the direct children. *)
Lemma area_tree_exact_sum (fuel : nat) (nodes : @InputNodes Exact.rational)
      (edges : InputEdges) (t : AreaTree) :
  getAreaTree fuel nodes edges = Returned t -> all_nodes subtracts_sum_exact t.
Proof.
  intro H. apply getAreaTree_spec in H. destruct H as [_ H].
  revert H. apply all_nodes_impl. apply subtracts_each_exact.
Qed.

(** C6, as stated, fails in double arithmetic: around two unit squares a
    square of side 2^27 keeps [withoutChildren] = 2^54, its total, while
    the total minus the sum of the children's totals is 2^54 - 2. *)
Lemma area_tree_sum_differs :
  exists t,
    getAreaTree 100 Inputs.nested_nodes Inputs.nested_edges = Returned t /\
    ~ all_nodes subtracts_sum t.
Proof.
  exists (returned_or (AreaTreeRoot [])
                      (getAreaTree 100 Inputs.nested_nodes Inputs.nested_edges)).
  split; [apply returned_or_returned; vm_compute; reflexivity |].
  intro H. vm_compute in H. destruct H as (_ & (H & _) & _). discriminate H.
Qed.

(** C9.  On every input on which [discover] returns a forest,
    [getAreaTree] returns, and the node it returns is of type ROOT. *)
Theorem getAreaTree_returns_root {N : Num} (fuel : nat) (nodes : InputNodes)
        (edges : InputEdges) (forest : CycleTreeForest) (s' : VertexStore) :
  discover fuel nodes edges [] = Returned (RESULT forest, s') ->
  exists t, getAreaTree fuel nodes edges = Returned t /\ type t = ROOT.
Proof.
  intro H. destruct (getAreaTree_total _ _ _ _ _ H) as (t & Ht & Hr & _). eauto.
Qed.

Lemma getAreaTree_returns_root_witness :
  exists t,
    getAreaTree 20 Inputs.triangle_nodes Inputs.triangle_edges = Returned t /\
    type t = ROOT.
Proof.
  apply (getAreaTree_returns_root 20 Inputs.triangle_nodes Inputs.triangle_edges
           (result_forest (discover 20 Inputs.triangle_nodes Inputs.triangle_edges []))
           (final_store (discover 20 Inputs.triangle_nodes Inputs.triangle_edges []))).
  apply result_returned. vm_compute. reflexivity.
Defined.

(* ================================================================== *)
(** * The validator: which inputs are accepted *)
(* ================================================================== *)

Section AcceptanceFacts.

Context {N : Num}.

(** A scan whose check compares with the earlier elements and then tests
    the element finds nothing exactly when no element repeats an earlier
    one and no element fails the test. *)
Lemma scan_none_iff {A} (eqb : A -> A -> bool) (bad : A -> bool)
      (c1 c2 : DiscoveryErrorCode) (l : list A) :
  forall earlier,
    scan (fun earlier x =>
            if existsb (eqb x) earlier then Some c1
            else if bad x then Some c2 else None) earlier l = None <->
    (forall x, In x l -> existsb (eqb x) earlier = false) /\
    has_repeat eqb l = false /\ existsb bad l = false.
Proof.
  induction l as [| a l IH]; intro earlier; cbn [scan has_repeat existsb].
  - split; auto. intros _. repeat split. intros x [].
  - destruct (existsb (eqb a) earlier) eqn:Ea.
    { split; [discriminate |]. intros (H & _). rewrite (H a) in Ea; [discriminate |].
      left. reflexivity. }
    destruct (bad a) eqn:Ba.
    { split; [discriminate |]. intros (_ & _ & H). discriminate. }
    rewrite IH. cbn [orb]. rewrite orb_false_iff.
    split.
    + intros (He & Hr & Hb). refine (conj _ (conj (conj _ Hr) Hb)).
      * intros x [<- | Hx]; auto.
        specialize (He x Hx). rewrite existsb_app in He.
        apply orb_false_iff in He. tauto.
      * destruct (existsb (fun y => eqb y a) l) eqn:E; auto.
        apply existsb_exists in E. destruct E as (y & Hy & Hya).
        specialize (He y Hy). rewrite existsb_app in He.
        apply orb_false_iff in He. destruct He as [_ He]. simpl in He.
        rewrite Hya in He. discriminate.
    + intros (He & (Hx & Hr) & Hb). refine (conj _ (conj Hr Hb)).
      intros x Hin. rewrite existsb_app. apply orb_false_iff. split.
      * apply He. right. exact Hin.
      * simpl. rewrite orb_false_r.
        destruct (eqb x a) eqn:E; auto.
        assert (Ht : existsb (fun y => eqb y a) l = true).
        { apply existsb_exists. exists x. auto. }
        congruence.
Qed.

Lemma by_precedence_none (positions : InputNodes) (edges : InputEdges) :
  by_precedence positions edges = None <->
  graph_empty positions edges = false /\
  same_position_present positions = false /\
  invalid_coordinate_present positions = false /\
  out_of_bounds_present positions edges = false /\
  duplicate_edge_present edges = false.
Proof.
  unfold by_precedence.
  destruct (graph_empty positions edges), (same_position_present positions),
    (invalid_coordinate_present positions), (out_of_bounds_present positions edges),
    (duplicate_edge_present edges); split; intro H; try discriminate; try tauto;
    intuition discriminate.
Qed.

Lemma validateInputs_none (positions : InputNodes) (edges : InputEdges) :
  validateInputs positions edges = None <-> by_precedence positions edges = None.
Proof.
  rewrite by_precedence_none.
  unfold validateInputs, graph_empty.
  destruct ((length positions =? 0)%nat || (length edges =? 0)%nat).
  { split; [discriminate | intros [H _]; discriminate]. }
  rewrite validate_positions_scan.
  pose proof (validate_edges_scan (Z.of_nat (length positions) - 1) edges []) as Se.
  simpl in Se. rewrite Se. clear Se.
  pose proof (scan_none_iff position_key_eqb negative_coordinate
                VERTICES_HAVE_SAME_POSITION INVALID_COORDINATE_SYSTEM positions []) as Sp.
  pose proof (scan_none_iff edge_eqb
                (endpoint_out_of_bounds (Z.of_nat (length positions) - 1))
                DUPLICATE_EDGE_FOUND EDGE_ENDPOINT_OUT_OF_BOUNDS edges []) as Sd.
  change (scan position_check [] positions = None <->
          (forall x, In x positions -> existsb (position_key_eqb x) [] = false) /\
          has_repeat position_key_eqb positions = false /\
          existsb negative_coordinate positions = false) in Sp.
  change (scan (edge_check (Z.of_nat (length positions) - 1)) [] edges = None <->
          (forall x, In x edges -> existsb (edge_eqb x) [] = false) /\
          has_repeat edge_eqb edges = false /\
          existsb (endpoint_out_of_bounds (Z.of_nat (length positions) - 1)) edges
          = false) in Sd.
  unfold same_position_present, invalid_coordinate_present, out_of_bounds_present,
    duplicate_edge_present.
  destruct (scan position_check [] positions) as [c |].
  - split; [discriminate |].
    intros (_ & H1 & H2 & _). assert (Some c = None); [| discriminate].
    apply Sp. auto.
  - destruct Sp as [Sp _]. destruct (Sp eq_refl) as (_ & H1 & H2).
    rewrite Sd. split.
    + intros (_ & H3 & H4). auto.
    + intros (_ & _ & _ & H4 & H3). auto.
Qed.

End AcceptanceFacts.

(* ================================================================== *)
(** * Segments that meet *)
(* ================================================================== *)

Section IntersectFacts.

Context {N : Num}.

(** [intersect] is the disjunction of its five tests. *)
Lemma intersect_tests (p1 q1 p2 q2 : Position) :
  intersect p1 q1 p2 q2 =
  (negb (WindingOrder_eqb (determineWindingOrder [p1; q1; p2])
                          (determineWindingOrder [p1; q1; q2])) &&
   negb (WindingOrder_eqb (determineWindingOrder [p2; q2; p1])
                          (determineWindingOrder [p2; q2; q1])))
  || (WindingOrder_eqb (determineWindingOrder [p1; q1; p2]) COLINEAR && onSegment p1 p2 q1)
  || (WindingOrder_eqb (determineWindingOrder [p1; q1; q2]) COLINEAR && onSegment p1 q2 q1)
  || (WindingOrder_eqb (determineWindingOrder [p2; q2; p1]) COLINEAR && onSegment p2 p1 q2)
  || (WindingOrder_eqb (determineWindingOrder [p2; q2; q1]) COLINEAR && onSegment p2 q1 q2).
Proof.
  unfold intersect. cbv zeta.
  repeat match goal with
         | |- context [if ?b then _ else _] => destruct b
         end; reflexivity.
Qed.

Lemma intersect_sym (p1 q1 p2 q2 : Position) :
  intersect p1 q1 p2 q2 = intersect p2 q2 p1 q1.
Proof.
  rewrite !intersect_tests.
  repeat match goal with
         | |- context [WindingOrder_eqb ?a ?b] =>
             generalize (WindingOrder_eqb a b); intro
         | |- context [onSegment ?a ?b ?c] =>
             generalize (onSegment a b c); intro
         end.
  repeat match goal with b : bool |- _ => destruct b end; reflexivity.
Qed.

End IntersectFacts.

(* ================================================================== *)
(** * The geometry kernel in exact arithmetic: segments and polygons *)
(* ================================================================== *)

Module ExactGeometry.

Import ExactFacts.

Local Open Scope Q_scope.

Local Notation "'QPosition'" := (@Position Exact.rational).
Local Notation "'wsum'" := (@winding_sum Exact.rational).
Local Notation "'wterm'" := (@winding_term Exact.rational).
Local Notation "'worder'" := (@determineWindingOrder Exact.rational).
Local Notation "'psum' l" := (Qsum (map wterm (path_edges l))) (at level 10, l at level 9).

Lemma WindingOrder_eqb_eq (a b : WindingOrder) : WindingOrder_eqb a b = true <-> a = b.
Proof. destruct a, b; simpl; split; intro H; congruence. Qed.

(** The winding order is the sign of the winding sum. *)
Lemma worder_ext (l l' : list QPosition) : wsum l == wsum l' -> worder l = worder l'.
Proof.
  intro E.
  pose proof (worder_COLINEAR l) as C. pose proof (worder_CW l) as W.
  pose proof (worder_CCW l) as K.
  pose proof (worder_COLINEAR l') as C'. pose proof (worder_CW l') as W'.
  pose proof (worder_CCW l') as K'.
  rewrite E in C, W, K.
  destruct (worder l).
  - symmetry. apply W'. now apply W.
  - symmetry. apply K'. now apply K.
  - symmetry. apply C'. now apply C.
Qed.

(** ** The order of the points: rotating the list *)

Lemma wsum_rotate (a : QPosition) (r : list QPosition) : wsum (r ++ [a]) == wsum (a :: r).
Proof.
  rewrite !wsum_Qsum. destruct r as [| b r]; [reflexivity |].
  change ((b :: r) ++ [a]) with (b :: (r ++ [a])).
  rewrite !cyclic_edges_cons.
  change (a :: (b :: r) ++ [a]) with (a :: b :: r ++ [a]).
  change (psum (a :: b :: r ++ [a])) with (wterm (a, b) + psum (b :: r ++ [a])).
  change (b :: (r ++ [a]) ++ [b]) with ((b :: r ++ [a]) ++ [b]).
  rewrite psum_snoc.
  change (b :: r ++ [a]) with ((b :: r) ++ [a]) at 2.
  rewrite last_last. ring.
Qed.

Lemma worder_rotate (a : QPosition) (r : list QPosition) :
  worder (r ++ [a]) = worder (a :: r).
Proof. apply worder_ext, wsum_rotate. Qed.

(** ** Comparisons *)

Lemma leb_le (a b : Q) : @n_leb Exact.rational a b = true <-> a <= b.
Proof. apply Qle_bool_iff. Qed.

Lemma leb_gt (a b : Q) : b < a -> @n_leb Exact.rational a b = false.
Proof.
  intro H. destruct (@n_leb Exact.rational a b) eqn:E; auto.
  apply leb_le in E. lra.
Qed.

Lemma max_spec (a b : Q) :
  a <= @n_max Exact.rational a b /\ b <= @n_max Exact.rational a b /\
  (@n_max Exact.rational a b = a \/ @n_max Exact.rational a b = b).
Proof.
  cbn [n_max Exact.rational]. unfold Exact.ltb.
  destruct (Qle_bool b a) eqn:E; simpl.
  - apply Qle_bool_iff in E. repeat split; auto; lra.
  - assert (a < b).
    { destruct (Qlt_le_dec a b); auto. apply Qle_bool_iff in q. congruence. }
    repeat split; auto; lra.
Qed.

Lemma min_spec (a b : Q) :
  @n_min Exact.rational a b <= a /\ @n_min Exact.rational a b <= b /\
  (@n_min Exact.rational a b = a \/ @n_min Exact.rational a b = b).
Proof.
  cbn [n_min Exact.rational]. unfold Exact.ltb.
  destruct (Qle_bool a b) eqn:E; simpl.
  - apply Qle_bool_iff in E. repeat split; auto; lra.
  - assert (b < a).
    { destruct (Qlt_le_dec b a); auto. apply Qle_bool_iff in q. congruence. }
    repeat split; auto; lra.
Qed.

(** What [onSegment] tests: [q] is in the bounding box of [p] and [r]. *)
Lemma onSegment_box (p q r : QPosition) :
  onSegment p q r = true <->
  fst q <= n_max (fst p) (fst r) /\ n_min (fst p) (fst r) <= fst q /\
  snd q <= n_max (snd p) (snd r) /\ n_min (snd p) (snd r) <= snd q.
Proof.
  unfold onSegment. rewrite !andb_true_iff, !leb_le. tauto.
Qed.

Lemma onSegment_left (p r : QPosition) : onSegment p p r = true.
Proof.
  apply onSegment_box.
  pose proof (max_spec (fst p) (fst r)). pose proof (min_spec (fst p) (fst r)).
  pose proof (max_spec (snd p) (snd r)). pose proof (min_spec (snd p) (snd r)).
  tauto.
Qed.

Lemma onSegment_right (p r : QPosition) : onSegment p r r = true.
Proof.
  apply onSegment_box.
  pose proof (max_spec (fst p) (fst r)). pose proof (min_spec (fst p) (fst r)).
  pose proof (max_spec (snd p) (snd r)). pose proof (min_spec (snd p) (snd r)).
  tauto.
Qed.

(** ** Three points of which two are the same *)

Lemma worder_pqp (p q : QPosition) : worder [p; q; p] = COLINEAR.
Proof.
  apply worder_COLINEAR. rewrite wsum_3.
  pose proof (wterm_swap p q). pose proof (wterm_self p). lra.
Qed.

Lemma worder_pqq (p q : QPosition) : worder [p; q; q] = COLINEAR.
Proof.
  apply worder_COLINEAR. rewrite wsum_3.
  pose proof (wterm_swap p q). pose proof (wterm_self q). lra.
Qed.

(** ** Segments with a common end point *)

Lemma intersect_common_start (a b c : QPosition) : intersect a b a c = true.
Proof.
  rewrite intersect_tests.
  rewrite (worder_pqp a b). cbn [WindingOrder_eqb]. rewrite onSegment_left.
  cbn [andb]. now rewrite !orb_true_r.
Qed.

Lemma intersect_meet (a b c d : QPosition) :
  a = c \/ a = d \/ b = c \/ b = d -> intersect a b c d = true.
Proof.
  intros [-> | [-> | [-> | ->]]].
  - apply intersect_common_start.
  - rewrite intersect_tests.
    rewrite (worder_pqp d b). cbn [WindingOrder_eqb]. rewrite onSegment_left.
    cbn [andb]. now rewrite !orb_true_r.
  - rewrite intersect_tests.
    rewrite (worder_pqq a c). cbn [WindingOrder_eqb]. rewrite onSegment_right.
    cbn [andb]. now rewrite !orb_true_r.
  - rewrite intersect_tests.
    rewrite (worder_pqq a d). cbn [WindingOrder_eqb]. rewrite onSegment_right.
    cbn [andb]. now rewrite !orb_true_r.
Qed.

(** ** The points of a polygon lie on its boundary *)

Lemma combine_from {A B} (l : list A) (l' : list B) (p : A) :
  In p l -> (length l <= length l')%nat -> exists q, In (p, q) (combine l l').
Proof.
  revert l'. induction l as [| a l IH]; intros l' Hp Hl; [contradiction |].
  destruct l' as [| b l']; [simpl in Hl; lia |].
  destruct Hp as [<- | Hp].
  - exists b. left. reflexivity.
  - destruct (IH l' Hp) as (q & Hq); [simpl in Hl; lia |].
    exists q. right. exact Hq.
Qed.

Lemma own_boundary (l : list QPosition) :
  allPointsLieOnBoundary l (getLinePath l) = true.
Proof.
  unfold allPointsLieOnBoundary. apply forallb_forall. intros p Hp.
  rewrite getLinePath_cyclic. unfold cyclic_edges.
  destruct (combine_from l (tl l ++ firstn 1 l) p Hp) as (q & Hq).
  { destruct l as [| a l]; [contradiction |]. simpl. rewrite length_app. simpl. lia. }
  unfold pointLiesOnPolygonBoundary. apply existsb_exists.
  exists (p, q). split; [exact Hq |].
  rewrite worder_pqp, onSegment_left. reflexivity.
Qed.


(** A polygon is not a child of a polygon with the same points. *)
Lemma isChildArea_same_points (childPolygon parentPolygon : Polygon) (parentIndex : nat)
      (polygons : list Polygon) (nodes : @InputNodes Exact.rational) (b : bool) :
  nth_error polygons parentIndex = Some parentPolygon ->
  getPointPath nodes (p_edges childPolygon) = getPointPath nodes (p_edges parentPolygon) ->
  isChildArea childPolygon parentIndex polygons nodes = Returned b ->
  b = false.
Proof.
  intros Hp He H. unfold isChildArea in H. rewrite Hp in H. cbn [defined obind] in H.
  rewrite He in H.
  destruct (all_defined (getPointPath nodes (p_edges parentPolygon))) as [path | |];
    cbn [obind] in H; try discriminate.
  destruct (defined (nth_error path 0)) as [pt | |]; cbn [obind] in H; try discriminate.
  destruct (isInside nodes pt path) as [inside | |]; cbn [obind] in H; try discriminate.
  inversion H. rewrite own_boundary. simpl. apply andb_false_r.
Qed.

(** ** A horizontal ray that passes above or below a segment *)

Lemma wsum_ray (px ex y0 ax ay : Q) :
  wsum [(px, y0); (ex, y0); (ax, ay)] == (ex - px) * (y0 - ay).
Proof. rewrite wsum_3. unfold winding_term. q_ops. ring. Qed.

Lemma prod_pos_cases (x y : Q) : 0 < x * y -> (0 < x /\ 0 < y) \/ (x < 0 /\ y < 0).
Proof.
  intro H. destruct (Qlt_le_dec 0 x), (Qlt_le_dec 0 y).
  - left. auto.
  - exfalso. nra.
  - exfalso. nra.
  - right. split.
    + destruct (Qlt_le_dec x 0); auto. exfalso. nra.
    + destruct (Qlt_le_dec y 0); auto. exfalso. nra.
Qed.

Lemma same_sign_product (u a b : Q) :
  0 < a * b ->
  (0 < u * a -> 0 < u * b) /\ (u * a < 0 -> u * b < 0) /\ (u * a == 0 -> u * b == 0).
Proof.
  intro H. destruct (prod_pos_cases a b H) as [[Ha Hb] | [Ha Hb]].
  - refine (conj _ (conj _ _)); intro Hu.
    + assert (0 < u) by (destruct (Qlt_le_dec 0 u); auto; exfalso; nra). nra.
    + assert (u < 0) by (destruct (Qlt_le_dec u 0); auto; exfalso; nra). nra.
    + assert (u == 0) by (destruct (Q_dec u 0) as [[?|?]|?]; auto; exfalso; nra).
      rewrite H0. ring.
  - refine (conj _ (conj _ _)); intro Hu.
    + assert (u < 0) by (destruct (Qlt_le_dec u 0); auto; exfalso; nra). nra.
    + assert (0 < u) by (destruct (Qlt_le_dec 0 u); auto; exfalso; nra). nra.
    + assert (u == 0) by (destruct (Q_dec u 0) as [[?|?]|?]; auto; exfalso; nra).
      rewrite H0. ring.
Qed.

Lemma worder_ray_same_side (px ex y0 ax ay bx by_ : Q) :
  0 < (y0 - ay) * (y0 - by_) ->
  worder [(px, y0); (ex, y0); (ax, ay)] = worder [(px, y0); (ex, y0); (bx, by_)].
Proof.
  intro Hs.
  pose proof (wsum_ray px ex y0 ax ay) as Ea.
  pose proof (wsum_ray px ex y0 bx by_) as Eb.
  pose proof (worder_COLINEAR [(px, y0); (ex, y0); (ax, ay)]) as Ca.
  pose proof (worder_CW [(px, y0); (ex, y0); (ax, ay)]) as Wa.
  pose proof (worder_CCW [(px, y0); (ex, y0); (ax, ay)]) as Ka.
  pose proof (worder_COLINEAR [(px, y0); (ex, y0); (bx, by_)]) as Cb.
  pose proof (worder_CW [(px, y0); (ex, y0); (bx, by_)]) as Wb.
  pose proof (worder_CCW [(px, y0); (ex, y0); (bx, by_)]) as Kb.
  rewrite Ea in Ca, Wa, Ka. rewrite Eb in Cb, Wb, Kb.
  destruct (same_sign_product (ex - px) _ _ Hs) as (S1 & S2 & S3).
  destruct (worder [(px, y0); (ex, y0); (ax, ay)]).
  - symmetry. apply Wb, S1. now apply Wa.
  - symmetry. apply Kb, S2. now apply Ka.
  - symmetry. apply Cb, S3. now apply Ca.
Qed.

Lemma onSegment_outside (p q r : QPosition) :
  (n_max (snd p) (snd r) < snd q \/ snd q < n_min (snd p) (snd r)) ->
  onSegment p q r = false.
Proof.
  intro H. destruct (onSegment p q r) eqn:E; auto.
  apply onSegment_box in E. lra.
Qed.

Lemma intersect_ray_misses (a b : QPosition) (px ex y0 : Q) :
  0 < (y0 - snd a) * (y0 - snd b) ->
  intersect a b (px, y0) (ex, y0) = false.
Proof.
  intro Hs. destruct a as [ax ay], b as [bx by_]. cbn [fst snd] in Hs.
  rewrite intersect_tests.
  pose proof (worder_ray_same_side px ex y0 ax ay bx by_ Hs) as Hw.
  match goal with
  | |- context [negb (WindingOrder_eqb _ _) && negb (WindingOrder_eqb ?u ?v)] =>
      replace v with u by exact Hw
  end.
  assert (Hsame : forall w, WindingOrder_eqb w w = true) by (intros []; reflexivity).
  rewrite Hsame. cbn [negb]. rewrite andb_false_r.
  pose proof (max_spec ay by_) as (M1 & M2 & M3).
  pose proof (min_spec ay by_) as (m1 & m2 & m3).
  assert (Hside : (ay < y0 /\ by_ < y0) \/ (y0 < ay /\ y0 < by_)).
  { destruct (prod_pos_cases _ _ Hs) as [[? ?] | [? ?]]; [left | right]; split; lra. }
  assert (O1 : forall x : Q, @onSegment Exact.rational (ax, ay) (x, y0) (bx, by_) = false).
  { intro x. apply onSegment_outside. cbn [fst snd].
    destruct Hside as [[? ?] | [? ?]].
    - left. destruct M3 as [-> | ->]; assumption.
    - right. destruct m3 as [-> | ->]; assumption. }
  assert (O2 : forall x y : Q, (y < y0 \/ y0 < y) ->
            @onSegment Exact.rational (px, y0) (x, y) (ex, y0) = false).
  { intros x y Hy. apply onSegment_outside. cbn [fst snd].
    pose proof (max_spec y0 y0) as (_ & _ & M). pose proof (min_spec y0 y0) as (_ & _ & m).
    destruct Hy as [Hy | Hy].
    - right. destruct m as [-> | ->]; assumption.
    - left. destruct M as [-> | ->]; assumption. }
  rewrite !O1.
  repeat match goal with
         | |- context [@onSegment ?N ?a ?b ?c] =>
             let E := fresh in
             assert (E : @onSegment N a b c = false)
               by (apply O2; destruct Hside as [[? ?] | [? ?]]; auto);
             rewrite E; clear E
         end.
  rewrite !andb_false_r. reflexivity.
Qed.

Lemma isInside_loop_misses (polygon : list QPosition) (p extreme : QPosition) :
  (forall a b, In a polygon -> In b polygon -> intersect a b p extreme = false) ->
  forall rest i count,
    incl rest polygon ->
    isInside_loop polygon p extreme rest i count = Nat.eqb (count mod 2) 1.
Proof.
  intros Hmiss. induction rest as [| a rest IH]; intros i count Hin;
    cbn [isInside_loop]; [reflexivity |].
  cbv zeta.
  assert (Ha : In a polygon) by (apply Hin; left; reflexivity).
  assert (Hn : In (nth ((i + 1) mod length polygon) polygon a) polygon).
  { destruct (nth_in_or_default ((i + 1) mod length polygon) polygon a) as [H | ->]; auto. }
  rewrite (Hmiss _ _ Ha Hn). apply IH.
  intros x Hx. apply Hin. right. exact Hx.
Qed.

(** A point whose ordinate is above those of all points of the polygon, or
    below them all, is not inside. *)
Lemma isInside_vertical_extent (nodes : @InputNodes Exact.rational) (p : QPosition)
      (polygon : list QPosition) :
  polygon <> [] ->
  (forall q, In q polygon -> snd q < snd p) \/ (forall q, In q polygon -> snd p < snd q) ->
  isInside nodes p polygon = Returned false.
Proof.
  intros Hne Hside. unfold isInside.
  destruct polygon as [| a0 polygon0] eqn:E; [congruence |].
  rewrite <- E in *. f_equal.
  destruct p as [px y0]. cbn [snd] in *.
  rewrite isInside_loop_misses; [reflexivity | | apply incl_refl].
  intros a b Ha Hb. apply intersect_ray_misses.
  destruct Hside as [H | H]; pose proof (H a Ha); pose proof (H b Hb); nra.
Qed.

End ExactGeometry.

(* ================================================================== *)
(** * Moving a polygon; the largest abscissa *)
(* ================================================================== *)

Module ExactMoves.

Import ExactFacts ExactGeometry.

Local Open Scope Q_scope.

Local Notation "'QPosition'" := (@Position Exact.rational).
Local Notation "'QSegment'" := (@Segment Exact.rational).
Local Notation "'wsum'" := (@winding_sum Exact.rational).
Local Notation "'wterm'" := (@winding_term Exact.rational).
Local Notation "'worder'" := (@determineWindingOrder Exact.rational).
Local Notation "'move'" := (@translate Exact.rational).

(** The width of a directed segment. *)
Local Notation "'width' e" := (fst (snd e) - fst (fst e)) (at level 10, e at level 9).

Lemma Qsum_map_ext {A} (g h : A -> Q) (l : list A) :
  (forall x, In x l -> g x == h x) -> Qsum (map g l) == Qsum (map h l).
Proof.
  induction l as [| x l IH]; intro H; simpl.
  - reflexivity.
  - rewrite (H x) by (left; reflexivity). rewrite IH; [reflexivity |].
    intros y Hy. apply H. right. exact Hy.
Qed.

Lemma Qsum_map_linear {A} (g h : A -> Q) (c : Q) (l : list A) :
  Qsum (map (fun x => g x + c * h x) l) == Qsum (map g l) + c * Qsum (map h l).
Proof.
  induction l as [| x l IH]; simpl.
  - ring.
  - rewrite IH. ring.
Qed.

Lemma combine_map_both {A B} (f : A -> B) (l l' : list A) :
  combine (map f l) (map f l') = map (fun e => (f (fst e), f (snd e))) (combine l l').
Proof.
  revert l'. induction l as [| x l IH]; intros [| y l']; simpl; auto.
  rewrite IH. reflexivity.
Qed.

Lemma cyclic_edges_map (f : QPosition -> QPosition) (l : list QPosition) :
  cyclic_edges (map f l) = map (fun e => (f (fst e), f (snd e))) (cyclic_edges l).
Proof.
  unfold cyclic_edges. rewrite <- combine_map_both. f_equal.
  rewrite map_app. f_equal.
  - destruct l; reflexivity.
  - destruct l; reflexivity.
Qed.

Lemma width_telescopes (l : list QPosition) :
  forall a, Qsum (map (fun e : QSegment => width e) (path_edges (a :: l)))
            == fst (last (a :: l) a) - fst a.
Proof.
  induction l as [| b l IH]; intro a.
  - simpl. ring.
  - change (path_edges (a :: b :: l)) with ((a, b) :: path_edges (b :: l)).
    cbn [map Qsum fold_right]. fold (Qsum (map (fun e : QSegment => width e)
                                               (path_edges (b :: l)))).
    rewrite IH. rewrite (last_cons_default b b a).
    change (last (a :: b :: l) a) with (last (b :: l) a).
    cbn [fst snd]. ring.
Qed.

Lemma width_cyclic (l : list QPosition) :
  Qsum (map (fun e : QSegment => width e) (cyclic_edges l)) == 0.
Proof.
  destruct l as [| a r]; [reflexivity |].
  rewrite cyclic_edges_cons.
  change (a :: r ++ [a]) with (a :: (r ++ [a])).
  rewrite width_telescopes.
  change (a :: (r ++ [a])) with ((a :: r) ++ [a]).
  rewrite last_last. ring.
Qed.

Lemma wterm_move (d : QPosition) (e : QSegment) :
  wterm (move d (fst e), move d (snd e)) == wterm e + (2 * snd d) * width e.
Proof.
  destruct e as [[x1 y1] [x2 y2]], d as [dx dy].
  unfold winding_term, translate. q_ops. cbn [fst snd]. ring.
Qed.

(** Moving every point by the same vector keeps the winding sum. *)
Lemma wsum_move (d : QPosition) (l : list QPosition) :
  wsum (map (move d) l) == wsum l.
Proof.
  rewrite !wsum_Qsum, cyclic_edges_map, map_map.
  rewrite (Qsum_map_ext _ (fun e => wterm e + (2 * snd d) * width e))
    by (intros; apply wterm_move).
  rewrite Qsum_map_linear, width_cyclic. rewrite Qmult_0_r, Qplus_0_r. reflexivity.
Qed.

Lemma worder_move (d : QPosition) (l : list QPosition) :
  worder (map (move d) l) = worder l.
Proof. apply worder_ext, wsum_move. Qed.

Lemma all_defined_map {A B} (f : A -> B) (l : list (option A)) (r : list A) :
  all_defined l = Returned r ->
  all_defined (map (option_map f) l) = Returned (map f r).
Proof.
  revert r. induction l as [| [a |] l IH]; intros r H; simpl in *.
  - inversion H. reflexivity.
  - destruct (all_defined l) as [r' | |]; simpl in H; try discriminate.
    inversion H. rewrite (IH r' eq_refl). reflexivity.
  - discriminate.
Qed.

Lemma getPointPath_map (f : QPosition -> QPosition) (nodes : @InputNodes Exact.rational)
      (c : list Z) :
  getPointPath (map f nodes) c = map (option_map f) (getPointPath nodes c).
Proof.
  unfold getPointPath. rewrite map_map. apply map_ext. intro p.
  destruct (p <? 0)%Z; [reflexivity |].
  rewrite nth_error_map. reflexivity.
Qed.

(** The area of a polygon does not depend on where the drawing sits. *)
Lemma area_move (d : QPosition) (nodes : @InputNodes Exact.rational)
      (polygon : InputPolygon) (a : Q) :
  getPolygonArea nodes polygon = Returned a ->
  exists a', getPolygonArea (map (move d) nodes) polygon = Returned a' /\ a' == a.
Proof.
  intro H. destruct (exact_area nodes polygon a H) as (path & Hp & Ha).
  unfold getPolygonArea. rewrite getPointPath_map, (all_defined_map _ _ _ Hp).
  cbn [obind]. eexists. split; [reflexivity |].
  rewrite exact_truthy_or_zero, irregular_area, wsum_move, Ha. reflexivity.
Qed.

(** ** getMaxX *)

Lemma ltb_lt (a b : Q) : @n_ltb Exact.rational a b = true <-> a < b.
Proof.
  cbn [n_ltb Exact.rational]. unfold Exact.ltb.
  destruct (Qle_bool b a) eqn:E; simpl.
  - apply Qle_bool_iff in E. split; [discriminate | intro; lra].
  - split; [intros _ | reflexivity].
    destruct (Qlt_le_dec a b) as [H | H]; auto. apply Qle_bool_iff in H. congruence.
Qed.

Lemma ltb_ge (a b : Q) : @n_ltb Exact.rational a b = false <-> b <= a.
Proof.
  pose proof (ltb_lt a b) as H. destruct (@n_ltb Exact.rational a b).
  - split; [discriminate |]. intro. assert (a < b) by now apply H. lra.
  - split; [intros _ | reflexivity]. destruct (Qlt_le_dec a b) as [L | L]; auto.
    apply H in L. discriminate.
Qed.

Lemma getMaxX_fold (l : list QPosition) :
  forall m,
    let r := fold_left (fun max (p : QPosition) =>
                          if @n_ltb Exact.rational max (fst p) then fst p else max) l m in
    m <= r /\ (forall p, In p l -> fst p <= r) /\
    (r = m \/ exists p, In p l /\ r = fst p).
Proof.
  induction l as [| q l IH]; intro m; cbn zeta.
  - simpl. split; [lra |]. split; [intros p [] | left; reflexivity].
  - cbn [fold_left].
    destruct (IH (if @n_ltb Exact.rational m (fst q) then fst q else m)) as (L & U & W).
    cbn zeta in L, U, W.
    assert (Hm : m <= (if @n_ltb Exact.rational m (fst q) then fst q else m) /\
                 fst q <= (if @n_ltb Exact.rational m (fst q) then fst q else m)).
    { destruct (@n_ltb Exact.rational m (fst q)) eqn:E.
      - apply ltb_lt in E. split; [apply Qlt_le_weak; exact E | apply Qle_refl].
      - apply ltb_ge in E. split; [apply Qle_refl | exact E]. }
    destruct Hm as [Hm1 Hm2].
    split; [eapply Qle_trans; eassumption |]. split.
    + intros p [<- | Hp]; [eapply Qle_trans; eassumption | auto].
    + destruct W as [W | (p & Hp & W)].
      * rewrite W. destruct (@n_ltb Exact.rational m (fst q)).
        -- right. exists q. split; [left; reflexivity | reflexivity].
        -- left. reflexivity.
      * right. exists p. split; [right; exact Hp | exact W].
Qed.

(** [getMaxX] is the largest of -1 and the abscissas of the points. *)
Lemma getMaxX_spec (l : list QPosition) :
  -1 <= getMaxX l /\ (forall p, In p l -> fst p <= getMaxX l) /\
  (getMaxX l = inject_Z (-1) \/ exists p, In p l /\ getMaxX l = fst p).
Proof.
  pose proof (getMaxX_fold l (inject_Z (-1))) as H. cbn zeta in H.
  unfold getMaxX. q_ops. destruct H as (L & U & W).
  split; [| split]; auto.
Qed.

End ExactMoves.

(* ================================================================== *)
(** * The depth-first search: termination and the records it returns *)
(* ================================================================== *)

Section SearchTermination.

Context {N : Num}.

Lemma depthFirstSearch_loop_step (fuel : nat) (vertex : nat) (below component : list nat)
      (s : VertexStore) :
  depthFirstSearch_loop (S fuel) (vertex :: below) component s =
  match find (fun a => (visited (deref (set_visited vertex 1 s) a) =? 0)%nat)
             (adj (set_visited vertex 1 s) vertex) with
  | Some adjacent =>
      depthFirstSearch_loop fuel (adjacent :: vertex :: below) component
                            (set_visited vertex 1 s)
  | None =>
      depthFirstSearch_loop fuel below (component ++ [vertex])
                            (set_visited vertex 2 (set_visited vertex 1 s))
  end.
Proof.
  cbn [depthFirstSearch_loop]. unfold mbind, modify, get.
  destruct (find _ _); reflexivity.
Qed.

Lemma unvisited_mark (b : nat) :
  b <> 0%nat ->
  forall s i,
    (unvisited (set_visited i b s) +
     (if (i <? length s)%nat && (visited (deref s i) =? 0)%nat then 1 else 0))%nat =
    unvisited s.
Proof.
  intros Hb. unfold unvisited, set_visited.
  induction s as [| x s IH]; intros [| i]; cbn [update filter length]; auto.
  - cbn [with_visited visited]. destruct (Nat.eqb_spec b 0); [contradiction |].
    unfold deref. cbn [nth]. change (0 <? S (length s))%nat with true. cbn [andb].
    destruct (visited x =? 0)%nat; cbn [length]; lia.
  - specialize (IH i). unfold deref in *. cbn [nth].
    change (S i <? S (length s))%nat with (i <? length s)%nat.
    destruct (visited x =? 0)%nat; cbn [length]; lia.
Qed.

Lemma unvisited_mark_seen (b : nat) (s : VertexStore) (i : nat) :
  b <> 0%nat -> visited (deref s i) <> 0%nat ->
  unvisited (set_visited i b s) = unvisited s.
Proof.
  intros Hb Hv. pose proof (unvisited_mark b Hb s i) as H.
  destruct (Nat.eqb_spec (visited (deref s i)) 0); [contradiction |].
  rewrite andb_false_r in H. lia.
Qed.

Lemma unvisited_mark_fresh (b : nat) (s : VertexStore) (i : nat) :
  b <> 0%nat -> (i < length s)%nat -> visited (deref s i) = 0%nat ->
  (unvisited (set_visited i b s) + 1)%nat = unvisited s.
Proof.
  intros Hb Hi Hv. pose proof (unvisited_mark b Hb s i) as H.
  rewrite Hv in H. apply Nat.ltb_lt in Hi. rewrite Hi in H. exact H.
Qed.

Lemma unvisited_le (s : VertexStore) : (unvisited s <= length s)%nat.
Proof. unfold unvisited. apply filter_length_le. Qed.

Lemma visited_mark (s : VertexStore) (t b i : nat) :
  (t < length s)%nat ->
  visited (deref (set_visited t b s) i) = if Nat.eqb i t then b else visited (deref s i).
Proof.
  intro Ht. rewrite visited_set_visited. apply Nat.ltb_lt in Ht. rewrite Ht.
  rewrite andb_true_r. reflexivity.
Qed.

Lemma NoDup_snoc {A} (l : list A) (x : A) : NoDup l -> ~ In x l -> NoDup (l ++ [x]).
Proof.
  intros Hl Hx. apply NoDup_rev in Hl. rewrite <- (rev_involutive (l ++ [x])).
  apply NoDup_rev. rewrite rev_app_distr. simpl. constructor; auto.
  rewrite <- in_rev. exact Hx.
Qed.

End SearchTermination.

Section SearchRun.

Context {N : Num}.

Variable s0 : VertexStore.
Variable v : nat.
Hypothesis Hwf : well_formed s0.

Lemma search_inv_push (vertex : nat) (below component : list nat) (s : VertexStore)
      (a : nat) :
  search_inv s0 v (vertex :: below) component s ->
  In a (adj (set_visited vertex 1 s) vertex) ->
  visited (deref (set_visited vertex 1 s) a) = 0%nat ->
  search_inv s0 v (a :: vertex :: below) component (set_visited vertex 1 s) /\
  (a < length s)%nat.
Proof.
  intros (G & J1 & Ns & Nc & J2 & J2b & J3) Ha Hva.
  destruct (J2 vertex (or_introl eq_refl)) as (Rt & Wt & Vt).
  assert (Hlen : length s = length s0) by apply G.
  assert (Ht : (vertex < length s)%nat) by lia.
  assert (Hmark : forall i, visited (deref (set_visited vertex 1 s) i) =
                            if Nat.eqb i vertex then 1%nat else visited (deref s i))
    by (intro i; apply visited_mark; exact Ht).
  rewrite adj_set_visited in Ha.
  assert (Ha0 : In a (adj s0 vertex)).
  { destruct G as [_ G]. rewrite <- (proj1 (G vertex)). exact Ha. }
  assert (Hne : a <> vertex).
  { intros ->. rewrite Hmark, Nat.eqb_refl in Hva. discriminate. }
  assert (Hvs : visited (deref s a) = 0%nat).
  { rewrite Hmark in Hva. destruct (Nat.eqb_spec a vertex); [contradiction | exact Hva]. }
  assert (Hnb : ~ In a below).
  { intro Hb. cbn [tl] in J2b. rewrite (J2b a Hb) in Hvs. discriminate. }
  assert (Hnc : ~ In a component).
  { intro Hc. destruct (J3 a Hc) as (_ & V2 & _). rewrite V2 in Hvs. discriminate. }
  assert (Hns : ~ In a (vertex :: below)) by (intros [E | Hb]; [congruence | auto]).
  assert (Hra : (a < length s0)%nat) by (eapply Hwf; eauto).
  split; [| lia].
  refine (conj _ (conj _ (conj _ (conj Nc (conj _ (conj _ _)))))).
  - eapply same_graph_trans; [exact G | apply same_graph_set_visited].
  - intros i Hi Hc. rewrite Hmark.
    destruct (Nat.eqb_spec i vertex) as [-> | Hiv].
    + exfalso. apply Hi. right. left. reflexivity.
    + apply J1; auto. intros [E | Hb]; [congruence |]. apply Hi. right. right. exact Hb.
  - constructor; auto.
  - intros x [<- | Hx].
    + refine (conj Hra (conj _ _)).
      * eapply white_step; eauto. rewrite <- (J1 a Hns Hnc). exact Hvs.
      * rewrite Hva. lia.
    + destruct (J2 x Hx) as (Rx & Wx & Vx). refine (conj Rx (conj Wx _)).
      rewrite Hmark. destruct (Nat.eqb x vertex); [lia | exact Vx].
  - cbn [tl]. intros x [<- | Hx].
    + rewrite Hmark, Nat.eqb_refl. reflexivity.
    + rewrite Hmark. destruct (Nat.eqb x vertex); [reflexivity |]. apply J2b. exact Hx.
  - intros x Hx. destruct (J3 x Hx) as (Wx & Vx & Ax). refine (conj Wx (conj _ _)).
    + rewrite Hmark. destruct (Nat.eqb_spec x vertex) as [-> | _]; [| exact Vx].
      rewrite Vx in Vt. lia.
    + intros y Hy. rewrite Hmark. destruct (Nat.eqb y vertex); [discriminate | auto].
Qed.

Lemma search_inv_pop (vertex : nat) (below component : list nat) (s : VertexStore) :
  search_inv s0 v (vertex :: below) component s ->
  (forall y, In y (adj (set_visited vertex 1 s) vertex) ->
             visited (deref (set_visited vertex 1 s) y) <> 0%nat) ->
  search_inv s0 v below (component ++ [vertex])
             (set_visited vertex 2 (set_visited vertex 1 s)).
Proof.
  intros (G & J1 & Ns & Nc & J2 & J2b & J3) Hall.
  destruct (J2 vertex (or_introl eq_refl)) as (Rt & Wt & Vt).
  assert (Hlen : length s = length s0) by apply G.
  assert (Ht : (vertex < length s)%nat) by lia.
  assert (Hmark : forall i,
             visited (deref (set_visited vertex 2 (set_visited vertex 1 s)) i) =
             if Nat.eqb i vertex then 2%nat else visited (deref s i)).
  { intro i. rewrite visited_mark by (rewrite length_set_visited; exact Ht).
    rewrite visited_mark by exact Ht. destruct (Nat.eqb i vertex); reflexivity. }
  assert (Hall' : forall y, In y (adj s0 vertex) -> y <> vertex ->
                            visited (deref s y) <> 0%nat).
  { intros y Hy Hne. specialize (Hall y). rewrite adj_set_visited in Hall.
    destruct G as [_ G]. rewrite (proj1 (G vertex)) in Hall. specialize (Hall Hy).
    rewrite visited_mark in Hall by exact Ht.
    destruct (Nat.eqb_spec y vertex); [contradiction | exact Hall]. }
  inversion Ns as [| ? ? Hnb Nb]; subst.
  assert (Hnc : ~ In vertex component).
  { intro Hc. destruct (J3 vertex Hc) as (_ & V2 & _). rewrite V2 in Vt. lia. }
  refine (conj _ (conj _ (conj Nb (conj _ (conj _ (conj _ _)))))).
  - eapply same_graph_trans; [exact G |].
    eapply same_graph_trans; apply same_graph_set_visited.
  - intros i Hi Hc. rewrite Hmark.
    destruct (Nat.eqb_spec i vertex) as [-> | Hiv].
    + exfalso. apply Hc. apply in_or_app. right. left. reflexivity.
    + apply J1.
      * intros [E | Hb]; [congruence | auto].
      * intro Hc'. apply Hc. apply in_or_app. left. exact Hc'.
  - apply NoDup_snoc; auto.
  - intros x Hx. destruct (J2 x (or_intror Hx)) as (Rx & Wx & Vx).
    refine (conj Rx (conj Wx _)). rewrite Hmark.
    destruct (Nat.eqb_spec x vertex) as [-> | _]; [contradiction | exact Vx].
  - intros x Hx. assert (Hb : In x below) by (destruct below; [destruct Hx | right; exact Hx]).
    rewrite Hmark. destruct (Nat.eqb_spec x vertex) as [-> | _]; [contradiction |].
    apply J2b. exact Hb.
  - intros x Hx. apply in_app_or in Hx. destruct Hx as [Hx | [<- | []]].
    + destruct (J3 x Hx) as (Wx & Vx & Ax). refine (conj Wx (conj _ _)).
      * rewrite Hmark. destruct (Nat.eqb x vertex); [reflexivity | exact Vx].
      * intros y Hy. rewrite Hmark. destruct (Nat.eqb y vertex); [discriminate | auto].
    + refine (conj Wt (conj _ _)).
      * rewrite Hmark, Nat.eqb_refl. reflexivity.
      * intros y Hy. rewrite Hmark.
        destruct (Nat.eqb_spec y vertex) as [-> | Hne]; [discriminate | auto].
Qed.

Lemma search_budget_push (vertex : nat) (below : list nat) (s : VertexStore) (a : nat) :
  (a < length s)%nat ->
  visited (deref (set_visited vertex 1 s) a) = 0%nat ->
  (search_budget (set_visited vertex 1 s) (a :: vertex :: below) <
   search_budget s (vertex :: below))%nat.
Proof.
  intros Ha Hv. cbn [search_budget length].
  pose proof (unvisited_mark_fresh 1 (set_visited vertex 1 s) a) as H.
  rewrite length_set_visited in H. specialize (H ltac:(lia) Ha Hv). lia.
Qed.

Lemma search_budget_pop (vertex : nat) (below component : list nat) (s : VertexStore) :
  search_inv s0 v (vertex :: below) component s ->
  (search_budget (set_visited vertex 2 (set_visited vertex 1 s)) below <
   search_budget s (vertex :: below))%nat.
Proof.
  intros (G & J1 & Ns & Nc & J2 & J2b & J3).
  destruct (J2 vertex (or_introl eq_refl)) as (Rt & Wt & Vt).
  assert (Hlen : length s = length s0) by apply G.
  assert (Ht : (vertex < length s)%nat) by lia.
  destruct below as [| b rest]; cbn [search_budget length]; [lia |].
  inversion Ns as [| ? ? Hnb Nb]; subst.
  assert (Hb : visited (deref s b) = 1%nat) by (apply J2b; left; reflexivity).
  assert (Hne : b <> vertex) by (intros ->; apply Hnb; left; reflexivity).
  rewrite unvisited_mark_seen.
  - rewrite unvisited_mark_seen; [lia | lia |].
    rewrite visited_mark, Nat.eqb_refl by exact Ht. lia.
  - lia.
  - rewrite visited_mark by (rewrite length_set_visited; exact Ht).
    rewrite visited_mark by exact Ht.
    destruct (Nat.eqb_spec b vertex); [contradiction |]. lia.
Qed.

(** With fuel above the budget the loop returns, and the invariant holds
    when it does. *)
Lemma depthFirstSearch_loop_run (fuel : nat) :
  forall vStack component s,
    search_inv s0 v vStack component s ->
    (search_budget s vStack < fuel)%nat ->
    exists component' s',
      depthFirstSearch_loop fuel vStack component s = Returned (component', s') /\
      search_inv s0 v [] component' s'.
Proof.
  induction fuel as [| fuel IH]; intros vStack component s Hinv Hfuel; [lia |].
  destruct vStack as [| vertex below].
  - exists component, s. split; [reflexivity | exact Hinv].
  - rewrite depthFirstSearch_loop_step.
    destruct (find _ (adj (set_visited vertex 1 s) vertex)) as [a |] eqn:F.
    + apply find_some in F. destruct F as [Fin Fv]. apply Nat.eqb_eq in Fv.
      destruct (search_inv_push _ _ _ _ _ Hinv Fin Fv) as [Hinv' Ha].
      apply IH; [exact Hinv' |].
      pose proof (search_budget_push vertex below s a Ha Fv). lia.
    + apply IH.
      * apply search_inv_pop; [exact Hinv |].
        intros y Hy. pose proof (find_none _ _ F y Hy) as Hn. cbv beta in Hn.
        apply Nat.eqb_neq in Hn. exact Hn.
      * pose proof (search_budget_pop vertex below component s Hinv). lia.
Qed.

Lemma search_inv_start :
  (v < length s0)%nat -> visited (deref s0 v) = 0%nat -> search_inv s0 v [v] [] s0.
Proof.
  intros Hv H0.
  refine (conj (same_graph_refl s0) (conj _ (conj _ (conj _ (conj _ (conj _ _)))))).
  - auto.
  - constructor; [intros [] | constructor].
  - constructor.
  - intros x [<- | []]. refine (conj Hv (conj (white_here s0 v) _)). lia.
  - intros x [].
  - intros x [].
Qed.

Lemma search_inv_closed (component : list nat) (s : VertexStore) :
  search_inv s0 v [] component s ->
  forall x, white_path s0 v x -> In v component -> In x component.
Proof.
  intros (G & J1 & Ns & Nc & J2 & J2b & J3) x Hx Hv.
  induction Hx as [| y x Hy IH Hadj Hvis]; [exact Hv |].
  destruct (in_dec Nat.eq_dec x component) as [Hin | Hout]; [exact Hin |].
  exfalso. destruct (J3 y IH) as (_ & _ & Ay).
  apply (Ay x Hadj). rewrite J1; auto.
Qed.

(** [depthFirstSearch] on a record that is unvisited: it returns once the
    fuel exceeds twice the size of the arena by two, with the records
    reached along unvisited records, each of them once; these carry the
    mark 2 afterwards, the marks of all other records and all adjacency sets
    are unchanged. *)
Lemma depthFirstSearch_run (fuel : nat) :
  (v < length s0)%nat -> visited (deref s0 v) = 0%nat ->
  (2 * length s0 + 2 <= fuel)%nat ->
  exists component s',
    depthFirstSearch fuel v [] s0 = Returned (component, s') /\
    NoDup component /\
    (forall x, In x component <-> white_path s0 v x) /\
    same_graph s0 s' /\
    (forall x, In x component -> visited (deref s' x) = 2%nat) /\
    (forall x, ~ In x component -> visited (deref s' x) = visited (deref s0 x)).
Proof.
  intros Hv H0 Hfuel. unfold depthFirstSearch.
  destruct (depthFirstSearch_loop_run fuel [v] [] s0 (search_inv_start Hv H0))
    as (component & s' & Hrun & Hinv).
  { cbn [search_budget length].
    pose proof (unvisited_le (set_visited v 1 s0)) as H.
    rewrite length_set_visited in H. lia. }
  exists component, s'. split; [exact Hrun |].
  pose proof Hinv as (G & J1 & Ns & Nc & J2 & J2b & J3).
  assert (Hin : In v component).
  { apply depthFirstSearch_loop_spec in Hrun. destruct Hrun as (_ & _ & I2 & _).
    apply I2. left. reflexivity. }
  refine (conj Nc (conj _ (conj G (conj _ _)))).
  - intro x. split.
    + intro Hx. apply J3. exact Hx.
    + intro Hx. eapply search_inv_closed; eauto.
  - intros x Hx. apply J3. exact Hx.
  - intros x Hx. apply J1; auto.
Qed.

End SearchRun.

(* ================================================================== *)
(** * The planar walker: when it finds a record *)
(* ================================================================== *)

Section WalkerFacts.

Context {N : Num}.

Lemma is_ref_true (vPrev : option nat) (a : nat) :
  is_ref vPrev a = true <-> vPrev = Some a.
Proof.
  destruct vPrev as [p |]; simpl.
  - rewrite Nat.eqb_eq. split; [intros -> | intros [= ->]]; reflexivity.
  - split; discriminate.
Qed.

(** What both walkers share: a step skips [vPrev], takes the first other
    record it sees, and never forgets a choice. *)
Lemma walker_fold (step : WalkerState -> nat -> WalkerState) (vPrev : option nat) :
  (forall st a, is_ref vPrev a = true -> step st a = st) ->
  (forall st a, is_ref vPrev a = false ->
                fst (fst (step st a)) = Some a \/
                (fst (fst (step st a)) = fst (fst st) /\ fst (fst st) <> None)) ->
  forall l st,
    (fst (fst (fold_left step l st)) = None <->
     fst (fst st) = None /\ forall a, In a l -> is_ref vPrev a = true) /\
    (forall x, fst (fst (fold_left step l st)) = Some x ->
               fst (fst st) = Some x \/ (In x l /\ is_ref vPrev x = false)).
Proof.
  intros Hskip Htake. induction l as [| a l IH]; intro st; cbn [fold_left].
  - split; [| auto]. split; [intro H; split; [exact H | intros a []] | intros [H _]; exact H].
  - destruct (IH (step st a)) as [A B]. destruct (is_ref vPrev a) eqn:R.
    + rewrite (Hskip st a R) in *. split.
      * rewrite A. split.
        -- intros [H0 Hl]. split; [exact H0 |]. intros x [<- | Hx]; auto.
        -- intros [H0 Hl]. split; [exact H0 |]. intros x Hx. apply Hl. right. exact Hx.
      * intros x Hx. destruct (B x Hx) as [H | [H1 H2]]; auto.
        right. split; [right; exact H1 | exact H2].
    + assert (Hsome : fst (fst (step st a)) <> None).
      { destruct (Htake st a R) as [E | [E Hn]]; congruence. }
      split.
      * rewrite A. split.
        -- intros [H0 _]. contradiction.
        -- intros [_ Hl]. specialize (Hl a (or_introl eq_refl)). congruence.
      * intros x Hx. destruct (B x Hx) as [H | [H1 H2]].
        -- destruct (Htake st a R) as [E | [E _]].
           ++ right. split; [left; congruence |]. congruence.
           ++ left. congruence.
        -- right. split; [right; exact H1 | exact H2].
Qed.

Lemma getClockwiseMost_step_skip (s : VertexStore) (vPrev : option nat) (vCurr : nat)
      (dCurr : Dir) (st : WalkerState) (a : nat) :
  is_ref vPrev a = true -> getClockwiseMost_step s vPrev vCurr dCurr st a = st.
Proof.
  intro R. unfold getClockwiseMost_step. destruct st as [[vNext dNext] convex].
  rewrite R. reflexivity.
Qed.

Lemma getClockwiseMost_step_take (s : VertexStore) (vPrev : option nat) (vCurr : nat)
      (dCurr : Dir) (st : WalkerState) (a : nat) :
  is_ref vPrev a = false ->
  fst (fst (getClockwiseMost_step s vPrev vCurr dCurr st a)) = Some a \/
  (fst (fst (getClockwiseMost_step s vPrev vCurr dCurr st a)) = fst (fst st) /\
   fst (fst st) <> None).
Proof.
  intro R. unfold getClockwiseMost_step. destruct st as [[vNext dNext] convex].
  rewrite R. destruct vNext; simpl; auto.
  destruct convex; match goal with |- context [if ?c then _ else _] => destruct c end;
    simpl; auto; right; split; congruence.
Qed.

Lemma getCounterClockwiseMost_step_skip (s : VertexStore) (vPrev : option nat)
      (vCurr : nat) (dCurr : Dir) (st : WalkerState) (a : nat) :
  is_ref vPrev a = true -> getCounterClockwiseMost_step s vPrev vCurr dCurr st a = st.
Proof.
  intro R. unfold getCounterClockwiseMost_step. destruct st as [[vNext dNext] convex].
  rewrite R. reflexivity.
Qed.

Lemma getCounterClockwiseMost_step_take (s : VertexStore) (vPrev : option nat)
      (vCurr : nat) (dCurr : Dir) (st : WalkerState) (a : nat) :
  is_ref vPrev a = false ->
  fst (fst (getCounterClockwiseMost_step s vPrev vCurr dCurr st a)) = Some a \/
  (fst (fst (getCounterClockwiseMost_step s vPrev vCurr dCurr st a)) = fst (fst st) /\
   fst (fst st) <> None).
Proof.
  intro R. unfold getCounterClockwiseMost_step. destruct st as [[vNext dNext] convex].
  rewrite R. destruct vNext; simpl; auto.
  destruct convex; match goal with |- context [if ?c then _ else _] => destruct c end;
    simpl; auto; right; split; congruence.
Qed.

Lemma walker_result (step : WalkerState -> nat -> WalkerState) (vPrev : option nat)
      (l : list nat) (st : WalkerState) :
  (forall st a, is_ref vPrev a = true -> step st a = st) ->
  (forall st a, is_ref vPrev a = false ->
                fst (fst (step st a)) = Some a \/
                (fst (fst (step st a)) = fst (fst st) /\ fst (fst st) <> None)) ->
  fst (fst st) = None ->
  (fst (fst (fold_left step l st)) = None <-> forall a, In a l -> vPrev = Some a) /\
  (forall x, fst (fst (fold_left step l st)) = Some x -> In x l /\ vPrev <> Some x).
Proof.
  intros Hskip Htake H0. destruct (walker_fold step vPrev Hskip Htake l st) as [A B].
  split.
  - rewrite A. split.
    + intros [_ Hl] a Ha. apply is_ref_true. auto.
    + intro Hl. split; [exact H0 |]. intros a Ha. apply is_ref_true. auto.
  - intros x Hx. destruct (B x Hx) as [E | [Hin R]]; [congruence |].
    split; [exact Hin |]. intro E. apply is_ref_true in E. congruence.
Qed.

(** [getClockwiseMost] returns [null] exactly when [vCurr] has no adjacent
    record but [vPrev]; a record it returns is adjacent to [vCurr] and is
    not [vPrev]. *)
Lemma getClockwiseMost_result (s : VertexStore) (vPrev : option nat) (vCurr : nat) :
  (getClockwiseMost s vPrev vCurr = None <->
   forall a, In a (adj s vCurr) -> vPrev = Some a) /\
  (forall x, getClockwiseMost s vPrev vCurr = Some x ->
             In x (adj s vCurr) /\ vPrev <> Some x).
Proof.
  unfold getClockwiseMost. apply walker_result.
  - intros. apply getClockwiseMost_step_skip. assumption.
  - intros. apply getClockwiseMost_step_take. assumption.
  - reflexivity.
Qed.

Lemma getCounterClockwiseMost_result (s : VertexStore) (vPrev : option nat) (vCurr : nat) :
  (getCounterClockwiseMost s vPrev vCurr = None <->
   forall a, In a (adj s vCurr) -> vPrev = Some a) /\
  (forall x, getCounterClockwiseMost s vPrev vCurr = Some x ->
             In x (adj s vCurr) /\ vPrev <> Some x).
Proof.
  unfold getCounterClockwiseMost. apply walker_result.
  - intros. apply getCounterClockwiseMost_step_skip. assumption.
  - intros. apply getCounterClockwiseMost_step_take. assumption.
  - reflexivity.
Qed.

End WalkerFacts.

(* ================================================================== *)
(** * The area tree: one node for every polygon *)
(* ================================================================== *)

Section AreaShape.

Context {N : Num}.

Variable nodes : InputNodes.

Lemma visited_at_mark (polygons : list Polygon) :
  forall i j, (i < length polygons)%nat ->
              (visited_at (mark_visited_at polygons i) j = true <->
               j = i \/ visited_at polygons j = true).
Proof.
  unfold visited_at. induction polygons as [| p polygons IH]; intros i j Hi;
    cbn [length] in Hi; [lia |].
  destruct i as [| i]; cbn [mark_visited_at].
  - destruct j as [| j]; cbn [nth_error mark_visited p_visited].
    + split; auto.
    + split; [auto | intros [E | H]; [discriminate | exact H]].
  - destruct j as [| j]; cbn [nth_error].
    + split; [auto | intros [E | H]; [discriminate | exact H]].
    + rewrite IH by lia. split; intros [E | H]; auto; left; congruence.
Qed.

Lemma map_area_mark (polygons : list Polygon) (i : nat) :
  map area (mark_visited_at polygons i) = map area polygons.
Proof.
  revert i. induction polygons as [| p polygons IH]; intros [| i];
    cbn [mark_visited_at map]; auto.
  rewrite IH. reflexivity.
Qed.

Lemma map_edges_mark (polygons : list Polygon) (i : nat) :
  map p_edges (mark_visited_at polygons i) = map p_edges polygons.
Proof.
  revert i. induction polygons as [| p polygons IH]; intros [| i];
    cbn [mark_visited_at map]; auto.
  rewrite IH. reflexivity.
Qed.

Lemma tree_indices_adopt (parent newTree : AreaTree) (a : num) :
  tree_indices (adopt parent newTree a) = tree_indices parent ++ tree_indices newTree.
Proof.
  destruct parent; cbn [adopt tree_indices]; rewrite flat_map_app; cbn [flat_map];
    rewrite app_nil_r; reflexivity.
Qed.

Lemma tree_polygons_adopt (parent newTree : AreaTree) (a : num) :
  tree_polygons (adopt parent newTree a) = tree_polygons parent ++ tree_polygons newTree.
Proof.
  destruct parent; cbn [adopt tree_polygons]; rewrite flat_map_app; cbn [flat_map];
    rewrite app_nil_r; reflexivity.
Qed.

Lemma visited_at_false (polygons polygons' : list Polygon) (j : nat) :
  (visited_at polygons j = true -> visited_at polygons' j = true) ->
  visited_at polygons' j = false -> visited_at polygons j = false.
Proof.
  intros H H'. destruct (visited_at polygons j); auto.
  rewrite H in H' by reflexivity. discriminate.
Qed.

(** The indices [traverseAreas] adds to the tree: each of them once, all
    unvisited before and visited after; under the root, every index from
    the pointer on ends up visited. *)
Lemma traverseAreas_indices (todo : nat) :
  forall polygons parent tree polygons',
    (todo <= length polygons)%nat ->
    traverseAreas todo nodes polygons parent = Returned (tree, polygons') ->
    length polygons' = length polygons /\
    map area polygons' = map area polygons /\
    map p_edges polygons' = map p_edges polygons /\
    exists new,
      tree_indices tree = tree_indices parent ++ new /\
      NoDup new /\
      (forall i, In i new -> (length polygons - todo <= i < length polygons)%nat /\
                             visited_at polygons i = false) /\
      (forall i, visited_at polygons' i = true <->
                 visited_at polygons i = true \/ In i new) /\
      (type parent = ROOT ->
       forall i, (length polygons - todo <= i < length polygons)%nat ->
                 visited_at polygons' i = true).
Proof.
  induction todo as [| todo IH]; intros polygons parent tree polygons' Hle H;
    cbn [traverseAreas] in H.
  - inversion H; subst. refine (conj eq_refl (conj eq_refl (conj eq_refl _))).
    exists []. rewrite app_nil_r.
    refine (conj eq_refl (conj (NoDup_nil _) (conj _ (conj _ _)))).
    + intros i [].
    + intro i. split; [auto | intros [E | []]; exact E].
    + intros _ i Hi. lia.
  - cbv zeta in H.
    remember (length polygons - S todo)%nat as i eqn:Ei.
    assert (Hi : (i < length polygons)%nat) by lia.
    assert (Hnext : (length polygons - todo = S i)%nat) by lia.
    destruct (nth_error polygons i) as [p |] eqn:Hp.
    2:{ apply nth_error_None in Hp. lia. }
    assert (Hvp : visited_at polygons i = p_visited p)
      by (unfold visited_at; rewrite Hp; reflexivity).
    destruct (p_visited p) eqn:Vp.
    { apply IH in H; [| lia].
      destruct H as (L & A & E & new & T & ND & R & V & Root).
      refine (conj L (conj A (conj E _))). exists new.
      refine (conj T (conj ND (conj _ (conj V _)))).
      - intros j Hj. destruct (R j Hj). split; [lia | assumption].
      - intros HR j Hj. destruct (Nat.eq_dec j i) as [-> | Hne].
        + apply V. left. exact Hvp.
        + apply Root; [exact HR | lia]. }
    apply obind_returned in H. destruct H as (accepted & Hacc & H).
    destruct accepted.
    2:{ apply IH in H; [| lia].
        destruct H as (L & A & E & new & T & ND & R & V & Root).
        refine (conj L (conj A (conj E _))). exists new.
        refine (conj T (conj ND (conj _ (conj V _)))).
        - intros j Hj. destruct (R j Hj). split; [lia | assumption].
        - intros HR. destruct parent; [| discriminate]. discriminate. }
    apply obind_returned in H. destruct H as ([newTree polygons2] & Hnew & H).
    pose proof (mark_visited_at_length polygons i) as L1.
    pose proof (visited_at_mark polygons i) as V1.
    assert (Hinner :
              length polygons2 = length polygons /\
              map area polygons2 = map area polygons /\
              map p_edges polygons2 = map p_edges polygons /\
              exists new1,
                tree_indices newTree = i :: new1 /\ NoDup new1 /\
                (forall j, In j new1 ->
                           (S i <= j < length polygons)%nat /\
                           visited_at (mark_visited_at polygons i) j = false) /\
                (forall j, visited_at polygons2 j = true <->
                           visited_at (mark_visited_at polygons i) j = true \/
                           In j new1)).
    { destruct (nth_error (mark_visited_at polygons i) (i + 1)).
      - apply IH in Hnew; [| lia].
        destruct Hnew as (L & A & E & new1 & T & ND & R & V & _).
        rewrite L1 in *. rewrite map_area_mark in A. rewrite map_edges_mark in E.
        refine (conj L (conj A (conj E _))). exists new1.
        refine (conj T (conj ND (conj _ V))).
        intros j Hj. destruct (R j Hj). split; [lia | assumption].
      - inversion Hnew; subst.
        refine (conj L1 (conj (map_area_mark _ _) (conj (map_edges_mark _ _) _))).
        exists []. refine (conj eq_refl (conj (NoDup_nil _) (conj _ _))).
        + intros j [].
        + intro j. split; [auto | intros [E | []]; exact E]. }
    destruct Hinner as (L2 & A2 & E2 & new1 & T1 & ND1 & R1 & V2).
    apply IH in H; [| lia].
    destruct H as (L3 & A3 & E3 & new2 & T2 & ND2 & R2 & V3 & Root).
    rewrite L2 in *. rewrite adopt_type in Root.
    refine (conj L3 (conj (eq_trans A3 A2) (conj (eq_trans E3 E2) _))).
    exists ((i :: new1) ++ new2).
    refine (conj _ (conj _ (conj _ (conj _ _)))).
    + rewrite T2, tree_indices_adopt, T1, app_assoc. reflexivity.
    + apply NoDup_app; [| exact ND2 |].
      * constructor; [| exact ND1]. intro Hc. apply R1 in Hc. lia.
      * intros j Hj Hj2. apply R2 in Hj2. destruct Hj2 as [Hr Hv].
        assert (visited_at polygons2 j = true); [| congruence].
        apply V2. destruct Hj as [<- | Hj]; [| right; exact Hj].
        left. apply V1; auto.
    + intros j Hj. apply in_app_or in Hj. destruct Hj as [[<- | Hj] | Hj].
      * split; [lia | congruence].
      * destruct (R1 j Hj) as [Hr Hv]. split; [lia |].
        eapply visited_at_false; [| exact Hv]. intro Hv0. apply V1; auto.
      * destruct (R2 j Hj) as [Hr Hv]. split; [lia |].
        eapply visited_at_false; [| exact Hv]. intro Hv0.
        apply V2. left. apply V1; auto.
    + intro j. rewrite V3, V2, V1 by exact Hi. rewrite in_app_iff. cbn [In].
      split.
      * intros [[[-> | Hv] | Hj] | Hj]; auto.
      * intros [Hv | [[<- | Hj] | Hj]]; auto.
    + intros HR j Hj. destruct (Nat.eq_dec j i) as [-> | Hne].
      * apply V3. left. apply V2. left. apply V1; auto.
      * apply Root; [exact HR | lia].
Qed.

Lemma adopt_nodes (P : AreaTree -> Prop) (parent newTree : AreaTree) (a : num) :
  P (adopt parent newTree a) -> all_nodes P parent -> all_nodes P newTree ->
  all_nodes P (adopt parent newTree a).
Proof.
  intros HP Hparent Hnew. apply all_nodes_unfold. split; [exact HP |].
  apply all_nodes_unfold in Hparent. destruct Hparent as [_ Hch].
  destruct parent; cbn [adopt area_children] in *;
    apply Forall_app; split; auto.
Qed.

Lemma child_index (t : AreaTree) (i : nat) (rest : list nat) :
  type t = CHILD -> tree_indices t = i :: rest ->
  exists total without ch poly, t = AreaTreeChild i total without ch poly.
Proof.
  destruct t as [ch | ix total without ch poly]; [discriminate |].
  intros _ H. cbn [tree_indices] in H. inversion H; subst. eauto.
Qed.

(** Every node [traverseAreas] adds carries the area and the cycle of the
    polygon at its index, and sits below a node with a smaller index. *)
Lemma traverseAreas_nodes (areas : list num) (shapes : list (list Z)) (todo : nat) :
  forall polygons parent tree polygons',
    (todo <= length polygons)%nat ->
    map area polygons = areas -> map p_edges polygons = shapes ->
    traverseAreas todo nodes polygons parent = Returned (tree, polygons') ->
    all_nodes (node_of areas shapes) parent ->
    parent_in_range parent (length polygons - todo) ->
    all_nodes (node_of areas shapes) tree.
Proof.
  induction todo as [| todo IH]; intros polygons parent tree polygons' Hle Ha He H HP HR;
    cbn [traverseAreas] in H.
  - inversion H; subst. exact HP.
  - cbv zeta in H.
    remember (length polygons - S todo)%nat as i eqn:Ei.
    assert (Hi : (i < length polygons)%nat) by lia.
    assert (Hnext : (length polygons - todo = S i)%nat) by lia.
    assert (HR' : parent_in_range parent (length polygons - todo)).
    { destruct parent; cbn [parent_in_range] in *; [exact I | lia]. }
    destruct (nth_error polygons i) as [p |] eqn:Hp.
    2:{ apply nth_error_None in Hp. lia. }
    destruct (p_visited p) eqn:Vp.
    { eapply IH; eauto. lia. }
    apply obind_returned in H. destruct H as (accepted & Hacc & H).
    destruct accepted.
    2:{ eapply IH; eauto. lia. }
    apply obind_returned in H. destruct H as ([newTree polygons2] & Hnew & H).
    pose proof (mark_visited_at_length polygons i) as L1.
    set (fresh := AreaTreeChild i (area p) (area p) [] (p_edges p)) in *.
    assert (Hfresh : all_nodes (node_of areas shapes) fresh).
    { apply all_nodes_unfold. split; [| constructor]. cbn [node_of].
      refine (conj _ (conj _ _)).
      - rewrite <- Ha. apply map_nth_error. exact Hp.
      - rewrite <- He. apply map_nth_error. exact Hp.
      - intros c []. }
    assert (Hinner : length polygons2 = length polygons /\
                     map area polygons2 = areas /\ map p_edges polygons2 = shapes /\
                     all_nodes (node_of areas shapes) newTree /\
                     exists total without ch poly,
                       newTree = AreaTreeChild i total without ch poly).
    { destruct (nth_error (mark_visited_at polygons i) (i + 1)).
      - pose proof Hnew as Hix. apply traverseAreas_indices in Hix; [| lia].
        destruct Hix as (L & A & E & new1 & T & _).
        pose proof Hnew as Hty. apply traverseAreas_spec in Hty. destruct Hty as [Hty _].
        rewrite L1 in L. rewrite map_area_mark in A. rewrite map_edges_mark in E.
        refine (conj L (conj (eq_trans A Ha) (conj (eq_trans E He) (conj _ _)))).
        + eapply IH; [| | | exact Hnew | exact Hfresh |].
          * lia.
          * rewrite map_area_mark. exact Ha.
          * rewrite map_edges_mark. exact He.
          * cbn [parent_in_range fresh]. lia.
        + eapply child_index; [exact Hty | exact T].
      - inversion Hnew; subst newTree polygons2.
        refine (conj L1 (conj _ (conj _ (conj Hfresh _)))).
        + rewrite map_area_mark. exact Ha.
        + rewrite map_edges_mark. exact He.
        + unfold fresh. eauto. }
    destruct Hinner as (L2 & A2 & E2 & Hnodes & total & without & ch & poly & Hshape).
    eapply IH; [| exact A2 | exact E2 | exact H | |].
    + lia.
    + apply adopt_nodes; auto.
      apply all_nodes_unfold in HP. destruct HP as [HP _].
      destruct parent as [pch | pix ptotal pwithout pch ppoly];
        cbn [adopt node_of parent_in_range] in *.
      * intros c Hc. apply in_app_or in Hc. destruct Hc as [Hc | [E | []]].
        -- apply HP. exact Hc.
        -- rewrite <- E, Hshape. reflexivity.
      * destruct HP as (P1 & P2 & P3). refine (conj P1 (conj P2 _)).
        intros c Hc. apply in_app_or in Hc. destruct Hc as [Hc | [E | []]].
        -- apply P3. exact Hc.
        -- rewrite <- E, Hshape. lia.
    + rewrite L2. destruct parent; cbn [adopt parent_in_range] in *; [exact I | lia].
Qed.

Lemma flat_map_pointwise {A B C} (f : A -> list B) (g : A -> list C) (h : C -> B)
      (l : list A) :
  Forall (fun x => f x = map h (g x)) l -> flat_map f l = map h (flat_map g l).
Proof.
  induction 1 as [| x l Hx _ IH]; cbn [flat_map]; [reflexivity |].
  rewrite map_app, Hx, IH. reflexivity.
Qed.

(** The polygons of the tree are those at its indices. *)
Lemma tree_polygons_indices (areas : list num) (shapes : list (list Z)) :
  forall t, all_nodes (node_of areas shapes) t ->
            tree_polygons t = map (fun i => nth i shapes []) (tree_indices t).
Proof.
  apply (AreaTree_children_ind
           (fun t => all_nodes (node_of areas shapes) t ->
                     tree_polygons t = map (fun i => nth i shapes []) (tree_indices t))).
  intros t IH Ht. apply all_nodes_unfold in Ht. destruct Ht as [Hnode Hch].
  assert (Hflat : flat_map tree_polygons (area_children t) =
                  map (fun i => nth i shapes []) (flat_map tree_indices (area_children t))).
  { apply flat_map_pointwise. rewrite Forall_forall in *. intros c Hc. apply IH; auto. }
  destruct t as [ch | ix total without ch poly];
    cbn [tree_polygons tree_indices area_children map] in *; [exact Hflat |].
  rewrite Hflat. f_equal. destruct Hnode as (_ & Hs & _).
  symmetry. apply nth_error_nth. exact Hs.
Qed.

Lemma sort_insert_perm (a : Polygon) (l : list Polygon) :
  Permutation (sort_insert a l) (a :: l).
Proof.
  induction l as [| b l IH]; cbn [sort_insert]; [reflexivity |].
  destruct (n_ltb _ _); [| reflexivity].
  rewrite IH. apply perm_swap.
Qed.

Lemma sort_by_area_perm (l : list Polygon) : Permutation (sort_by_area l) l.
Proof.
  induction l as [| a l IH]; cbn [sort_by_area fold_right]; [reflexivity |].
  fold (sort_by_area l). rewrite sort_insert_perm, IH. reflexivity.
Qed.

Lemma inputPolygons_spec (polygons : list InputPolygon) :
  forall ix mapped,
    inputPolygons nodes polygons ix = Returned mapped ->
    map p_edges mapped = map edges polygons /\
    Forall (fun p => p_visited p = false) mapped /\
    Forall2 (fun p q => getPolygonArea nodes q = Returned (area p)) mapped polygons.
Proof.
  induction polygons as [| q polygons IH]; intros ix mapped H; cbn [inputPolygons] in H.
  - inversion H. repeat split; constructor.
  - apply obind_returned in H. destruct H as (a & Ha & H).
    apply obind_returned in H. destruct H as (r & Hr & H).
    inversion H; subst. apply IH in Hr. destruct Hr as (E & V & F).
    cbn [map p_edges]. rewrite E. repeat split; constructor; auto.
Qed.

Lemma seq_map_nth {A} (l : list A) (d : A) :
  map (fun i => nth i l d) (seq 0 (length l)) = l.
Proof.
  induction l as [| x l IH]; cbn [length seq map nth]; [reflexivity |].
  f_equal. rewrite <- seq_shift, map_map. exact IH.
Qed.

(** [buildNestingTree]: the tree holds every index of the sorted polygon
    list once, and every node carries the data of the polygon at its
    index. *)
Lemma buildNestingTree_shape (polygons : list InputPolygon) (t : AreaTree) :
  buildNestingTree nodes polygons = Returned t ->
  exists mapped,
    inputPolygons nodes polygons 0 = Returned mapped /\
    Permutation (tree_indices t) (seq 0 (length (sort_by_area mapped))) /\
    all_nodes (node_of (map area (sort_by_area mapped))
                       (map p_edges (sort_by_area mapped))) t.
Proof.
  unfold buildNestingTree. intro H.
  apply obind_returned in H. destruct H as (mapped & Hm & H).
  apply obind_returned in H. destruct H as ([tree ps] & Ht & H).
  inversion H; subst tree. exists mapped. split; [exact Hm |].
  set (sorted := sort_by_area mapped) in *.
  pose proof (inputPolygons_spec _ _ _ Hm) as (_ & Hv & _).
  assert (Hv' : forall i, visited_at sorted i = false).
  { intro i. unfold visited_at. destruct (nth_error sorted i) as [p |] eqn:E; auto.
    apply nth_error_In in E.
    pose proof (sort_by_area_Forall (fun p => p_visited p = false) mapped Hv) as F.
    rewrite Forall_forall in F. apply F. exact E. }
  split.
  - apply traverseAreas_indices in Ht; [| apply Nat.le_refl].
    destruct Ht as (_ & _ & _ & new & T & ND & R & V & Root).
    cbn [tree_indices flat_map app] in T. rewrite T.
    apply NoDup_Permutation; [exact ND | apply seq_NoDup |].
    intro i. rewrite in_seq. split.
    + intro Hi. apply R in Hi. lia.
    + intro Hi. specialize (Root eq_refl i ltac:(lia)).
      apply V in Root. destruct Root as [Hc | Hin]; [| exact Hin].
      rewrite Hv' in Hc. discriminate.
  - eapply (traverseAreas_nodes _ _ (length sorted) sorted);
      [apply Nat.le_refl | reflexivity | reflexivity | exact Ht | |].
    + apply all_nodes_unfold. split; [| constructor]. intros c [].
    + exact I.
Qed.

(** Every polygon handed to [buildNestingTree] is the polygon of one
    [CHILD] node of the tree. *)
Lemma buildNestingTree_polygons (polygons : list InputPolygon) (t : AreaTree) :
  buildNestingTree nodes polygons = Returned t ->
  Permutation (tree_polygons t) (map edges polygons).
Proof.
  intro H. destruct (buildNestingTree_shape _ _ H) as (mapped & Hm & Hperm & Hnodes).
  rewrite (tree_polygons_indices _ _ t Hnodes).
  rewrite (Permutation_map _ Hperm).
  rewrite <- (length_map p_edges), seq_map_nth.
  pose proof (inputPolygons_spec _ _ _ Hm) as (E & _ & _). rewrite <- E.
  apply Permutation_map, sort_by_area_perm.
Qed.

End AreaShape.

Section AllNodes.

Context {N : Num}.

Lemma all_nodes_with_children (P : AreaTree -> Prop) :
  forall t, all_nodes P t ->
            all_nodes (fun x => P x /\ forall c, In c (area_children x) -> P c) t.
Proof.
  apply (AreaTree_children_ind
           (fun t => all_nodes P t ->
                     all_nodes (fun x => P x /\ forall c, In c (area_children x) -> P c) t)).
  intros t IH Ht. apply all_nodes_unfold in Ht. destruct Ht as [Hnode Hch].
  apply all_nodes_unfold. rewrite Forall_forall in *. split; [split |].
  - exact Hnode.
  - intros c Hc. specialize (Hch c Hc). apply all_nodes_unfold in Hch. apply Hch.
  - intros c Hc. apply IH; auto.
Qed.

End AllNodes.

(** ** In exact arithmetic: the polygons are sorted by area *)

Module ExactAreas.

Import ExactFacts ExactGeometry ExactMoves.

Local Open Scope Q_scope.

Local Notation "'QPolygon'" := (@Polygon Exact.rational).

Lemma sort_insert_sorted (a : QPolygon) (l : list QPolygon) :
  StronglySorted (fun p q : QPolygon => area q <= area p) l ->
  StronglySorted (fun p q : QPolygon => area q <= area p) (sort_insert a l).
Proof.
  induction 1 as [| b l Hl IH Hb]; cbn [sort_insert].
  - constructor; constructor.
  - destruct (@n_ltb Exact.rational (@n_of_Z Exact.rational 0)
                     (@n_sub Exact.rational (area b) (area a))) eqn:E.
    + apply ltb_lt in E. q_ops. change (inject_Z 0) with 0 in E. constructor; [exact IH |].
      apply sort_insert_Forall; [cbv beta; lra | exact Hb].
    + apply ltb_ge in E. q_ops. change (inject_Z 0) with 0 in E.
      constructor; [constructor; assumption |].
      constructor; [cbv beta; lra |].
      rewrite Forall_forall in *. intros q Hq. specialize (Hb q Hq). cbv beta in *. lra.
Qed.

Lemma sort_by_area_sorted (l : list QPolygon) :
  StronglySorted (fun p q : QPolygon => area q <= area p) (sort_by_area l).
Proof.
  induction l as [| a l IH]; cbn [sort_by_area fold_right]; [constructor |].
  apply sort_insert_sorted. exact IH.
Qed.

Lemma sorted_nth (l : list QPolygon) :
  StronglySorted (fun p q : QPolygon => area q <= area p) l ->
  forall i j p q, (i < j)%nat -> nth_error l i = Some p -> nth_error l j = Some q ->
                  area q <= area p.
Proof.
  induction 1 as [| b l Hl IH Hb]; intros i j p q Hij Hp Hq.
  - destruct i; discriminate.
  - destruct j as [| j]; [lia |]. cbn [nth_error] in Hq.
    destruct i as [| i]; cbn [nth_error] in Hp.
    + inversion Hp; subst. rewrite Forall_forall in Hb. apply Hb.
      eapply nth_error_In; eauto.
    + eapply IH; [| eauto | eauto]. lia.
Qed.

(** A polygon nested in another one has no larger area. *)
Lemma buildNestingTree_smaller (nodes : @InputNodes Exact.rational)
      (polygons : list InputPolygon) (t : @AreaTree Exact.rational) :
  buildNestingTree nodes polygons = Returned t ->
  all_nodes children_smaller_exact t.
Proof.
  intro H. destruct (buildNestingTree_shape _ _ _ H) as (mapped & _ & _ & Hnodes).
  apply all_nodes_with_children in Hnodes.
  eapply all_nodes_impl; [| exact Hnodes].
  intros x [Hx Hch]. destruct x as [ch | ix total without ch poly];
    cbn [children_smaller_exact area_children node_of] in *; [exact I |].
  destruct Hx as (Ha & _ & Habove). intros c Hc.
  specialize (Habove c Hc). specialize (Hch c Hc).
  destruct c as [| ix' total' without' ch' poly']; [contradiction |].
  cbn [node_of total_of] in *. destruct Hch as (Ha' & _ & _).
  rewrite nth_error_map in Ha, Ha'.
  destruct (nth_error (sort_by_area mapped) ix) as [p |] eqn:Ep; [| discriminate].
  destruct (nth_error (sort_by_area mapped) ix') as [q |] eqn:Eq; [| discriminate].
  cbn [option_map] in Ha, Ha'. inversion Ha; inversion Ha'; subst.
  eapply sorted_nth; eauto using sort_by_area_sorted.
Qed.

End ExactAreas.

(* ================================================================== *)
(** * Pruning the filaments: termination *)
(* ================================================================== *)

Section PruningFacts.

Context {N : Num}.

Lemma total_degree_update (f : Vertex -> Vertex) :
  forall s a,
    (a < length s)%nat ->
    (total_degree (update s a f) + length (adjacent (deref s a)))%nat =
    (total_degree s + length (adjacent (f (deref s a))))%nat.
Proof.
  unfold total_degree, deref.
  induction s as [| x s IH]; intros [| a] Ha; cbn [length] in Ha; try lia;
    cbn [update map list_sum fold_right nth].
  - lia.
  - specialize (IH a ltac:(lia)). unfold list_sum in IH. lia.
Qed.

Lemma length_delete_le (l : list nat) (b : nat) :
  (length (NatSet.delete l b) <= length l)%nat.
Proof. unfold NatSet.delete. apply filter_length_le. Qed.

Lemma length_delete_lt (l : list nat) (b : nat) :
  In b l -> (length (NatSet.delete l b) < length l)%nat.
Proof.
  unfold NatSet.delete. induction l as [| x l IH]; intro Hin; [destruct Hin |].
  destruct Hin as [-> | H]; cbn [filter length].
  - rewrite Nat.eqb_refl. cbn [negb].
    pose proof (filter_length_le (fun y => negb (b =? y)%nat) l). lia.
  - specialize (IH H). destruct (negb (b =? x)%nat); cbn [length]; lia.
Qed.

Lemma total_degree_delete (s : VertexStore) (a b : nat) :
  (total_degree (adjacent_delete a b s) <= total_degree s)%nat.
Proof.
  destruct (Nat.lt_ge_cases a (length s)) as [Ha | Ha].
  - pose proof (total_degree_update
                  (fun x => with_adjacent (NatSet.delete (adjacent x) b) x) s a Ha) as H.
    cbn [with_adjacent adjacent] in H.
    pose proof (length_delete_le (adjacent (deref s a)) b).
    unfold adjacent_delete. lia.
  - unfold adjacent_delete. rewrite update_out_of_range by exact Ha. lia.
Qed.

Lemma total_degree_delete_lt (s : VertexStore) (a b : nat) :
  In b (adj s a) -> (total_degree (adjacent_delete a b s) < total_degree s)%nat.
Proof.
  intro Hb. pose proof (adj_in_range s a b Hb) as Ha.
  pose proof (total_degree_update
                (fun x => with_adjacent (NatSet.delete (adjacent x) b) x) s a Ha) as H.
  cbn [with_adjacent adjacent] in H.
  pose proof (length_delete_lt (adjacent (deref s a)) b Hb).
  unfold adjacent_delete. lia.
Qed.

Lemma removeFilaments_walk_step (fuel : nat) (vertex : nat) (s : VertexStore) :
  removeFilaments_walk (S fuel) vertex s =
  if (length (adj s vertex) =? 1)%nat then
    match adj s vertex with
    | adjacent :: _ =>
        removeFilaments_walk fuel adjacent
          (adjacent_delete vertex adjacent (adjacent_delete adjacent vertex s))
    | [] => Threw
    end
  else Returned (tt, s).
Proof.
  cbn [removeFilaments_walk]. unfold mbind, get, modify, ret, throw.
  destruct (length (adj s vertex) =? 1)%nat; [| reflexivity].
  destruct (adj s vertex); reflexivity.
Qed.

(** A walk along a filament deletes an adjacency entry at every step, so it
    ends before the fuel does when the fuel exceeds their number. *)
Lemma removeFilaments_walk_total (fuel : nat) :
  forall vertex s,
    (total_degree s < fuel)%nat ->
    exists s', removeFilaments_walk fuel vertex s = Returned (tt, s') /\
               (total_degree s' <= total_degree s)%nat.
Proof.
  induction fuel as [| fuel IH]; intros vertex s Hfuel; [lia |].
  rewrite removeFilaments_walk_step.
  destruct (length (adj s vertex) =? 1)%nat eqn:E; [| exists s; auto].
  apply Nat.eqb_eq in E.
  destruct (adj s vertex) as [| a rest] eqn:Ea; [discriminate |].
  set (s1 := adjacent_delete a vertex s).
  assert (Hlt : (total_degree (adjacent_delete vertex a s1) < total_degree s)%nat).
  { pose proof (total_degree_delete s a vertex) as H1. fold s1 in H1.
    destruct (Nat.eq_dec vertex a) as [-> | Hne].
    - assert (In a (adj s a)) by (rewrite Ea; left; reflexivity).
      pose proof (total_degree_delete_lt s a a H) as H2. fold s1 in H2.
      pose proof (total_degree_delete s1 a a). lia.
    - assert (Hin : In a (adj s1 vertex)).
      { unfold s1. rewrite adj_adjacent_delete.
        destruct (Nat.eqb_spec vertex a); [contradiction |].
        rewrite Ea. left. reflexivity. }
      pose proof (total_degree_delete_lt s1 vertex a Hin). lia. }
  destruct (IH a (adjacent_delete vertex a s1) ltac:(lia)) as (s' & Hrun & Hle).
  exists s'. split; [exact Hrun | lia].
Qed.

Lemma removeFilaments_endpoints_total (fuel : nat) (endpoints : list nat) :
  forall s,
    (total_degree s < fuel)%nat ->
    exists s',
      forEach endpoints
              (fun v => mbind get (fun s0 =>
                 if (length (adj s0 v) =? 1)%nat then removeFilaments_walk fuel v
                 else ret tt)) s = Returned (tt, s') /\
      (total_degree s' <= total_degree s)%nat.
Proof.
  induction endpoints as [| v endpoints IH]; intros s Hfuel; cbn [forEach].
  - exists s. auto.
  - unfold mbind at 1. unfold mbind at 1. unfold get at 1.
    destruct (length (adj s v) =? 1)%nat.
    + destruct (removeFilaments_walk_total fuel v s Hfuel) as (s1 & Hrun & Hle).
      rewrite Hrun. destruct (IH s1 ltac:(lia)) as (s' & Hrun' & Hle').
      exists s'. split; [exact Hrun' | lia].
    + unfold ret at 1. apply IH. exact Hfuel.
Qed.

(** [removeFilaments] returns whenever the fuel exceeds the number of
    adjacency entries; it adds no entry and no record to the component. *)
Lemma removeFilaments_total (fuel : nat) (component : list nat) (s : VertexStore) :
  (total_degree s < fuel)%nat ->
  exists component' s',
    removeFilaments fuel component s = Returned (component', s') /\
    (total_degree s' <= total_degree s)%nat /\
    incl component' component.
Proof.
  intro Hfuel. unfold removeFilaments. unfold mbind at 1. unfold get at 1.
  destruct (0 <? length (filter (fun v => (length (adj s v) =? 1)%nat) component))%nat.
  - unfold mbind at 1.
    destruct (removeFilaments_endpoints_total
                fuel (filter (fun v => (length (adj s v) =? 1)%nat) component) s Hfuel)
      as (s' & Hrun & Hle).
    rewrite Hrun. unfold mbind, get, ret.
    exists (remaining s' component), s'. repeat split; auto.
    unfold remaining. intros x Hx. apply filter_In in Hx. tauto.
  - exists component, s. repeat split; auto. apply incl_refl.
Qed.

End PruningFacts.

(* ================================================================== *)
(** * The accepted inputs, in plain terms *)
(* ================================================================== *)

Section AcceptedInputs.

Context {N : Num}.

Lemma edge_eqb_eq (e f : InputEdge) : edge_eqb e f = true <-> e = f.
Proof.
  destruct e as [a b], f as [c d]. unfold edge_eqb. cbn [fst snd].
  rewrite andb_true_iff, !Z.eqb_eq. split; [intros [-> ->] | intros [= -> ->]]; auto.
Qed.

Lemma existsb_false {A} (f : A -> bool) (l : list A) :
  existsb f l = false <-> forall x, In x l -> f x = false.
Proof.
  induction l as [| a l IH]; cbn [existsb].
  - split; [intros _ x [] | reflexivity].
  - rewrite orb_false_iff, IH. split.
    + intros [Ha Hl] x [<- | Hx]; auto.
    + intro H. split; [apply H; left; reflexivity |].
      intros x Hx. apply H. right. exact Hx.
Qed.

Lemma has_repeat_NoDup {A} (eqb : A -> A -> bool) (l : list A) :
  (forall x y, eqb x y = true <-> x = y) ->
  (has_repeat eqb l = false <-> NoDup l).
Proof.
  intro Heq. induction l as [| a l IH]; cbn [has_repeat].
  - split; [constructor | reflexivity].
  - rewrite orb_false_iff, IH, existsb_false. split.
    + intros [Ha Hl]. constructor; [| exact Hl].
      intro Hin. specialize (Ha a Hin). cbv beta in Ha.
      assert (eqb a a = true) by (apply Heq; reflexivity). congruence.
    + intro H. inversion H as [| ? ? Hn Hl]; subst. split; [| exact Hl].
      intros x Hx. destruct (eqb x a) eqn:E; [| reflexivity].
      apply Heq in E. subst. contradiction.
Qed.

Lemma endpoint_in_bounds (positions : InputNodes) (e : InputEdge) :
  endpoint_out_of_bounds (Z.of_nat (length positions) - 1) e = false <->
  node_index positions (fst e) /\ node_index positions (snd e).
Proof.
  unfold endpoint_out_of_bounds, node_index.
  rewrite !orb_false_iff, !Z.ltb_ge, !Z.gtb_ltb, !Z.ltb_ge. lia.
Qed.

Lemma graph_not_empty (positions : InputNodes) (edges : InputEdges) :
  graph_empty positions edges = false <-> positions <> [] /\ edges <> [].
Proof.
  unfold graph_empty. rewrite orb_false_iff, !Nat.eqb_neq.
  destruct positions, edges; cbn [length]; split; intros [H1 H2]; split;
    try congruence; try lia.
Qed.

Lemma validateInputs_accepts (positions : InputNodes) (edges : InputEdges) :
  validateInputs positions edges = None <->
  positions <> [] /\ edges <> [] /\
  same_position_present positions = false /\
  (forall p, In p positions -> negative_coordinate p = false) /\
  NoDup edges /\
  (forall e, In e edges -> node_index positions (fst e) /\ node_index positions (snd e)).
Proof.
  rewrite validateInputs_none, by_precedence_none, graph_not_empty.
  unfold invalid_coordinate_present, out_of_bounds_present, duplicate_edge_present.
  rewrite !existsb_false, (has_repeat_NoDup edge_eqb edges edge_eqb_eq).
  split.
  - intros ((H1 & H2) & H3 & H4 & H5 & H6). refine (conj H1 (conj H2 (conj H3 (conj H4 (conj H6 _))))).
    intros e He. apply endpoint_in_bounds. auto.
  - intros (H1 & H2 & H3 & H4 & H5 & H6). refine (conj (conj H1 H2) (conj H3 (conj H4 (conj _ H5)))).
    intros e He. apply endpoint_in_bounds. auto.
Qed.

End AcceptedInputs.

(* ================================================================== *)
(** * Cycle extraction and the error path of discover *)
(* ================================================================== *)

Section ExtractionFacts.

Context {N : Num}.

(** [extractCycle] removes the edge between the first two records of the
    walk, in both directions. *)
Lemma extractCycle_first_edge (fuel : nat) (closedWalk : list nat) (s : VertexStore)
      (c : list Z) (s' : VertexStore) (v0 v1 : nat) :
  extractCycle fuel closedWalk s = Returned (c, s') ->
  nth_error closedWalk 0 = Some v0 -> nth_error closedWalk 1 = Some v1 ->
  ~ In v1 (adj s' v0) /\ ~ In v0 (adj s' v1).
Proof.
  unfold extractCycle. intros H H0 H1. minv.
  repeat match goal with
         | E : nth_error closedWalk _ = Some _, E' : nth_error closedWalk _ = Some _ |- _ =>
             rewrite E in E'; inversion E'; subst; clear E'
         end.
  match goal with
  | U : unlink ?a ?b ?sa = Returned (_, ?s1),
    F : extractCycle_forward _ _ _ ?s1 = Returned (_, ?s2),
    B : (if ?cond then _ else _) ?s2 = Returned (_, ?s3) |- _ =>
      assert (Hu : s1 = adjacent_delete b a (adjacent_delete a b sa))
        by (apply unlink_spec in U; apply U);
      assert (Hf : forall i, incl (adj s2 i) (adj s1 i))
        by (apply extractCycle_forward_spec in F; destruct F as [[_ F] _];
            intro i; apply F);
      assert (Hb : forall i, incl (adj s3 i) (adj s2 i))
        by (destruct cond;
            [apply extractCycle_backward_spec in B; destruct B as [[_ B] _];
             intro i; apply B
            | minv; intro i; apply incl_refl])
  end.
  rewrite Hu in Hf. split; intro Hin; apply Hb in Hin; apply Hf in Hin;
    rewrite !adj_adjacent_delete in Hin.
  - destruct (Nat.eqb_spec v0 v1) as [-> | Hne].
    + rewrite Nat.eqb_refl in Hin. apply NatSetFacts.In_delete in Hin. destruct Hin as [Hin _].
      apply NatSetFacts.In_delete in Hin. tauto.
    + rewrite Nat.eqb_refl in Hin. apply NatSetFacts.In_delete in Hin. tauto.
  - rewrite Nat.eqb_refl in Hin. apply NatSetFacts.In_delete in Hin. tauto.
Qed.

(** On the way into [extractCycleFromClosedWalk] the walk is cut down to a
    closed walk over the same start whose inner records are distinct. *)
Lemma simplify_loop_entry (fuel : nat) (vStart : nat) (mid walk' detachments : list nat) :
  simplify_loop fuel (vStart :: mid ++ [vStart]) dup_empty [] 1 =
    Returned (walk', detachments) ->
  exists mid', walk' = vStart :: mid' ++ [vStart] /\
               incl mid' mid /\ NoDup mid' /\ hd_error mid' = hd_error mid.
Proof.
  intro H. eapply simplify_loop_spec; [exact H | reflexivity | lia | constructor |].
  intros v k. unfold dup_empty. split; [discriminate | intros [Hk _]; lia].
Qed.

(** The simplification loop ends: twice the length of the walk minus the
    index decreases at every turn, so that much fuel is enough. *)
Lemma simplify_loop_returns (fuel : nat) :
  forall closedWalk duplicates detachments i,
    (2 * length closedWalk - i < fuel)%nat ->
    exists r, simplify_loop fuel closedWalk duplicates detachments i = Returned r.
Proof.
  induction fuel as [| fuel IH]; intros closedWalk duplicates detachments i Hf;
    [lia |].
  cbn [simplify_loop].
  destruct (Nat.ltb_spec i (length closedWalk - 1)) as [Hlt | Hge];
    [| eexists; reflexivity].
  destruct (nth_error closedWalk i) as [vertex |] eqn:Hv.
  2:{ apply nth_error_None in Hv. lia. }
  cbn [defined obind].
  destruct (dup_get_or_null duplicates vertex) as [iMin |] eqn:G.
  - destruct (forget_between closedWalk (iMin + 1) (i - (iMin + 1)) duplicates
                             (NatSet.add detachments iMin))
      as [duplicates2 detachments2].
    apply IH. unfold splice.
    rewrite length_app, length_firstn, length_skipn. lia.
  - apply IH. lia.
Qed.

(** With that much fuel a closed walk is always cut down to a closed walk
    over the same start whose inner records are distinct. *)
Lemma simplify_loop_entry_total (fuel : nat) (vStart : nat) (mid : list nat) :
  (2 * length mid + 4 <= fuel)%nat ->
  exists walk' detachments mid',
    simplify_loop fuel (vStart :: mid ++ [vStart]) dup_empty [] 1 =
      Returned (walk', detachments) /\
    walk' = vStart :: mid' ++ [vStart] /\
    incl mid' mid /\ NoDup mid' /\ hd_error mid' = hd_error mid.
Proof.
  intro Hf.
  destruct (simplify_loop_returns fuel (vStart :: mid ++ [vStart]) dup_empty [] 1)
    as [[walk' detachments] H].
  { cbn [length]. rewrite length_app. cbn [length]. lia. }
  destruct (simplify_loop_entry fuel vStart mid walk' detachments H)
    as (mid' & Hw & Hi & Hn & Hh).
  exists walk', detachments, mid'. auto.
Qed.

(** Every name of a cycle is an endpoint of an edge of the input. *)
Lemma discover_names (fuel : nat) (positions : InputNodes) (edges : InputEdges)
      (forest : CycleTreeForest) (s' : VertexStore) :
  discover fuel positions edges [] = Returned (RESULT forest, s') ->
  forall t c nm, In t forest -> In c (tree_cycles t) -> In nm c ->
                 exists e, In e edges /\ (nm = fst e \/ nm = snd e).
Proof.
  intros H t c nm Ht Hc Hnm.
  pose proof (discover_spec
                (fun nm => exists e, In e edges /\ (nm = fst e \/ nm = snd e))
                fuel positions edges [] forest s') as D.
  destruct D as (_ & _ & Hnames & Hcycles); auto.
  - intros i Hi. cbn [length] in Hi. lia.
  - intro i. unfold adj, deref. destruct i; reflexivity.
  - intros e He. split; exists e; auto.
  - rewrite Forall_forall in Hcycles. specialize (Hcycles t Ht c Hc).
    assert (Hne : c <> []) by (intro E; subst; destruct Hnm).
    destruct (walk_cycle_names _ s' c Hnames (Hcycles Hne)) as [Hall _].
    apply Hall. exact Hnm.
Qed.

Lemma cycles_as_polygons (l : list (list Z)) :
  map edges (map (fun f => {| edges := f |}) l) = l.
Proof. rewrite map_map. apply map_id. Qed.

(** Every non-empty cycle of the forest is the polygon of one node of the
    area tree. *)
Lemma getAreaTree_polygons (fuel : nat) (nodes : InputNodes) (edges : InputEdges)
      (forest : CycleTreeForest) (s' : VertexStore) :
  discover fuel nodes edges [] = Returned (RESULT forest, s') ->
  exists t, getAreaTree fuel nodes edges = Returned t /\
            Permutation (tree_polygons t) (getCyclesFromCycleForest forest).
Proof.
  intro H. destruct (getAreaTree_total _ _ _ _ _ H) as (t & Ht & _). exists t.
  split; [exact Ht |]. unfold getAreaTree in Ht. rewrite H in Ht.
  apply buildNestingTree_polygons in Ht. rewrite cycles_as_polygons in Ht. exact Ht.
Qed.

End ExtractionFacts.

Lemma getAreaTree_smaller (fuel : nat) (nodes : @InputNodes Exact.rational)
      (edges : InputEdges) (t : @AreaTree Exact.rational) :
  getAreaTree fuel nodes edges = Returned t -> all_nodes children_smaller_exact t.
Proof.
  unfold getAreaTree.
  destruct (discover fuel nodes edges []) as [[[forest | reason] s] | |];
    try discriminate.
  apply ExactAreas.buildNestingTree_smaller.
Qed.

(* ================================================================== *)
(** * The component loop of discover *)
(* ================================================================== *)

Section ComponentFacts.

Context {N : Num}.

Variable fuel : nat.

Lemma find_components_step (v : nat) (rest : list nat) (components : list (list nat))
      (s : VertexStore) :
  find_components fuel (v :: rest) components s =
  if (visited (deref s v) =? 0)%nat then
    match depthFirstSearch fuel v [] s with
    | Returned (c, s1) => find_components fuel rest (components ++ [c]) s1
    | Threw => Threw
    | OutOfFuel => OutOfFuel
    end
  else find_components fuel rest components s.
Proof.
  cbn [find_components]. unfold mbind at 1. unfold get at 1.
  destruct (visited (deref s v) =? 0)%nat; [| reflexivity].
  unfold mbind. destruct (depthFirstSearch fuel v [] s) as [[c s1] | |]; reflexivity.
Qed.

Lemma white_path_fresh (s : VertexStore) (v x : nat) :
  well_formed s -> (v < length s)%nat -> visited (deref s v) = 0%nat ->
  white_path s v x -> (x < length s)%nat /\ visited (deref s x) = 0%nat.
Proof.
  intros W Hv H0 Hx. induction Hx as [| y x Hy IH Hadj Hvis]; [auto |].
  split; [eapply W; eauto | exact Hvis].
Qed.

Lemma white_path_connected (s : VertexStore) (v x : nat) :
  white_path s v x -> connected s v x.
Proof.
  induction 1 as [| y x Hy IH Hadj Hvis]; [constructor |].
  eapply connected_step; eauto.
Qed.

Lemma connected_same_graph (s s' : VertexStore) (v x : nat) :
  same_graph s s' -> connected s v x -> connected s' v x.
Proof.
  intros [_ G] H. induction H as [| y x Hy IH Hadj]; [constructor |].
  eapply connected_step; [exact IH |]. rewrite (proj1 (G y)). exact Hadj.
Qed.

Lemma concat_snoc {A} (l : list (list A)) (c : list A) :
  concat (l ++ [c]) = concat l ++ c.
Proof. rewrite concat_app. cbn [concat]. rewrite app_nil_r. reflexivity. Qed.

(** One more component keeps the invariant of the loop. *)
Lemma components_ok_search (s : VertexStore) (components : list (list nat)) (v : nat)
      (c : list nat) (s1 : VertexStore) :
  well_formed s -> symmetric s -> components_ok s components ->
  (v < length s)%nat -> visited (deref s v) = 0%nat ->
  NoDup c -> (forall x, In x c <-> white_path s v x) -> same_graph s s1 ->
  (forall x, In x c -> visited (deref s1 x) = 2%nat) ->
  (forall x, ~ In x c -> visited (deref s1 x) = visited (deref s x)) ->
  components_ok s1 (components ++ [c]).
Proof.
  intros W Sy (ND & R & Mk & Cl & Cn) Hv H0 NDc Hc G M2 Mo.
  assert (L : length s1 = length s) by apply G.
  assert (A : forall i, adj s1 i = adj s i) by (intro i; apply G).
  assert (Fr : forall x, In x c -> (x < length s)%nat /\ visited (deref s x) = 0%nat).
  { intros x Hx. apply (white_path_fresh s v x); auto. apply Hc. exact Hx. }
  assert (Dj : forall x, In x (concat components) -> ~ In x c).
  { intros x Hx Hxc. destruct (Fr x Hxc) as [Hr Hz].
    apply (Mk x Hr) in Hx. contradiction. }
  unfold components_ok. rewrite concat_snoc, L.
  refine (conj _ (conj _ (conj _ (conj _ _)))).
  - apply NoDup_app; auto.
  - intros x Hx. apply in_app_or in Hx. destruct Hx as [Hx | Hx]; [auto | apply Fr; auto].
  - intros x Hx. rewrite in_app_iff.
    destruct (in_dec Nat.eq_dec x c) as [Hin | Hout].
    + rewrite (M2 x Hin). split; [auto | lia].
    + rewrite (Mo x Hout), (Mk x Hx). tauto.
  - intros c' x y Hc' Hx Hy. rewrite A in Hy.
    apply in_app_or in Hc'. destruct Hc' as [Hc' | [<- | []]]; [eapply Cl; eauto |].
    destruct (Nat.eq_dec (visited (deref s y)) 0) as [Hz | Hnz].
    + apply Hc. eapply white_step; [apply Hc; exact Hx | exact Hy | exact Hz].
    + exfalso. assert (Hr : (y < length s)%nat) by (eapply W; eauto).
      apply (Mk y Hr) in Hnz. apply in_concat in Hnz. destruct Hnz as (c0 & Hc0 & Hy0).
      apply (Dj x); [| exact Hx]. apply in_concat. exists c0. split; [exact Hc0 |].
      eapply Cl; [exact Hc0 | exact Hy0 |]. apply Sy. exact Hy.
  - intros c' Hc'. apply in_app_or in Hc'. destruct Hc' as [Hc' | [<- | []]].
    + destruct (Cn c' Hc') as (w & Hw). exists w. intros x Hx.
      eapply connected_same_graph; eauto.
    + exists v. intros x Hx. eapply connected_same_graph; [exact G |].
      apply white_path_connected. apply Hc. exact Hx.
Qed.

(** The loop over the records returns, keeps the invariant, and leaves
    every record it went over in a component. *)
Lemma find_components_run :
  forall vertices components s,
    well_formed s -> symmetric s -> components_ok s components ->
    (forall v, In v vertices -> (v < length s)%nat) ->
    (2 * length s + 2 <= fuel)%nat ->
    exists components' s',
      find_components fuel vertices components s = Returned (components', s') /\
      same_graph s s' /\ components_ok s' components' /\
      incl (concat components) (concat components') /\
      (forall v, In v vertices -> In v (concat components')).
Proof.
  induction vertices as [| v rest IH]; intros components s W Sy Ok Hr Hfuel.
  - exists components, s. cbn [find_components].
    refine (conj eq_refl (conj (same_graph_refl s) (conj Ok (conj (incl_refl _) _)))).
    intros v [].
  - rewrite find_components_step.
    assert (Hv : (v < length s)%nat) by (apply Hr; left; reflexivity).
    destruct (Nat.eqb_spec (visited (deref s v)) 0) as [H0 | Hn].
    + destruct (depthFirstSearch_run s v W fuel Hv H0 Hfuel)
        as (c & s1 & Hrun & NDc & Hc & G & M2 & Mo).
      rewrite Hrun.
      assert (L : length s1 = length s) by apply G.
      destruct (IH (components ++ [c]) s1) as (components' & s' & Hrest & G' & Ok' & I & Hin).
      * eapply same_graph_well_formed; eauto.
      * eapply same_graph_symmetric; eauto.
      * eapply components_ok_search; eauto.
      * intros w Hw. rewrite L. apply Hr. right. exact Hw.
      * rewrite L. exact Hfuel.
      * exists components', s'. rewrite concat_snoc in I.
        refine (conj Hrest (conj _ (conj Ok' (conj _ _)))).
        -- eapply same_graph_trans; eauto.
        -- intros x Hx. apply I. apply in_or_app. left. exact Hx.
        -- intros w [<- | Hw]; [| auto].
           apply I. apply in_or_app. right. apply Hc. constructor.
    + destruct (IH components s W Sy Ok) as (components' & s' & Hrest & G' & Ok' & I & Hin);
        auto.
      * intros w Hw. apply Hr. right. exact Hw.
      * exists components', s'. refine (conj Hrest (conj G' (conj Ok' (conj I _)))).
        intros w [<- | Hw]; [| auto].
        apply I. destruct Ok as (_ & _ & Mk & _). apply (Mk v Hv). exact Hn.
Qed.

Lemma find_components_partition (s : VertexStore) :
  well_formed s -> symmetric s ->
  (forall i, (i < length s)%nat -> visited (deref s i) = 0%nat) ->
  (2 * length s + 2 <= fuel)%nat ->
  exists components s',
    find_components fuel (seq 0 (length s)) [] s = Returned (components, s') /\
    same_graph s s' /\
    Permutation (concat components) (seq 0 (length s)) /\
    (forall c x y, In c components -> In x c -> In y (adj s x) -> In y c) /\
    (forall c, In c components -> exists v, forall x, In x c -> connected s v x).
Proof.
  intros W Sy H0 Hfuel.
  destruct (find_components_run (seq 0 (length s)) [] s W Sy) as
    (components & s' & Hrun & G & (ND & R & Mk & Cl & Cn) & _ & Hin); auto.
  { refine (conj (NoDup_nil _) (conj _ (conj _ (conj _ _)))).
    - intros x [].
    - intros x Hx. rewrite (H0 x Hx). cbn [concat]. split; [congruence | intros []].
    - intros c x y [].
    - intros c []. }
  { intros v Hv. apply in_seq in Hv. lia. }
  assert (L : length s' = length s) by apply G.
  assert (A : forall i, adj s' i = adj s i) by (intro i; apply G).
  exists components, s'. refine (conj Hrun (conj G (conj _ (conj _ _)))).
  - apply NoDup_Permutation; [exact ND | apply seq_NoDup |].
    intro x. rewrite in_seq. split.
    + intro Hx. apply R in Hx. lia.
    + intro Hx. apply Hin. apply in_seq. exact Hx.
  - intros c x y Hc Hx Hy. rewrite <- A in Hy. eapply Cl; eauto.
  - intros c Hc. destruct (Cn c Hc) as (v & Hv). exists v. intros x Hx.
    eapply connected_same_graph; [| apply Hv; exact Hx].
    split; [symmetry; exact L |]. intro i. destruct G as [_ G].
    destruct (G i) as (G1 & G2 & G3). auto.
Qed.

End ComponentFacts.

(* ================================================================== *)
(** * When getPolygonArea throws; the records discover creates *)
(* ================================================================== *)

Section AreaDefined.

Context {N : Num}.

Lemma all_defined_Threw {A} (l : list (option A)) :
  In None l -> all_defined l = Threw.
Proof.
  induction l as [| [a |] l IH]; intro H; cbn [all_defined].
  - destruct H.
  - destruct H as [H | H]; [discriminate |]. rewrite (IH H). reflexivity.
  - reflexivity.
Qed.

Lemma getPointPath_defined (nodes : InputNodes) (c : list Z) (nm : Z) :
  (if (nm <? 0)%Z then None else nth_error nodes (Z.to_nat nm)) <> None <->
  node_index nodes nm.
Proof.
  unfold node_index. destruct (Z.ltb_spec nm 0) as [Hneg | Hpos].
  - split; [congruence | lia].
  - rewrite nth_error_Some. lia.
Qed.

(** [getPolygonArea] returns an area when every name of the polygon, the
    closing one apart, is an index of the node list, and throws when one of
    them is not. *)
Lemma getPolygonArea_defined (nodes : InputNodes) (polygon : InputPolygon) :
  ((forall nm, In nm (firstn (length (edges polygon) - 1) (edges polygon)) ->
               node_index nodes nm) ->
   exists a, getPolygonArea nodes polygon = Returned a) /\
  ((exists nm, In nm (firstn (length (edges polygon) - 1) (edges polygon)) /\
               ~ node_index nodes nm) ->
   getPolygonArea nodes polygon = Threw).
Proof.
  unfold getPolygonArea, getPointPath. split.
  - intro H.
    destruct (all_defined_total
                (map (fun p => if (p <? 0)%Z then None else nth_error nodes (Z.to_nat p))
                     (firstn (length (edges polygon) - 1) (edges polygon))))
      as (r & -> & _).
    + intros o Ho. apply in_map_iff in Ho. destruct Ho as (nm & <- & Hnm).
      apply (getPointPath_defined nodes (edges polygon)). auto.
    + cbn [obind]. eauto.
  - intros (nm & Hnm & Hout). rewrite all_defined_Threw; [reflexivity |].
    apply in_map_iff. exists nm. split; [| exact Hnm].
    destruct (if (nm <? 0)%Z then None else nth_error nodes (Z.to_nat nm)) eqn:E;
      [| reflexivity].
    exfalso. apply Hout. apply (getPointPath_defined nodes (edges polygon)).
    rewrite E. discriminate.
Qed.

Lemma unique_names_complete (l : InputEdges) :
  forall seen nm,
    In nm seen \/ (exists e, In e l /\ (nm = fst e \/ nm = snd e)) ->
    In nm (unique_names l seen).
Proof.
  induction l as [| e l IH]; intros seen nm H; cbn [unique_names].
  - destruct H as [H | (e & [] & _)]. exact H.
  - apply IH.
    set (seen1 := if existsb (Z.eqb (fst e)) seen then seen else seen ++ [fst e]).
    set (seen2 := if existsb (Z.eqb (snd e)) seen1 then seen1 else seen1 ++ [snd e]).
    assert (I1 : incl seen seen1).
    { unfold seen1. destruct (existsb _ seen); [apply incl_refl | apply incl_appl, incl_refl]. }
    assert (I2 : incl seen1 seen2).
    { unfold seen2. destruct (existsb _ seen1); [apply incl_refl | apply incl_appl, incl_refl]. }
    assert (F1 : In (fst e) seen1).
    { unfold seen1. destruct (existsb (Z.eqb (fst e)) seen) eqn:E.
      - apply existsb_exists in E. destruct E as (x & Hx & Ex).
        apply Z.eqb_eq in Ex. subst. exact Hx.
      - apply in_or_app. right. left. reflexivity. }
    assert (F2 : In (snd e) seen2).
    { unfold seen2. destruct (existsb (Z.eqb (snd e)) seen1) eqn:E.
      - apply existsb_exists in E. destruct E as (x & Hx & Ex).
        apply Z.eqb_eq in Ex. subst. exact Hx.
      - apply in_or_app. right. left. reflexivity. }
    destruct H as [H | (e' & [<- | He'] & Hnm)].
    + left. apply I2, I1. exact H.
    + left. destruct Hnm as [-> | ->]; [apply I2; exact F1 | exact F2].
    + right. exists e'. auto.
Qed.

(** The arena of a fresh instance starts, after [discover], with one record
    for each distinct endpoint of the edges, in the order in which the
    endpoints first appear. *)
Lemma discover_records (fuel : nat) (positions : InputNodes) (links : InputEdges)
      (forest : CycleTreeForest) (s' : VertexStore) :
  discover fuel positions links [] = Returned (RESULT forest, s') ->
  NoDup (unique_names links []) /\
  (forall nm, In nm (unique_names links []) <->
              exists e, In e links /\ (nm = fst e \/ nm = snd e)) /\
  (length (unique_names links []) <= length s')%nat /\
  (forall k, (k < length (unique_names links []))%nat ->
             name (deref s' k) = nth k (unique_names links []) 0%Z).
Proof.
  intro H. destruct (discover_fresh_names _ _ _ _ _ H) as [L Nm].
  refine (conj _ (conj _ (conj L Nm))).
  - apply unique_names_NoDup. constructor.
  - intro nm. split.
    + intro Hin. apply unique_names_spec in Hin. destruct Hin as [[] | Hin]. exact Hin.
    + intro Hin. apply unique_names_complete. right. exact Hin.
Qed.

End AreaDefined.

(* ================================================================== *)
(** * The shape of the forest *)
(* ================================================================== *)

Section ShapeFacts.

Context {N : Num}.

Lemma unwrap_shaped (ch : list CycleTree) :
  Forall shaped ch -> shaped (unwrap (Build_CycleTree [] ch)).
Proof.
  intro H. unfold unwrap. cbn [cycle children length Nat.eqb andb].
  destruct (Nat.eqb_spec (length ch) 1) as [E | E].
  - destruct ch as [| child [| ? ?]]; try discriminate.
    cbn [map last]. inversion H as [| ? ? Hc _]; subst.
    destruct child as [c ch']. exact Hc.
  - constructor; auto.
Qed.

Section WithShapedRecursion.

Variable rec : list nat -> M CycleTree.
Variable fuel : nat.
Hypothesis Hs : shape_contract rec.

Lemma detach_shaped (closedWalk : list nat) (i : nat) (s : VertexStore)
      (pushed : list CycleTree) (s' : VertexStore) :
  detach rec fuel closedWalk i s = Returned (pushed, s') -> Forall shaped pushed.
Proof.
  unfold detach. intro H. minv.
  match type of H with
  | (if (0 <? length ?w)%nat then _ else _) _ = _ => set (inWedge := w) in *
  end.
  destruct (0 <? length inWedge)%nat.
  - minv.
    match goal with
    | Hr : rec _ _ = Returned (_, _) |- _ => apply Hs in Hr; auto
    end.
  - minv. constructor.
Qed.

Lemma detach_all_shaped (closedWalk : list nat) :
  forall detachments children s children' s',
    detach_all rec fuel closedWalk detachments children s = Returned (children', s') ->
    Forall shaped children -> Forall shaped children'.
Proof.
  induction detachments as [| i rest IH]; intros children s children' s' H Hc;
    cbn [detach_all] in H.
  - minv. exact Hc.
  - apply mbind_returned in H. destruct H as (pushed & s1 & Hd & H).
    apply detach_shaped in Hd. eapply IH; [exact H |].
    apply Forall_app. auto.
Qed.

Lemma extractCycleFromClosedWalk_shaped (closedWalk : list nat) (s : VertexStore)
      (t : CycleTree) (s' : VertexStore) :
  extractCycleFromClosedWalk rec fuel closedWalk s = Returned (t, s') -> shaped t.
Proof.
  unfold extractCycleFromClosedWalk. intro H.
  apply mbind_returned in H. destruct H as ([walk' detachments] & s0 & Hl & H).
  apply lift_returned in Hl. destruct Hl as [_ ->].
  destruct (Nat.ltb_spec 3 (length walk')) as [Hlen | Hlen].
  - minv.
    match goal with
    | Hd : detach_all _ _ _ _ _ _ = Returned (_, _),
      He : extractCycle _ _ _ = Returned _ |- _ =>
        apply detach_all_shaped in Hd; [| constructor];
        apply extractCycle_spec in He; destruct He as [He _]
    end.
    constructor; [| assumption].
    intro E. exfalso. subst. destruct walk'; [cbn [length] in Hlen; lia | discriminate].
  - minv.
    match goal with
    | Hr : rec _ _ = Returned (_, _) |- _ => apply Hs in Hr
    end.
    apply unwrap_shaped. auto.
Qed.

Lemma extractCycleFromComponent_shaped (component : list nat) (s : VertexStore)
      (r : CycleTree * list nat) (s' : VertexStore) :
  extractCycleFromComponent rec fuel component s = Returned (r, s') -> shaped (fst r).
Proof.
  unfold extractCycleFromComponent. intro H.
  destruct component as [| first others]; [discriminate |].
  minv.
  match goal with
  | Hw : extractCycleFromClosedWalk _ _ _ _ = Returned _ |- _ =>
      apply extractCycleFromClosedWalk_shaped in Hw; exact Hw
  end.
Qed.

Lemma extractBasis_loop_shaped (n : nat) :
  forall component children s children' s',
    extractBasis_loop rec fuel n component children s = Returned (children', s') ->
    Forall shaped children -> Forall shaped children'.
Proof.
  induction n as [| n IH]; intros component children s children' s' H Hc;
    cbn [extractBasis_loop] in H; [discriminate |].
  destruct (0 <? length component)%nat; [| minv; exact Hc].
  apply mbind_returned in H. destruct H as (component1 & s1 & Hf & H).
  destruct (0 <? length component1)%nat.
  - apply mbind_returned in H. destruct H as ([tree component2] & s2 & Hx & H).
    apply extractCycleFromComponent_shaped in Hx. cbn [fst] in Hx.
    eapply IH; [exact H |]. apply Forall_app. auto.
  - eapply IH; eauto.
Qed.

End WithShapedRecursion.

Lemma extractBasis_shaped (fuel : nat) : shape_contract (extractBasis fuel).
Proof.
  induction fuel as [| fuel IH]; intros component s t s' H;
    cbn [extractBasis] in H; [discriminate |].
  minv.
  match goal with
  | Hl : extractBasis_loop _ _ _ _ _ _ = Returned _ |- _ =>
      apply (extractBasis_loop_shaped _ _ IH) in Hl; [| constructor]
  end.
  apply unwrap_shaped. assumption.
Qed.

Lemma extract_all_shaped (fuel : nat) :
  forall components forest s forest' s',
    extract_all fuel components forest s = Returned (forest', s') ->
    Forall shaped forest -> Forall shaped forest'.
Proof.
  induction components as [| c rest IH]; intros forest s forest' s' H Hf;
    cbn [extract_all] in H.
  - minv. exact Hf.
  - apply mbind_returned in H. destruct H as (t & s1 & Hb & H).
    apply extractBasis_shaped in Hb. eapply IH; [exact H |].
    apply Forall_app. auto.
Qed.

(** The forest [discover] returns holds no empty tree, and none of its nodes
    has an empty cycle and exactly one child. *)
Lemma discover_shaped (fuel : nat) (positions : InputNodes) (links : InputEdges)
      (s : VertexStore) (forest : CycleTreeForest) (s' : VertexStore) :
  discover fuel positions links s = Returned (RESULT forest, s') ->
  Forall shaped forest /\ Forall (fun t => isEmpty t = false) forest.
Proof.
  intro H.
  assert (Hv : validateInputs positions links = None).
  { unfold discover in H. destruct (validateInputs positions links); [| reflexivity].
    unfold ret in H. inversion H. }
  destruct (discover_phases fuel positions links s (RESULT forest) s' Hv H)
    as (u1 & s1 & u2 & s2 & components & s3 & u4 & s4 & all & _ & _ & _ & _ & Hx & Hr).
  inversion Hr; subst forest. apply extract_all_shaped in Hx; [| constructor].
  split.
  - rewrite Forall_forall in *. intros t Ht. apply filter_In in Ht. apply Hx, Ht.
  - rewrite Forall_forall. intros t Ht. apply filter_In in Ht. destruct Ht as [_ Ht].
    apply negb_true_iff in Ht. exact Ht.
Qed.

End ShapeFacts.

(* ================================================================== *)
(** * The start of the closed walk *)
(* ================================================================== *)

Module ExactWalk.

Import ExactFacts ExactGeometry ExactMoves.

Local Open Scope Q_scope.

Lemma lex_le_refl (p : @Position Exact.rational) : lex_le p p.
Proof. right. split; [reflexivity | apply Qle_refl]. Qed.

Lemma lex_le_trans (p q r : @Position Exact.rational) :
  lex_le p q -> lex_le q r -> lex_le p r.
Proof.
  unfold lex_le. intros [H1 | [H1 H1']] [H2 | [H2 H2']].
  - left. lra.
  - left. lra.
  - left. lra.
  - right. split; lra.
Qed.

Lemma eqb_eq (a b : Q) : @n_eqb Exact.rational a b = true <-> a == b.
Proof. apply Qeq_bool_iff. Qed.

(** One step of the search for the leftmost record. *)
Lemma leftmost_step (s : @VertexStore Exact.rational) (m x : nat) :
  let r :=
    (let m1 :=
       if @n_eqb Exact.rational (fst (position (deref s x))) (fst (position (deref s m)))
       then
         if @n_ltb Exact.rational (snd (position (deref s x)))
                   (snd (position (deref s m)))
         then x else m
       else m in
     if @n_ltb Exact.rational (fst (position (deref s x)))
               (fst (position (deref s m1)))
     then x else m1) in
  lex_le (position (deref s r)) (position (deref s m)) /\
  lex_le (position (deref s r)) (position (deref s x)).
Proof.
  cbv zeta. unfold lex_le.
  destruct (@n_eqb Exact.rational (fst (position (deref s x)))
                   (fst (position (deref s m)))) eqn:E.
  - apply eqb_eq in E.
    destruct (@n_ltb Exact.rational (snd (position (deref s x)))
                     (snd (position (deref s m)))) eqn:F.
    + apply ltb_lt in F.
      destruct (@n_ltb Exact.rational (fst (position (deref s x)))
                       (fst (position (deref s x)))) eqn:G.
      * apply ltb_lt in G. lra.
      * split; right; split; lra.
    + apply ltb_ge in F.
      destruct (@n_ltb Exact.rational (fst (position (deref s x)))
                       (fst (position (deref s m)))) eqn:G.
      * apply ltb_lt in G. lra.
      * split; right; split; lra.
  - assert (Hne : ~ fst (position (deref s x)) == fst (position (deref s m))).
    { intro H. apply eqb_eq in H. congruence. }
    destruct (@n_ltb Exact.rational (fst (position (deref s x)))
                     (fst (position (deref s m)))) eqn:G.
    + apply ltb_lt in G. split; [left; lra | right; split; lra].
    + apply ltb_ge in G. split; [right; split; lra |]. left.
      destruct (Q_dec (fst (position (deref s m))) (fst (position (deref s x))))
        as [[H | H] | H]; [exact H | lra |].
      exfalso. apply Hne. symmetry. exact H.
Qed.

(** In exact arithmetic the walk starts at a leftmost record of the
    component, the lowest one among these. *)
Lemma leftmost_least (s : @VertexStore Exact.rational) (component : list nat)
      (first : nat) :
  lex_le (position (deref s (leftmost s component first))) (position (deref s first)) /\
  forall v, In v component ->
            lex_le (position (deref s (leftmost s component first)))
                   (position (deref s v)).
Proof.
  unfold leftmost. revert first.
  induction component as [| x l IH]; intro m; cbn [fold_left].
  - split; [apply lex_le_refl | intros v []].
  - pose proof (leftmost_step s m x) as St. cbv zeta in St. destruct St as [S1 S2].
    match goal with
    | |- context [fold_left ?f l ?m'] => destruct (IH m') as [I1 I2]
    end.
    split.
    + eapply lex_le_trans; [exact I1 | exact S1].
    + intros v [<- | Hv]; [| apply I2; exact Hv].
      eapply lex_le_trans; [exact I1 | exact S2].
Qed.

End ExactWalk.

(* ================================================================== *)
(** * Further properties of the code *)
(* ================================================================== *)

(** ** The validator *)

(** X1.  [validateInputs] accepts an input exactly when there is a position
    and an edge, no two positions print alike, no coordinate is negative, no
    ordered pair occurs twice among the edges, and both endpoints of every
    edge are indices of the position list. *)
Theorem validateInputs_accepts_iff {N : Num} (positions : InputNodes)
        (edges : InputEdges) :
  validateInputs positions edges = None <->
  positions <> [] /\ edges <> [] /\
  same_position_present positions = false /\
  (forall p, In p positions -> negative_coordinate p = false) /\
  NoDup edges /\
  (forall e, In e edges -> node_index positions (fst e) /\ node_index positions (snd e)).
Proof. apply validateInputs_accepts. Qed.

(** ** The geometry kernel *)

(** X3.  [getLinePath] pairs every point with the next one, and the last
    point with the first: the segments close the polygon. *)
Theorem getLinePath_closes_polygon {N : Num} (points : list Position) :
  getLinePath points = combine points (tl points ++ firstn 1 points).
Proof. apply getLinePath_cyclic. Qed.





(** X7.  [getMaxX] returns the largest of -1 and the abscissas of the
    points (exact arithmetic): it is at least -1 and at least every
    abscissa, and it is -1 or the abscissa of one of the points. *)
Theorem getMaxX_is_maximum (l : list (@Position Exact.rational)) :
  (-1 <= getMaxX l)%Q /\
  (forall p, In p l -> (fst p <= getMaxX l)%Q) /\
  (getMaxX l = inject_Z (-1) \/ exists p, In p l /\ getMaxX l = fst p).
Proof. apply ExactMoves.getMaxX_spec. Qed.

(** X8.  [intersect] does not depend on the order of the two segments. *)
Theorem intersect_symmetric {N : Num} (p1 q1 p2 q2 : Position) :
  intersect p1 q1 p2 q2 = intersect p2 q2 p1 q1.
Proof. apply intersect_sym. Qed.






(** ** The area tree *)



(** X13.  When [discover] returns a forest, [getAreaTree] returns a tree in
    which every non-empty cycle of the forest is the polygon of exactly one
    [CHILD] node: the polygons of the tree are a permutation of the
    flattened cycles. *)
Theorem area_tree_one_node_per_face {N : Num} (fuel : nat) (nodes : InputNodes)
        (edges : InputEdges) (forest : CycleTreeForest) (s' : VertexStore) :
  discover fuel nodes edges [] = Returned (RESULT forest, s') ->
  exists t, getAreaTree fuel nodes edges = Returned t /\
            Permutation (tree_polygons t) (getCyclesFromCycleForest forest).
Proof. apply getAreaTree_polygons. Qed.

Lemma area_tree_one_node_per_face_witness :
  exists t,
    getAreaTree 100 Inputs.nested_nodes Inputs.nested_edges = Returned t /\
    Permutation
      (tree_polygons t)
      (getCyclesFromCycleForest
         (result_forest (discover 100 Inputs.nested_nodes Inputs.nested_edges []))).
Proof.
  apply (area_tree_one_node_per_face 100 Inputs.nested_nodes Inputs.nested_edges
           (result_forest (discover 100 Inputs.nested_nodes Inputs.nested_edges []))
           (final_store (discover 100 Inputs.nested_nodes Inputs.nested_edges []))).
  apply result_returned. vm_compute. reflexivity.
Defined.

(** X14.  In exact arithmetic no node of the tree [getAreaTree] returns has
    a direct child with a larger total area than its own. *)
Theorem area_tree_children_smaller (fuel : nat) (nodes : @InputNodes Exact.rational)
        (edges : InputEdges) (t : @AreaTree Exact.rational) :
  getAreaTree fuel nodes edges = Returned t -> all_nodes children_smaller_exact t.
Proof. apply getAreaTree_smaller. Qed.

Lemma area_tree_children_smaller_witness :
  all_nodes children_smaller_exact
            (returned_or (AreaTreeRoot [])
                         (getAreaTree 40 Samples.boxed_nodes Samples.boxed_edges)).
Proof.
  apply (area_tree_children_smaller 40 Samples.boxed_nodes Samples.boxed_edges).
  apply returned_or_returned. vm_compute. reflexivity.
Defined.

(** ** The engine *)

(** X15.  [depthFirstSearch], started on an unvisited record of an arena
    whose references are valid, returns as soon as the fuel is twice the
    size of the arena plus two.  The component it returns holds, each once,
    exactly the records reached from the start along adjacent records that
    were unvisited; these carry the mark 2 afterwards, the other marks and
    all adjacency sets, names and positions are unchanged. *)
Theorem depthFirstSearch_returns_reachable {N : Num} (s : VertexStore) (v fuel : nat) :
  well_formed s -> (v < length s)%nat -> visited (deref s v) = 0%nat ->
  (2 * length s + 2 <= fuel)%nat ->
  exists component s',
    depthFirstSearch fuel v [] s = Returned (component, s') /\
    NoDup component /\
    (forall x, In x component <-> white_path s v x) /\
    same_graph s s' /\
    (forall x, In x component -> visited (deref s' x) = 2%nat) /\
    (forall x, ~ In x component -> visited (deref s' x) = visited (deref s x)).
Proof. intros Hwf Hv H0 Hfuel. apply depthFirstSearch_run; assumption. Qed.

Lemma depthFirstSearch_returns_reachable_witness :
  exists component s',
    depthFirstSearch 10 0 [] Inputs.kettle_store = Returned (component, s') /\
    NoDup component /\
    (forall x, In x component <-> white_path Inputs.kettle_store 0 x) /\
    same_graph Inputs.kettle_store s' /\
    (forall x, In x component -> visited (deref s' x) = 2%nat) /\
    (forall x, ~ In x component ->
               visited (deref s' x) = visited (deref Inputs.kettle_store x)).
Proof.
  apply depthFirstSearch_returns_reachable.
  - intros [| [| [| [| [| i]]]]] j; simpl; intuition lia.
  - simpl. lia.
  - reflexivity.
  - simpl. lia.
Defined.

(** X16.  [getClockwiseMost] returns [null] exactly when [vCurr] has no
    adjacent record other than [vPrev]; a record it returns is adjacent to
    [vCurr] and is not [vPrev]. *)
Theorem getClockwiseMost_finds_neighbour {N : Num} (s : VertexStore)
        (vPrev : option nat) (vCurr : nat) :
  (getClockwiseMost s vPrev vCurr = None <->
   forall a, In a (adj s vCurr) -> vPrev = Some a) /\
  (forall x, getClockwiseMost s vPrev vCurr = Some x ->
             In x (adj s vCurr) /\ vPrev <> Some x).
Proof. apply getClockwiseMost_result. Qed.

(** X17.  [getCounterClockwiseMost] returns [null] exactly when [vCurr] has
    no adjacent record other than [vPrev]; a record it returns is adjacent
    to [vCurr] and is not [vPrev]. *)
Theorem getCounterClockwiseMost_finds_neighbour {N : Num} (s : VertexStore)
        (vPrev : option nat) (vCurr : nat) :
  (getCounterClockwiseMost s vPrev vCurr = None <->
   forall a, In a (adj s vCurr) -> vPrev = Some a) /\
  (forall x, getCounterClockwiseMost s vPrev vCurr = Some x ->
             In x (adj s vCurr) /\ vPrev <> Some x).
Proof. apply getCounterClockwiseMost_result. Qed.

(** X18.  [removeFilaments] returns, for every component and every arena,
    as soon as the fuel exceeds the number of entries of the adjacency
    sets: its walks end and nothing throws.  It adds no adjacency entry,
    and the component it leaves is part of the one it was given. *)
Theorem removeFilaments_terminates {N : Num} (fuel : nat) (component : list nat)
        (s : VertexStore) :
  (total_degree s < fuel)%nat ->
  exists component' s',
    removeFilaments fuel component s = Returned (component', s') /\
    (total_degree s' <= total_degree s)%nat /\
    incl component' component.
Proof. apply removeFilaments_total. Qed.

Lemma removeFilaments_terminates_witness :
  exists component' s',
    removeFilaments 10 [0; 1; 2; 3]%nat Inputs.kettle_store = Returned (component', s') /\
    (total_degree s' <= total_degree Inputs.kettle_store)%nat /\
    incl component' [0; 1; 2; 3]%nat.
Proof.
  apply removeFilaments_terminates. vm_compute. lia.
Defined.

(** X19.  When [extractCycle] returns, the cycle is the sequence of the
    names of the walk, the edge between the first two records of the walk
    is deleted in both directions, and no adjacency set has gained a
    record. *)
Theorem extractCycle_removes_first_edge {N : Num} (fuel : nat) (closedWalk : list nat)
        (s : VertexStore) (c : list Z) (s' : VertexStore) (v0 v1 : nat) :
  extractCycle fuel closedWalk s = Returned (c, s') ->
  nth_error closedWalk 0 = Some v0 -> nth_error closedWalk 1 = Some v1 ->
  c = map (fun v => name (deref s v)) closedWalk /\
  ~ In v1 (adj s' v0) /\ ~ In v0 (adj s' v1) /\
  forall i, incl (adj s' i) (adj s i).
Proof.
  intros H H0 H1.
  destruct (extractCycle_first_edge fuel closedWalk s c s' v0 v1 H H0 H1) as [A B].
  destruct (extractCycle_spec fuel closedWalk s c s' H) as [C [[_ P] _]].
  refine (conj C (conj A (conj B _))). intro i. apply P.
Qed.

Lemma extractCycle_removes_first_edge_witness :
  result_value [] (extractCycle 10 [0; 1; 2; 0]%nat Inputs.kettle_store) =
    map (fun v => name (deref Inputs.kettle_store v)) [0; 1; 2; 0]%nat /\
  ~ In 1%nat (adj (final_store (extractCycle 10 [0; 1; 2; 0]%nat Inputs.kettle_store)) 0) /\
  ~ In 0%nat (adj (final_store (extractCycle 10 [0; 1; 2; 0]%nat Inputs.kettle_store)) 1) /\
  forall i, incl (adj (final_store (extractCycle 10 [0; 1; 2; 0]%nat Inputs.kettle_store)) i)
                 (adj Inputs.kettle_store i).
Proof.
  apply (extractCycle_removes_first_edge 10 [0; 1; 2; 0]%nat Inputs.kettle_store).
  - apply value_returned. vm_compute. reflexivity.
  - reflexivity.
  - reflexivity.
Defined.

(** X20.  The loop that opens [extractCycleFromClosedWalk] ends on every
    closed walk when the fuel is at least twice the length of the walk, and
    it turns the walk into a closed walk over the same start whose inner
    records are pairwise distinct, are records of the walk it was given,
    and begin with the same record. *)
Theorem closed_walk_simplification (fuel : nat) (vStart : nat) (mid : list nat) :
  (2 * length mid + 4 <= fuel)%nat ->
  exists walk' detachments mid',
    simplify_loop fuel (vStart :: mid ++ [vStart]) dup_empty [] 1 =
      Returned (walk', detachments) /\
    walk' = vStart :: mid' ++ [vStart] /\
    incl mid' mid /\ NoDup mid' /\ hd_error mid' = hd_error mid.
Proof. apply simplify_loop_entry_total. Qed.

Lemma closed_walk_simplification_witness :
  exists walk' detachments mid',
    simplify_loop 20 (0 :: [1; 2; 1; 3] ++ [0])%nat dup_empty [] 1 =
      Returned (walk', detachments) /\
    walk' = (0 :: mid' ++ [0])%nat /\
    incl mid' [1; 2; 1; 3]%nat /\ NoDup mid' /\
    hd_error mid' = hd_error [1; 2; 1; 3]%nat.
Proof.
  apply (closed_walk_simplification 20 0 [1; 2; 1; 3]%nat).
  simpl. lia.
Defined.

(** X21.  Every name of every cycle of the forest [discover] returns on a
    fresh instance is an endpoint of an edge of the input. *)
Theorem cycle_names_are_endpoints {N : Num} (fuel : nat) (positions : InputNodes)
        (edges : InputEdges) (forest : CycleTreeForest) (s' : VertexStore) :
  discover fuel positions edges [] = Returned (RESULT forest, s') ->
  forall c nm, In c (forest_cycles forest) -> In nm c ->
               exists e, In e edges /\ (nm = fst e \/ nm = snd e).
Proof.
  intros H c nm Hc Hnm. unfold forest_cycles in Hc. apply in_flat_map in Hc.
  destruct Hc as (t & Ht & Hc). eapply discover_names; eauto.
Qed.

Lemma cycle_names_are_endpoints_witness :
  exists e, In e Inputs.triangle_edges /\ (2%Z = fst e \/ 2%Z = snd e).
Proof.
  apply (cycle_names_are_endpoints 20 Inputs.triangle_nodes Inputs.triangle_edges
           (result_forest (discover 20 Inputs.triangle_nodes Inputs.triangle_edges []))
           (final_store (discover 20 Inputs.triangle_nodes Inputs.triangle_edges [])))
    with (c := [0; 1; 2; 0]%Z).
  - apply result_returned. vm_compute. reflexivity.
  - vm_compute. left. reflexivity.
  - right. right. left. reflexivity.
Defined.

(** X22.  The component loop of [discover], run on an arena whose references
    are valid, whose adjacency is symmetric and whose records are all
    unvisited, returns as soon as the fuel is twice the size of the arena
    plus two.  Every record of the arena is in exactly one of the components
    it returns; every component is closed under adjacency, and all its
    records are reached from one record along adjacent records: the
    components are the connected components of the graph. *)
Theorem components_partition_the_store {N : Num} (fuel : nat) (s : VertexStore) :
  well_formed s -> symmetric s ->
  (forall i, (i < length s)%nat -> visited (deref s i) = 0%nat) ->
  (2 * length s + 2 <= fuel)%nat ->
  exists components s',
    find_components fuel (seq 0 (length s)) [] s = Returned (components, s') /\
    same_graph s s' /\
    Permutation (concat components) (seq 0 (length s)) /\
    (forall c x y, In c components -> In x c -> In y (adj s x) -> In y c) /\
    (forall c, In c components -> exists v, forall x, In x c -> connected s v x).
Proof. apply find_components_partition. Qed.

Lemma components_partition_the_store_witness :
  exists components s',
    find_components 10 (seq 0 (length Inputs.kettle_store)) [] Inputs.kettle_store =
      Returned (components, s') /\
    same_graph Inputs.kettle_store s' /\
    Permutation (concat components) (seq 0 (length Inputs.kettle_store)) /\
    (forall c x y, In c components -> In x c -> In y (adj Inputs.kettle_store x) ->
                   In y c) /\
    (forall c, In c components ->
               exists v, forall x, In x c -> connected Inputs.kettle_store v x).
Proof.
  apply components_partition_the_store.
  - intros [| [| [| [| [| i]]]]] j; simpl; intuition lia.
  - intros [| [| [| [| [| i]]]]] j; simpl; intuition (subst; simpl; auto).
  - intros [| [| [| [| [| i]]]]] Hi; simpl in *; try reflexivity; lia.
  - simpl. lia.
Defined.

(** X23.  [getPolygonArea] returns an area when every name of the polygon,
    the closing one apart, is an index of the node list, and it throws when
    one of these names is not (a point would be [undefined]). *)
Theorem getPolygonArea_throws_out_of_range {N : Num} (nodes : InputNodes)
        (polygon : InputPolygon) :
  ((forall nm, In nm (firstn (length (edges polygon) - 1) (edges polygon)) ->
               node_index nodes nm) ->
   exists a, getPolygonArea nodes polygon = Returned a) /\
  ((exists nm, In nm (firstn (length (edges polygon) - 1) (edges polygon)) /\
               ~ node_index nodes nm) ->
   getPolygonArea nodes polygon = Threw).
Proof. apply getPolygonArea_defined. Qed.

(** X24.  After [discover] has returned a forest on a fresh instance, the
    vertex store starts with one record for each distinct endpoint of the
    edges, in the order in which the endpoints first appear in the edge
    list: no name twice, every endpoint once. *)
Theorem discover_creates_one_record_per_endpoint {N : Num} (fuel : nat)
        (positions : InputNodes) (links : InputEdges) (forest : CycleTreeForest)
        (s' : VertexStore) :
  discover fuel positions links [] = Returned (RESULT forest, s') ->
  NoDup (unique_names links []) /\
  (forall nm, In nm (unique_names links []) <->
              exists e, In e links /\ (nm = fst e \/ nm = snd e)) /\
  (length (unique_names links []) <= length s')%nat /\
  (forall k, (k < length (unique_names links []))%nat ->
             name (deref s' k) = nth k (unique_names links []) 0%Z).
Proof. apply discover_records. Qed.

Lemma discover_creates_one_record_per_endpoint_witness :
  NoDup (unique_names Inputs.triangle_edges []) /\
  (forall nm, In nm (unique_names Inputs.triangle_edges []) <->
              exists e, In e Inputs.triangle_edges /\ (nm = fst e \/ nm = snd e)) /\
  (length (unique_names Inputs.triangle_edges []) <=
   length (final_store (discover 20 Inputs.triangle_nodes Inputs.triangle_edges [])))%nat /\
  (forall k, (k < length (unique_names Inputs.triangle_edges []))%nat ->
             name (deref (final_store
                            (discover 20 Inputs.triangle_nodes Inputs.triangle_edges [])) k)
             = nth k (unique_names Inputs.triangle_edges []) 0%Z).
Proof.
  apply (discover_creates_one_record_per_endpoint 20 Inputs.triangle_nodes
           Inputs.triangle_edges
           (result_forest (discover 20 Inputs.triangle_nodes Inputs.triangle_edges []))).
  apply result_returned. vm_compute. reflexivity.
Defined.

(** X25.  In the forest [discover] returns no tree is empty, and no node of
    any tree has an empty cycle together with exactly one child: such a
    node is always replaced by its child. *)
Theorem forest_has_no_useless_node {N : Num} (fuel : nat) (positions : InputNodes)
        (links : InputEdges) (s : VertexStore) (forest : CycleTreeForest)
        (s' : VertexStore) :
  discover fuel positions links s = Returned (RESULT forest, s') ->
  Forall shaped forest /\ Forall (fun t => isEmpty t = false) forest.
Proof. apply discover_shaped. Qed.

Lemma forest_has_no_useless_node_witness :
  Forall shaped
         (result_forest (discover 20 Inputs.triangle_nodes Inputs.triangle_edges [])) /\
  Forall (fun t => isEmpty t = false)
         (result_forest (discover 20 Inputs.triangle_nodes Inputs.triangle_edges [])).
Proof.
  apply (forest_has_no_useless_node 20 Inputs.triangle_nodes Inputs.triangle_edges []
           (result_forest (discover 20 Inputs.triangle_nodes Inputs.triangle_edges []))
           (final_store (discover 20 Inputs.triangle_nodes Inputs.triangle_edges []))).
  apply result_returned. vm_compute. reflexivity.
Defined.

(** X26.  In exact arithmetic the record at which [extractCycleFromComponent]
    starts its walk is a record of the component that is leftmost, and
    lowest among the leftmost ones: no record of the component lies left of
    it, or at the same abscissa below it. *)
Theorem closed_walk_starts_leftmost (s : @VertexStore Exact.rational)
        (component : list nat) (first : nat) :
  In (leftmost s component first) (first :: component) /\
  lex_le (position (deref s (leftmost s component first))) (position (deref s first)) /\
  forall v, In v component ->
            lex_le (position (deref s (leftmost s component first)))
                   (position (deref s v)).
Proof.
  split; [apply leftmost_in | apply ExactWalk.leftmost_least].
Qed.

(* ================================================================== *)
(** * Marks are never taken back during the extraction *)
(* ================================================================== *)

Section GrowingMarks.

Context {N : Num}.

Lemma marks_grow_refl (s : VertexStore) : marks_grow s s.
Proof. intros i H. exact H. Qed.

Lemma marks_grow_trans (s1 s2 s3 : VertexStore) :
  marks_grow s1 s2 -> marks_grow s2 s3 -> marks_grow s1 s3.
Proof. intros H1 H2 i H. apply H2, H1, H. Qed.

Lemma same_marks_grow (s s' : VertexStore) : same_marks s s' -> marks_grow s s'.
Proof. intros [_ V] i H. rewrite V. exact H. Qed.

Lemma push_grow (s : VertexStore) (x : Vertex) : marks_grow s (s ++ [x]).
Proof.
  intros i H. destruct (Nat.lt_ge_cases i (length s)) as [Lt | Ge].
  - rewrite deref_push_old by exact Lt. exact H.
  - rewrite deref_out_of_range in H by exact Ge. contradiction.
Qed.

Lemma set_visited_grow (s : VertexStore) (v b : nat) :
  b <> 0%nat -> marks_grow s (set_visited v b s).
Proof.
  intros Hb i H. rewrite visited_set_visited.
  destruct (Nat.eqb i v && (v <? length s)%nat); auto.
Qed.

Lemma depthFirstSearch_loop_grow (fuel : nat) :
  forall vStack component s component' s',
    depthFirstSearch_loop fuel vStack component s = Returned (component', s') ->
    marks_grow s s'.
Proof.
  induction fuel as [| fuel IH]; intros vStack component s component' s' H;
    [discriminate |].
  destruct vStack as [| vertex below].
  - cbn [depthFirstSearch_loop] in H. minv. apply marks_grow_refl.
  - rewrite depthFirstSearch_loop_step in H.
    destruct (find _ _).
    + apply IH in H. eapply marks_grow_trans; [| exact H].
      apply set_visited_grow. discriminate.
    + apply IH in H. eapply marks_grow_trans; [| exact H].
      eapply marks_grow_trans; apply set_visited_grow; discriminate.
Qed.

Lemma depthFirstSearch_grow (fuel : nat) (v : nat) (s : VertexStore)
      (component : list nat) (s' : VertexStore) :
  depthFirstSearch fuel v [] s = Returned (component, s') -> marks_grow s s'.
Proof. apply depthFirstSearch_loop_grow. Qed.

(** A record that shares its name with a later one was unvisited before
    when it is unvisited in the end. *)
Lemma clones_apart_back (s s' : VertexStore) :
  later s s' -> marks_grow s s' -> clones_apart s' -> clones_apart s.
Proof.
  intros [L F] G C i j Hij E.
  destruct (Nat.eq_dec (visited (deref s i)) 0) as [Z | NZ]; [exact Z |].
  exfalso. apply (G i) in NZ. apply NZ. apply (C i j); [lia |].
  destruct (F i) as [-> _]; [lia |]. destruct (F j) as [-> _]; [lia |]. exact E.
Qed.

Lemma clones_apartb_spec (s : VertexStore) : clones_apartb s = true -> clones_apart s.
Proof.
  induction s as [| v rest IH]; intros H i j Hij E; [simpl in Hij; lia |].
  cbn [clones_apartb] in H. apply andb_true_iff in H. destruct H as [H1 H2].
  destruct i as [| i].
  - destruct j as [| j]; [lia |]. unfold deref in *. cbn [nth] in *.
    apply orb_true_iff in H1. destruct H1 as [H1 | H1].
    + exfalso. apply negb_true_iff in H1.
      assert (Ht : existsb (fun w => Z.eqb (name w) (name v)) rest = true).
      { apply existsb_exists. exists (nth j rest no_vertex). split.
        - apply nth_In. simpl in Hij. lia.
        - apply Z.eqb_eq. symmetry. exact E. }
      congruence.
    + apply Nat.eqb_eq. exact H1.
  - destruct j as [| j]; [lia |]. unfold deref in *. cbn [nth] in *.
    apply (IH H2 i j); [simpl in Hij; lia | exact E].
Qed.

Section WithGrowingRecursion.

Variable rec : list nat -> M CycleTree.
Variable fuel : nat.
Hypothesis Hg : grow_contract rec.

Lemma clone_marks_grow (nm : Z) (pos : Position) (s s2 s3 s4 : VertexStore)
      (component : list nat) (child : CycleTree) :
  same_marks (s ++ [{| name := nm; position := pos; adjacent := []; visited := 0 |}]) s2 ->
  depthFirstSearch fuel (length s) [] s2 = Returned (component, s3) ->
  rec component s3 = Returned (child, s4) ->
  marks_grow s s4.
Proof.
  intros M D R.
  eapply marks_grow_trans; [apply push_grow |].
  eapply marks_grow_trans; [apply same_marks_grow; exact M |].
  eapply marks_grow_trans; [eapply depthFirstSearch_grow; exact D |].
  eapply Hg; exact R.
Qed.

Lemma detach_grow (closedWalk : list nat) (i : nat) (s : VertexStore)
      (pushed : list CycleTree) (s' : VertexStore) :
  detach rec fuel closedWalk i s = Returned (pushed, s') -> marks_grow s s'.
Proof.
  unfold detach. intro H. minv.
  match type of H with
  | (if (0 <? length ?w)%nat then _ else _) _ = _ => set (inWedge := w) in *
  end.
  destruct (0 <? length inWedge)%nat.
  - minv.
    match goal with
    | Hf : forEach _ _ _ = Returned (_, ?sa),
      Hd : depthFirstSearch _ _ _ ?sa = Returned (?comp, ?sb),
      Hr : rec ?comp ?sb = Returned (?child, ?sc) |- _ =>
        apply reattach_all_marks in Hf;
        exact (clone_marks_grow _ _ _ _ _ _ _ _ Hf Hd Hr)
    end.
  - minv. apply marks_grow_refl.
Qed.

Lemma detach_all_grow (closedWalk : list nat) :
  forall detachments children s children' s',
    detach_all rec fuel closedWalk detachments children s = Returned (children', s') ->
    marks_grow s s'.
Proof.
  induction detachments as [| i rest IH]; intros children s children' s' H;
    cbn [detach_all] in H.
  - minv. apply marks_grow_refl.
  - apply mbind_returned in H. destruct H as (pushed & s1 & Hd & H).
    apply detach_grow in Hd. apply IH in H. eapply marks_grow_trans; eauto.
Qed.

Lemma extractCycleFromClosedWalk_grow (closedWalk : list nat) (s : VertexStore)
      (t : CycleTree) (s' : VertexStore) :
  extractCycleFromClosedWalk rec fuel closedWalk s = Returned (t, s') -> marks_grow s s'.
Proof.
  unfold extractCycleFromClosedWalk. intro H.
  apply mbind_returned in H. destruct H as ([walk' detachments] & s0 & Hs & H).
  apply lift_returned in Hs. destruct Hs as [_ ->].
  destruct (3 <? length walk')%nat.
  - minv.
    match goal with
    | Hd : detach_all _ _ _ _ _ _ = Returned (_, ?sa),
      He : extractCycle _ _ ?sa = Returned _ |- _ =>
        apply detach_all_grow in Hd; apply extractCycle_marks in He;
        eapply marks_grow_trans; [exact Hd | apply same_marks_grow; exact He]
    end.
  - minv.
    match goal with
    | Hf : reattach _ _ _ _ = Returned (_, ?sa),
      Hd : depthFirstSearch _ _ _ ?sa = Returned (?comp, ?sb),
      Hr : rec ?comp ?sb = Returned (?child, ?sc) |- _ =>
        apply reattach_marks in Hf;
        exact (clone_marks_grow _ _ _ _ _ _ _ _ Hf Hd Hr)
    end.
Qed.

Lemma extractCycleFromComponent_grow (component : list nat) (s : VertexStore)
      (r : CycleTree * list nat) (s' : VertexStore) :
  extractCycleFromComponent rec fuel component s = Returned (r, s') -> marks_grow s s'.
Proof.
  unfold extractCycleFromComponent. intro H.
  destruct component as [| first others]; [discriminate |].
  minv.
  match goal with
  | Hl : closedWalk_loop _ _ _ _ _ _ = Returned (_, ?sa),
    Hw : extractCycleFromClosedWalk _ _ _ ?sa = Returned _ |- _ =>
      apply closedWalk_loop_spec in Hl; destruct Hl as (-> & _);
      apply extractCycleFromClosedWalk_grow in Hw; exact Hw
  end.
Qed.

Lemma extractBasis_loop_grow (n : nat) :
  forall component children s children' s',
    extractBasis_loop rec fuel n component children s = Returned (children', s') ->
    marks_grow s s'.
Proof.
  induction n as [| n IH]; intros component children s children' s' H;
    cbn [extractBasis_loop] in H; [discriminate |].
  destruct (0 <? length component)%nat; [| minv; apply marks_grow_refl].
  apply mbind_returned in H. destruct H as (component1 & s1 & Hf & H).
  apply removeFilaments_marks in Hf. apply same_marks_grow in Hf.
  destruct (0 <? length component1)%nat.
  - apply mbind_returned in H. destruct H as ([tree component2] & s2 & Hx & H).
    apply extractCycleFromComponent_grow in Hx. apply IH in H.
    eauto using marks_grow_trans.
  - apply IH in H. eauto using marks_grow_trans.
Qed.

End WithGrowingRecursion.

Lemma extractBasis_grow (fuel : nat) : grow_contract (extractBasis fuel).
Proof.
  induction fuel as [| fuel IH]; intros component s t s' H;
    cbn [extractBasis] in H; [discriminate |].
  minv.
  match goal with
  | Hl : extractBasis_loop _ _ _ _ _ _ = Returned _ |- _ =>
      exact (extractBasis_loop_grow _ _ IH _ _ _ _ _ _ Hl)
  end.
Qed.

Lemma extract_all_grow (fuel : nat) :
  forall components forest s forest' s',
    extract_all fuel components forest s = Returned (forest', s') -> marks_grow s s'.
Proof.
  induction components as [| c rest IH]; intros forest s forest' s' H;
    cbn [extract_all] in H.
  - minv. apply marks_grow_refl.
  - apply mbind_returned in H. destruct H as (tree & s1 & Hb & H).
    apply extractBasis_grow in Hb. apply IH in H. eapply marks_grow_trans; eauto.
Qed.

End GrowingMarks.

(* ================================================================== *)
(** * The search, whenever it returns *)
(* ================================================================== *)

Section SearchReturned.

Context {N : Num}.

Lemma depthFirstSearch_loop_inv (s0 : VertexStore) (v : nat) (fuel : nat) :
  well_formed s0 ->
  forall vStack component s component' s',
    depthFirstSearch_loop fuel vStack component s = Returned (component', s') ->
    search_inv s0 v vStack component s ->
    search_inv s0 v [] component' s'.
Proof.
  intro W. induction fuel as [| fuel IH]; intros vStack component s component' s' H Hinv;
    [discriminate |].
  destruct vStack as [| vertex below].
  - cbn [depthFirstSearch_loop] in H. minv. exact Hinv.
  - rewrite depthFirstSearch_loop_step in H.
    destruct (find _ (adj (set_visited vertex 1 s) vertex)) as [a |] eqn:F.
    + apply find_some in F. destruct F as [Fin Fv]. apply Nat.eqb_eq in Fv.
      destruct (search_inv_push s0 v W _ _ _ _ _ Hinv Fin Fv) as [Hinv' _].
      eapply IH; eauto.
    + eapply IH; [exact H |].
      apply search_inv_pop; [exact Hinv |].
      intros y Hy. pose proof (find_none _ _ F y Hy) as Hn. cbv beta in Hn.
      apply Nat.eqb_neq in Hn. exact Hn.
Qed.

(** What [depthFirstSearch] from an unvisited record has done when it
    returns: the component holds the records reached along unvisited
    records, each of them once; these carry the mark 2 afterwards, the
    marks of all other records and all adjacency sets are unchanged. *)
Lemma depthFirstSearch_returned (fuel : nat) (v : nat) (s0 : VertexStore)
      (component : list nat) (s' : VertexStore) :
  well_formed s0 -> (v < length s0)%nat -> visited (deref s0 v) = 0%nat ->
  depthFirstSearch fuel v [] s0 = Returned (component, s') ->
  NoDup component /\
  (forall x, In x component <-> white_path s0 v x) /\
  same_graph s0 s' /\
  (forall x, In x component -> visited (deref s' x) = 2%nat) /\
  (forall x, ~ In x component -> visited (deref s' x) = visited (deref s0 x)).
Proof.
  intros W Hv H0 Hrun. unfold depthFirstSearch in Hrun.
  pose proof (depthFirstSearch_loop_inv s0 v fuel W _ _ _ _ _ Hrun
                (search_inv_start s0 v Hv H0)) as Hinv.
  pose proof Hinv as (G & J1 & Ns & Nc & J2 & J2b & J3).
  assert (Hin : In v component).
  { apply depthFirstSearch_loop_spec in Hrun. destruct Hrun as (_ & _ & I2 & _).
    apply I2. left. reflexivity. }
  refine (conj Nc (conj _ (conj G (conj _ _)))).
  - intro x. split.
    + intro Hx. apply J3. exact Hx.
    + intro Hx. eapply search_inv_closed; eauto.
  - intros x Hx. apply J3. exact Hx.
  - intros x Hx. apply J1; auto.
Qed.

(** The component loop of [discover], whenever it returns. *)
Lemma find_components_returned (fuel : nat) :
  forall vertices components s components' s',
    find_components fuel vertices components s = Returned (components', s') ->
    well_formed s -> symmetric s -> components_ok s components ->
    (forall v, In v vertices -> (v < length s)%nat) ->
    same_graph s s' /\ components_ok s' components'.
Proof.
  induction vertices as [| v rest IH]; intros components s components' s' H W Sy Ok Hr.
  - cbn [find_components] in H. minv. split; [apply same_graph_refl | exact Ok].
  - rewrite find_components_step in H.
    assert (Hv : (v < length s)%nat) by (apply Hr; left; reflexivity).
    destruct (Nat.eqb_spec (visited (deref s v)) 0) as [H0 | Hn].
    + destruct (depthFirstSearch fuel v [] s) as [[c s1] | |] eqn:D; try discriminate.
      destruct (depthFirstSearch_returned fuel v s c s1 W Hv H0 D)
        as (NDc & Hc & G & M2 & Mo).
      assert (L : length s1 = length s) by apply G.
      apply IH in H.
      * destruct H as [G' Ok']. split; [eapply same_graph_trans; eauto | exact Ok'].
      * eapply same_graph_well_formed; eauto.
      * eapply same_graph_symmetric; eauto.
      * eapply components_ok_search; eauto.
      * intros w Hw. rewrite L. apply Hr. right. exact Hw.
    + apply IH in H; auto. intros w Hw. apply Hr. right. exact Hw.
Qed.

End SearchReturned.

(* ================================================================== *)
(** * Where moved edges end *)
(* ================================================================== *)

Section MovedEdges.

Context {N : Num}.

Lemma In_adj_add (s : VertexStore) (a b i x : nat) :
  In x (adj (adjacent_add a b s) i) -> In x (adj s i) \/ (i = a /\ x = b).
Proof.
  destruct (Nat.lt_ge_cases a (length s)) as [Lt | Ge].
  - rewrite adj_adjacent_add by exact Lt.
    destruct (Nat.eqb_spec i a) as [-> | Hne]; [| auto].
    intro H. apply NatSetFacts.In_add in H. destruct H as [H | H]; auto.
  - unfold adjacent_add. rewrite update_out_of_range by exact Ge. auto.
Qed.

Lemma In_adj_delete (s : VertexStore) (a b i x : nat) :
  In x (adj (adjacent_delete a b s) i) -> In x (adj s i).
Proof.
  rewrite adj_adjacent_delete. destruct (Nat.eqb i a); [| auto].
  apply NatSetFacts.delete_incl.
Qed.

Lemma moved_to_refl (clone : nat) (moved : list nat) (s : VertexStore) :
  moved_to clone moved s s.
Proof. intros i x H. left. exact H. Qed.

Lemma moved_to_trans (clone : nat) (moved : list nat) (s1 s2 s3 : VertexStore) :
  moved_to clone moved s1 s2 -> moved_to clone moved s2 s3 -> moved_to clone moved s1 s3.
Proof.
  intros H1 H2 i x H. apply H2 in H. destruct H as [H | H]; [| auto].
  apply H1 in H. exact H.
Qed.

Lemma reattach_moved (original clone vertex : nat) (moved : list nat)
      (s : VertexStore) (u : unit) (s' : VertexStore) :
  In vertex moved ->
  reattach original clone vertex s = Returned (u, s') ->
  moved_to clone moved s s'.
Proof.
  intros Hin H. unfold reattach in H. minv. intros i x Hx.
  apply In_adj_add in Hx. destruct Hx as [Hx | [-> ->]]; [| auto].
  apply In_adj_add in Hx. destruct Hx as [Hx | [-> ->]]; [| auto].
  left. eapply In_adj_delete, In_adj_delete. exact Hx.
Qed.

Lemma reattach_all_moved (original clone : nat) (moved : list nat) :
  forall s u s',
    forEach moved (reattach original clone) s = Returned (u, s') ->
    moved_to clone moved s s'.
Proof.
  apply (forEach_spec (moved_to clone moved)).
  - apply moved_to_refl.
  - apply moved_to_trans.
  - intros x s u s' Hx. now apply reattach_moved.
Qed.

(** The walk of [extractCycleFromComponent] stays in a component that is
    closed under adjacency. *)
Lemma closedWalk_loop_within (component : list nat) (n : nat) (vStart : nat) :
  forall closedWalk vCurr vAdj s walk' s',
    closedWalk_loop n vStart closedWalk vCurr vAdj s = Returned (walk', s') ->
    closed_under_adj s component ->
    (forall a, vAdj = Some a -> In a component) ->
    (forall x, In x closedWalk -> In x component) ->
    forall x, In x walk' -> In x component.
Proof.
  induction n as [| n IH]; intros closedWalk vCurr vAdj s walk' s' H Hcl Ha Hw;
    cbn [closedWalk_loop] in H; [discriminate |].
  destruct vAdj as [a |]; [| discriminate].
  destruct (Nat.eqb_spec a vStart) as [-> | Hne].
  - minv. exact Hw.
  - minv. eapply IH; [exact H | exact Hcl | |].
    + intros b Hb. apply getCounterClockwiseMost_adjacent in Hb.
      eapply Hcl; [| exact Hb]. apply Ha. reflexivity.
    + intros x Hx. apply in_app_or in Hx. destruct Hx as [Hx | [<- | []]]; auto.
Qed.

(** The names of a closed walk without a repeated record, in a component
    where no two records carry the same name, form a simple cycle. *)
Lemma closed_walk_simple (s : VertexStore) (component : list nat) (vStart : nat)
      (mid : list nat) :
  names_apart s component ->
  (forall v, In v (vStart :: mid) -> In v component) ->
  ~ In vStart mid -> NoDup mid ->
  simple_cycle (map (fun v => name (deref s v)) (vStart :: mid ++ [vStart])).
Proof.
  intros Hna Hin Hn Hd. unfold simple_cycle.
  rewrite removelast_map.
  change (vStart :: mid ++ [vStart]) with ((vStart :: mid) ++ [vStart]).
  rewrite removelast_last. apply NoDup_map_on.
  - constructor; auto.
  - intros x y Hx Hy. apply Hna; auto.
Qed.

End MovedEdges.

(* ================================================================== *)
(** * Names along the extraction *)
(* ================================================================== *)

Section NameFacts.

Context {N : Num}.

Lemma outside_kept_refl (component : list nat) (s : VertexStore) :
  outside_kept component s s.
Proof. intros x _ _. split; [apply incl_refl | reflexivity]. Qed.

Lemma name_step_refl (component : list nat) (s : VertexStore) :
  name_step component s s.
Proof. split; [apply outside_kept_refl | intros _; apply same_marks_refl]. Qed.

Lemma name_step_trans (component : list nat) (s1 s2 s3 : VertexStore) :
  (length s1 <= length s2)%nat ->
  name_step component s1 s2 -> name_step component s2 s3 ->
  name_step component s1 s3.
Proof.
  intros L [O1 M1] [O2 M2]. split.
  - intros x Hx Hn. destruct (O1 x Hx Hn) as [I1 V1].
    destruct (O2 x ltac:(lia) Hn) as [I2 V2].
    split; [eapply incl_tran; eauto | congruence].
  - intro Hall. specialize (M1 Hall).
    eapply same_marks_trans; [exact M1 |]. apply M2.
    intros i Hi. destruct M1 as [_ V]. rewrite V. apply Hall. exact Hi.
Qed.

Lemma name_step_weaken (small component : list nat) (s s' : VertexStore) :
  incl small component ->
  name_step small s s' -> name_step component s s'.
Proof.
  intros Hi [O M]. split.
  - intros x Hx Hn. apply O; auto.
  - intro Hall. apply M. intros i Hin. apply Hall. apply Hi. exact Hin.
Qed.

(** A phase that only deletes edges keeps the invariant. *)
Lemma unlinked_name_inv (component : list nat) (s s' : VertexStore) :
  unlinked s s' -> same_marks s s' -> name_inv s component ->
  name_inv s' component /\ name_step component s s'.
Proof.
  intros U [Lm Vm] (Hok & Hr & Hcl & Hna & Hmode).
  pose proof U as [[L P] _].
  split.
  - refine (conj (unlinked_arena_ok _ _ _ U Hok) (conj _ (conj _ (conj _ _)))).
    + intros i Hi. rewrite L. auto.
    + intros x y Hx Hy. destruct (P x) as (I & _). eapply Hcl; eauto.
    + intros x y Hx Hy E. apply Hna; auto.
      destruct (P x) as (_ & Ex & _). destruct (P y) as (_ & Ey & _). congruence.
    + destruct Hmode as [Hvi | Hav]; [left | right].
      * intros i Hi Hv. rewrite Vm in Hv. specialize (Hvi i Hi Hv).
        destruct (P i) as (I & _). rewrite Hvi in I.
        destruct (adj s' i) as [| y l]; auto. exfalso. apply (I y). left. reflexivity.
      * intros i Hi. rewrite Vm. auto.
  - split.
    + intros x _ _. destruct (P x) as (I & _). split; [exact I | apply Vm].
    + intros _. split; auto.
Qed.

Lemma name_inv_smaller (small component : list nat) (s : VertexStore) :
  incl small component ->
  (forall x, In x component -> ~ In x small -> adj s x = []) ->
  name_inv s component -> name_inv s small.
Proof.
  intros Hi Hdrop (Hok & Hr & Hcl & Hna & Hmode).
  refine (conj Hok (conj _ (conj _ (conj _ _)))).
  - intros i Hin. auto.
  - intros x y Hx Hy.
    assert (Hyc : In y component) by (eapply Hcl; eauto).
    destruct (in_dec Nat.eq_dec y small) as [Hin | Hout]; [exact Hin |].
    exfalso. destruct Hok as (_ & Sy & _). apply Sy in Hy.
    rewrite (Hdrop y Hyc Hout) in Hy. contradiction.
  - intros x y Hx Hy. apply Hna; auto.
  - destruct Hmode as [Hvi | Hav]; [left | right]; intros i Hin; auto.
Qed.

Lemma simple_cycles_node (c : list Z) (ch : list CycleTree) :
  simple_cycle c -> Forall simple_cycles ch -> simple_cycles (Build_CycleTree c ch).
Proof.
  intros Hc Hch x Hx. rewrite tree_cycles_unfold in Hx. cbn [cycle children] in Hx.
  destruct Hx as [<- | Hx]; [exact Hc |].
  apply in_flat_map in Hx. destruct Hx as (t & Ht & Hx).
  rewrite Forall_forall in Hch. exact (Hch t Ht x Hx).
Qed.

Lemma simple_cycles_unwrap (t : CycleTree) : simple_cycles t -> simple_cycles (unwrap t).
Proof. intros H c Hc. apply H. apply unwrap_cycles. exact Hc. Qed.

Lemma simple_cycle_nil : simple_cycle [].
Proof. unfold simple_cycle. simpl. constructor. Qed.

Section WithNameRecursion.

Variable rec : list nat -> M CycleTree.
Variable fuel : nat.
Hypothesis Hrec : basis_contract (fun _ => True) rec.
Hypothesis Hg : grow_contract rec.
Hypothesis Hn : name_contract rec.

(** A detached sub-problem when no record of which a clone exists is
    visited in the end: the search from the clone has not reached the
    original, the records it has collected carry different names, and the
    rest of the component is as it was, but for the edges moved away. *)
Lemma detached_names (component : list nat) (original : nat) (moved : list nat)
      (s s2 s3 s4 : VertexStore) (found : list nat) (child : CycleTree) :
  name_inv s component ->
  In original component ->
  (forall x, In x moved -> In x (adj s original)) ->
  reattached (length s) moved
             (s ++ [{| name := name (deref s original);
                       position := position (deref s original);
                       adjacent := []; visited := 0 |}]) s2 ->
  moved_to (length s) moved
           (s ++ [{| name := name (deref s original);
                     position := position (deref s original);
                     adjacent := []; visited := 0 |}]) s2 ->
  same_marks (s ++ [{| name := name (deref s original);
                       position := position (deref s original);
                       adjacent := []; visited := 0 |}]) s2 ->
  depthFirstSearch fuel (length s) [] s2 = Returned (found, s3) ->
  rec found s3 = Returned (child, s4) ->
  clones_apart s4 ->
  name_inv s4 component /\ name_step component s s4 /\ simple_cycles child.
Proof.
  intros (Hok & Hr & Hcl & Hna & Hmode) Ho Hm R Mv Mk D C Hca.
  assert (Hol : (original < length s)%nat) by auto.
  destruct (detached_subproblem (fun _ => True) rec fuel original moved s s2 s3 s4
              found child Hrec Hok Hol Hm R D C) as (Hok4 & Sts & _).
  pose proof (clone_marks_grow rec fuel Hg _ _ _ _ _ _ _ _ Mk D C) as Gs.
  set (s1 := s ++ [{| name := name (deref s original);
                      position := position (deref s original);
                      adjacent := []; visited := 0 |}]) in *.
  assert (L1 : length s1 = S (length s)).
  { unfold s1. rewrite length_app. simpl. lia. }
  assert (Hok1 : arena_ok (fun _ => True) s1) by (apply push_arena_ok; auto).
  assert (Hmv : forall x, In x moved -> (x < length s)%nat).
  { intros x Hx. destruct Hok as (W & _). eapply W. apply Hm. exact Hx. }
  pose proof R as (L2 & F2 & I2 & W2 & Y2).
  assert (Hok2 : arena_ok (fun _ => True) s2).
  { destruct Hok1 as (W1 & Y1 & Nm1). refine (conj _ (conj _ _)).
    - apply W2; auto; [lia |]. intros x Hx. specialize (Hmv x Hx). lia.
    - apply Y2; auto; [lia |]. intros x Hx. specialize (Hmv x Hx). lia.
    - intros i Hi. exact I. }
  destruct Mk as [_ Mk].
  assert (V2 : forall i, (i < length s)%nat ->
                         visited (deref s2 i) = visited (deref s i)).
  { intros i Hi. rewrite Mk. unfold s1. rewrite deref_push_old by exact Hi. reflexivity. }
  assert (Vc : visited (deref s2 (length s)) = 0%nat).
  { rewrite Mk. unfold s1. rewrite deref_push_new. reflexivity. }
  assert (A1 : forall i, adj s1 i = adj s i) by (intro i; apply adj_push).
  destruct (depthFirstSearch_returned fuel (length s) s2 found s3)
    as (NDf & Hf & G & M2 & Mo); auto; [apply Hok2 | lia |].
  assert (Hok3 : arena_ok (fun _ => True) s3).
  { eapply unlinked_arena_ok; [apply same_graph_unlinked; eauto | exact Hok2]. }
  assert (L3 : length s3 = length s2) by apply G.
  assert (A3 : forall i, adj s3 i = adj s2 i) by (intro i; apply G).
  assert (La4 : later s s4) by apply Sts.
  assert (L4 : (length s3 <= length s4)%nat).
  { destruct (Hrec found s3 child s4) as (_ & ((L & _) & _) & _); auto.
    intros i Hi. rewrite L3. apply Hf in Hi.
    destruct (white_path_fresh s2 (length s) i) as [Hx _]; auto; [apply Hok2 | lia]. }
  (* the clone and the original carry the same name in the end *)
  assert (En : name (deref s4 (length s)) = name (deref s4 original)).
  { destruct La4 as [_ F4]. destruct (F4 original Hol) as [-> _].
    destruct (Hrec found s3 child s4) as (_ & ((_ & F34) & _) & _); auto.
    { intros i Hi. rewrite L3. apply Hf in Hi.
      destruct (white_path_fresh s2 (length s) i) as [Hx _]; auto; [apply Hok2 | lia]. }
    destruct (F34 (length s)) as [-> _]; [lia |].
    destruct G as [_ G]. destruct (G (length s)) as (_ & -> & _).
    destruct (F2 (length s)) as [-> _]. unfold s1. rewrite deref_push_new. reflexivity. }
  assert (Hunv : forall s', marks_grow s' s4 -> visited (deref s' original) = 0%nat).
  { intros s' G'. destruct (Nat.eq_dec (visited (deref s' original)) 0) as [Z | NZ]; auto.
    exfalso. apply (G' original) in NZ. apply NZ.
    apply (Hca original (length s)); [lia | symmetry; exact En]. }
  assert (Hsub : all_visited s component -> False).
  { intro Hav. apply (Hav original Ho). apply Hunv. exact Gs. }
  destruct Hmode as [Hvi | Hav]; [| contradiction (Hsub Hav)].
  (* adjacent records in [s2] *)
  assert (Hadj : forall x y, In x component -> In y (adj s2 x) ->
                             y = length s \/ In y component).
  { intros x y Hx Hy. apply Mv in Hy. destruct Hy as [Hy | [[E _] | [_ E]]].
    - right. rewrite A1 in Hy. eapply Hcl; eauto.
    - specialize (Hr x Hx). lia.
    - left. exact E. }
  assert (Hadjc : forall y, In y (adj s2 (length s)) -> In y component).
  { intros y Hy. apply Mv in Hy. destruct Hy as [Hy | [[_ Hy] | [Hy _]]].
    - rewrite A1 in Hy. rewrite adj_out_of_range in Hy by lia. contradiction.
    - eapply Hcl; [exact Ho | apply Hm; exact Hy].
    - specialize (Hmv _ Hy). lia. }
  assert (Hin : forall x, In x found -> x = length s \/ In x component).
  { intros x Hx. apply Hf in Hx. induction Hx as [| y x Hy IH Hxy Hv]; [auto |].
    destruct IH as [-> | IH]; [right; apply Hadjc; exact Hxy | eapply Hadj; eauto]. }
  assert (Hcf : In (length s) found) by (apply Hf; constructor).
  assert (Hof : ~ In original found).
  { intro Hx. apply M2 in Hx.
    assert (Hz : visited (deref s3 original) = 0%nat).
    { apply Hunv. eapply Hg. exact C. }
    congruence. }
  assert (Hrf : forall i, In i found -> (i < length s3)%nat).
  { intros i Hi. destruct (Hin i Hi) as [-> | Hc]; [lia |]. specialize (Hr i Hc). lia. }
  assert (Hinv3 : name_inv s3 found).
  { refine (conj Hok3 (conj Hrf (conj _ (conj _ _)))).
    - intros x y Hx Hy. rewrite A3 in Hy. apply Hf.
      destruct (Nat.eq_dec (visited (deref s2 y)) 0) as [Z | NZ].
      + eapply white_step; [apply Hf; exact Hx | exact Hy | exact Z].
      + exfalso.
        assert (Hyc : In y component).
        { destruct (Hin x Hx) as [-> | Hxc].
          - apply Hadjc. exact Hy.
          - destruct (Hadj x y Hxc Hy) as [-> | Hc]; [congruence | exact Hc]. }
        assert (Hyl : (y < length s)%nat) by auto.
        rewrite V2 in NZ by exact Hyl. specialize (Hvi y Hyc NZ).
        destruct Hok2 as (_ & Y2' & _). apply Y2' in Hy. apply Mv in Hy.
        destruct Hy as [Hy | [[E _] | [Hy _]]].
        * rewrite A1, Hvi in Hy. contradiction.
        * lia.
        * apply Hm in Hy. destruct Hok as (_ & Ys & _). apply Ys in Hy.
          rewrite Hvi in Hy. contradiction.
    - intros x y Hx Hy E.
      assert (Nm3 : forall i, (i < length s)%nat ->
                              name (deref s3 i) = name (deref s i)).
      { intros i Hi. destruct G as [_ G]. destruct (G i) as (_ & -> & _).
        destruct (F2 i) as [-> _]. unfold s1. rewrite deref_push_old by exact Hi.
        reflexivity. }
      assert (Nc3 : name (deref s3 (length s)) = name (deref s original)).
      { destruct G as [_ G]. destruct (G (length s)) as (_ & -> & _).
        destruct (F2 (length s)) as [-> _]. unfold s1. rewrite deref_push_new.
        reflexivity. }
      destruct (Hin x Hx) as [-> | Hxc]; destruct (Hin y Hy) as [-> | Hyc]; auto.
      * exfalso. apply Hof. rewrite Nc3, Nm3 in E by auto.
        rewrite (Hna original y Ho Hyc E). exact Hy.
      * exfalso. apply Hof. rewrite Nc3, Nm3 in E by auto.
        rewrite (Hna original x Ho Hxc (eq_sym E)). exact Hx.
      * rewrite !Nm3 in E by auto. apply Hna; auto.
    - right. intros i Hi. rewrite (M2 i Hi). discriminate. }
  assert (Hca' : clones_apart s4) by exact Hca.
  destruct (Hn found s3 child s4 C Hinv3 Hca') as (Hsimple & Ok34 & Ms34).
  assert (Sm34 : same_marks s3 s4).
  { apply Ms34. intros i Hi. rewrite (M2 i Hi). discriminate. }
  destruct (Hrec found s3 child s4 Hok3 Hrf C) as (_ & St34 & Hempty & _).
  refine (conj _ (conj _ Hsimple)).
  - refine (conj Hok4 (conj _ (conj _ (conj _ _)))).
    + intros i Hi. destruct La4 as [L _]. specialize (Hr i Hi). lia.
    + intros x y Hx Hy.
      destruct (in_dec Nat.eq_dec x found) as [Hxf | Hxf].
      { rewrite (Hempty x Hxf) in Hy. contradiction. }
      assert (Hxl : (x < length s3)%nat) by (specialize (Hr x Hx); lia).
      destruct (Ok34 x Hxl Hxf) as [I34 _].
      pose proof (I34 y Hy) as Hy3. rewrite A3 in Hy3.
      destruct (Hadj x y Hx Hy3) as [-> | Hc]; [| exact Hc].
      exfalso. destruct Hok4 as (_ & Y4 & _). apply Y4 in Hy.
      rewrite (Hempty _ Hcf) in Hy. contradiction.
    + intros x y Hx Hy E. apply Hna; auto.
      destruct La4 as [_ F4].
      destruct (F4 x (Hr x Hx)) as [Ex _]. destruct (F4 y (Hr y Hy)) as [Ey _].
      congruence.
    + left. intros i Hi Hv.
      destruct (in_dec Nat.eq_dec i found) as [Hif | Hif]; [apply Hempty; exact Hif |].
      destruct Sm34 as [_ V34]. rewrite V34, (Mo i Hif), V2 in Hv by auto.
      destruct Sts as (_ & Is & _). apply Is; auto.
  - split.
    + intros x Hx Hnc.
      assert (Hxf : ~ In x found).
      { intro Hf'. destruct (Hin x Hf') as [-> | Hc]; [lia | contradiction]. }
      destruct (Ok34 x ltac:(lia) Hxf) as [I34 V34]. split.
      * intros y Hy. apply I34 in Hy. rewrite A3 in Hy. apply Mv in Hy.
        destruct Hy as [Hy | [[E _] | [Hy _]]].
        -- rewrite A1 in Hy. exact Hy.
        -- lia.
        -- exfalso. apply Hnc. eapply Hcl; [exact Ho | apply Hm; exact Hy].
      * rewrite V34, (Mo x Hxf), V2 by auto. reflexivity.
    + intro Hav. contradiction (Hsub Hav).
Qed.

Lemma detach_names (component closedWalk : list nat) (i : nat) (s : VertexStore)
      (pushed : list CycleTree) (s' : VertexStore) :
  detach rec fuel closedWalk i s = Returned (pushed, s') ->
  name_inv s component ->
  (forall v, In v closedWalk -> In v component) ->
  clones_apart s' ->
  name_inv s' component /\ name_step component s s' /\ Forall simple_cycles pushed.
Proof.
  unfold detach. intros H Hinv Hval Hca. minv.
  rename a into original. rename a0 into maxVertex. rename a1 into minVertex.
  match type of H with
  | (if (0 <? length ?w)%nat then _ else _) _ = _ => set (inWedge := w) in *
  end.
  destruct (0 <? length inWedge)%nat.
  - minv.
    match goal with
    | Hf : forEach _ _ _ = Returned (_, ?sa),
      Hd : depthFirstSearch _ _ _ ?sa = Returned (?comp, ?sb),
      Hr : rec ?comp ?sb = Returned (?child, ?sc) |- _ =>
        pose proof (reattach_all_spec _ _ _ _ _ _ Hf) as R;
        pose proof (reattach_all_moved _ _ _ _ _ _ Hf) as Mv;
        pose proof (reattach_all_marks _ _ _ _ _ _ Hf) as Mk;
        destruct (detached_names component original inWedge s sa sb sc comp child)
          as (A & B & C); auto
    end.
    + apply Hval. eapply nth_error_In; eauto.
    + intros x Hx. unfold inWedge in Hx. apply filter_In in Hx. tauto.
  - minv. refine (conj Hinv (conj (name_step_refl _ _) _)). constructor.
Qed.

Lemma name_inv_range (component : list nat) (s : VertexStore) :
  name_inv s component -> forall v, In v component -> (v < length s)%nat.
Proof. intros (_ & Hr & _). exact Hr. Qed.

Lemma name_inv_arena (component : list nat) (s : VertexStore) :
  name_inv s component -> arena_ok (fun _ => True) s.
Proof. intros (Hok & _). exact Hok. Qed.

Lemma detach_all_names (component closedWalk : list nat) :
  forall detachments children s children' s',
    detach_all rec fuel closedWalk detachments children s = Returned (children', s') ->
    name_inv s component ->
    (forall v, In v closedWalk -> In v component) ->
    clones_apart s' ->
    Forall (cycles_ok s) children ->
    Forall simple_cycles children ->
    name_inv s' component /\ name_step component s s' /\ Forall simple_cycles children'.
Proof.
  induction detachments as [| i rest IH];
    intros children s children' s' H Hinv Hval Hca Hck Hch; cbn [detach_all] in H.
  - minv. refine (conj Hinv (conj (name_step_refl _ _) Hch)).
  - apply mbind_returned in H. destruct H as (pushed & s1 & Hd & H).
    assert (Hvr : forall v, In v closedWalk -> (v < length s)%nat).
    { intros v Hv. eapply name_inv_range; eauto. }
    destruct (detach_spec (fun _ => True) rec fuel Hrec _ _ _ _ _ Hd
                (name_inv_arena _ _ Hinv) Hvr) as (Hok1 & St1 & Hp).
    assert (L1 : (length s <= length s1)%nat) by (destruct St1 as ((L & _) & _); exact L).
    assert (Hck1 : Forall (cycles_ok s1) (children ++ pushed)).
    { apply Forall_app. split; auto.
      eapply Forall_cycles_ok_later; eauto. apply St1. }
    destruct (detach_all_spec (fun _ => True) rec fuel Hrec _ _ _ _ _ _ H Hok1)
      as (_ & St2 & _); auto.
    { intros v Hv. specialize (Hvr v Hv). lia. }
    assert (Hca1 : clones_apart s1).
    { eapply clones_apart_back; [apply St2 | | exact Hca].
      eapply detach_all_grow; eauto. }
    destruct (detach_names _ _ _ _ _ _ Hd Hinv Hval Hca1) as (Hinv1 & Ns1 & Hps).
    destruct (IH _ _ _ _ H Hinv1 Hval Hca Hck1) as (Hinv2 & Ns2 & Hch2).
    { apply Forall_app. split; auto. }
    refine (conj Hinv2 (conj _ Hch2)).
    eapply name_step_trans; eauto.
Qed.

Lemma extractCycleFromClosedWalk_names (component closedWalk : list nat)
      (s : VertexStore) (t : CycleTree) (s' : VertexStore) :
  extractCycleFromClosedWalk rec fuel closedWalk s = Returned (t, s') ->
  name_inv s component ->
  forall vStart mid,
    closedWalk = vStart :: mid ++ [vStart] ->
    ~ In vStart mid ->
    (forall v, In v closedWalk -> In v component) ->
    In (hd vStart mid) (adj s vStart) ->
    clones_apart s' ->
    name_inv s' component /\ name_step component s s' /\ simple_cycles t.
Proof.
  unfold extractCycleFromClosedWalk. intros H Hinv vStart mid Hw Hnin Hval Hadj Hca.
  subst closedWalk.
  apply mbind_returned in H. destruct H as ([walk' detachments] & s0 & Hs & H).
  apply lift_returned in Hs. destruct Hs as [Hs ->].
  eapply simplify_loop_spec with (vStart := vStart) (mid := mid) in Hs; auto.
  2:{ simpl. lia. }
  2:{ simpl. constructor. }
  2:{ intros v k. unfold dup_empty. split; [discriminate | intros [? _]; lia]. }
  destruct Hs as (mid' & -> & Hin & Hnd & Hhd).
  assert (Hval' : forall v, In v (vStart :: mid' ++ [vStart]) -> In v component).
  { intros v Hv. apply Hval. destruct Hv as [<- | Hv]; [left; auto |].
    right. apply in_app_or in Hv. apply in_or_app. destruct Hv; auto. }
  assert (Hn' : ~ In vStart mid') by (intro Hx; apply Hnin; auto).
  assert (Hvr : forall v, In v (vStart :: mid' ++ [vStart]) -> (v < length s)%nat).
  { intros v Hv. eapply name_inv_range; eauto. }
  destruct (3 <? length (vStart :: mid' ++ [vStart]))%nat eqn:Hlong.
  - (* a proper cycle *)
    apply Nat.ltb_lt in Hlong. minv.
    match goal with
    | Hd : detach_all _ _ _ _ _ _ = Returned (?ch, ?sa),
      He : extractCycle _ _ ?sa = Returned (?c, ?sb) |- _ =>
        pose proof (extractCycle_marks _ _ _ _ _ He) as Me;
        apply extractCycle_spec in He; destruct He as [-> U];
        assert (Hca1 : clones_apart sa)
          by (eapply clones_apart_back;
              [apply pruned_later; apply U | apply same_marks_grow; exact Me | exact Hca]);
        destruct (detach_all_spec (fun _ => True) rec fuel Hrec _ _ _ _ _ _ Hd
                    (name_inv_arena _ _ Hinv) Hvr (Forall_nil _)) as (_ & St1 & _);
        destruct (detach_all_names component _ _ _ _ _ _ Hd Hinv Hval' Hca1
                    (Forall_nil _) (Forall_nil _)) as (Hinv1 & Ns1 & Hch);
        destruct (unlinked_name_inv component _ _ U Me Hinv1) as (Hinv2 & Ns2)
    end.
    refine (conj Hinv2 (conj _ _)).
    + eapply name_step_trans; [apply St1 | exact Ns1 | exact Ns2].
    + apply simple_cycles_node; [| exact Hch].
      apply closed_walk_simple with (component := component); auto.
      * apply Hinv1.
      * intros v Hv. apply Hval'. destruct Hv as [<- | Hv]; [left; auto |].
        right. apply in_or_app. left. exact Hv.
  - (* a walk that goes to a record and back *)
    minv.
    match goal with
    | H0 : nth_error _ 0 = Some ?o, H1 : nth_error _ 1 = Some ?a |- _ =>
        simpl in H0; inversion H0; subst o;
        rewrite closed_walk_second in H1; inversion H1; subst a
    end.
    match goal with
    | Hf : reattach _ _ ?x _ = Returned (_, ?sa),
      Hd : depthFirstSearch _ _ _ ?sa = Returned (?comp, ?sb),
      Hr : rec ?comp ?sb = Returned (?child, ?sc) |- _ =>
        pose proof (reattach_marks _ _ _ _ _ _ Hf) as Mk;
        pose proof (reattach_moved vStart (length s) x [x] _ _ _
                      (or_introl eq_refl) Hf) as Mv;
        apply (reattach_spec vStart (length s) x [x]) in Hf; [| left; reflexivity];
        destruct (detached_names component vStart [x] s sa sb sc comp child)
          as (A & B & C); auto
    end.
    + apply Hval. left. reflexivity.
    + intros x [<- | []]. rewrite (hd_of_hd_error vStart mid' mid Hhd). exact Hadj.
    + refine (conj A (conj B _)).
      apply simple_cycles_unwrap. apply simple_cycles_node; [apply simple_cycle_nil |].
      constructor; auto.
Qed.

Lemma extractCycleFromComponent_names (component : list nat) (s : VertexStore)
      (t : CycleTree) (component' : list nat) (s' : VertexStore) :
  extractCycleFromComponent rec fuel component s = Returned ((t, component'), s') ->
  name_inv s component -> clones_apart s' ->
  name_inv s' component /\ name_step component s s' /\ simple_cycles t.
Proof.
  unfold extractCycleFromComponent. intros H Hinv Hca.
  destruct component as [| first others]; [discriminate |].
  minv.
  set (vStart := leftmost s (first :: others) first) in *.
  assert (Hvs : In vStart (first :: others)).
  { pose proof (leftmost_in s (first :: others) first) as L. fold vStart in L.
    destruct L as [<- | L]; auto. left. reflexivity. }
  pose proof Hinv as (Hok & Hr & Hcl & _).
  match goal with
  | Hl : closedWalk_loop _ _ _ _ _ _ = Returned (?w, ?sa) |- _ =>
      pose proof (closedWalk_loop_within (first :: others) _ _ _ _ _ _ _ _ Hl Hcl) as Hwi;
      apply closedWalk_loop_spec in Hl;
      destruct Hl as (-> & rest & -> & Hnin & Hv & (a & Ha & Hhd))
  end.
  pose proof (getClockwiseMost_adjacent s None vStart a Ha) as Hadj.
  match goal with
  | Hw : extractCycleFromClosedWalk _ _ _ _ = Returned _ |- _ =>
      eapply extractCycleFromClosedWalk_names with (vStart := vStart) (mid := rest) in Hw;
        eauto; [destruct Hw as (A & B & C) | |]
  end.
  - inversion H; subst. auto.
  - intros v Hv'. simpl in Hv'. destruct Hv' as [<- | Hv']; auto.
    apply in_app_or in Hv'. destruct Hv' as [Hv' | [<- | []]]; auto.
    apply Hwi.
    + intros b Hb. eapply Hcl; [exact Hvs |].
      eapply getClockwiseMost_adjacent. exact Hb.
    + intros x [<- | []]. exact Hvs.
    + right. exact Hv'.
  - rewrite Hhd. exact Hadj.
Qed.

Lemma extractBasis_loop_names (n : nat) :
  forall component children s children' s',
    extractBasis_loop rec fuel n component children s = Returned (children', s') ->
    name_inv s component -> clones_apart s' ->
    Forall (cycles_ok s) children -> Forall simple_cycles children ->
    name_step component s s' /\ Forall simple_cycles children'.
Proof.
  induction n as [| n IH]; intros component children s children' s' H Hinv Hca Hck Hch;
    cbn [extractBasis_loop] in H; [discriminate |].
  destruct (Nat.ltb_spec 0 (length component)) as [Hne | He].
  2:{ minv. split; [apply name_step_refl | exact Hch]. }
  apply mbind_returned in H. destruct H as (component1 & s1 & Hf & H).
  pose proof (removeFilaments_marks _ _ _ _ _ Hf) as Mf.
  apply removeFilaments_spec in Hf.
  destruct Hf as (U & Hincl & Hdrop & _).
  pose proof (name_inv_arena _ _ Hinv) as Hok.
  pose proof (name_inv_range _ _ Hinv) as Hval.
  pose proof (unlinked_arena_ok (fun _ => True) _ _ U Hok) as Hok1.
  pose proof (unlinked_step_ok _ _ U) as St1.
  assert (L1 : length s1 = length s) by (destruct U as [[L _] _]; exact L).
  assert (Hval1 : forall v, In v component1 -> (v < length s1)%nat).
  { intros v Hv. rewrite L1. auto. }
  assert (Hck1 : Forall (cycles_ok s1) children).
  { eapply Forall_cycles_ok_later; [apply St1 | exact Hck]. }
  destruct (unlinked_name_inv component _ _ U Mf Hinv) as (Hinv1 & Ns1).
  pose proof (name_inv_smaller component1 component s1 Hincl Hdrop Hinv1) as Hinv1'.
  destruct (0 <? length component1)%nat.
  - apply mbind_returned in H. destruct H as ([tree component2] & s2 & Hx & H).
    pose proof Hx as Hx'.
    apply (extractCycleFromComponent_spec (fun _ => True) rec fuel Hrec) in Hx'; auto.
    destruct Hx' as (Hok2 & St2 & Hcyc & ->).
    assert (L2 : (length s1 <= length s2)%nat) by (destruct St2 as ((L & _) & _); exact L).
    assert (Hval2 : forall v, In v (remaining s2 component1) -> (v < length s2)%nat).
    { intros v Hv. apply remaining_incl in Hv. specialize (Hval1 v Hv). lia. }
    assert (Hck2 : Forall (cycles_ok s2) (children ++ [tree])).
    { apply Forall_app. split.
      - eapply Forall_cycles_ok_later; [apply St2 | exact Hck1].
      - constructor; auto. }
    destruct (extractBasis_loop_spec (fun _ => True) rec fuel Hrec _ _ _ _ _ _ H
                Hok2 Hval2 Hck2) as (_ & St3 & _).
    assert (Hca2 : clones_apart s2).
    { eapply clones_apart_back; [apply St3 | | exact Hca].
      eapply extractBasis_loop_grow; eauto. }
    destruct (extractCycleFromComponent_names _ _ _ _ _ Hx Hinv1' Hca2)
      as (Hinv2 & Ns2 & Hsim).
    assert (Hinv2' : name_inv s2 (remaining s2 component1)).
    { apply (name_inv_smaller _ component1); [apply remaining_incl | | exact Hinv2].
      intros x Hx1 Hx2. eapply remaining_spec; eauto. }
    destruct (IH _ _ _ _ _ H Hinv2' Hca Hck2) as (Ns3 & Hch3).
    { apply Forall_app. split; auto. }
    split; [| exact Hch3].
    apply (name_step_trans component s s1 s'); [lia | exact Ns1 |].
    apply (name_step_trans component s1 s2 s'); [exact L2 | |].
    + eapply name_step_weaken; [exact Hincl | exact Ns2].
    + eapply name_step_weaken; [| exact Ns3].
      intros x Hx0. apply Hincl. eapply remaining_incl. exact Hx0.
  - destruct (IH _ _ _ _ _ H Hinv1' Hca Hck1 Hch) as (Ns3 & Hch3).
    split; [| exact Hch3].
    apply (name_step_trans component s s1 s'); [lia | exact Ns1 |].
    eapply name_step_weaken; [exact Hincl | exact Ns3].
Qed.

End WithNameRecursion.

(** [extractBasis] honours the contract on names, whatever the step
    budget. *)
Lemma extractBasis_names (fuel : nat) : name_contract (extractBasis fuel).
Proof.
  induction fuel as [| fuel IH]; intros component s t s' H Hinv Hca;
    cbn [extractBasis] in H; [discriminate |].
  minv.
  match goal with
  | Hl : extractBasis_loop _ _ _ _ _ _ = Returned _ |- _ =>
      destruct (extractBasis_loop_names (extractBasis fuel) fuel
                  (extractBasis_contract (fun _ => True) fuel)
                  (extractBasis_grow fuel) IH _ _ _ _ _ _ Hl Hinv Hca
                  (Forall_nil _) (Forall_nil _)) as (Ns & Hch)
  end.
  split; [| exact Ns].
  apply simple_cycles_unwrap. apply simple_cycles_node; [apply simple_cycle_nil | exact Hch].
Qed.

End NameFacts.

(* ================================================================== *)
(** * Names of the cycles of the forest *)
(* ================================================================== *)

Section ForestNames.

Context {N : Num}.

Lemma NoDup_app_apart {A} (l1 l2 : list A) (x : A) :
  NoDup (l1 ++ l2) -> In x l1 -> In x l2 -> False.
Proof.
  induction l1 as [| a l1 IH]; intros ND H1 H2; [destruct H1 |].
  cbn [app] in ND. inversion ND as [| ? ? Hn ND']; subst.
  destruct H1 as [-> | H1]; [| eauto].
  apply Hn. apply in_or_app. right. exact H2.
Qed.

Lemma NoDup_app_right {A} (l1 l2 : list A) : NoDup (l1 ++ l2) -> NoDup l2.
Proof.
  induction l1 as [| a l1 IH]; intro ND; [exact ND |].
  cbn [app] in ND. inversion ND; subst. auto.
Qed.

Lemma extract_all_names (fuel : nat) :
  forall components forest s forest' s',
    extract_all fuel components forest s = Returned (forest', s') ->
    NoDup (concat components) ->
    arena_ok (fun _ => True) s ->
    (forall c, In c components -> name_inv s c) ->
    clones_apart s' ->
    Forall (cycles_ok s) forest ->
    Forall simple_cycles forest ->
    Forall simple_cycles forest'.
Proof.
  induction components as [| c rest IH];
    intros forest s forest' s' H ND Hok Hinv Hca Hck Hf; cbn [extract_all] in H.
  - minv. exact Hf.
  - apply mbind_returned in H. destruct H as (t & s1 & Hb & H).
    pose proof (Hinv c (or_introl eq_refl)) as Hc.
    destruct (extractBasis_contract (fun _ => True) fuel c s t s1 Hok
                (name_inv_range _ _ Hc) Hb) as (Hok1 & St1 & He1 & Hc1).
    assert (L : (length s <= length s1)%nat) by (destruct St1 as ((L & _) & _); exact L).
    assert (Hck1 : Forall (cycles_ok s1) (forest ++ [t])).
    { apply Forall_app. split.
      - eapply Forall_cycles_ok_later; [apply St1 | exact Hck].
      - constructor; auto. }
    assert (Hval1 : forall c' x, In c' rest -> In x c' -> (x < length s1)%nat).
    { intros c' x Hc' Hx.
      pose proof (name_inv_range _ _ (Hinv c' (or_intror Hc')) x Hx). lia. }
    destruct (extract_all_spec (fun _ => True) fuel _ _ _ _ _ H Hok1 Hval1 Hck1)
      as (_ & St2 & _).
    assert (Hca1 : clones_apart s1).
    { eapply clones_apart_back; [apply St2 | eapply extract_all_grow; eauto | exact Hca]. }
    destruct (extractBasis_names fuel c s t s1 Hb Hc Hca1) as (Hsim & Ok & _).
    cbn [concat] in ND.
    apply IH in H; auto.
    + eapply NoDup_app_right; eauto.
    + intros c' Hc'.
      pose proof (Hinv c' (or_intror Hc')) as (_ & Hr' & Hcl' & Hna' & Hmode').
      assert (Hout : forall x, In x c' -> ~ In x c).
      { intros x Hx Hxc. apply (NoDup_app_apart _ _ x ND Hxc).
        apply in_concat. exists c'. auto. }
      refine (conj Hok1 (conj _ (conj _ (conj _ _)))).
      * intros i Hi. specialize (Hr' i Hi). lia.
      * intros x y Hx Hy. destruct (Ok x (Hr' x Hx) (Hout x Hx)) as [I _].
        eapply Hcl'; eauto.
      * intros x y Hx Hy E. apply Hna'; auto.
        destruct St1 as ((_ & F) & _).
        destruct (F x (Hr' x Hx)) as [Ex _]. destruct (F y (Hr' y Hy)) as [Ey _].
        congruence.
      * destruct Hmode' as [Hvi | Hav]; [left | right]; intros i Hi;
          destruct (Ok i (Hr' i Hi) (Hout i Hi)) as [_ V].
        -- intro Hv. rewrite V in Hv. destruct St1 as (_ & Is & _). apply Is; auto.
        -- rewrite V. auto.
    + apply Forall_app. split; auto.
Qed.

(** When [discover] on a fresh instance has returned and no record of
    which a clone exists is visited, every cycle of the forest is simple. *)
Lemma discover_simple (fuel : nat) (positions : InputNodes) (links : InputEdges)
      (forest : CycleTreeForest) (s' : VertexStore) :
  discover fuel positions links [] = Returned (RESULT forest, s') ->
  clones_apart s' ->
  forall c, In c (forest_cycles forest) -> simple_cycle c.
Proof.
  intros H Hca c Hc. pose proof (discover_result_validated _ _ _ _ _ _ H) as V.
  apply discover_phases in H; [| exact V].
  destruct H as (u1 & s1 & u2 & s2 & components & s3 & u4 & s4 & forest' &
                 H1 & H2 & H3 & H4 & H5 & Hr).
  inversion Hr; subst forest; clear Hr.
  assert (Hi0 : forall i, adj (@nil Vertex) i = []).
  { intro i. unfold adj. now rewrite deref_out_of_range by (simpl; lia). }
  assert (Hn0 : names_satisfy (fun _ => True) (@nil Vertex)) by (intros i _; exact I).
  destruct (graph_built (fun _ => True) positions links [] u1 s1 u2 s2 Hn0 Hi0)
    as (Hok2 & _ & _ & Hnew); auto.
  pose proof (build_vertices_names positions _ _ _ _ H1) as Nm1.
  pose proof (build_vertices_spec (fun _ => True) positions _ _ _ _ H1) as (L1 & _).
  apply link_edges_spec in H2; [| simpl in *; lia].
  destruct H2 as (L2 & F2 & _).
  apply find_components_returned in H3.
  2:{ apply Hok2. }
  2:{ apply Hok2. }
  2:{ refine (conj (NoDup_nil _) (conj _ (conj _ (conj _ _)))).
      - intros x [].
      - intros x Hx. rewrite (Hnew x) by (simpl; lia). cbn [concat].
        split; [congruence | intros []].
      - intros c0 x y [].
      - intros c0 []. }
  2:{ intros v Hv. apply in_seq in Hv. lia. }
  destruct H3 as (G3 & ND & R3 & _ & Cl3 & _).
  pose proof (reset_marks _ _ _ _ H4) as Hz.
  apply reset_visited_spec in H4.
  pose proof (same_graph_trans _ _ _ G3 H4) as G4.
  pose proof (unlinked_arena_ok (fun _ => True) _ _ (same_graph_unlinked _ _ G4) Hok2)
    as Hok4.
  assert (L3 : length s3 = length s2) by apply G3.
  assert (L4 : length s4 = length s3) by apply H4.
  simpl in L1.
  assert (Nm4 : forall k, (k < length s4)%nat ->
                          name (deref s4 k) = nth k (unique_names links []) 0%Z).
  { intros k Hk. destruct G4 as (_ & G4). destruct (G4 k) as (_ & -> & _).
    destruct (F2 k) as (-> & _). apply (Nm1 k). lia. }
  assert (Hinv : forall c0, In c0 components -> name_inv s4 c0).
  { intros c0 Hc0.
    assert (Hr0 : forall i, In i c0 -> (i < length s4)%nat).
    { intros i Hi. rewrite L4. apply R3. apply in_concat. exists c0. auto. }
    refine (conj Hok4 (conj Hr0 (conj _ (conj _ _)))).
    - intros x y Hx Hy. destruct H4 as (_ & A4). destruct (A4 x) as (A & _).
      rewrite A in Hy. eapply Cl3; eauto.
    - intros x y Hx Hy E. rewrite !Nm4 in E by auto.
      revert E. apply NoDup_nth.
      + apply unique_names_NoDup. constructor.
      + specialize (Hr0 x Hx). lia.
      + specialize (Hr0 y Hy). lia.
    - left. intros i Hi Hv. exfalso. apply Hv. apply Hz. left. apply in_seq.
      specialize (Hr0 i Hi). lia. }
  pose proof (extract_all_names fuel _ _ _ _ _ H5 ND Hok4 Hinv Hca
                (Forall_nil _) (Forall_nil _)) as Hall.
  unfold forest_cycles in Hc. apply in_flat_map in Hc. destruct Hc as (t & Ht & Hct).
  apply filter_In in Ht. destruct Ht as [Ht _].
  rewrite Forall_forall in Hall. exact (Hall t Ht c Hct).
Qed.

End ForestNames.

(* ================================================================== *)
(** * The cycles of the forest and the names they repeat *)
(* ================================================================== *)

(** A call that created no clone leaves no two records with the same
    name. *)
Lemma no_clone_apart {N : Num} (fuel : nat) (positions : InputNodes)
      (links : InputEdges) (forest : CycleTreeForest) (s' : VertexStore) :
  discover fuel positions links [] = Returned (RESULT forest, s') ->
  length s' = length (unique_names links []) ->
  clones_apart s'.
Proof.
  intros H Hl i j Hij E. exfalso.
  destruct (discover_fresh_names _ _ _ _ _ H) as (_ & Hnm).
  rewrite (Hnm i), (Hnm j) in E by lia.
  assert (Hx : i = j).
  { revert E. apply NoDup_nth; [| lia | lia].
    apply unique_names_NoDup. constructor. }
  lia.
Qed.


